(** * CLAWEE: decision pipeline and attestation core

    A shallow embedding of the gate engines (policy engine, capability gate),
    the approval service, the budget controller, the canonical serializer and
    the approval attestation service, with the properties the specification
    states about them.

    Conventions of the embedding.
    - JavaScript strings are modelled by [string] (sequences of 8-bit
      characters); [toLowerCase] and [trim] are the ASCII restrictions of the
      JavaScript methods.
    - A value of type [unknown] is a JSON-representable value or
      [undefined]; its numbers are the integers. The numbers a caller passes
      to the approval service are NaN, the infinities or a rational; the
      amounts of the budget controller are binary64 values.
    - A [Set<string>] is a duplicate-free list in insertion order, which is
      also its iteration order. A plain object is the list of its own
      properties in enumeration order.
    - A SQLite table is the list of its rows in rowid order. Timestamps
      are the ISO-8601 UTC texts the services store, and are compared as
      SQLite compares text, byte by byte; [toISOString] is implemented after
      ECMA-262, and the order of its texts is related to the order of the
      instants in [JsDateFacts].
    - The readings of the clock and the random ids are arguments of the
      functions that take them: a time value where the function computes
      with it, its ISO text where it only stores or compares it. A function
      that can throw returns a [result] or an [option].
    - SHA-256 and HMAC-SHA256 are implemented after FIPS 180-4 and RFC 2104
      and checked on the standard test vectors. *)

From Stdlib Require Import ZArith QArith Qround Lqa Ascii String List Bool Lia SpecFloat.
From stdpp Require Import base option list sorting strings gmap.

Set Warnings "-register-all".

(** ** JavaScript string primitives *)

Module JsString.

Definition is_upper (c : ascii) : bool :=
  let n := nat_of_ascii c in (65 <=? n)%nat && (n <=? 90)%nat.

Definition lower_char (c : ascii) : ascii :=
  if is_upper c then ascii_of_nat (nat_of_ascii c + 32) else c.

(** [String.prototype.toLowerCase], ASCII range. *)
Fixpoint toLowerCase (s : string) : string :=
  match s with
  | EmptyString => EmptyString
  | String c s' => String (lower_char c) (toLowerCase s')
  end.

(** White space and line terminators of the ASCII range: TAB, LF, VT, FF, CR
    and SPACE. *)
Definition is_space (c : ascii) : bool :=
  let n := nat_of_ascii c in ((9 <=? n)%nat && (n <=? 13)%nat) || (n =? 32)%nat.

Fixpoint trimStart (s : string) : string :=
  match s with
  | EmptyString => EmptyString
  | String c s' => if is_space c then trimStart s' else s
  end.

Fixpoint trimEnd (s : string) : string :=
  match s with
  | EmptyString => EmptyString
  | String c s' =>
      match trimEnd s' with
      | EmptyString => if is_space c then EmptyString else String c EmptyString
      | t => String c t
      end
  end.

(** [String.prototype.trim]. *)
Definition trim (s : string) : string := trimEnd (trimStart s).

(** [s.startsWith(p)]. *)
Definition startsWith (s p : string) : bool := String.prefix p s.

(** [s.includes(p)]: [p] occurs in [s] at some position. *)
Fixpoint includes (s p : string) : bool :=
  String.prefix p s ||
  match s with
  | EmptyString => false
  | String _ s' => includes s' p
  end.

(** Truthiness of a string: [Boolean(s)]. *)
Definition truthy (s : string) : bool :=
  match s with EmptyString => false | _ => true end.

(** [parts.join(sep)] on an array of strings. *)
Fixpoint join (sep : string) (parts : list string) : string :=
  match parts with
  | [] => ""
  | [p] => p
  | p :: rest => p +:+ sep +:+ join sep rest
  end.

(** [new Set(values)] followed by iteration: first occurrences, in order. *)
Fixpoint set_add (x : string) (seen : list string) : list string :=
  match seen with
  | [] => [x]
  | y :: seen' => if String.eqb x y then seen else y :: set_add x seen'
  end.

Definition set_of_list (values : list string) : list string :=
  fold_left (fun seen x => set_add x seen) values [].

Definition set_has (s : list string) (x : string) : bool :=
  existsb (String.eqb x) s.

(** [array.sort()] on strings: ascending by character codes. Equal strings
    are identical, so every sorting algorithm computes this function. *)
Fixpoint insert_sorted (x : string) (l : list string) : list string :=
  match l with
  | [] => [x]
  | y :: l' => if String.leb x y then x :: l else y :: insert_sorted x l'
  end.

Definition sort (l : list string) : list string := fold_right insert_sorted [] l.

End JsString.

Import JsString.

(** ** JavaScript values and [JSON.stringify] *)

Module Js.

(** The values the gates see as [unknown]: the JSON-representable values and
    [undefined].  Numbers are the integer-valued ones. Objects list their own
    enumerable properties in enumeration order, keys distinct. *)
Inductive value : Type :=
| JUndefined
| JNull
| JBool (b : bool)
| JNum (n : Z)
| JStr (s : string)
| JArr (items : list value)
| JObj (fields : list (string * value)).

Definition digit_char (d : Z) : ascii := ascii_of_nat (48 + Z.to_nat d).

(** Decimal digits of a non-negative integer, most significant first. *)
Fixpoint digits_fuel (fuel : nat) (n : Z) (acc : string) : string :=
  match fuel with
  | O => acc
  | S fuel' =>
      let acc' := String (digit_char (n mod 10)) acc in
      if (n <? 10)%Z then acc' else digits_fuel fuel' (n / 10)%Z acc'
  end.

Definition nat_digits (n : Z) : string := digits_fuel (S (Z.to_nat (Z.log2 n))) n "".

(** [String(n)] for an integer [n]. *)
Definition number_to_string (n : Z) : string :=
  if (n <? 0)%Z then String "-" (nat_digits (- n)) else nat_digits n.

Definition dquote : ascii := ascii_of_nat 34.
Definition backslash : ascii := ascii_of_nat 92.

Definition hex_digit (d : nat) : ascii :=
  if (d <? 10)%nat then ascii_of_nat (48 + d) else ascii_of_nat (87 + d).

(** [QuoteJSONString] on one character: the two-character escapes, [\u00XX]
    for the other control characters, the character itself otherwise. *)
Definition quote_char (c : ascii) : string :=
  let n := nat_of_ascii c in
  if (n =? 34)%nat then String backslash (String dquote EmptyString)
  else if (n =? 92)%nat then String backslash (String backslash EmptyString)
  else if (n =? 8)%nat then String backslash "b"
  else if (n =? 12)%nat then String backslash "f"
  else if (n =? 10)%nat then String backslash "n"
  else if (n =? 13)%nat then String backslash "r"
  else if (n =? 9)%nat then String backslash "t"
  else if (n <? 32)%nat then
    String backslash (String "u" (String "0" (String "0"
      (String (hex_digit (n / 16)) (String (hex_digit (n mod 16)) EmptyString)))))
  else String c EmptyString.

Fixpoint quote_body (s : string) : string :=
  match s with
  | EmptyString => EmptyString
  | String c s' => quote_char c +:+ quote_body s'
  end.

(** [JSON.stringify(s)] for a string [s]. *)
Definition quote (s : string) : string :=
  String dquote (quote_body s +:+ String dquote EmptyString).

(** [JSON.stringify(v)]; [None] is the result [undefined]. An [undefined]
    array element is written [null], an [undefined] property is left out. *)
Fixpoint JSON_stringify (v : value) : option string :=
  match v with
  | JUndefined => None
  | JNull => Some "null"
  | JBool true => Some "true"
  | JBool false => Some "false"
  | JNum n => Some (number_to_string n)
  | JStr s => Some (quote s)
  | JArr items =>
      Some ("[" +:+ join ","
              (map (fun item => default "null" (JSON_stringify item)) items) +:+ "]")
  | JObj fields =>
      Some ("{" +:+ join ","
              (omap (fun kv => match JSON_stringify (snd kv) with
                               | Some t => Some (quote (fst kv) +:+ ":" +:+ t)
                               | None => None
                               end) fields) +:+ "}")
  end.

(** [Boolean(v)] *)
Definition js_truthy (v : value) : bool :=
  match v with
  | JUndefined | JNull | JBool false => false
  | JNum n => negb (n =? 0)%Z
  | JStr s => truthy s
  | _ => true
  end.

(** [String(v)]; an array is its elements joined by commas, [null] and
    [undefined] elements giving the empty string. *)
Fixpoint to_string (v : value) : string :=
  match v with
  | JUndefined => "undefined"
  | JNull => "null"
  | JBool true => "true"
  | JBool false => "false"
  | JNum n => number_to_string n
  | JStr s => s
  | JArr items =>
      join "," (map (fun item => match item with
                                 | JUndefined | JNull => ""
                                 | _ => to_string item
                                 end) items)
  | JObj _ => "[object Object]"
  end.

(** [String(v || "")] *)
Definition string_or_empty (v : value) : string :=
  if js_truthy v then to_string v else "".

(** [JSON.parse(JSON.stringify(v))]: [None] when [JSON.stringify] gives
    [undefined], on which [JSON.parse] throws. *)
Fixpoint reparse (v : value) : option value :=
  match v with
  | JUndefined => None
  | JArr items => Some (JArr (map (fun item => default JNull (reparse item)) items))
  | JObj fields =>
      Some (JObj (omap (fun kv => match reparse (snd kv) with
                                  | Some x => Some (fst kv, x)
                                  | None => None
                                  end) fields))
  | other => Some other
  end.

End Js.

Example stringify_omits_undefined :
  Js.JSON_stringify (Js.JObj [("a", Js.JNum 1); ("b", Js.JUndefined); ("c", Js.JArr [Js.JUndefined; Js.JStr "x"])])
  = Some (String "{" (String Js.dquote ("a" +:+ String Js.dquote (":1," +:+ String Js.dquote ("c" +:+ String Js.dquote
       (":[null," +:+ String Js.dquote ("x" +:+ String Js.dquote "]}"))))))).
Proof. reflexivity. Qed.

Example number_to_string_samples :
  map Js.number_to_string [0; 7; 10; 100; -42; 1234567890123]%Z
  = ["0"; "7"; "10"; "100"; "-42"; "1234567890123"].
Proof. reflexivity. Qed.

(** ** Policy engine ([PolicyEngine.evaluate]) *)

Module Policy.

Inductive ModelModality := Text | Vision | Audio | Safety | Embedding.

Definition modality_name (m : ModelModality) : string :=
  match m with
  | Text => "text" | Vision => "vision" | Audio => "audio"
  | Safety => "safety" | Embedding => "embedding"
  end.

Record ToolIntent := { hasToolIntent : bool; toolNames : list string }.

Record PolicyInput := {
  path : string;
  method : string;
  body : Js.value;
  model : string;
  modality : ModelModality;
  intent : ToolIntent
}.

Inductive PolicyDecisionType := Allow | RequireApproval | Block.
Inductive RiskClass := Low | Medium | High | Critical.

Record PolicyDecision := {
  decision : PolicyDecisionType;
  reason : string;
  riskClass : RiskClass;
  matchedSignals : list string
}.

Record PolicyEngineOptions := {
  opt_highRiskTools : option (list string);
  opt_criticalPatterns : option (list string);
  opt_highRiskPatterns : option (list string)
}.

Definition DEFAULT_HIGH_RISK_TOOLS : list string :=
  ["execute_bash"; "shell"; "terminal"; "write_file"; "delete_file";
   "execute_sql"; "run_sql"; "database_query"; "browser_control"].

Definition DEFAULT_CRITICAL_PATTERNS : list string :=
  ["drop table"; "truncate table"; "rm -rf"; "delete from"; "format c:";
   "powershell -encodedcommand"].

Definition DEFAULT_HIGH_RISK_PATTERNS : list string :=
  ["prod"; "production"; "secret"; "token"; "password"; "api key";
   "exfiltrate"; "export data"].

(** [new Set(values.map(v => v.trim().toLowerCase()).filter(Boolean))] *)
Definition normalize (values : list string) : list string :=
  set_of_list (filter (fun v => truthy v = true) (map (fun v => toLowerCase (trim v)) values)).

(** [JSON.stringify(payload).toLowerCase()], and the empty text when that
    throws: [JSON.stringify(undefined)] is [undefined], which has no
    [toLowerCase]. *)
Definition toText (payload : Js.value) : string :=
  match Js.JSON_stringify payload with
  | Some text => toLowerCase text
  | None => ""
  end.

(** The engine's three rule tables. *)
Record PolicyEngine := {
  highRiskTools : list string;
  criticalPatterns : list string;
  highRiskPatterns : list string
}.

Definition updateRules (options : PolicyEngineOptions) : PolicyEngine :=
  {| highRiskTools := normalize (default DEFAULT_HIGH_RISK_TOOLS (opt_highRiskTools options));
     criticalPatterns := normalize (default DEFAULT_CRITICAL_PATTERNS (opt_criticalPatterns options));
     highRiskPatterns := normalize (default DEFAULT_HIGH_RISK_PATTERNS (opt_highRiskPatterns options)) |}.

(** The four loops and tests of [evaluate] that push signals, in order. *)
Definition tool_signals (e : PolicyEngine) (names : list string) : list string :=
  flat_map (fun name =>
    let normalized := toLowerCase name in
    if set_has (highRiskTools e) normalized
    then ["high-risk-tool:" +:+ normalized] else []) names.

Definition critical_signals (e : PolicyEngine) (bodyText : string) : list string :=
  flat_map (fun pattern =>
    if includes bodyText pattern then ["critical-pattern:" +:+ pattern] else [])
    (criticalPatterns e).

Definition pattern_signals (e : PolicyEngine) (bodyText : string) : list string :=
  flat_map (fun pattern =>
    if includes bodyText pattern then ["high-risk-pattern:" +:+ pattern] else [])
    (highRiskPatterns e).

Definition path_signals (lowerPath lowerMethod : string) : list string :=
  if (includes lowerPath "admin" || includes lowerPath "system")
     && negb (String.eqb lowerMethod "get")
  then ["high-risk-path:admin-system"] else [].

Definition modality_signals (m : ModelModality) : list string :=
  match m with
  | Audio | Vision => ["modality:" +:+ modality_name m]
  | _ => []
  end.

Definition collect_signals (e : PolicyEngine) (input : PolicyInput) : list string :=
  let bodyText := toText (body input) in
  let lowerPath := toLowerCase (path input) in
  let lowerMethod := toLowerCase (method input) in
  tool_signals e (toolNames (intent input))
  ++ critical_signals e bodyText
  ++ pattern_signals e bodyText
  ++ path_signals lowerPath lowerMethod
  ++ modality_signals (modality input).

Definition evaluate (e : PolicyEngine) (input : PolicyInput) : PolicyDecision :=
  let signals := collect_signals e input in
  let hasCritical := existsb (fun signal => startsWith signal "critical-pattern") signals in
  let hasHighRisk := existsb (fun signal => startsWith signal "high-risk") signals in
  if hasCritical then
    {| decision := Block;
       reason := "Critical destructive pattern detected.";
       riskClass := Critical;
       matchedSignals := signals |}
  else if hasHighRisk then
    {| decision := RequireApproval;
       reason := "High-risk action requires approval.";
       riskClass := High;
       matchedSignals := signals |}
  else
    {| decision := Allow;
       reason := "No high-risk policy signals detected.";
       riskClass := Low;
       matchedSignals := signals |}.

(** The tie-break rule in the specification's words: what the body text,
    the tool names and the path say, without reference to the signal list. *)
Definition body_has_critical (e : PolicyEngine) (input : PolicyInput) : bool :=
  existsb (includes (toText (body input))) (criticalPatterns e).

Definition high_risk_matched (e : PolicyEngine) (input : PolicyInput) : bool :=
  existsb (fun name => set_has (highRiskTools e) (toLowerCase name)) (toolNames (intent input))
  || existsb (includes (toText (body input))) (highRiskPatterns e)
  || ((includes (toLowerCase (path input)) "admin" || includes (toLowerCase (path input)) "system")
      && negb (String.eqb (toLowerCase (method input)) "get")).

Definition tie_break (e : PolicyEngine) (input : PolicyInput) : PolicyDecisionType * RiskClass :=
  if body_has_critical e input then (Block, Critical)
  else if high_risk_matched e input then (RequireApproval, High)
  else (Allow, Low).

Definition default_engine : PolicyEngine :=
  updateRules {| opt_highRiskTools := None; opt_criticalPatterns := None; opt_highRiskPatterns := None |}.

End Policy.

Module PolicyFacts.
Import Policy.

(** What the specification calls a matched signal of an input. *)
Inductive matched (e : PolicyEngine) (input : PolicyInput) : string -> Prop :=
| matched_tool name :
    In name (toolNames (intent input)) ->
    set_has (highRiskTools e) (toLowerCase name) = true ->
    matched e input ("high-risk-tool:" +:+ toLowerCase name)
| matched_critical pattern :
    In pattern (criticalPatterns e) ->
    includes (toText (body input)) pattern = true ->
    matched e input ("critical-pattern:" +:+ pattern)
| matched_pattern pattern :
    In pattern (highRiskPatterns e) ->
    includes (toText (body input)) pattern = true ->
    matched e input ("high-risk-pattern:" +:+ pattern)
| matched_path :
    (includes (toLowerCase (path input)) "admin" = true
     \/ includes (toLowerCase (path input)) "system" = true) ->
    toLowerCase (method input) <> "get" ->
    matched e input "high-risk-path:admin-system"
| matched_modality :
    modality input = Audio \/ modality input = Vision ->
    matched e input ("modality:" +:+ modality_name (modality input)).

Lemma existsb_flat_map {A B} (p : B -> bool) (f : A -> list B) (l : list A) :
  existsb p (flat_map f l) = existsb (fun x => existsb p (f x)) l.
Proof.
  induction l as [|x l IH]; simpl; [reflexivity|].
  now rewrite existsb_app, IH.
Qed.

Lemma existsb_ext_in {A} (p q : A -> bool) (l : list A) :
  (forall x, In x l -> p x = q x) -> existsb p l = existsb q l.
Proof.
  induction l as [|x l IH]; simpl; intros H; [reflexivity|].
  rewrite H by now left. f_equal. apply IH. intros; apply H; now right.
Qed.

Lemma existsb_const_false {A} (p : A -> bool) (l : list A) :
  (forall x, In x l -> p x = false) -> existsb p l = false.
Proof.
  induction l as [|x l IH]; simpl; intros H; [reflexivity|].
  rewrite H by now left. apply IH. intros; apply H; now right.
Qed.

Section Signals.
Variables (e : PolicyEngine) (input : PolicyInput).

Let critical (signal : string) := startsWith signal "critical-pattern".
Let high (signal : string) := startsWith signal "high-risk".

Lemma tool_signals_critical names : existsb critical (tool_signals e names) = false.
Proof.
  unfold tool_signals. rewrite existsb_flat_map. apply existsb_const_false.
  intros name _. now destruct (set_has _ _).
Qed.

Lemma tool_signals_high names :
  existsb high (tool_signals e names)
  = existsb (fun name => set_has (highRiskTools e) (toLowerCase name)) names.
Proof.
  unfold tool_signals. rewrite existsb_flat_map. apply existsb_ext_in.
  intros name _. now destruct (set_has _ _).
Qed.

Lemma critical_signals_critical text :
  existsb critical (critical_signals e text) = existsb (includes text) (criticalPatterns e).
Proof.
  unfold critical_signals. rewrite existsb_flat_map. apply existsb_ext_in.
  intros p _. now destruct (includes text p).
Qed.

Lemma critical_signals_high text : existsb high (critical_signals e text) = false.
Proof.
  unfold critical_signals. rewrite existsb_flat_map. apply existsb_const_false.
  intros p _. now destruct (includes text p).
Qed.

Lemma pattern_signals_critical text : existsb critical (pattern_signals e text) = false.
Proof.
  unfold pattern_signals. rewrite existsb_flat_map. apply existsb_const_false.
  intros p _. now destruct (includes text p).
Qed.

Lemma pattern_signals_high text :
  existsb high (pattern_signals e text) = existsb (includes text) (highRiskPatterns e).
Proof.
  unfold pattern_signals. rewrite existsb_flat_map. apply existsb_ext_in.
  intros p _. now destruct (includes text p).
Qed.

Lemma path_signals_critical p m : existsb critical (path_signals p m) = false.
Proof. unfold path_signals. now destruct (_ && _). Qed.

Lemma path_signals_high p m :
  existsb high (path_signals p m)
  = (includes p "admin" || includes p "system") && negb (String.eqb m "get").
Proof. unfold path_signals. now destruct (_ && _). Qed.

Lemma modality_signals_neither m :
  existsb critical (modality_signals m) = false /\ existsb high (modality_signals m) = false.
Proof. now destruct m. Qed.

Lemma hasCritical_spec :
  existsb critical (collect_signals e input) = body_has_critical e input.
Proof.
  unfold collect_signals, body_has_critical. rewrite !existsb_app.
  rewrite tool_signals_critical, critical_signals_critical, pattern_signals_critical,
    path_signals_critical, (proj1 (modality_signals_neither _)).
  now rewrite !orb_false_r.
Qed.

Lemma hasHighRisk_spec :
  existsb high (collect_signals e input) = high_risk_matched e input.
Proof.
  unfold collect_signals, high_risk_matched. rewrite !existsb_app.
  rewrite tool_signals_high, critical_signals_high, pattern_signals_high,
    path_signals_high, (proj2 (modality_signals_neither _)).
  simpl. now rewrite !orb_false_r, orb_assoc.
Qed.

Lemma collect_signals_matched s : In s (collect_signals e input) <-> matched e input s.
Proof.
  unfold collect_signals. rewrite !in_app_iff. split.
  - intros [H|[H|[H|[H|H]]]].
    + unfold tool_signals in H. apply in_flat_map in H as (name & Hin & H).
      destruct (set_has _ _) eqn:Hs; [|contradiction].
      destruct H as [<-|[]]. now constructor.
    + unfold critical_signals in H. apply in_flat_map in H as (p & Hin & H).
      destruct (includes _ p) eqn:Hs; [|contradiction].
      destruct H as [<-|[]]. now constructor.
    + unfold pattern_signals in H. apply in_flat_map in H as (p & Hin & H).
      destruct (includes _ p) eqn:Hs; [|contradiction].
      destruct H as [<-|[]]. now constructor.
    + unfold path_signals in H.
      destruct (_ && _) eqn:Hc; [|contradiction].
      destruct H as [<-|[]]. apply andb_true_iff in Hc as [Hp Hm].
      apply orb_true_iff in Hp. apply negb_true_iff, String.eqb_neq in Hm.
      now constructor.
    + destruct (modality input) eqn:Hm; simpl in H; try contradiction;
        destruct H as [<-|[]];
        [ replace "vision" with (modality_name (modality input)) by now rewrite Hm
        | replace "audio" with (modality_name (modality input)) by now rewrite Hm ];
        constructor; rewrite Hm; auto.
  - intros [name Hin Hs|p Hin Hs|p Hin Hs|Hp Hm|Hm].
    + left. unfold tool_signals. apply in_flat_map. exists name. split; [assumption|].
      rewrite Hs. now left.
    + right; left. unfold critical_signals. apply in_flat_map. exists p.
      split; [assumption|]. rewrite Hs. now left.
    + right; right; left. unfold pattern_signals. apply in_flat_map. exists p.
      split; [assumption|]. rewrite Hs. now left.
    + right; right; right; left. unfold path_signals.
      apply orb_true_iff in Hp. rewrite Hp.
      apply String.eqb_neq in Hm. rewrite Hm. now left.
    + right; right; right; right. destruct Hm as [-> | ->]; now left.
Qed.

End Signals.

(** C1. For every engine and input: a critical pattern occurring in the
    lowercased JSON text of the body gives [Block] at [Critical]; otherwise
    a high-risk tool name, a high-risk pattern in the body or an admin/system
    path with a method other than GET gives [RequireApproval] at [High];
    otherwise [Allow] at [Low]. In every case [matchedSignals] holds exactly
    the matched signals. *)
Theorem evaluate_tie_break (e : PolicyEngine) (input : PolicyInput) :
  (decision (evaluate e input), riskClass (evaluate e input)) = tie_break e input
  /\ forall s, In s (matchedSignals (evaluate e input)) <-> matched e input s.
Proof.
  unfold evaluate, tie_break.
  rewrite (hasCritical_spec e input), (hasHighRisk_spec e input).
  destruct (body_has_critical e input); [|destruct (high_risk_matched e input)];
    simpl; (split; [reflexivity | apply collect_signals_matched]).
Qed.

Definition sample_input (b : Js.value) : PolicyInput :=
  {| path := "/v1/responses"; method := "POST"; body := b; model := "gpt";
     modality := Text; intent := {| hasToolIntent := false; toolNames := [] |} |}.

(** Scenario "policy tie-break" of the specification. *)
Example tie_break_drop_table :
  let d := evaluate default_engine
             (sample_input (Js.JObj [("input", Js.JStr "please DROP TABLE users")])) in
  decision d = Block /\ riskClass d = Critical
  /\ matchedSignals d = ["critical-pattern:drop table"].
Proof. vm_compute. auto. Qed.

Example tie_break_production :
  let d := evaluate default_engine
             (sample_input (Js.JObj [("input", Js.JStr "deploy to production")])) in
  decision d = RequireApproval /\ riskClass d = High
  /\ matchedSignals d = ["high-risk-pattern:prod"; "high-risk-pattern:production"].
Proof. vm_compute. auto. Qed.

Example tie_break_undefined_body :
  let d := evaluate default_engine (sample_input Js.JUndefined) in
  decision d = Allow /\ riskClass d = Low /\ matchedSignals d = [].
Proof. vm_compute. auto. Qed.

End PolicyFacts.

(** ** Capability gate ([decisionFromRule], [CapabilityPolicyEngine]) *)

Module Capability.

Inductive CapabilityMode := ModeAllow | ModeDeny.

Record CapabilityRules := {
  mode : CapabilityMode;
  allowTools : list string;
  denyTools : list string;
  allowActions : list string;
  denyActions : list string
}.

Record CapabilityDecision := {
  allowed : bool;
  reason : string;
  matchedSignals : list string
}.

Definition DEFAULT_RULES : CapabilityRules :=
  {| mode := ModeAllow; allowTools := []; denyTools := [];
     allowActions := []; denyActions := [] |}.

Definition normalizeMode (value : string) : CapabilityMode :=
  if String.eqb (toLowerCase (trim value)) "deny" then ModeDeny else ModeAllow.

(** Trim and lowercase every entry, drop the empty ones, remove duplicates,
    sort. *)
Definition normalizeList (values : list string) : list string :=
  sort (set_of_list
          (filter (fun v => truthy v = true) (map (fun v => toLowerCase (trim v)) values))).

Inductive ValueType := VTool | VAction.

Definition valueType_name (t : ValueType) : string :=
  match t with VTool => "tool" | VAction => "action" end.

Definition decisionFromRule (value : string) (m : CapabilityMode)
    (allowSet denySet : list string) (valueType : ValueType) : CapabilityDecision :=
  let vt := valueType_name valueType in
  if set_has denySet value then
    {| allowed := false;
       reason := vt +:+ " denied by capability policy.";
       matchedSignals := [vt +:+ "-deny:" +:+ value] |}
  else if (0 <? length allowSet)%nat then
    if set_has allowSet value then
      {| allowed := true;
         reason := vt +:+ " allowed by capability allowlist.";
         matchedSignals := [vt +:+ "-allow:" +:+ value] |}
    else
      {| allowed := false;
         reason := vt +:+ " not present in capability allowlist.";
         matchedSignals := [vt +:+ "-allow-miss:" +:+ value] |}
  else
    match m with
    | ModeDeny =>
        {| allowed := false;
           reason := vt +:+ " denied by default-deny capability mode.";
           matchedSignals := [vt +:+ "-default-deny:" +:+ value] |}
    | ModeAllow =>
        {| allowed := true;
           reason := vt +:+ " allowed by default capability mode.";
           matchedSignals := [vt +:+ "-default-allow:" +:+ value] |}
    end.

Record CapabilityPolicyEngine := {
  defaults : CapabilityRules;
  channels : gmap string CapabilityRules
}.

Definition resolveRules (e : CapabilityPolicyEngine) (channel : string) : CapabilityRules :=
  let normalizedChannel := toLowerCase (trim channel) in
  if truthy normalizedChannel
  then default (defaults e) (channels e !! normalizedChannel)
  else defaults e.

(** The loop over the normalized tool names: the first denial is returned. *)
Fixpoint first_denied (rules : CapabilityRules) (tools : list string) : option CapabilityDecision :=
  match tools with
  | [] => None
  | tool :: rest =>
      let decision := decisionFromRule tool (mode rules) (allowTools rules) (denyTools rules) VTool in
      if allowed decision then first_denied rules rest else Some decision
  end.

Definition evaluateToolExecution (e : CapabilityPolicyEngine)
    (toolNames : list string) (channelHint : string) : CapabilityDecision :=
  let normalizedTools := normalizeList toolNames in
  match normalizedTools with
  | [] => {| allowed := true; reason := "No tool execution requested."; matchedSignals := [] |}
  | _ =>
      let rules := resolveRules e channelHint in
      let actionDecision :=
        decisionFromRule "tool.execute" (mode rules) (allowActions rules) (denyActions rules) VAction in
      if negb (allowed actionDecision) then actionDecision
      else
        match first_denied rules normalizedTools with
        | Some decision => decision
        | None =>
            {| allowed := true;
               reason := "Tool execution allowed by capability policy.";
               matchedSignals := map (fun tool => "tool-allowed:" +:+ tool) normalizedTools |}
        end
  end.

(** The per-name rule in the specification's words: deny-list, then
    allow-list, then the mode. *)
Definition spec_rule (m : CapabilityMode) (allowSet denySet : list string) (value : string) : bool :=
  if set_has denySet value then false
  else if set_has allowSet value then true
  else match m with ModeDeny => false | ModeAllow => true end.

(** The per-name rule the gate implements: a configured allow-list is
    exhaustive, and the mode only decides when no allow-list is configured. *)
Definition allowlist_rule (m : CapabilityMode) (allowSet denySet : list string) (value : string) : bool :=
  if set_has denySet value then false
  else match allowSet with
       | [] => match m with ModeDeny => false | ModeAllow => true end
       | _ => set_has allowSet value
       end.

End Capability.

Module CapabilityFacts.
Import Capability.

Lemma decisionFromRule_allowed value m allowSet denySet vt :
  allowed (decisionFromRule value m allowSet denySet vt) = allowlist_rule m allowSet denySet value.
Proof.
  unfold decisionFromRule, allowlist_rule.
  destruct (set_has denySet value); [reflexivity|].
  destruct allowSet as [|a allowSet]; simpl.
  - now destruct m.
  - now destruct (_ || _).
Qed.

Lemma first_denied_none rules tools :
  first_denied rules tools = None
  <-> Forall (fun tool => allowlist_rule (mode rules) (allowTools rules) (denyTools rules) tool = true) tools.
Proof.
  induction tools as [|tool rest IH]; simpl.
  - split; [constructor | reflexivity].
  - rewrite decisionFromRule_allowed.
    destruct (allowlist_rule _ _ _ tool) eqn:Hr.
    + rewrite IH. split; [now constructor | now inversion 1].
    + split; [discriminate | inversion 1; congruence].
Qed.

Lemma first_denied_some rules tools d :
  first_denied rules tools = Some d -> allowed d = false.
Proof.
  induction tools as [|tool rest IH]; simpl; [discriminate|].
  destruct (allowed (decisionFromRule tool _ _ _ _)) eqn:Ha; [exact IH|].
  intros [= <-]. exact Ha.
Qed.

(** C4 (as the gate implements it). A name on the deny-list is denied;
    otherwise, when an allow-list is configured, the name is allowed exactly
    when it is on it; otherwise [ModeDeny] denies and [ModeAllow] allows.
    A batch of tool names is allowed exactly when it normalizes to nothing,
    or the [tool.execute] action and every normalized name pass that rule. *)
Theorem capability_gate_rule (e : CapabilityPolicyEngine) (toolNames : list string)
    (channelHint value : string) (m : CapabilityMode) (allowSet denySet : list string) :
  allowed (decisionFromRule value m allowSet denySet VTool)
  = (if set_has denySet value then false
     else if (0 <? length allowSet)%nat then set_has allowSet value
     else match m with ModeDeny => false | ModeAllow => true end)
  /\ (allowed (evaluateToolExecution e toolNames channelHint) = true <->
      normalizeList toolNames = [] \/
      let rules := resolveRules e channelHint in
      allowlist_rule (mode rules) (allowActions rules) (denyActions rules) "tool.execute" = true
      /\ Forall (fun tool =>
                   allowlist_rule (mode rules) (allowTools rules) (denyTools rules) tool = true)
                (normalizeList toolNames)).
Proof.
  split.
  - rewrite decisionFromRule_allowed. unfold allowlist_rule.
    destruct (set_has denySet value); [reflexivity|]. now destruct allowSet.
  - unfold evaluateToolExecution.
    destruct (normalizeList toolNames) as [|t ts] eqn:Hn.
    + simpl. split; auto.
    + cbv zeta. rewrite <- first_denied_none.
      set (rules := resolveRules e channelHint).
      rewrite <- (decisionFromRule_allowed "tool.execute" _ _ _ VAction).
      destruct (allowed (decisionFromRule "tool.execute" _ _ _ VAction)) eqn:Ha; cbn [negb].
      * destruct (first_denied rules (t :: ts)) as [d|] eqn:Hd.
        -- rewrite (first_denied_some _ _ _ Hd).
           split; [discriminate | intros [? | [_ ?]]; discriminate].
        -- simpl. split; auto.
      * rewrite Ha. split; [discriminate | intros [? | [? _]]; discriminate].
Qed.

Definition allowlisted_engine : CapabilityPolicyEngine :=
  {| defaults := {| mode := ModeAllow; allowTools := ["read_file"]; denyTools := [];
                    allowActions := []; denyActions := [] |};
     channels := ∅ |}.

(** C4 as stated fails: under [ModeAllow] with an allow-list that does not
    hold the name, the stated rule allows and the gate denies. *)
Lemma capability_allowlist_miss :
  spec_rule ModeAllow ["read_file"] [] "shell" = true
  /\ allowed (decisionFromRule "shell" ModeAllow ["read_file"] [] VTool) = false
  /\ evaluateToolExecution allowlisted_engine ["shell"] ""
     = {| allowed := false;
          reason := "tool not present in capability allowlist.";
          matchedSignals := ["tool-allow-miss:shell"] |}.
Proof. vm_compute. auto. Qed.

End CapabilityFacts.

(** ** JavaScript numbers and objects used as maps *)

Module JsNumber.

(** A [number]: NaN, the infinities, or a finite value. Arithmetic on finite
    values is exact, which agrees with binary64 on the integer arguments the
    service is called with. *)
Inductive number := NaN | PosInf | NegInf | Fin (q : Q).

Definition of_Z (n : Z) : number := Fin (inject_Z n).

(** [new Date(t)]: the time value of a finite [t] within 8.64e15 ms of the
    epoch is [t] truncated toward zero; any other [t] gives an invalid date,
    on which [toISOString] throws. *)
Definition trunc (q : Q) : Z := if Qle_bool 0 q then Qfloor q else Qceiling q.

Definition maxTime : Z := 8640000000000000.

Definition TimeClip (t : number) : option Z :=
  match t with
  | Fin q =>
      if Qle_bool (inject_Z (- maxTime)) q && Qle_bool q (inject_Z maxTime)
      then Some (trunc q) else None
  | _ => None
  end.

(** [Math.max(a, b)] with a finite first argument. *)
Definition max_with (a : Q) (b : number) : number :=
  match b with
  | NaN => NaN
  | PosInf => PosInf
  | NegInf => Fin a
  | Fin q => Fin (if Qle_bool a q then q else a)
  end.

Definition scale_add (base : Z) (factor : Q) (x : number) : number :=
  match x with
  | Fin q => Fin (inject_Z base + q * factor)
  | other => other
  end.

End JsNumber.

(** ** Dates ([Date.prototype.toISOString])

    The time values of ECMA-262 (milliseconds since the epoch, within
    8.64e15 of it) and their ISO-8601 text. The service stores the text and
    has SQLite compare it, byte by byte. *)

Module JsDate.
Import JsNumber.
Local Open Scope Z_scope.

Definition msPerDay : Z := 86400000.

Definition Day (t : Z) : Z := t / msPerDay.
Definition TimeWithinDay (t : Z) : Z := t mod msPerDay.

(** The day number of the first day of year [y]. *)
Definition DayFromYear (y : Z) : Z :=
  365 * (y - 1970) + (y - 1969) / 4 - (y - 1901) / 100 + (y - 1601) / 400.

(** [YearFromTime]: the largest year that starts on or before the day. *)
Definition YearFromDay (d : Z) : Z :=
  let y := 1970 + (400 * d) / 146097 in
  if d <? DayFromYear y then y - 1
  else if DayFromYear (y + 1) <=? d then y + 1
  else y.

(** 1 in a leap year, 0 otherwise. *)
Definition InLeapYear (y : Z) : Z :=
  if negb (y mod 4 =? 0) then 0
  else if negb (y mod 100 =? 0) then 1
  else if negb (y mod 400 =? 0) then 0
  else 1.

(** [MonthFromTime], from the day within the year. *)
Definition MonthFromDay (leap dayInYear : Z) : Z :=
  if dayInYear <? 31 then 0
  else if dayInYear <? 59 + leap then 1
  else if dayInYear <? 90 + leap then 2
  else if dayInYear <? 120 + leap then 3
  else if dayInYear <? 151 + leap then 4
  else if dayInYear <? 181 + leap then 5
  else if dayInYear <? 212 + leap then 6
  else if dayInYear <? 243 + leap then 7
  else if dayInYear <? 273 + leap then 8
  else if dayInYear <? 304 + leap then 9
  else if dayInYear <? 334 + leap then 10
  else 11.

(** The day within the year on which month [m] starts. *)
Definition month_start (leap m : Z) : Z :=
  if m =? 0 then 0
  else if m =? 1 then 31
  else if m =? 2 then 59 + leap
  else if m =? 3 then 90 + leap
  else if m =? 4 then 120 + leap
  else if m =? 5 then 151 + leap
  else if m =? 6 then 181 + leap
  else if m =? 7 then 212 + leap
  else if m =? 8 then 243 + leap
  else if m =? 9 then 273 + leap
  else if m =? 10 then 304 + leap
  else 334 + leap.

Lemma DayFromYear_step y : DayFromYear (y + 1) = DayFromYear y + 365 + InLeapYear y.
Proof.
  unfold DayFromYear, InLeapYear.
  destruct (y mod 4 =? 0) eqn:H4; destruct (y mod 100 =? 0) eqn:H100;
    destruct (y mod 400 =? 0) eqn:H400; cbn [negb];
    rewrite ?Z.eqb_eq, ?Z.eqb_neq in *; Z.div_mod_to_equations; lia.
Qed.

Lemma YearFromDay_spec d :
  DayFromYear (YearFromDay d) <= d < DayFromYear (YearFromDay d + 1).
Proof.
  unfold YearFromDay. cbv zeta.
  destruct (d <? DayFromYear (1970 + 400 * d / 146097)) eqn:H1.
  - apply Z.ltb_lt in H1. unfold DayFromYear in *. Z.div_mod_to_equations. lia.
  - apply Z.ltb_ge in H1.
    destruct (DayFromYear (1970 + 400 * d / 146097 + 1) <=? d) eqn:H2.
    + apply Z.leb_le in H2. unfold DayFromYear in *. Z.div_mod_to_equations. lia.
    + apply Z.leb_gt in H2. lia.
Qed.

Definition digit (d : Z) : ascii := Js.digit_char d.

(** [n] on [width] decimal digits, followed by [rest]. *)
Fixpoint pad (width : nat) (n : Z) (rest : string) : string :=
  match width with
  | O => rest
  | S w => pad w (n / 10) (String (digit (n mod 10)) rest)
  end.

(** Four digits for the years 0000 to 9999, a sign and six digits for the
    others. *)
Definition year_text (y : Z) (rest : string) : string :=
  if (0 <=? y) && (y <=? 9999) then pad 4 y rest
  else String (if y <? 0 then "-"%char else "+"%char) (pad 6 (Z.abs y) rest).

(** [new Date(t).toISOString()]; [None] is the RangeError on an invalid
    date. *)
Definition toISOString (t : Z) : option string :=
  if (- maxTime <=? t) && (t <=? maxTime) then
    let day := Day t in
    let y := YearFromDay day in
    let dayInYear := day - DayFromYear y in
    let leap := InLeapYear y in
    let m := MonthFromDay leap dayInYear in
    let date := dayInYear - month_start leap m + 1 in
    let ms := TimeWithinDay t in
    Some (year_text y (String "-" (pad 2 (m + 1) (String "-" (pad 2 date (String "T"
           (pad 2 (ms / 3600000) (String ":" (pad 2 (ms / 60000 mod 60) (String ":"
           (pad 2 (ms / 1000 mod 60) (String "." (pad 3 (ms mod 1000) "Z")))))))))))))
  else None.

Example toISOString_samples :
  toISOString 0 = Some "1970-01-01T00:00:00.000Z"
  /\ toISOString 1700000000000 = Some "2023-11-14T22:13:20.000Z"
  /\ toISOString 951782400000 = Some "2000-02-29T00:00:00.000Z"
  /\ toISOString 4107542399999 = Some "2100-02-28T23:59:59.999Z"
  /\ toISOString 4107542400000 = Some "2100-03-01T00:00:00.000Z"
  /\ toISOString 253402300799999 = Some "9999-12-31T23:59:59.999Z"
  /\ toISOString 253402300800000 = Some "+010000-01-01T00:00:00.000Z"
  /\ toISOString 8640000000000000 = Some "+275760-09-13T00:00:00.000Z"
  /\ toISOString 8640000000000001 = None
  /\ toISOString (-1) = Some "1969-12-31T23:59:59.999Z"
  /\ toISOString (-62167219200000) = Some "0000-01-01T00:00:00.000Z"
  /\ toISOString (-62167219200001) = Some "-000001-12-31T23:59:59.999Z"
  /\ toISOString (-8640000000000000) = Some "-271821-04-20T00:00:00.000Z".
Proof. vm_compute. repeat split. Qed.

(** The first instants of the years 0000 and 10000. *)
Definition year0 : Z := -62167219200000.
Definition year10000 : Z := 253402300800000.

End JsDate.

(** ** The order of ISO texts *)

Module JsDateFacts.
Import JsNumber JsDate.
Local Open Scope Z_scope.

(** Lexicographic comparison of two lists of fields. *)
Fixpoint lex (l1 l2 : list Z) : comparison :=
  match l1, l2 with
  | x :: l1', y :: l2' => match x ?= y with Eq => lex l1' l2' | c => c end
  | _, _ => Eq
  end.

Ltac compare_cases :=
  repeat match goal with
         | |- context [?x ?= ?y] => destruct (Z.compare_spec x y)
         end.

Lemma digit_code (n : nat) :
  (n < 10)%nat -> N_of_ascii (ascii_of_nat (48 + n)) = N.of_nat (48 + n).
Proof.
  intros Hn. do 10 (destruct n as [|n]; [reflexivity|]). lia.
Qed.

Lemma digit_compare a b :
  0 <= a < 10 -> 0 <= b < 10 -> Ascii.compare (digit a) (digit b) = (a ?= b).
Proof.
  intros Ha Hb. unfold digit, Js.digit_char, Ascii.compare.
  rewrite !digit_code by lia.
  rewrite <- Nat2N.inj_compare, <- Nat2Z.inj_compare, !Nat2Z.inj_add, !Z2Nat.id by lia.
  apply Z.add_compare_mono_l.
Qed.

Lemma pad_compare width : forall x y r1 r2,
  0 <= x < 10 ^ Z.of_nat width -> 0 <= y < 10 ^ Z.of_nat width ->
  String.compare (pad width x r1) (pad width y r2)
  = match x ?= y with Eq => String.compare r1 r2 | c => c end.
Proof.
  induction width as [|w IH]; intros x y r1 r2 Hx Hy.
  - cbn in *. assert (x = 0) by lia. assert (y = 0) by lia. subst. reflexivity.
  - rewrite Nat2Z.inj_succ, Z.pow_succ_r in Hx, Hy by lia.
    cbn [pad]. rewrite IH by (Z.div_mod_to_equations; lia).
    cbn [String.compare].
    rewrite digit_compare by (Z.div_mod_to_equations; lia).
    compare_cases; try reflexivity; Z.div_mod_to_equations; lia.
Qed.

Lemma DayFromYear_mono y1 y2 : y1 <= y2 -> DayFromYear y1 <= DayFromYear y2.
Proof. unfold DayFromYear. intros H. Z.div_mod_to_equations. lia. Qed.

Lemma InLeapYear_range y : 0 <= InLeapYear y <= 1.
Proof. unfold InLeapYear. repeat destruct (negb _); lia. Qed.

(** The day within the year is below the length of the year. *)
Lemma dayInYear_range d :
  0 <= d - DayFromYear (YearFromDay d) < 365 + InLeapYear (YearFromDay d).
Proof.
  pose proof (YearFromDay_spec d) as H. rewrite DayFromYear_step in H. lia.
Qed.

(** Years, and days within the year, order the days. *)
Lemma year_compare d1 d2 :
  match YearFromDay d1 ?= YearFromDay d2 with
  | Eq => d1 - DayFromYear (YearFromDay d1) ?= d2 - DayFromYear (YearFromDay d2)
  | c => c
  end = (d1 ?= d2).
Proof.
  pose proof (YearFromDay_spec d1) as H1. pose proof (YearFromDay_spec d2) as H2.
  destruct (Z.compare_spec (YearFromDay d1) (YearFromDay d2)) as [Heq|Hlt|Hgt].
  - rewrite Heq. compare_cases; try reflexivity; lia.
  - pose proof (DayFromYear_mono (YearFromDay d1 + 1) (YearFromDay d2)) as Hm.
    symmetry. apply Z.compare_lt_iff. lia.
  - pose proof (DayFromYear_mono (YearFromDay d2 + 1) (YearFromDay d1)) as Hm.
    symmetry. apply Z.compare_gt_iff. lia.
Qed.

Ltac month_cases :=
  unfold MonthFromDay;
  repeat match goal with
         | |- context [?x <? ?y] => destruct (Z.ltb_spec x y)
         end.

Lemma MonthFromDay_range leap dayInYear : 0 <= MonthFromDay leap dayInYear <= 11.
Proof. month_cases; lia. Qed.

Lemma date_range leap dayInYear :
  0 <= leap <= 1 -> 0 <= dayInYear < 365 + leap ->
  1 <= dayInYear - month_start leap (MonthFromDay leap dayInYear) + 1 <= 31.
Proof. intros Hl Hd. month_cases; cbn; lia. Qed.

(** Months and dates order the days of a year. *)
Lemma month_compare leap a b :
  0 <= leap <= 1 -> 0 <= a < 365 + leap -> 0 <= b < 365 + leap ->
  lex [MonthFromDay leap a + 1; a - month_start leap (MonthFromDay leap a) + 1]
      [MonthFromDay leap b + 1; b - month_start leap (MonthFromDay leap b) + 1]
  = (a ?= b).
Proof.
  intros Hl Ha Hb. cbn [lex].
  unfold MonthFromDay.
  repeat match goal with
         | |- context [?x <? ?y] => destruct (Z.ltb_spec x y)
         end; cbn; compare_cases; try reflexivity; lia.
Qed.

(** Hours, minutes, seconds and milliseconds order the times of a day. *)
Lemma time_compare a b :
  0 <= a < msPerDay -> 0 <= b < msPerDay ->
  lex [a / 3600000; a / 60000 mod 60; a / 1000 mod 60; a mod 1000]
      [b / 3600000; b / 60000 mod 60; b / 1000 mod 60; b mod 1000]
  = (a ?= b).
Proof.
  unfold msPerDay. intros Ha Hb. cbn [lex].
  compare_cases; try reflexivity; Z.div_mod_to_equations; lia.
Qed.

Lemma day_compare a b :
  match Day a ?= Day b with
  | Eq => TimeWithinDay a ?= TimeWithinDay b
  | c => c
  end = (a ?= b).
Proof.
  unfold Day, TimeWithinDay, msPerDay.
  compare_cases; try reflexivity; Z.div_mod_to_equations; lia.
Qed.

(** The numbers [toISOString] prints. *)
Definition fields (t : Z) : list Z :=
  let day := Day t in
  let y := YearFromDay day in
  let dayInYear := day - DayFromYear y in
  let leap := InLeapYear y in
  let m := MonthFromDay leap dayInYear in
  let ms := TimeWithinDay t in
  [y; m + 1; dayInYear - month_start leap m + 1;
   ms / 3600000; ms / 60000 mod 60; ms / 1000 mod 60; ms mod 1000].

Lemma fields_compare a b : lex (fields a) (fields b) = (a ?= b).
Proof.
  rewrite <- day_compare, <- (year_compare (Day a) (Day b)).
  unfold fields. cbv zeta. cbn [lex].
  pose proof (dayInYear_range (Day a)) as Ra. pose proof (dayInYear_range (Day b)) as Rb.
  set (ya := YearFromDay (Day a)) in *. set (yb := YearFromDay (Day b)) in *.
  clearbody ya yb.
  destruct (Z.compare_spec ya yb) as [->| |]; try reflexivity.
  pose proof (month_compare (InLeapYear yb) _ _ (InLeapYear_range _) Ra Rb) as Hm.
  cbn [lex] in Hm. rewrite <- Hm.
  pose proof (time_compare (TimeWithinDay a) (TimeWithinDay b)) as Ht.
  cbn [lex] in Ht. rewrite <- Ht by (apply Z.mod_pos_bound; reflexivity).
  compare_cases; reflexivity.
Qed.

Lemma compare_cons c r1 r2 :
  String.compare (String c r1) (String c r2) = String.compare r1 r2.
Proof.
  cbn [String.compare]. unfold Ascii.compare. now rewrite N.compare_refl.
Qed.

Lemma year_range t :
  year0 <= t < year10000 -> 0 <= YearFromDay (Day t) <= 9999.
Proof.
  unfold year0, year10000. intros Ht.
  pose proof (YearFromDay_spec (Day t)) as Hy.
  assert (Hd : DayFromYear 0 <= Day t < DayFromYear 10000).
  { unfold Day, msPerDay. change (DayFromYear 0) with (-719528).
    change (DayFromYear 10000) with 2932897. Z.div_mod_to_equations. lia. }
  pose proof (DayFromYear_mono 10000 (YearFromDay (Day t))) as Hhigh.
  pose proof (DayFromYear_mono (YearFromDay (Day t) + 1) 0) as Hlow.
  lia.
Qed.

Local Opaque pad.

(** Within the years 0000 to 9999 the ISO texts are ordered as the
    instants. *)
Theorem toISOString_compare a b ta tb :
  year0 <= a < year10000 -> year0 <= b < year10000 ->
  toISOString a = Some ta -> toISOString b = Some tb ->
  String.compare ta tb = (a ?= b).
Proof.
  intros Ha Hb. pose proof (year_range a Ha) as Hya. pose proof (year_range b Hb) as Hyb.
  rewrite <- fields_compare. unfold toISOString. intros Hta Htb.
  destruct ((- maxTime <=? a) && (a <=? maxTime)); [|discriminate].
  destruct ((- maxTime <=? b) && (b <=? maxTime)); [|discriminate].
  cbv zeta in Hta, Htb. injection Hta as <-. injection Htb as <-.
  unfold fields, year_text.
  replace ((0 <=? YearFromDay (Day a)) && (YearFromDay (Day a) <=? 9999)) with true
    by (symmetry; apply andb_true_iff; split; apply Z.leb_le; lia).
  replace ((0 <=? YearFromDay (Day b)) && (YearFromDay (Day b) <=? 9999)) with true
    by (symmetry; apply andb_true_iff; split; apply Z.leb_le; lia).
  pose proof (MonthFromDay_range (InLeapYear (YearFromDay (Day a)))
                (Day a - DayFromYear (YearFromDay (Day a)))) as Hma.
  pose proof (MonthFromDay_range (InLeapYear (YearFromDay (Day b)))
                (Day b - DayFromYear (YearFromDay (Day b)))) as Hmb.
  pose proof (date_range _ _ (InLeapYear_range (YearFromDay (Day a))) (dayInYear_range _))
    as Hda.
  pose proof (date_range _ _ (InLeapYear_range (YearFromDay (Day b))) (dayInYear_range _))
    as Hdb.
  pose proof (Z.mod_pos_bound a msPerDay eq_refl) as Hta.
  pose proof (Z.mod_pos_bound b msPerDay eq_refl) as Htb.
  fold (TimeWithinDay a) in Hta. fold (TimeWithinDay b) in Htb. unfold msPerDay in Hta, Htb.
  cbv zeta.
  rewrite pad_compare, compare_cons by (cbn; lia).
  rewrite pad_compare, compare_cons by (cbn; lia).
  rewrite pad_compare, compare_cons by (cbn; lia).
  rewrite pad_compare, compare_cons by (cbn; Z.div_mod_to_equations; lia).
  rewrite pad_compare, compare_cons by (cbn; Z.div_mod_to_equations; lia).
  rewrite pad_compare, compare_cons by (cbn; Z.div_mod_to_equations; lia).
  rewrite pad_compare by (cbn; Z.div_mod_to_equations; lia).
  cbn [lex String.compare]. compare_cases; reflexivity.
Qed.

Local Transparent pad.

Lemma year_expanded t : year10000 <= t -> 10000 <= YearFromDay (Day t).
Proof.
  unfold year10000. intros Ht.
  pose proof (YearFromDay_spec (Day t)) as Hy.
  assert (Hd : DayFromYear 10000 <= Day t).
  { unfold Day, msPerDay. change (DayFromYear 10000) with 2932897.
    Z.div_mod_to_equations. lia. }
  pose proof (DayFromYear_mono (YearFromDay (Day t) + 1) 10000) as Hlow.
  lia.
Qed.

Lemma plus_before_digit d : 0 <= d < 10 -> Ascii.compare "+" (digit d) = Lt.
Proof.
  intros Hd. unfold digit, Js.digit_char, Ascii.compare.
  rewrite digit_code by lia. apply N.compare_lt_iff. cbn. lia.
Qed.

(** From the year 10000 on the ISO text starts with [+], and sorts before
    the text of every instant of the years 0000 to 9999. *)
Theorem toISOString_expanded a b ta tb :
  year10000 <= a -> year0 <= b < year10000 ->
  toISOString a = Some ta -> toISOString b = Some tb ->
  String.compare ta tb = Lt.
Proof.
  intros Ha Hb. pose proof (year_expanded a Ha) as Hya. pose proof (year_range b Hb) as Hyb.
  unfold toISOString. intros Hta Htb.
  destruct ((- maxTime <=? a) && (a <=? maxTime)); [|discriminate].
  destruct ((- maxTime <=? b) && (b <=? maxTime)); [|discriminate].
  cbv zeta in Hta, Htb. injection Hta as <-. injection Htb as <-.
  unfold year_text.
  replace ((0 <=? YearFromDay (Day a)) && (YearFromDay (Day a) <=? 9999)) with false
    by (symmetry; apply andb_false_iff; right; apply Z.leb_gt; lia).
  replace ((0 <=? YearFromDay (Day b)) && (YearFromDay (Day b) <=? 9999)) with true
    by (symmetry; apply andb_true_iff; split; apply Z.leb_le; lia).
  replace (YearFromDay (Day a) <? 0) with false by (symmetry; apply Z.ltb_ge; lia).
  cbn [pad String.compare].
  now rewrite plus_before_digit by (apply Z.mod_pos_bound; reflexivity).
Qed.

(** [a >= b] in SQLite is [not (a < b)]. *)
Lemma leb_ltb a b : String.leb a b = negb (String.ltb b a).
Proof.
  unfold String.leb, String.ltb. rewrite (String.compare_antisym b a).
  now destruct (String.compare a b).
Qed.

Lemma toISOString_ltb a b ta tb :
  year0 <= a < year10000 -> year0 <= b < year10000 ->
  toISOString a = Some ta -> toISOString b = Some tb ->
  String.ltb ta tb = (a <? b).
Proof.
  intros Ha Hb Hta Htb. unfold String.ltb, Z.ltb.
  now rewrite (toISOString_compare a b ta tb Ha Hb Hta Htb).
Qed.

Lemma toISOString_leb a b ta tb :
  year0 <= a < year10000 -> year0 <= b < year10000 ->
  toISOString a = Some ta -> toISOString b = Some tb ->
  String.leb ta tb = (a <=? b).
Proof.
  intros Ha Hb Hta Htb. unfold String.leb, Z.leb.
  now rewrite (toISOString_compare a b ta tb Ha Hb Hta Htb).
Qed.

Lemma toISOString_expanded_ltb a b ta tb :
  year10000 <= a -> year0 <= b < year10000 ->
  toISOString a = Some ta -> toISOString b = Some tb ->
  String.ltb ta tb = true.
Proof.
  intros Ha Hb Hta Htb. unfold String.ltb.
  now rewrite (toISOString_expanded a b ta tb Ha Hb Hta Htb).
Qed.

(** A time value within the range of dates has an ISO text. *)
Lemma toISOString_defined t :
  - maxTime <= t <= maxTime -> is_Some (toISOString t).
Proof.
  intros [Hl Hh]. unfold toISOString.
  apply Z.leb_le in Hl, Hh. rewrite Hl, Hh. cbn [andb]. eauto.
Qed.

End JsDateFacts.

Module JsObject.

(** A plain object with string values: own enumerable properties in
    enumeration order. *)
Definition t := list (string * string).

Definition digit_value (c : ascii) : Z := Z.of_nat (nat_of_ascii c) - 48.

Fixpoint decimal (acc : Z) (s : string) : Z :=
  match s with
  | EmptyString => acc
  | String c s' => decimal (10 * acc + digit_value c) s'
  end.

(** An array index: a key that is the canonical decimal text of an integer
    from 0 to 2^32 - 2. An object lists such keys first, in ascending
    order, and after them the other keys in the order they were added. *)
Definition array_index (key : string) : option Z :=
  let n := decimal 0 key in
  if String.eqb (Js.nat_digits n) key && (n <? 2 ^ 32 - 1)%Z then Some n else None.

Fixpoint replace {A} (key : string) (value : A) (o : list (string * A))
    : option (list (string * A)) :=
  match o with
  | [] => None
  | (k, v) :: o' =>
      if String.eqb k key then Some ((k, value) :: o')
      else match replace key value o' with
           | Some o'' => Some ((k, v) :: o'')
           | None => None
           end
  end.

(** The place of a new array index [n]: before the first key that is a
    greater index or no index at all. *)
Fixpoint insert_index {A} (n : Z) (key : string) (value : A) (o : list (string * A))
    : list (string * A) :=
  match o with
  | [] => [(key, value)]
  | (k, v) :: o' =>
      match array_index k with
      | Some m => if (m <? n)%Z then (k, v) :: insert_index n key value o'
                  else (key, value) :: o
      | None => (key, value) :: o
      end
  end.

(** A new property: an array index goes to its place among the indices,
    any other key comes last. *)
Definition add {A} (key : string) (value : A) (o : list (string * A)) : list (string * A) :=
  match array_index key with
  | Some n => insert_index n key value o
  | None => o ++ [(key, value)]
  end.

(** [o[key] = value] on an object created by [{}]: an existing property
    is overwritten in place, a new one is added; assigning to [__proto__]
    runs the inherited setter, which adds no property (it ignores a string,
    and makes an object the prototype). *)
Definition set {A} (key : string) (value : A) (o : list (string * A)) : list (string * A) :=
  if String.eqb key "__proto__" then o
  else match replace key value o with
       | Some o' => o'
       | None => add key value o
       end.

(** [Object.values(o)] *)
Definition values (o : t) : list string := map snd o.

Definition keys (o : t) : list string := map fst o.

(** The own property [key], if there is one. *)
Fixpoint get {A} (key : string) (o : list (string * A)) : option A :=
  match o with
  | [] => None
  | (k, v) :: o' => if String.eqb k key then Some v else get key o'
  end.

(** The members of [Object.prototype], which every object created by [{}]
    inherits: functions, and the accessor [__proto__] that reads the
    prototype itself. *)
Definition prototype_names : list string :=
  [ "constructor"; "hasOwnProperty"; "isPrototypeOf"; "propertyIsEnumerable";
    "toLocaleString"; "toString"; "valueOf"; "__defineGetter__"; "__defineSetter__";
    "__lookupGetter__"; "__lookupSetter__"; "__proto__" ].

(** What [o[key]] reads: an own property, else an inherited member (truthy,
    and not a string), else [undefined]. *)
Inductive property := Own (value : string) | Inherited | Missing.

Definition read (key : string) (o : t) : property :=
  match get key o with
  | Some v => Own v
  | None => if existsb (String.eqb key) prototype_names then Inherited else Missing
  end.

End JsObject.

Module JsObjectFacts.
Import JsObject.

Example array_index_samples :
  map array_index ["0"; "42"; "4294967294"; "4294967295"; "042"; ""; "-1"; "1.5"; "bob"]
  = [Some 0%Z; Some 42%Z; Some 4294967294%Z; None; None; None; None; None; None].
Proof. vm_compute. reflexivity. Qed.

Example set_array_index :
  set "7" "b" (set "42" "a" (set "bob" "c" (set "__proto__" "d" (@nil (string * string)))))
  = [("7", "b"); ("42", "a"); ("bob", "c")].
Proof. vm_compute. reflexivity. Qed.

Lemma array_index_text key n : array_index key = Some n -> key = Js.nat_digits n.
Proof.
  unfold array_index. destruct (String.eqb_spec (Js.nat_digits (decimal 0 key)) key) as [He|];
    [|discriminate].
  destruct (decimal 0 key <? 2 ^ 32 - 1)%Z; [|discriminate]. now intros [= <-].
Qed.

Lemma array_index_inj a b n : array_index a = Some n -> array_index b = Some n -> a = b.
Proof. intros Ha Hb. now rewrite (array_index_text _ _ Ha), (array_index_text _ _ Hb). Qed.

(** The enumeration order, on keys: an index before a greater one and
    before every other key. *)
Definition before (a b : string) : Prop :=
  match array_index a, array_index b with
  | Some m, Some n => (m < n)%Z
  | Some _, None => True
  | None, Some _ => False
  | None, None => True
  end.

Definition ordered {A} (o : list (string * A)) : Prop := StronglySorted before (map fst o).

Lemma replace_keys {A} key (v : A) o o' : replace key v o = Some o' -> map fst o' = map fst o.
Proof.
  revert o'. induction o as [|[k w] o IH]; intros o'; cbn [replace]; [discriminate|].
  destruct (String.eqb k key); [now intros [= <-]|].
  destruct (replace key v o) as [o''|]; [|discriminate]. intros [= <-]. cbn [map fst].
  now rewrite (IH o'' eq_refl).
Qed.

Lemma replace_missing {A} key (v : A) o : replace key v o = None <-> ~ In key (map fst o).
Proof.
  induction o as [|[k w] o IH]; cbn [replace map fst In]; [tauto|].
  destruct (String.eqb_spec k key) as [->|Hne]; [split; [discriminate | tauto]|].
  destruct (replace key v o).
  - split; [discriminate|]. intros H. assert (Hn : ~ In key (map fst o)) by tauto.
    apply IH in Hn. discriminate.
  - split; [|reflexivity]. intros _ [H|H]; [contradiction|].
    now apply (proj1 IH eq_refl).
Qed.

Lemma insert_index_split {A} n key (v : A) o :
  exists a b, o = a ++ b /\ insert_index n key v o = a ++ (key, v) :: b.
Proof.
  induction o as [|[k w] o (a & b & Ho & Hi)]; [now exists [], []|].
  cbn [insert_index]. destruct (array_index k) as [m|]; [|now exists [], ((k, w) :: o)].
  destruct (m <? n)%Z; [|now exists [], ((k, w) :: o)].
  exists ((k, w) :: a), b. cbn [app]. now rewrite Hi, <- Ho.
Qed.

(** A new property takes one place in the object; the others keep their
    order. *)
Lemma add_split {A} key (v : A) o :
  exists a b, o = a ++ b /\ add key v o = a ++ (key, v) :: b.
Proof.
  unfold add. destruct (array_index key) as [n|]; [apply insert_index_split|].
  exists o, []. now rewrite app_nil_r.
Qed.

Lemma set_split {A} key (v : A) o :
  key <> "__proto__" -> ~ In key (map fst o) ->
  exists a b, o = a ++ b /\ set key v o = a ++ (key, v) :: b.
Proof.
  intros Hp Hnew. unfold set. apply String.eqb_neq in Hp. rewrite Hp.
  rewrite (proj2 (replace_missing key v o) Hnew). apply add_split.
Qed.

Lemma before_index a b n : array_index b = Some n -> before a b ->
  exists m, array_index a = Some m /\ (m < n)%Z.
Proof. unfold before. intros ->. destruct (array_index a) as [m|]; [eauto | tauto]. Qed.

Lemma insert_index_last {A} n key (v : A) o :
  Forall (fun k => exists m, array_index k = Some m /\ (m < n)%Z) (map fst o) ->
  insert_index n key v o = o ++ [(key, v)].
Proof.
  induction o as [|[k w] o IH]; [reflexivity|]. cbn [map fst insert_index app].
  intros H. apply List.Forall_cons_iff in H as [(m & -> & Hm) H].
  destruct (Z.ltb_spec m n); [|lia]. now rewrite (IH H).
Qed.

(** A key that comes last in the enumeration order is added last. *)
Lemma add_last {A} key (v : A) o : ordered (o ++ [(key, v)]) -> add key v o = o ++ [(key, v)].
Proof.
  unfold ordered, add. rewrite map_app. cbn [map fst]. intros Hs.
  destruct (array_index key) as [n|] eqn:Hkey; [|reflexivity].
  apply insert_index_last. apply List.Forall_forall. intros k Hk.
  apply (before_index k key n Hkey).
  clear Hkey. induction (map fst o) as [|x l IH]; [destruct Hk|].
  cbn [app] in Hs. apply StronglySorted_inv in Hs as [Hs Hall].
  destruct Hk as [->|Hk]; [|now apply IH].
  rewrite List.Forall_forall in Hall. apply Hall. apply in_or_app. right. now left.
Qed.

Lemma set_last {A} key (v : A) o :
  key <> "__proto__" -> ~ In key (map fst o) -> ordered (o ++ [(key, v)]) ->
  set key v o = o ++ [(key, v)].
Proof.
  intros Hp Hnew Ho. unfold set. apply String.eqb_neq in Hp. rewrite Hp.
  rewrite (proj2 (replace_missing key v o) Hnew). now apply add_last.
Qed.

Lemma before_trans a b c : before a b -> before b c -> before a c.
Proof.
  unfold before. destruct (array_index a), (array_index b), (array_index c); try tauto; lia.
Qed.

Lemma first_ordered key k l :
  before key k -> StronglySorted before l -> Forall (before k) l ->
  StronglySorted before (key :: k :: l).
Proof.
  intros Hb Hs Hall. constructor; [now constructor|]. constructor; [assumption|].
  revert Hall. apply List.Forall_impl. intros x. now apply before_trans.
Qed.

Lemma insert_index_ordered {A} n key (v : A) o :
  array_index key = Some n -> ~ In key (map fst o) -> ordered o ->
  ordered (insert_index n key v o).
Proof.
  unfold ordered. intros Hkey. induction o as [|[k w] o IH]; cbn [map fst insert_index].
  - intros _ _. repeat constructor.
  - intros Hnew Hs. apply StronglySorted_inv in Hs as [Hs Hall].
    destruct (array_index k) as [m|] eqn:Hk.
    + destruct (Z.ltb_spec m n) as [Hlt|Hge].
      * cbn [map fst]. constructor; [apply IH; [cbn in Hnew; tauto | assumption]|].
        destruct (insert_index_split n key v o) as (a & b & Ho & ->).
        rewrite map_app. cbn [map fst]. rewrite Ho, map_app in Hall.
        apply List.Forall_app in Hall as [Ha Hb]. apply List.Forall_app. split; [assumption|].
        constructor; [|assumption]. unfold before. now rewrite Hk, Hkey.
      * assert (Hne : m <> n).
        { intros ->. apply Hnew. left. exact (array_index_inj _ _ _ Hk Hkey). }
        cbn [map fst]. apply first_ordered; try assumption.
        unfold before. rewrite Hkey, Hk. lia.
    + cbn [map fst]. apply first_ordered; try assumption.
      unfold before. now rewrite Hkey, Hk.
Qed.

Lemma add_In {A} key (v : A) o e : In e (add key v o) <-> e = (key, v) \/ In e o.
Proof.
  destruct (add_split key v o) as (a & b & -> & ->).
  rewrite !in_app_iff. cbn [In]. intuition congruence.
Qed.

Lemma add_Forall {A} (P : string * A -> Prop) key v o :
  P (key, v) -> Forall P o -> Forall P (add key v o).
Proof.
  intros Hp Ho. apply List.Forall_forall. intros e He. apply add_In in He as [->|He];
    [assumption|]. rewrite List.Forall_forall in Ho. now apply Ho.
Qed.

Lemma add_distinct {A} key (v : A) o :
  ~ In key (map fst o) -> List.NoDup (map fst o) -> List.NoDup (map fst (add key v o)).
Proof.
  destruct (add_split key v o) as (a & b & -> & ->). intros Hnew Hnd.
  rewrite map_app. cbn [map fst].
  apply (Permutation_NoDup (Permutation_middle (map fst a) (map fst b) key)).
  constructor; [now rewrite <- map_app | now rewrite <- map_app].
Qed.

Lemma get_middle {A} key (v : A) a b x :
  ~ In key (map fst a) ->
  get x (a ++ (key, v) :: b) = if String.eqb key x then Some v else get x (a ++ b).
Proof.
  induction a as [|[k w] a IH]; cbn [app get map fst In]; [reflexivity|].
  intros Hnew. rewrite IH by tauto.
  destruct (String.eqb_spec k x) as [->|Hkx]; [|reflexivity].
  destruct (String.eqb_spec key x) as [->|]; [tauto | reflexivity].
Qed.

Lemma get_add {A} key (v : A) o x :
  ~ In key (map fst o) ->
  get x (add key v o) = if String.eqb key x then Some v else get x o.
Proof.
  destruct (add_split key v o) as (a & b & -> & ->). intros Hnew.
  apply get_middle. rewrite map_app, in_app_iff in Hnew. tauto.
Qed.

Lemma replace_get {A} key (v : A) o o' x :
  replace key v o = Some o' -> get x o' = if String.eqb key x then Some v else get x o.
Proof.
  revert o'. induction o as [|[k w] o IH]; intros o'; cbn [replace get]; [discriminate|].
  destruct (String.eqb_spec k key) as [->|Hne].
  - intros [= <-]. cbn [get]. now destruct (String.eqb key x).
  - destruct (replace key v o) as [o''|]; [|discriminate]. intros [= <-]. cbn [get].
    rewrite (IH o'' eq_refl).
    destruct (String.eqb_spec k x) as [->|Hkx]; [|reflexivity].
    apply String.eqb_neq in Hne. rewrite String.eqb_sym in Hne. now rewrite Hne.
Qed.

Lemma replace_In {A} key (v : A) o o' e :
  replace key v o = Some o' -> In e o' -> e = (key, v) \/ In e o.
Proof.
  revert o'. induction o as [|[k0 w] o IH]; intros o'; cbn [replace]; [discriminate|].
  destruct (String.eqb_spec k0 key) as [->|Hne].
  - intros [= <-] [<-|Hin]; [now left | right; now right].
  - destruct (replace key v o) as [o''|]; [|discriminate]. intros [= <-] [Heq|Hin].
    + right. now left.
    + destruct (IH o'' eq_refl Hin); [now left | right; now right].
Qed.

Lemma replace_Forall {A} (P : string * A -> Prop) key v o o' :
  replace key v o = Some o' -> P (key, v) -> Forall P o -> Forall P o'.
Proof.
  intros Hr Hp Ho. apply List.Forall_forall. intros e He.
  destruct (replace_In _ _ _ _ _ Hr He) as [->|Hin]; [assumption|].
  rewrite List.Forall_forall in Ho. now apply Ho.
Qed.

(** What an assignment leaves in the object. *)
Lemma set_get {A} key (v : A) o x :
  key <> "__proto__" -> get x (set key v o) = if String.eqb key x then Some v else get x o.
Proof.
  intros Hp. unfold set. apply String.eqb_neq in Hp. rewrite Hp.
  destruct (replace key v o) as [o'|] eqn:Hr; [now apply replace_get|].
  apply get_add. now apply replace_missing in Hr.
Qed.

Lemma set_In {A} key (v : A) o e :
  In e (set key v o) -> (e = (key, v) /\ key <> "__proto__") \/ In e o.
Proof.
  unfold set. destruct (String.eqb_spec key "__proto__") as [->|Hne]; [now right|].
  destruct (replace key v o) as [o'|] eqn:Hr.
  - intros Hin. destruct (replace_In _ _ _ _ _ Hr Hin); [now left | now right].
  - intros Hin. apply add_In in Hin as [->|]; [now left | now right].
Qed.

Lemma set_Forall {A} (P : string * A -> Prop) key v o :
  P (key, v) -> Forall P o -> Forall P (set key v o).
Proof.
  intros Hp Ho. unfold set. destruct (String.eqb key "__proto__"); [assumption|].
  destruct (replace key v o) as [o'|] eqn:Hr; [now apply (replace_Forall P key v o)|].
  now apply add_Forall.
Qed.

Lemma set_distinct {A} key (v : A) o :
  List.NoDup (map fst o) -> List.NoDup (map fst (set key v o)).
Proof.
  intros Hnd. unfold set. destruct (String.eqb key "__proto__"); [assumption|].
  destruct (replace key v o) as [o'|] eqn:Hr; [now rewrite (replace_keys _ _ _ _ Hr)|].
  apply add_distinct; [now apply replace_missing in Hr | assumption].
Qed.

Lemma set_no_proto {A} key (v : A) o :
  ~ In "__proto__" (map fst o) -> ~ In "__proto__" (map fst (set key v o)).
Proof.
  intros Ho Hin. apply in_map_iff in Hin as ([k x] & Hk & Hin). cbn [fst] in Hk. subst k.
  apply set_In in Hin as [[[= <- _] Hp]|Hin]; [now apply Hp|].
  apply Ho. apply in_map_iff. now exists ("__proto__", x).
Qed.

(** Assignment keeps the enumeration order. *)
Lemma set_ordered {A} key (v : A) o : ordered o -> ordered (set key v o).
Proof.
  intros Ho. unfold set. destruct (String.eqb key "__proto__"); [assumption|].
  destruct (replace key v o) as [o'|] eqn:Hr.
  - unfold ordered. now rewrite (replace_keys _ _ _ _ Hr).
  - apply replace_missing in Hr. unfold add.
    destruct (array_index key) as [n|] eqn:Hkey; [now apply insert_index_ordered|].
    unfold ordered in *. rewrite map_app. cbn [map fst].
    induction (map fst o) as [|x l IH]; [repeat constructor|].
    apply StronglySorted_inv in Ho as [Ho Hall]. cbn [app]. constructor.
    + apply IH; [assumption|]. intros Hin. apply Hr. now right.
    + apply List.Forall_app. split; [assumption|]. constructor; [|constructor].
      unfold before. rewrite Hkey. now destruct (array_index x).
Qed.

End JsObjectFacts.

(** ** Approval service ([ApprovalService]) *)

Module Approval.
Import JsNumber JsDate.

Inductive ApprovalStatus := Pending | Approved | Denied | Expired.

Definition status_eqb (a b : ApprovalStatus) : bool :=
  match a, b with
  | Pending, Pending | Approved, Approved | Denied, Denied | Expired, Expired => true
  | _, _ => false
  end.

(** A row of table [approvals]. The timestamps are the stored ISO texts.
    The three JSON text columns are held decoded: [required_roles] and
    [approval_actors] as the arrays of strings, [approval_actor_roles] as
    the object, that [JSON.parse] returns on them. *)
Record ApprovalRecord := {
  id : string;
  created_at : string;
  expires_at : string;
  status : ApprovalStatus;
  required_approvals : Z;
  required_roles : list string;
  max_uses : Z;
  use_count : Z;
  last_used_at : option string;
  approval_actors : list string;
  approval_actor_roles : JsObject.t;
  request_fingerprint : string;
  reason : string;
  metadata : string;
  resolved_by : option string;
  resolved_at : option string
}.

Record ApprovalCreateInput := {
  requestFingerprint : string;
  in_reason : string;
  in_metadata : Js.value;
  ttlSeconds : number;
  requiredApprovals : option number;
  requiredRoles : option (list string);
  maxUses : option number
}.

Record ApprovalCreateResult := { record : ApprovalRecord; created : bool }.

(** A call either returns or throws. *)
Inductive result (A : Type) := Ok (a : A) | Throw (message : string).
Arguments Ok {A} a.
Arguments Throw {A} message.

(** The table, in rowid order. *)
Definition Store := list ApprovalRecord.

(** *** Column updates *)

Definition with_status (s : ApprovalStatus) (r : ApprovalRecord) : ApprovalRecord :=
  {| id := id r; created_at := created_at r; expires_at := expires_at r; status := s;
     required_approvals := required_approvals r; required_roles := required_roles r;
     max_uses := max_uses r; use_count := use_count r; last_used_at := last_used_at r;
     approval_actors := approval_actors r; approval_actor_roles := approval_actor_roles r;
     request_fingerprint := request_fingerprint r; reason := reason r;
     metadata := metadata r; resolved_by := resolved_by r; resolved_at := resolved_at r |}.

Definition with_max_uses (n : Z) (r : ApprovalRecord) : ApprovalRecord :=
  {| id := id r; created_at := created_at r; expires_at := expires_at r; status := status r;
     required_approvals := required_approvals r; required_roles := required_roles r;
     max_uses := n; use_count := use_count r; last_used_at := last_used_at r;
     approval_actors := approval_actors r; approval_actor_roles := approval_actor_roles r;
     request_fingerprint := request_fingerprint r; reason := reason r;
     metadata := metadata r; resolved_by := resolved_by r; resolved_at := resolved_at r |}.

Definition with_quorum (n : Z) (roles : list string) (r : ApprovalRecord) : ApprovalRecord :=
  {| id := id r; created_at := created_at r; expires_at := expires_at r; status := status r;
     required_approvals := n; required_roles := roles;
     max_uses := max_uses r; use_count := use_count r; last_used_at := last_used_at r;
     approval_actors := approval_actors r; approval_actor_roles := approval_actor_roles r;
     request_fingerprint := request_fingerprint r; reason := reason r;
     metadata := metadata r; resolved_by := resolved_by r; resolved_at := resolved_at r |}.

Definition with_required_roles (roles : list string) (r : ApprovalRecord) : ApprovalRecord :=
  with_quorum (required_approvals r) roles r.

Definition with_actors (actors : list string) (roles : JsObject.t) (r : ApprovalRecord) : ApprovalRecord :=
  {| id := id r; created_at := created_at r; expires_at := expires_at r; status := status r;
     required_approvals := required_approvals r; required_roles := required_roles r;
     max_uses := max_uses r; use_count := use_count r; last_used_at := last_used_at r;
     approval_actors := actors; approval_actor_roles := roles;
     request_fingerprint := request_fingerprint r; reason := reason r;
     metadata := metadata r; resolved_by := resolved_by r; resolved_at := resolved_at r |}.

Definition with_resolution (s : ApprovalStatus) (by_ at_ : string) (r : ApprovalRecord) : ApprovalRecord :=
  {| id := id r; created_at := created_at r; expires_at := expires_at r; status := s;
     required_approvals := required_approvals r; required_roles := required_roles r;
     max_uses := max_uses r; use_count := use_count r; last_used_at := last_used_at r;
     approval_actors := approval_actors r; approval_actor_roles := approval_actor_roles r;
     request_fingerprint := request_fingerprint r; reason := reason r;
     metadata := metadata r; resolved_by := Some by_; resolved_at := Some at_ |}.

Definition with_use (now : string) (r : ApprovalRecord) : ApprovalRecord :=
  {| id := id r; created_at := created_at r; expires_at := expires_at r; status := status r;
     required_approvals := required_approvals r; required_roles := required_roles r;
     max_uses := max_uses r; use_count := use_count r + 1; last_used_at := Some now;
     approval_actors := approval_actors r; approval_actor_roles := approval_actor_roles r;
     request_fingerprint := request_fingerprint r; reason := reason r;
     metadata := metadata r; resolved_by := resolved_by r; resolved_at := resolved_at r |}.

(** [UPDATE approvals SET ... WHERE ...]: every row the condition selects
    is rewritten; the statement reports how many. *)
Definition update_where (cond : ApprovalRecord -> bool)
    (f : ApprovalRecord -> ApprovalRecord) (db : Store) : Store :=
  map (fun r => if cond r then f r else r) db.

Definition changes (cond : ApprovalRecord -> bool) (db : Store) : nat :=
  length (List.filter cond db).

Definition has_id (i : string) (r : ApprovalRecord) : bool := String.eqb (id r) i.

(** [SELECT * FROM approvals WHERE id = ? LIMIT 1] *)
Definition getById (i : string) (db : Store) : option ApprovalRecord :=
  List.find (has_id i) db.

(** *** Normalizers *)

Definition clamp_floor (lo hi : Z) (value : option number) : Z :=
  let fallback := 1%Z in
  match default (of_Z fallback) value with
  | Fin q => Z.min hi (Z.max lo (Qfloor q))
  | _ => fallback
  end.

Definition normalizeRequiredApprovals (value : option number) : Z := clamp_floor 1 5 value.

Definition normalizeMaxUses (value : option number) : Z := clamp_floor 1 100 value.

Definition clean_role (value : string) : string := toLowerCase (trim value).

Definition nonempty (l : list string) : list string := List.filter truthy l.

Definition normalizeRoles (values : option (list string)) : list string :=
  sort (set_of_list (nonempty (map clean_role (default [] values)))).

Definition mergeRoles (a b : list string) : list string := sort (set_of_list (a ++ b)).

Definition parseRoleArray (raw : list string) : list string :=
  sort (nonempty (map clean_role raw)).

Definition parseApprovalActors (raw : list string) : list string :=
  nonempty (map trim raw).

Definition parseApprovalActorRoles (raw : JsObject.t) : JsObject.t :=
  fold_left (fun out entry =>
               let actorKey := trim (fst entry) in
               let roleValue := clean_role (snd entry) in
               if truthy actorKey && truthy roleValue
               then JsObject.set actorKey roleValue out else out)
            raw [].

(** *** Operations. Every reading of the clock is an argument, in the order
    the readings are taken: the ISO text where the method only takes
    [new Date().toISOString()], the time value where it computes with it.
    SQLite compares the texts byte by byte, as [String.compare] does. *)

Definition is_stale (nowIso : string) (r : ApprovalRecord) : bool :=
  status_eqb (status r) Pending && String.ltb (expires_at r) nowIso.

Definition cleanupExpired (nowIso : string) (db : Store) : Store :=
  update_where (is_stale nowIso) (with_status Expired) db.

(** [SELECT * ... WHERE request_fingerprint = ? AND status = 'pending'
    ORDER BY created_at DESC LIMIT 1]; of several rows with the greatest
    [created_at] the first in the table is taken. *)
Definition latest (best : option ApprovalRecord) (r : ApprovalRecord) : option ApprovalRecord :=
  match best with
  | None => Some r
  | Some b => if String.ltb (created_at b) (created_at r) then Some r else Some b
  end.

Definition is_pending_for (fingerprint : string) (r : ApprovalRecord) : bool :=
  String.eqb (request_fingerprint r) fingerprint && status_eqb (status r) Pending.

Definition latest_pending (fingerprint : string) (db : Store) : option ApprovalRecord :=
  fold_left latest (List.filter (is_pending_for fingerprint) db) None.

(** [JSON.stringify(input.metadata || {})] *)
Definition metadata_text (v : Js.value) : string :=
  if Js.js_truthy v then default "{}" (Js.JSON_stringify v) else "{}".

(** [new Date(createdAt.getTime() + Math.max(60, ttlSeconds) * 1000)];
    [None] is the invalid date. *)
Definition expiry (createdAt : Z) (ttl : number) : option Z :=
  TimeClip (scale_add createdAt 1000 (max_with 60 ttl)).

(** [createdAt] is the time value of [new Date()]. *)
Definition getOrCreatePending (nowCleanup : string) (createdAt : Z) (uuid : string)
    (input : ApprovalCreateInput) (db : Store) : Store * result ApprovalCreateResult :=
  let db := cleanupExpired nowCleanup db in
  let requiredApprovals := normalizeRequiredApprovals (requiredApprovals input) in
  let requiredRoles := normalizeRoles (requiredRoles input) in
  let maxUses := normalizeMaxUses (maxUses input) in
  match latest_pending (requestFingerprint input) db with
  | Some existing =>
      let existingRequiredRoles := parseRoleArray (required_roles existing) in
      let mergedRoles := mergeRoles existingRequiredRoles requiredRoles in
      let db :=
        if (max_uses existing <? maxUses)%Z
        then update_where (has_id (id existing)) (with_max_uses maxUses) db
        else db in
      if (required_approvals existing <? requiredApprovals)%Z then
        let db := update_where (has_id (id existing))
                    (with_quorum requiredApprovals mergedRoles) db in
        match getById (id existing) db with
        | Some upgraded => (db, Ok {| record := upgraded; created := false |})
        | None => (db, Throw ("Approval not found after quorum upgrade: " +:+ id existing))
        end
      else if negb (bool_decide (existingRequiredRoles = mergedRoles)) then
        let db := update_where (has_id (id existing)) (with_required_roles mergedRoles) db in
        match getById (id existing) db with
        | Some upgraded => (db, Ok {| record := upgraded; created := false |})
        | None => (db, Throw ("Approval not found after role upgrade: " +:+ id existing))
        end
      else (db, Ok {| record := existing; created := false |})
  | None =>
      match toISOString createdAt, expiry createdAt (ttlSeconds input) ≫= toISOString with
      | Some createdText, Some expiresText =>
          if existsb (has_id uuid) db
          then (db, Throw "UNIQUE constraint failed: approvals.id")
          else
            let row :=
              {| id := uuid; created_at := createdText; expires_at := expiresText;
                 status := Pending;
                 required_approvals := requiredApprovals; required_roles := requiredRoles;
                 max_uses := maxUses; use_count := 0; last_used_at := None;
                 approval_actors := []; approval_actor_roles := [];
                 request_fingerprint := requestFingerprint input;
                 reason := in_reason input; metadata := metadata_text (in_metadata input);
                 resolved_by := None; resolved_at := None |} in
            let db := db ++ [row] in
            (db, Ok {| record := default row (getById uuid db); created := true |})
      | _, _ => (db, Throw "Invalid time value")
      end
  end.

(** [String(actorRole || "unknown").trim().toLowerCase() || "unknown"];
    an omitted role takes the parameter's default. *)
Definition normalize_actor_role (actorRole : option string) : string :=
  let given := default "unknown" actorRole in
  let cleaned := clean_role (if truthy given then given else "unknown") in
  if truthy cleaned then cleaned else "unknown".

Definition approve (nowCleanup nowIso : string) (i actor : string) (actorRole : option string)
    (db : Store) : Store * result ApprovalRecord :=
  let db := cleanupExpired nowCleanup db in
  let normalizedActor := trim actor in
  if negb (truthy normalizedActor) then (db, Throw "Approval actor is required.")
  else
    match getById i db with
    | None => (db, Throw ("Approval not found: " +:+ i))
    | Some row =>
        if negb (status_eqb (status row) Pending) then (db, Ok row)
        else
          let actors := set_add normalizedActor (set_of_list (parseApprovalActors (approval_actors row))) in
          let actorList := sort actors in
          let roleMap :=
            JsObject.set normalizedActor (normalize_actor_role actorRole)
              (parseApprovalActorRoles (approval_actor_roles row)) in
          let requiredApprovals := normalizeRequiredApprovals (Some (of_Z (required_approvals row))) in
          let requiredRoles := parseRoleArray (required_roles row) in
          let roleCoverage := JsObject.values roleMap in
          let rolesSatisfied := forallb (set_has roleCoverage) requiredRoles in
          let pending_row r := has_id i r && status_eqb (status r) Pending in
          let db :=
            if (requiredApprovals <=? Z.of_nat (length actorList))%Z && rolesSatisfied
            then update_where pending_row
                   (fun r => with_resolution Approved normalizedActor nowIso
                               (with_actors actorList roleMap r)) db
            else update_where pending_row (with_actors actorList roleMap) db in
          match getById i db with
          | Some updated => (db, Ok updated)
          | None => (db, Throw ("Approval not found: " +:+ i))
          end
    end.

Definition consumable (nowIso : string) (i fingerprint : string) (r : ApprovalRecord) : bool :=
  has_id i r
  && status_eqb (status r) Approved
  && String.eqb (request_fingerprint r) fingerprint
  && String.leb nowIso (expires_at r)
  && (use_count r <? max_uses r)%Z.

Definition consumeApproved (nowCleanup nowIso : string) (i fingerprint : string)
    (db : Store) : Store * bool :=
  let db := cleanupExpired nowCleanup db in
  let cond := consumable nowIso i fingerprint in
  (update_where cond (with_use nowIso) db, (0 <? changes cond db)%nat).

End Approval.

(** ** Facts about the string primitives *)

Module JsStringFacts.

Lemma set_add_In x y l : In y (set_add x l) <-> y = x \/ In y l.
Proof.
  induction l as [|z l IH]; simpl.
  - intuition congruence.
  - destruct (String.eqb_spec x z) as [->|Hne]; simpl.
    + intuition congruence.
    + rewrite IH. intuition congruence.
Qed.

Lemma set_add_NoDup x l : List.NoDup l -> List.NoDup (set_add x l).
Proof.
  induction l as [|z l IH]; simpl; intros Hnd.
  - repeat constructor. intros [].
  - destruct (String.eqb_spec x z) as [->|Hne]; [assumption|].
    inversion Hnd as [|? ? Hz Hl]; subst. constructor.
    + rewrite set_add_In. intros [->|Hin]; [now apply Hne | now apply Hz].
    + now apply IH.
Qed.

Lemma fold_set_add_In y l acc :
  In y (fold_left (fun seen x => set_add x seen) l acc) <-> In y l \/ In y acc.
Proof.
  revert acc. induction l as [|x l IH]; simpl; intros acc.
  - intuition congruence.
  - rewrite IH, set_add_In. intuition congruence.
Qed.

Lemma fold_set_add_NoDup l acc :
  List.NoDup acc -> List.NoDup (fold_left (fun seen x => set_add x seen) l acc).
Proof.
  revert acc. induction l as [|x l IH]; simpl; intros acc Hnd; [assumption|].
  now apply IH, set_add_NoDup.
Qed.

Lemma set_of_list_In y l : In y (set_of_list l) <-> In y l.
Proof. unfold set_of_list. rewrite fold_set_add_In. simpl. intuition. Qed.

Lemma set_of_list_NoDup l : List.NoDup (set_of_list l).
Proof. apply fold_set_add_NoDup. constructor. Qed.

Lemma set_has_In s x : set_has s x = true <-> In x s.
Proof.
  unfold set_has. rewrite existsb_exists. split.
  - intros (y & Hin & Heq). apply String.eqb_eq in Heq. now subst.
  - intros Hin. exists x. split; [assumption | apply String.eqb_refl].
Qed.

Lemma insert_sorted_perm x l : Permutation (insert_sorted x l) (x :: l).
Proof.
  induction l as [|y l IH]; simpl; [reflexivity|].
  destruct (String.leb x y); [reflexivity|].
  rewrite IH. apply perm_swap.
Qed.

Lemma sort_perm l : Permutation (sort l) l.
Proof.
  induction l as [|x l IH]; simpl; [reflexivity|].
  rewrite insert_sorted_perm. now constructor.
Qed.

Lemma sort_In x l : In x (sort l) <-> In x l.
Proof. split; apply Permutation_in; [|symmetry]; apply sort_perm. Qed.

Lemma sort_NoDup l : List.NoDup l -> List.NoDup (sort l).
Proof. apply Permutation_NoDup. symmetry. apply sort_perm. Qed.

Lemma sort_length l : length (sort l) = length l.
Proof. apply Permutation_length, sort_perm. Qed.

End JsStringFacts.

(** ** Facts about the approval service *)

Module ApprovalFacts.
Import JsNumber JsDate Approval JsStringFacts JsDateFacts.

Lemma status_eqb_eq a b : status_eqb a b = true <-> a = b.
Proof. destruct a, b; simpl; split; congruence. Qed.

Lemma has_id_eq i r : has_id i r = true <-> id r = i.
Proof. apply String.eqb_eq. Qed.

(** The row lazy expiry leaves in place of [r]. *)
Definition expire (nowIso : string) (r : ApprovalRecord) : ApprovalRecord :=
  if is_stale nowIso r then with_status Expired r else r.

Lemma cleanupExpired_map nowIso db : cleanupExpired nowIso db = map (expire nowIso) db.
Proof. reflexivity. Qed.

Lemma expire_id nowIso r : id (expire nowIso r) = id r.
Proof. unfold expire. now destruct (is_stale nowIso r). Qed.

Lemma expire_use nowIso r :
  use_count (expire nowIso r) = use_count r /\ max_uses (expire nowIso r) = max_uses r.
Proof. unfold expire. now destruct (is_stale nowIso r). Qed.

Lemma expire_not_pending nowIso r : status r <> Pending -> expire nowIso r = r.
Proof.
  intros H. unfold expire, is_stale.
  destruct (status_eqb (status r) Pending) eqn:E; [|reflexivity].
  now apply status_eqb_eq in E.
Qed.

Lemma expire_fresh nowIso r :
  String.ltb (expires_at r) nowIso = false -> expire nowIso r = r.
Proof. intros H. unfold expire, is_stale. now rewrite H, andb_false_r. Qed.

Lemma expire_stale nowIso r :
  status r = Pending -> String.ltb (expires_at r) nowIso = true ->
  expire nowIso r = with_status Expired r.
Proof. intros Hs Ht. unfold expire, is_stale. now rewrite Hs, Ht. Qed.

Lemma find_map_id (f : ApprovalRecord -> ApprovalRecord) i db :
  (forall r, id (f r) = id r) ->
  List.find (has_id i) (map f db) = option_map f (List.find (has_id i) db).
Proof.
  intros Hf. induction db as [|r db IH]; simpl; [reflexivity|].
  unfold has_id at 1. rewrite Hf. fold (has_id i r).
  now destruct (has_id i r).
Qed.

Lemma getById_update_where i cond f db :
  (forall r, id (f r) = id r) ->
  getById i (update_where cond f db)
  = option_map (fun r => if cond r then f r else r) (getById i db).
Proof.
  intros Hf. unfold getById, update_where. apply find_map_id.
  intros r. now destruct (cond r).
Qed.

Lemma getById_cleanupExpired i nowIso db :
  getById i (cleanupExpired nowIso db) = option_map (expire nowIso) (getById i db).
Proof. unfold getById. rewrite cleanupExpired_map. apply find_map_id, expire_id. Qed.

Lemma getById_Some i db r : getById i db = Some r -> In r db /\ id r = i.
Proof.
  unfold getById. intros H. apply List.find_some in H as [Hin Hid].
  split; [assumption | now apply has_id_eq].
Qed.

(** *** Consumption *)

Lemma consumable_spec nowIso i fingerprint r :
  consumable nowIso i fingerprint r = true <->
  id r = i /\ status r = Approved /\ request_fingerprint r = fingerprint
  /\ String.leb nowIso (expires_at r) = true /\ (use_count r < max_uses r)%Z.
Proof.
  unfold consumable. rewrite !andb_true_iff, has_id_eq, status_eqb_eq,
    String.eqb_eq, Z.ltb_lt. tauto.
Qed.

Lemma consumable_expire nowCleanup nowIso i fingerprint r :
  consumable nowIso i fingerprint (expire nowCleanup r) = consumable nowIso i fingerprint r.
Proof.
  unfold expire, is_stale.
  destruct (status r) eqn:Hs; simpl; try reflexivity.
  destruct (String.ltb (expires_at r) nowCleanup); [|reflexivity].
  unfold consumable. simpl. rewrite Hs. simpl. now rewrite !andb_false_r.
Qed.

Lemma changes_pos cond db : (0 <? changes cond db)%nat = existsb cond db.
Proof.
  unfold changes. induction db as [|r db IH]; simpl; [reflexivity|].
  destruct (cond r); simpl; [reflexivity | exact IH].
Qed.

(** C2. [consumeApproved] rewrites exactly the rows with the given id that
    are approved, carry the given fingerprint, have an [expires_at] not
    before the time of the call and have uses left: their [use_count] grows
    by one and [last_used_at] becomes the time of the call, nothing else of
    them changes; on every other row [use_count], [last_used_at] and
    [max_uses] stay as they are. It returns [true] exactly when there is
    such a row; when it returns [false] no [use_count] changes. Hence
    [use_count <= max_uses] on every row is preserved. The two times are
    compared as the stored ISO texts, which is the order of the instants
    while both lie in the years 0000 to 9999. *)
Theorem consumeApproved_exact (nowCleanup nowIso : string) (i fingerprint : string)
    (db : Store) :
  let out := consumeApproved nowCleanup nowIso i fingerprint db in
  let met r :=
    id r = i /\ status r = Approved /\ request_fingerprint r = fingerprint
    /\ String.leb nowIso (expires_at r) = true /\ (use_count r < max_uses r)%Z in
  Forall2 (fun r r' =>
             (met r ->
                use_count r' = (use_count r + 1)%Z /\ last_used_at r' = Some nowIso
                /\ r' = with_use nowIso r
                /\ id r' = id r /\ status r' = status r /\ max_uses r' = max_uses r
                /\ request_fingerprint r' = request_fingerprint r
                /\ expires_at r' = expires_at r)
             /\ (~ met r ->
                 r' = expire nowCleanup r
                 /\ use_count r' = use_count r /\ last_used_at r' = last_used_at r
                 /\ max_uses r' = max_uses r /\ id r' = id r))
          db (fst out)
  /\ (snd out = true <-> exists r, In r db /\ met r)
  /\ (forall r now expiresAt,
        (year0 <= now < year10000)%Z -> (year0 <= expiresAt < year10000)%Z ->
        toISOString now = Some nowIso -> toISOString expiresAt = Some (expires_at r) ->
        (String.leb nowIso (expires_at r) = true <-> (now <= expiresAt)%Z))
  /\ (snd out = false -> map use_count (fst out) = map use_count db)
  /\ ((forall r, In r db -> (use_count r <= max_uses r)%Z) ->
      forall r, In r (fst out) -> (use_count r <= max_uses r)%Z).
Proof.
  assert (Hdb : fst (consumeApproved nowCleanup nowIso i fingerprint db)
                = map (fun r => if consumable nowIso i fingerprint r
                                then with_use nowIso r else expire nowCleanup r) db).
  { unfold consumeApproved, update_where. simpl. rewrite cleanupExpired_map, map_map.
    apply map_ext. intros r. rewrite consumable_expire.
    destruct (consumable nowIso i fingerprint r) eqn:Hc; [|reflexivity].
    apply consumable_spec in Hc as (_ & Hs & _).
    rewrite expire_not_pending; [reflexivity | congruence]. }
  assert (Hok : snd (consumeApproved nowCleanup nowIso i fingerprint db)
                = existsb (consumable nowIso i fingerprint) db).
  { clear Hdb. unfold consumeApproved. simpl. rewrite changes_pos, cleanupExpired_map.
    induction db as [|r db IH]; simpl; [reflexivity|].
    now rewrite consumable_expire, IH. }
  cbv zeta. rewrite Hdb, Hok. split; [|split; [split|split; [|split]]].
  - clear Hdb Hok. induction db as [|r db IH]; [constructor|].
    cbn [map]. constructor; [|exact IH].
    destruct (consumable nowIso i fingerprint r) eqn:Hc.
    + split; [intros _; now repeat split|].
      intros Hnot. exfalso. apply Hnot. now apply consumable_spec.
    + split.
      * intros Hmet. apply consumable_spec in Hmet. congruence.
      * intros _. destruct (expire_use nowCleanup r) as [Hu Hm].
        repeat split; try assumption; try apply expire_id.
        unfold expire. now destruct (is_stale nowCleanup r).
  - intros H. apply existsb_exists in H as (r & Hin & Hc).
    exists r. split; [assumption | now apply consumable_spec].
  - intros (r & Hin & Hc). apply existsb_exists. exists r.
    split; [assumption | now apply consumable_spec].
  - intros r now expiresAt Hnow Hexp Htn Hte.
    rewrite (toISOString_leb now expiresAt _ _ Hnow Hexp Htn Hte). apply Z.leb_le.
  - intros Hnone. rewrite map_map. apply map_ext_in. intros r Hin.
    destruct (consumable nowIso i fingerprint r) eqn:Hc.
    + exfalso. apply not_true_iff_false in Hnone. apply Hnone.
      apply existsb_exists. now exists r.
    + apply expire_use.
  - intros Hinv r' Hin'. apply in_map_iff in Hin' as (r & <- & Hin).
    specialize (Hinv r Hin).
    destruct (consumable nowIso i fingerprint r) eqn:Hc.
    + apply consumable_spec in Hc as (_ & _ & _ & _ & Hlt). simpl. lia.
    + destruct (expire_use nowCleanup r) as [-> ->]. exact Hinv.
Qed.

(** *** Approval quorum *)


Lemma truthy_true s : truthy s = true <-> s <> "".
Proof. destruct s; simpl; split; congruence. Qed.














Definition quorum_row : ApprovalRecord :=
  {| id := "a1"; created_at := "2026-01-01T00:00:00.000Z";
     expires_at := "2026-01-01T00:05:00.000Z"; status := Pending;
     required_approvals := 2; required_roles := ["platform"; "security"];
     max_uses := 1; use_count := 0;
     last_used_at := None; approval_actors := []; approval_actor_roles := [];
     request_fingerprint := "fp"; reason := "r"; metadata := "{}";
     resolved_by := None; resolved_at := None |}.


(** An actor whose name is an array index comes first in the role map,
    as in the object the service serializes. *)
Example approve_index_actor :
  let row := with_actors ["bob"] [("bob", "security")] quorum_row in
  option_map approval_actor_roles
    (getById "a1" (fst (approve "2026-01-01T00:01:00.000Z" "2026-01-01T00:01:00.000Z"
                          "a1" " 42 " (Some " Platform ") [row])))
  = Some [("42", "platform"); ("bob", "security")].
Proof. vm_compute. reflexivity. Qed.

(** The scenario end to end: alice (security) leaves the record pending,
    bob (platform) approves it, the first consumption succeeds and the
    second fails. *)
Example approval_quorum_end_to_end :
  let s1 := approve "2026-01-01T00:01:00.000Z" "2026-01-01T00:01:00.001Z"
              "a1" "alice" (Some "security") [quorum_row] in
  let s2 := approve "2026-01-01T00:02:00.000Z" "2026-01-01T00:02:00.001Z"
              "a1" "bob" (Some "platform") (fst s1) in
  let s3 := consumeApproved "2026-01-01T00:03:00.000Z" "2026-01-01T00:03:00.001Z"
              "a1" "fp" (fst s2) in
  let s4 := consumeApproved "2026-01-01T00:04:00.000Z" "2026-01-01T00:04:00.001Z"
              "a1" "fp" (fst s3) in
  option_map status (getById "a1" (fst s1)) = Some Pending
  /\ option_map status (getById "a1" (fst s2)) = Some Approved
  /\ option_map approval_actors (getById "a1" (fst s2)) = Some ["alice"; "bob"]
  /\ snd s3 = true /\ snd s4 = false
  /\ option_map use_count (getById "a1" (fst s4)) = Some 1%Z.
Proof. vm_compute. repeat split. Qed.



(** No call made before the year 10000 approves a record whose expiry
    date lies in that year or later: lazy expiry takes it first. The records
    the service has approved therefore expire within the years in which the
    texts are ordered as the instants. *)
Lemma approve_far_dated nowCleanup nowIso i actor actorRole db row now expiresAt :
  trim actor <> "" ->
  getById i db = Some row ->
  status row = Pending ->
  (year0 <= now < year10000)%Z -> (year10000 <= expiresAt)%Z ->
  toISOString now = Some nowCleanup -> toISOString expiresAt = Some (expires_at row) ->
  snd (approve nowCleanup nowIso i actor actorRole db) = Ok (with_status Expired row).
Proof.
  intros Hactor Hrow Hs Hnow Hfar Htn Hte. apply truthy_true in Hactor.
  unfold approve. rewrite Hactor. cbn [negb].
  rewrite getById_cleanupExpired, Hrow. cbn [option_map].
  rewrite (expire_stale _ _ Hs (toISOString_expanded_ltb _ _ _ _ Hfar Hnow Hte Htn)).
  reflexivity.
Qed.

(** *** Creation and upgrade *)

Lemma clamp_floor_range lo hi value :
  (lo <= hi)%Z -> (lo <= 1 <= hi)%Z -> (lo <= clamp_floor lo hi value <= hi)%Z.
Proof. intros H H1. unfold clamp_floor. destruct (default _ value); lia. Qed.

Lemma normalizeMaxUses_range value : (1 <= normalizeMaxUses value <= 100)%Z.
Proof. apply clamp_floor_range; lia. Qed.

Lemma latest_fold l best r :
  fold_left latest l best = Some r -> best = Some r \/ In r l.
Proof.
  revert best. induction l as [|x l IH]; simpl; intros best H; [now left|].
  apply IH in H as [H|H]; [|now right; right].
  destruct best as [b|]; simpl in H.
  - destruct (String.ltb (created_at b) (created_at x)); injection H as <-; auto.
  - injection H as <-. auto.
Qed.

Lemma latest_pending_Some fingerprint db r :
  latest_pending fingerprint db = Some r ->
  In r db /\ request_fingerprint r = fingerprint /\ status r = Pending.
Proof.
  unfold latest_pending. intros H. apply latest_fold in H as [H|H]; [discriminate|].
  apply List.filter_In in H as [Hin Hp]. unfold is_pending_for in Hp.
  apply andb_true_iff in Hp as [Hf Hs].
  apply String.eqb_eq in Hf. apply status_eqb_eq in Hs. auto.
Qed.

Lemma Forall_update_where (P : ApprovalRecord -> Prop) cond f db :
  Forall P db -> (forall r, P r -> P (f r)) -> Forall P (update_where cond f db).
Proof.
  intros Hdb Hf. unfold update_where. apply List.Forall_map.
  eapply List.Forall_impl; [|exact Hdb]. intros r Hr. destruct (cond r); auto.
Qed.

Lemma Forall_cleanupExpired (P : ApprovalRecord -> Prop) nowIso db :
  Forall P db -> (forall r, P r -> P (with_status Expired r)) ->
  Forall P (cleanupExpired nowIso db).
Proof. apply Forall_update_where. Qed.

Lemma getById_In i db r : getById i db = Some r -> In r db.
Proof. intros H. now apply getById_Some in H. Qed.

Lemma getById_app_new i db row :
  existsb (has_id i) db = false -> id row = i -> getById i (db ++ [row]) = Some row.
Proof.
  intros Hnew Hid. unfold getById. induction db as [|r db IH]; simpl in *.
  - apply has_id_eq in Hid. now rewrite Hid.
  - apply orb_false_iff in Hnew as [Hr Hdb]. rewrite Hr. now apply IH.
Qed.

(** What [getOrCreatePending] can do to the table, for a property [P] of
    rows that the column updates of the upgrade path preserve. *)
Lemma getOrCreatePending_rows (P : ApprovalRecord -> Prop)
    nowCleanup createdAt uuid input db :
  Forall P db ->
  (forall r, P r -> P (with_status Expired r)) ->
  (forall r, P r -> P (with_max_uses (normalizeMaxUses (maxUses input)) r)) ->
  (forall r n roles, P r -> P (with_quorum n roles r)) ->
  (forall r, toISOString createdAt = Some (created_at r) -> status r = Pending ->
             max_uses r = normalizeMaxUses (maxUses input) ->
             expiry createdAt (ttlSeconds input) ≫= toISOString = Some (expires_at r) ->
             P r) ->
  let out := getOrCreatePending nowCleanup createdAt uuid input db in
  Forall P (fst out) /\ forall res, snd out = Ok res -> P (record res).
Proof.
  intros Hdb Hexp Hmax Hq Hnew. cbv zeta. unfold getOrCreatePending.
  pose proof (Forall_cleanupExpired P nowCleanup db Hdb Hexp) as Hclean.
  set (db1 := cleanupExpired nowCleanup db) in *.
  destruct (latest_pending (requestFingerprint input) db1) as [existing|] eqn:Hlatest.
  - apply latest_pending_Some in Hlatest as (Hin & _ & _).
    set (db2 := if (max_uses existing <? _)%Z then _ else db1).
    assert (Hdb2 : Forall P db2).
    { unfold db2. destruct (max_uses existing <? _)%Z; [|assumption].
      now apply Forall_update_where. }
    destruct (required_approvals existing <? _)%Z.
    + match goal with |- context [getById ?i ?d] =>
        assert (Hd : Forall P d) by (apply Forall_update_where; auto);
        destruct (getById i d) as [upgraded|] eqn:Hup end; simpl.
      * split; [assumption|]. intros res [= <-]. simpl.
        apply getById_In in Hup. rewrite List.Forall_forall in Hd. auto.
      * split; [assumption | discriminate].
    + destruct (negb (bool_decide _)).
      * match goal with |- context [getById ?i ?d] =>
          assert (Hd : Forall P d)
            by (apply Forall_update_where; [assumption | intros; now apply Hq]);
          destruct (getById i d) as [upgraded|] eqn:Hup end; simpl.
        -- split; [assumption|]. intros res [= <-]. simpl.
           apply getById_In in Hup. rewrite List.Forall_forall in Hd. auto.
        -- split; [assumption | discriminate].
      * simpl. split; [assumption|]. intros res [= <-]. simpl.
        rewrite List.Forall_forall in Hclean. auto.
  - destruct (toISOString createdAt) as [createdText|] eqn:Hcreated;
      [|simpl; split; [assumption | discriminate]].
    destruct (expiry createdAt (ttlSeconds input) ≫= toISOString) as [expiresText|]
      eqn:Hexpiry; [|simpl; split; [assumption | discriminate]].
    destruct (existsb (has_id uuid) db1) eqn:Hfresh;
      [simpl; split; [assumption | discriminate]|].
    rewrite getById_app_new by (assumption || reflexivity).
    simpl. split.
    + apply List.Forall_app. split; [assumption|].
      constructor; [|constructor]. apply Hnew; auto.
    + intros res [= <-]. simpl. apply Hnew; auto.
Qed.

Definition in_use_range (r : ApprovalRecord) : Prop := (1 <= max_uses r <= 100)%Z.

(** C8. [normalizeMaxUses] yields a value in 1..100, and 1 for a missing
    or non-finite argument. A record [getOrCreatePending] creates carries
    that value, every [max_uses] it writes is in 1..100 (a row's [max_uses]
    is in 1..100 or is what the row had before the call), so a table
    whose rows are in 1..100 stays so, and the returned record is in range;
    a consumption then never takes [use_count] beyond 100. *)
Theorem max_uses_clamped (nowCleanup : string) (createdAt : Z) (uuid : string)
    (input : ApprovalCreateInput) (db : Store) :
  let out := getOrCreatePending nowCleanup createdAt uuid input db in
  (1 <= normalizeMaxUses (maxUses input) <= 100)%Z
  /\ normalizeMaxUses None = 1%Z /\ normalizeMaxUses (Some NaN) = 1%Z
  /\ normalizeMaxUses (Some PosInf) = 1%Z /\ normalizeMaxUses (Some NegInf) = 1%Z
  /\ (forall res, snd out = Ok res -> created res = true ->
        max_uses (record res) = normalizeMaxUses (maxUses input))
  /\ (forall r', In r' (fst out) ->
        in_use_range r'
        \/ exists r, In r db /\ id r = id r' /\ max_uses r = max_uses r')
  /\ ((forall r, In r db -> in_use_range r) ->
      (forall r', In r' (fst out) -> in_use_range r')
      /\ forall res, snd out = Ok res -> in_use_range (record res))
  /\ (forall nowIso i fingerprint r,
        in_use_range r -> consumable nowIso i fingerprint r = true ->
        (use_count (with_use nowIso r) <= 100)%Z).
Proof.
  cbv zeta. pose proof (normalizeMaxUses_range (maxUses input)) as Hrange.
  split; [exact Hrange|].
  do 4 (split; [reflexivity|]).
  split; [|split; [|split]].
  - unfold getOrCreatePending.
    destruct (latest_pending _ _).
    + destruct (_ <? _)%Z; [destruct (getById _ _)|destruct (negb _); [destruct (getById _ _)|]];
        simpl; intros res [= <-]; discriminate.
    + destruct (toISOString createdAt); [|discriminate].
      destruct (_ ≫= _); [|discriminate].
      destruct (existsb (has_id uuid) _) eqn:Hfresh; [discriminate|].
      rewrite getById_app_new by (assumption || reflexivity).
      simpl. now intros res [= <-].
  - apply List.Forall_forall.
    apply (getOrCreatePending_rows
             (fun r' => in_use_range r'
                        \/ exists r, In r db /\ id r = id r' /\ max_uses r = max_uses r')).
    + apply List.Forall_forall. intros r Hin. right. now exists r.
    + intros r [H|H]; [now left | now right].
    + intros r _. now left.
    + intros r n roles [H|H]; [now left | now right].
    + intros r _ _ Hm _. left. unfold in_use_range. now rewrite Hm.
  - intros Hinv. rewrite <- List.Forall_forall.
    apply (getOrCreatePending_rows in_use_range); auto.
    + now apply List.Forall_forall.
    + intros r _ _ Hm _. unfold in_use_range. now rewrite Hm.
  - intros nowIso i fingerprint r Hr Hc.
    apply consumable_spec in Hc as (_ & _ & _ & _ & Hlt).
    unfold in_use_range in Hr. simpl. lia.
Qed.

(** *** Expiry of a new record *)

Lemma trunc_ge (k : Z) (t : Q) : (inject_Z k <= t)%Q -> (k <= trunc t)%Z.
Proof.
  intros H. unfold trunc. destruct (Qle_bool 0 t).
  - rewrite <- (Qfloor_Z k). now apply Qfloor_resp_le.
  - rewrite Zle_Qle. eapply Qle_trans; [exact H | apply Qle_ceiling].
Qed.

Lemma trunc_inject (k : Z) (t : Q) : (t == inject_Z k)%Q -> trunc t = k.
Proof.
  intros H. unfold trunc.
  destruct (Qle_bool 0 t); rewrite H; [apply Qfloor_Z | apply Qceiling_Z].
Qed.

Lemma TimeClip_Fin q e : TimeClip (Fin q) = Some e -> e = trunc q.
Proof. unfold TimeClip. destruct (_ && _); congruence. Qed.

Lemma expiry_floor createdAt ttl e :
  expiry createdAt ttl = Some e -> (createdAt + 60000 <= e)%Z.
Proof.
  unfold expiry. destruct ttl as [| | |q]; try discriminate; simpl; intros H;
    apply TimeClip_Fin in H; subst e; apply trunc_ge; rewrite inject_Z_plus;
    change (inject_Z 60000) with (60000 # 1).
  - lra.
  - destruct (Qle_bool 60 q) eqn:Hq; [apply Qle_bool_iff in Hq|]; lra.
Qed.

Lemma max_seconds (createdAt n : Z) :
  (inject_Z createdAt + (if Qle_bool 60 (inject_Z n) then inject_Z n else 60) * 1000
   == inject_Z (createdAt + 1000 * Z.max 60 n))%Q.
Proof.
  rewrite inject_Z_plus, inject_Z_mult. change (inject_Z 1000) with (1000 # 1).
  destruct (Qle_bool 60 (inject_Z n)) eqn:Hq.
  - apply Qle_bool_iff in Hq. change 60%Q with (inject_Z 60) in Hq.
    rewrite <- Zle_Qle in Hq. rewrite Z.max_r by exact Hq. lra.
  - assert (Hlt : (n < 60)%Z).
    { apply Z.nle_gt. intros Hle. rewrite Zle_Qle in Hle.
      apply Qle_bool_iff in Hle. change (inject_Z 60) with 60%Q in Hle. congruence. }
    rewrite Z.max_l by lia. change (inject_Z 60) with 60%Q. lra.
Qed.

Lemma expiry_of_Z createdAt n e :
  expiry createdAt (of_Z n) = Some e -> e = (createdAt + 1000 * Z.max 60 n)%Z.
Proof.
  unfold expiry, of_Z. simpl. intros H. apply TimeClip_Fin in H. subst e.
  apply trunc_inject, max_seconds.
Qed.

(** For an integer TTL the expiry date is valid as long as it is within
    the range of dates. *)
Lemma expiry_defined createdAt n :
  (- maxTime <= createdAt + 1000 * Z.max 60 n <= maxTime)%Z ->
  expiry createdAt (of_Z n) = Some (createdAt + 1000 * Z.max 60 n)%Z.
Proof.
  intros [Hlow Hhigh]. unfold expiry, of_Z. simpl. unfold TimeClip.
  pose proof (max_seconds createdAt n) as Heq.
  set (q := (inject_Z createdAt + _ * 1000)%Q) in *.
  assert (Hl : Qle_bool (inject_Z (- maxTime)) q = true).
  { apply Qle_bool_iff. rewrite Heq, <- Zle_Qle. exact Hlow. }
  assert (Hh : Qle_bool q (inject_Z maxTime) = true).
  { apply Qle_bool_iff. rewrite Heq, <- Zle_Qle. exact Hhigh. }
  rewrite Hl, Hh. cbn [andb]. f_equal. now apply trunc_inject.
Qed.

(** A call that finds no pending record for the fingerprint, with valid
    dates and an unused id, does create the record. *)
Lemma getOrCreatePending_creates nowCleanup createdAt uuid input db createdText expiresText :
  latest_pending (requestFingerprint input) (cleanupExpired nowCleanup db) = None ->
  toISOString createdAt = Some createdText ->
  expiry createdAt (ttlSeconds input) ≫= toISOString = Some expiresText ->
  existsb (has_id uuid) (cleanupExpired nowCleanup db) = false ->
  exists res,
    snd (getOrCreatePending nowCleanup createdAt uuid input db) = Ok res
    /\ created res = true /\ id (record res) = uuid
    /\ expires_at (record res) = expiresText.
Proof.
  intros Hnone Hcreated Hexp Hfresh. unfold getOrCreatePending.
  rewrite Hnone, Hcreated, Hexp, Hfresh.
  rewrite getById_app_new by (assumption || reflexivity).
  eexists. simpl. repeat split.
Qed.

(** The expiry of a new record. A call with an integer TTL [n] that finds
    no pending record for the fingerprint creates one (the id being unused
    and the dates in range). A record [getOrCreatePending]
    creates is pending and carries the ISO texts of the time of the call and
    of the instant [max(60, ttlSeconds)] seconds later (to the millisecond,
    the resolution of a date): for an integer TTL [n] exactly
    [1000 * max 60 n] ms later, and for every TTL at least 60 s later. While
    that instant lies before the year 10000, lazy expiry leaves the record
    pending through the first 60 seconds. From the year 10000 on its text
    starts with [+] and sorts before the text of every present time, so the
    next lazy expiry marks the record expired. *)
Theorem new_approval_expiry (nowCleanup : string) (createdAt : Z) (uuid : string)
    (input : ApprovalCreateInput) (db : Store) :
  let out := getOrCreatePending nowCleanup createdAt uuid input db in
  (forall n,
     ttlSeconds input = of_Z n ->
     (- maxTime <= createdAt)%Z -> (createdAt + 1000 * Z.max 60 n <= maxTime)%Z ->
     latest_pending (requestFingerprint input) (cleanupExpired nowCleanup db) = None ->
     existsb (has_id uuid) (cleanupExpired nowCleanup db) = false ->
     exists res,
       snd out = Ok res /\ created res = true
       /\ toISOString (createdAt + 1000 * Z.max 60 n) = Some (expires_at (record res)))
  /\ forall res,
       snd out = Ok res ->
       created res = true ->
       let r := record res in
       status r = Pending
       /\ toISOString createdAt = Some (created_at r)
       /\ exists expiresAt,
            expiry createdAt (ttlSeconds input) = Some expiresAt
            /\ toISOString expiresAt = Some (expires_at r)
            /\ (forall n, ttlSeconds input = of_Z n ->
                  expiresAt = (createdAt + 1000 * Z.max 60 n)%Z)
            /\ (createdAt + 60000 <= expiresAt)%Z
            /\ (forall now nowIso,
                  (year0 <= now)%Z -> (now <= createdAt + 60000)%Z ->
                  (expiresAt < year10000)%Z ->
                  toISOString now = Some nowIso ->
                  getById (id r) (cleanupExpired nowIso (fst out)) = Some r)
            /\ (forall now nowIso,
                  (year0 <= now < year10000)%Z -> (year10000 <= expiresAt)%Z ->
                  toISOString now = Some nowIso ->
                  getById (id r) (cleanupExpired nowIso (fst out))
                  = Some (with_status Expired r)).
Proof.
  cbv zeta. split.
  { intros n Hn Hlow Hhigh Hnone Hfresh.
    assert (Hexp : expiry createdAt (ttlSeconds input)
                   = Some (createdAt + 1000 * Z.max 60 n)%Z)
      by (rewrite Hn; apply expiry_defined; lia).
    destruct (toISOString_defined createdAt) as [createdText Hc]; [lia|].
    destruct (toISOString_defined (createdAt + 1000 * Z.max 60 n)) as [expiresText He];
      [lia|].
    destruct (getOrCreatePending_creates nowCleanup createdAt uuid input db
                createdText expiresText Hnone Hc) as (res & Hres & Hcreated & _ & Hx);
      [now rewrite Hexp | exact Hfresh |].
    exists res. rewrite Hx. auto. }
  intros res. unfold getOrCreatePending.
  destruct (latest_pending _ _).
  { destruct (_ <? _)%Z; [destruct (getById _ _)|destruct (negb _); [destruct (getById _ _)|]];
      simpl; intros [= <-]; discriminate. }
  destruct (toISOString createdAt) as [createdText|] eqn:Hcreated; [|discriminate].
  destruct (expiry createdAt (ttlSeconds input)) as [expiresAt|] eqn:Hexp; [|discriminate].
  cbn [mbind option_bind].
  destruct (toISOString expiresAt) as [expiresText|] eqn:Htext; [|discriminate].
  destruct (existsb (has_id uuid) _) eqn:Hfresh; [discriminate|].
  rewrite getById_app_new by (assumption || reflexivity).
  simpl. intros [= <-] _. simpl.
  pose proof (expiry_floor _ _ _ Hexp) as Hfloor.
  split; [reflexivity|]. split; [reflexivity|].
  exists expiresAt. split; [reflexivity|]. split; [exact Htext|].
  split; [|split; [exact Hfloor|split]].
  - intros n Hn. rewrite Hn in Hexp. now apply expiry_of_Z.
  - intros now nowIso Hlow Hnow Hhigh Hn. rewrite getById_cleanupExpired.
    rewrite getById_app_new by (assumption || reflexivity). simpl.
    f_equal. apply expire_fresh. simpl.
    rewrite (toISOString_ltb expiresAt now _ _) by (assumption || lia).
    apply Z.ltb_ge. lia.
  - intros now nowIso Hnow Hhigh Hn. rewrite getById_cleanupExpired.
    rewrite getById_app_new by (assumption || reflexivity). simpl.
    f_equal. apply expire_stale; [reflexivity|]. simpl.
    now apply (toISOString_expanded_ltb expiresAt now).
Qed.

Definition zero_ttl_input : ApprovalCreateInput :=
  {| requestFingerprint := "fp"; in_reason := "High-risk action requires approval.";
     in_metadata := Js.JUndefined; ttlSeconds := of_Z 0;
     requiredApprovals := None; requiredRoles := None; maxUses := None |}.

Definition zero_ttl_result : ApprovalCreateResult :=
  {| record :=
       {| id := "u1"; created_at := "2023-11-14T22:13:20.000Z";
          expires_at := "2023-11-14T22:14:20.000Z";
          status := Pending; required_approvals := 1; required_roles := [];
          max_uses := 1; use_count := 0; last_used_at := None;
          approval_actors := []; approval_actor_roles := [];
          request_fingerprint := "fp"; reason := "High-risk action requires approval.";
          metadata := "{}"; resolved_by := None; resolved_at := None |};
     created := true |}.

(** A TTL of zero on an empty table: the record expires 60 s after its
    creation. *)
Lemma new_approval_expiry_zero_ttl :
  let out := getOrCreatePending "2023-11-14T22:13:20.000Z" 1700000000000 "u1"
               zero_ttl_input [] in
  snd out = Ok zero_ttl_result
  /\ let r := record zero_ttl_result in
     status r = Pending
     /\ toISOString 1700000000000 = Some (created_at r)
     /\ exists expiresAt,
          expiry 1700000000000 (ttlSeconds zero_ttl_input) = Some expiresAt
          /\ toISOString expiresAt = Some (expires_at r)
          /\ (forall n, ttlSeconds zero_ttl_input = of_Z n ->
                expiresAt = (1700000000000 + 1000 * Z.max 60 n)%Z)
          /\ (1700000000000 + 60000 <= expiresAt)%Z
          /\ (forall now nowIso,
                (year0 <= now)%Z -> (now <= 1700000000000 + 60000)%Z ->
                (expiresAt < year10000)%Z ->
                toISOString now = Some nowIso ->
                getById (id r) (cleanupExpired nowIso (fst out)) = Some r)
          /\ (forall now nowIso,
                (year0 <= now < year10000)%Z -> (year10000 <= expiresAt)%Z ->
                toISOString now = Some nowIso ->
                getById (id r) (cleanupExpired nowIso (fst out))
                = Some (with_status Expired r)).
Proof.
  split; [reflexivity|].
  apply (proj2 (new_approval_expiry "2023-11-14T22:13:20.000Z" 1700000000000 "u1"
                  zero_ttl_input [])
           zero_ttl_result); reflexivity.
Defined.

Definition far_ttl_input : ApprovalCreateInput :=
  {| requestFingerprint := "fp"; in_reason := "High-risk action requires approval.";
     in_metadata := Js.JUndefined; ttlSeconds := of_Z 1000000000000;
     requiredApprovals := None; requiredRoles := None; maxUses := None |}.

(** C9 at a TTL that takes the expiry date past the year 9999: the record
    is created pending with an [expires_at] a million million seconds ahead,
    and the lazy expiry of a call one second later marks it expired, where
    the claim has it unexpired for 60 seconds. [validateApproved] compares
    the same column as dates. *)
Lemma far_expiry_expires_at_once :
  let out := getOrCreatePending "2023-11-14T22:13:20.000Z" 1700000000000 "u1"
               far_ttl_input [] in
  option_map (fun r => (status r, created_at r, expires_at r)) (getById "u1" (fst out))
  = Some (Pending, "2023-11-14T22:13:20.000Z", "+033712-08-11T00:00:00.000Z")
  /\ toISOString (1700000000000 + 1000 * 1000000000000) = Some "+033712-08-11T00:00:00.000Z"
  /\ toISOString (1700000000000 + 1000) = Some "2023-11-14T22:13:21.000Z"
  /\ option_map status (getById "u1" (cleanupExpired "2023-11-14T22:13:21.000Z" (fst out)))
     = Some Expired.
Proof. vm_compute. repeat split. Qed.

End ApprovalFacts.

(** ** Binary64 numbers and [Number.prototype.toFixed] *)

Module Double.

Definition prec : Z := 53.
Definition emax : Z := 1024.

(** A [number] as an IEEE 754 binary64 value. *)
Definition double := spec_float.

Definition of_Z (n : Z) : double := binary_normalize prec emax n 0 false.
Definition add : double -> double -> double := SFadd prec emax.
Definition sub : double -> double -> double := SFsub prec emax.
Definition abs : double -> double := SFabs.
Definition mul : double -> double -> double := SFmul prec emax.
Definition div : double -> double -> double := SFdiv prec emax.
(** [a > b] *)
Definition gt (a b : double) : bool := SFltb b a.

(** The decimal literal [n/100], correctly rounded: [0.99] is [cents 99]. *)
Definition cents (n : Z) : double := div (of_Z n) (of_Z 100).

(** [x || 0] *)
Definition or_zero (x : double) : double :=
  match x with
  | S754_zero _ | S754_nan => S754_zero false
  | _ => x
  end.

Fixpoint zeros (n : nat) : string :=
  match n with O => "" | S n' => String "0" (zeros n') end.

(** Steps 9 and 10 of [toFixed]: the digits of [n], padded to [f + 1], with
    the decimal point before the last [f]. *)
Definition fixed_digits (f : nat) (n : Z) : string :=
  let m := Js.number_to_string n in
  let m := if (String.length m <=? f)%nat then zeros (f + 1 - String.length m) +:+ m else m in
  let k := String.length m in
  if (f =? 0)%nat then m
  else String.substring 0 (k - f) m +:+ "." +:+ String.substring (k - f) f m.

Section ToFixed.
(** [Number::toString] on values of 1e21 and more (exponent notation) is
    left as a parameter. *)
Variable large_toString : double -> string.

(** [x.toFixed(f)]: for a finite [x] below 1e21 the integer [n] nearest to
    [x * 10^f], the larger one on a tie, written with [f] decimals. *)
Definition toFixed (f : nat) (x : double) : string :=
  match x with
  | S754_nan => "NaN"
  | S754_infinity s => if s then "-Infinity" else "Infinity"
  | S754_zero _ => fixed_digits f 0
  | S754_finite s m e =>
      let num := (Z.pos m * 2 ^ Z.max 0 e)%Z in
      let den := (2 ^ Z.max 0 (- e))%Z in
      if (10 ^ 21 * den <=? num)%Z then large_toString x
      else
        let n := ((2 * num * 10 ^ Z.of_nat f + den) / (2 * den))%Z in
        (if s then "-" else "") +:+ fixed_digits f n
  end.

End ToFixed.

End Double.

Example toFixed_samples :
  map (Double.toFixed (fun _ => "") 4)
    [Double.of_Z 1; Double.cents 104; Double.cents 5; Double.of_Z 0;
     Double.div (Double.of_Z 1) (Double.of_Z 3); Double.div (Double.of_Z (-1)) (Double.of_Z 80000);
     Double.add (Double.cents 99) (Double.cents 5); Double.of_Z 123456]
  = ["1.0000"; "1.0400"; "0.0500"; "0.0000"; "0.3333"; "-0.0000"; "1.0400"; "123456.0000"].
Proof. vm_compute. reflexivity. Qed.

(** ** Budget controller ([BudgetController]) *)

Module Budget.
Import Double JsDate.

Inductive BudgetDecision := DecisionAllow | DecisionSuspend.

Record BudgetPolicy := { hourlyUsdCap : double; dailyUsdCap : double }.

Record PricingEntry := {
  pricing_model : string;
  input_usd_per_1k : double;
  output_usd_per_1k : double
}.

Record CostEstimate := {
  model : string;
  inputTokens : double;
  outputTokens : double;
  estimatedUsd : double
}.

(** A row of [cost_events]; the timestamp is the stored ISO text. *)
Record CostEvent := {
  timestamp : string;
  event_model : string;
  input_tokens : double;
  output_tokens : double;
  usd_cost : double;
  request_path : string
}.

(** The single row of [budget_state]. *)
Record BudgetState := {
  suspended : Z;
  reason : option string;
  triggered_at : option string;
  resumed_at : option string;
  resumed_by : option string;
  updated_at : string
}.

Record Db := { budget_state : BudgetState; cost_events : list CostEvent }.

Record Outcome := { decision : BudgetDecision; outcome_reason : option string }.

Definition estimateCost (pricingByModel : gmap string PricingEntry)
    (m : string) (inTokens outTokens : double) : option CostEstimate :=
  match (match pricingByModel !! m with Some p => Some p | None => pricingByModel !! "*" end) with
  | None => None
  | Some pricing =>
      Some {| model := m; inputTokens := inTokens; outputTokens := outTokens;
              estimatedUsd :=
                add (mul (div inTokens (of_Z 1000)) (input_usd_per_1k pricing))
                    (mul (div outTokens (of_Z 1000)) (output_usd_per_1k pricing)) |}
  end.

Definition readState (db : Db) : bool * option string * option string :=
  let row := budget_state db in
  ((suspended row =? 1)%Z, reason row, triggered_at row).

(** The accumulator of SQLite's [SUM] over REAL values, as of SQLite 3.43:
    the running sum and the error term of the Kahan-Babuska-Neumaier
    summation. *)
Record SumCtx := { rSum : double; rErr : double }.

Definition kahanBabuskaNeumaierStep (p : SumCtx) (r : double) : SumCtx :=
  let s := rSum p in
  let t := add s r in
  {| rSum := t;
     rErr := add (rErr p)
               (if gt (abs s) (abs r) then add (sub s t) r else add (sub r t) s) |}.

(** [sqlite3IsOverflow]: an infinity or NaN. *)
Definition isOverflow (x : double) : bool :=
  match x with
  | S754_infinity _ | S754_nan => true
  | _ => false
  end.

(** [COALESCE(SUM(x), 0)] over the values of a REAL column, in the order
    the rows are visited: the compensated sum, and 0 when there is no row. *)
Definition sum_real (values : list double) : double :=
  match values with
  | [] => S754_zero false
  | _ =>
      let p := fold_left kahanBabuskaNeumaierStep values
                 {| rSum := S754_zero false; rErr := S754_zero false |} in
      if isOverflow (rErr p) then rSum p else add (rSum p) (rErr p)
  end.

(** [COALESCE(SUM(usd_cost), 0)] over the events whose timestamp text is
    not before [since]; the table has no index, so the rows are visited in
    table order. *)
Definition sum_since (since : string) (events : list CostEvent) : double :=
  sum_real (map usd_cost (List.filter (fun ev => String.leb since (timestamp ev)) events)).

(** The two readings of the clock are the time values [nowHourly] and
    [nowDaily]; [None] is the RangeError of [toISOString], which no reading
    of a clock raises. *)
Definition readUsage (nowHourly nowDaily : Z) (db : Db) : option (double * double) :=
  match toISOString (nowHourly - 60 * 60 * 1000),
        toISOString (nowDaily / msPerDay * msPerDay) with
  | Some since, Some dayStart =>
      let hourly := sum_since since (cost_events db) in
      let daily := sum_since dayStart (cost_events db) in
      Some (or_zero hourly, or_zero daily)
  | _, _ => None
  end.

(** The two timestamps are the texts of [new Date().toISOString()]. *)
Definition suspend (nowTriggered nowUpdated : string) (why : string) (db : Db) : Db :=
  let row := budget_state db in
  {| budget_state :=
       {| suspended := 1; reason := Some why; triggered_at := Some nowTriggered;
          resumed_at := resumed_at row; resumed_by := resumed_by row;
          updated_at := nowUpdated |};
     cost_events := cost_events db |}.

Section Evaluate.
Variable large_toString : double -> string.
Variable policy : BudgetPolicy.

Definition exceeded (window : string) (projected cap : double) : string :=
  window +:+ " compute budget exceeded (" +:+ toFixed large_toString 4 projected
  +:+ " > " +:+ toFixed large_toString 4 cap +:+ " USD).".

Definition evaluateProjected (nowHourly nowDaily : Z) (nowTriggered nowUpdated : string)
    (estimate : CostEstimate) (db : Db) : option (Db * Outcome) :=
  let '(isSuspended, stored, _) := readState db in
  if isSuspended then
    Some (db, {| decision := DecisionSuspend;
                 outcome_reason :=
                   Some (match stored with
                         | Some text => if truthy text then text
                                        else "Budget controller is currently suspended."
                         | None => "Budget controller is currently suspended."
                         end) |})
  else
    match readUsage nowHourly nowDaily db with
    | None => None
    | Some (hourlyUsd, dailyUsd) =>
        let projectedHourly := add hourlyUsd (estimatedUsd estimate) in
        let projectedDaily := add dailyUsd (estimatedUsd estimate) in
        if gt projectedHourly (hourlyUsdCap policy) then
          let why := exceeded "Hourly" projectedHourly (hourlyUsdCap policy) in
          Some (suspend nowTriggered nowUpdated why db,
                {| decision := DecisionSuspend; outcome_reason := Some why |})
        else if gt projectedDaily (dailyUsdCap policy) then
          let why := exceeded "Daily" projectedDaily (dailyUsdCap policy) in
          Some (suspend nowTriggered nowUpdated why db,
                {| decision := DecisionSuspend; outcome_reason := Some why |})
        else Some (db, {| decision := DecisionAllow; outcome_reason := None |})
    end.

End Evaluate.

End Budget.

Module BudgetFacts.
Import Double Budget.

(** C5 (as the controller words it). With an hourly cap of 1.00 USD, an
    hourly usage of 0.99 USD and a budget not suspended, a projected
    evaluation of an estimate of 0.05 USD suspends the budget and returns
    the decision suspend; the stored and returned reason is
    "Hourly compute budget exceeded (1.0400 > 1.0000 USD).", which contains
    "1.0400 > 1.0000". No cost event is recorded. *)
Theorem projected_suspension (large_toString : double -> string) (policy : BudgetPolicy)
    (nowHourly nowDaily : Z) (nowTriggered nowUpdated : string) (estimate : CostEstimate)
    (db : Db) :
  suspended (budget_state db) <> 1%Z ->
  hourlyUsdCap policy = of_Z 1 ->
  option_map fst (readUsage nowHourly nowDaily db) = Some (cents 99) ->
  estimatedUsd estimate = cents 5 ->
  let why := "Hourly compute budget exceeded (1.0400 > 1.0000 USD)." in
  exists out,
    evaluateProjected large_toString policy
      nowHourly nowDaily nowTriggered nowUpdated estimate db = Some out
    /\ decision (snd out) = DecisionSuspend
    /\ outcome_reason (snd out) = Some why
    /\ suspended (budget_state (fst out)) = 1%Z
    /\ reason (budget_state (fst out)) = Some why
    /\ triggered_at (budget_state (fst out)) = Some nowTriggered
    /\ includes why "1.0400 > 1.0000" = true
    /\ cost_events (fst out) = cost_events db.
Proof.
  intros Hs Hcap Husage Hest. cbv zeta. unfold evaluateProjected, readState.
  apply Z.eqb_neq in Hs. rewrite Hs.
  destruct (readUsage nowHourly nowDaily db) as [[hourlyUsd dailyUsd]|]; [|discriminate].
  injection Husage as ->. rewrite Hest, Hcap.
  replace (gt (add (cents 99) (cents 5)) (of_Z 1)) with true by (vm_compute; reflexivity).
  unfold exceeded.
  replace (toFixed large_toString 4 (add (cents 99) (cents 5))) with "1.0400"
    by (vm_compute; reflexivity).
  replace (toFixed large_toString 4 (of_Z 1)) with "1.0000" by (vm_compute; reflexivity).
  eexists. split; [reflexivity|]. repeat split.
Qed.

(** The sum of 0.1, 0.2 and 0.3 USD is 0.6 USD, where adding them one
    after the other gives 0.6000000000000001. *)
Example sum_real_compensated :
  let tenth (n : Z) := div (of_Z n) (of_Z 10) in
  sum_real [tenth 1%Z; tenth 2%Z; tenth 3%Z] = tenth 6%Z
  /\ add (add (tenth 1%Z) (tenth 2%Z)) (tenth 3%Z) <> tenth 6%Z
  /\ sum_real [] = of_Z 0
  /\ sum_real [cents 99] = cents 99.
Proof. vm_compute. repeat split. discriminate. Qed.

Definition fresh_state : BudgetState :=
  {| suspended := 0; reason := None; triggered_at := None; resumed_at := None;
     resumed_by := None; updated_at := "2023-11-14 22:00:00" |}.

(** Two cost events of 0.50 and 0.49 USD within the hour, and one of
    0.75 USD two hours before. *)
Definition usage_099 : Db :=
  {| budget_state := fresh_state;
     cost_events :=
       [ {| timestamp := "2023-11-14T20:13:20.000Z"; event_model := "gpt";
            input_tokens := of_Z 1500; output_tokens := of_Z 700; usd_cost := cents 75;
            request_path := "/v1/responses" |};
         {| timestamp := "2023-11-14T22:13:20.000Z"; event_model := "gpt";
            input_tokens := of_Z 1000; output_tokens := of_Z 500; usd_cost := cents 50;
            request_path := "/v1/responses" |};
         {| timestamp := "2023-11-14T22:15:00.000Z"; event_model := "gpt";
            input_tokens := of_Z 900; output_tokens := of_Z 500; usd_cost := cents 49;
            request_path := "/v1/responses" |} ] |}.

Definition cap_1usd : BudgetPolicy := {| hourlyUsdCap := of_Z 1; dailyUsdCap := of_Z 10 |}.

Definition estimate_005 : CostEstimate :=
  {| model := "gpt"; inputTokens := of_Z 100; outputTokens := of_Z 100; estimatedUsd := cents 5 |}.

Definition exponent_1e21 (x : double) : string := "1e+21".

Lemma projected_suspension_scenario :
  let why := "Hourly compute budget exceeded (1.0400 > 1.0000 USD)." in
  exists out,
    evaluateProjected exponent_1e21 cap_1usd 1700000200000 1700000200000
      "2023-11-14T22:16:40.000Z" "2023-11-14T22:16:40.000Z" estimate_005 usage_099 = Some out
    /\ decision (snd out) = DecisionSuspend
    /\ outcome_reason (snd out) = Some why
    /\ suspended (budget_state (fst out)) = 1%Z
    /\ reason (budget_state (fst out)) = Some why
    /\ triggered_at (budget_state (fst out)) = Some "2023-11-14T22:16:40.000Z"
    /\ includes why "1.0400 > 1.0000" = true
    /\ cost_events (fst out) = cost_events usage_099.
Proof.
  apply (projected_suspension exponent_1e21 cap_1usd 1700000200000 1700000200000
           "2023-11-14T22:16:40.000Z" "2023-11-14T22:16:40.000Z" estimate_005 usage_099).
  - discriminate.
  - reflexivity.
  - vm_compute. reflexivity.
  - reflexivity.
Defined.

(** C5 as stated fails: the reason carries four decimals, so "1.04 > 1.00"
    does not occur in it. *)
Lemma projected_reason_four_decimals :
  option_map (fun out => outcome_reason (snd out))
    (evaluateProjected exponent_1e21 cap_1usd 1700000200000 1700000200000
       "2023-11-14T22:16:40.000Z" "2023-11-14T22:16:40.000Z" estimate_005 usage_099)
  = Some (Some "Hourly compute budget exceeded (1.0400 > 1.0000 USD).")
  /\ includes "Hourly compute budget exceeded (1.0400 > 1.0000 USD)." "1.04 > 1.00" = false.
Proof. vm_compute. split; reflexivity. Qed.

End BudgetFacts.

(** ** Sorting strings *)

Module SortFacts.
Import JsStringFacts.

Lemma leb_le a b : String.leb a b = true <-> String.le a b.
Proof. unfold String.le. now rewrite Is_true_true. Qed.

Lemma insert_sorted_Forall (P : string -> Prop) x l :
  P x -> Forall P l -> Forall P (insert_sorted x l).
Proof.
  intros Hx Hl. induction Hl as [|y l Hy Hl IH]; simpl; [now repeat constructor|].
  destruct (String.leb x y); repeat constructor; auto.
Qed.

Lemma insert_sorted_sorted x l :
  StronglySorted String.le l -> StronglySorted String.le (insert_sorted x l).
Proof.
  induction 1 as [|y l Hl IH Hy]; simpl; [repeat constructor|].
  destruct (String.leb x y) eqn:Hxy.
  - apply leb_le in Hxy. constructor; [now constructor|].
    constructor; [assumption|].
    eapply List.Forall_impl; [|exact Hy]. intros z Hz. now transitivity y.
  - constructor; [assumption|].
    apply insert_sorted_Forall; [|assumption].
    destruct (total String.le x y) as [H|H]; [|assumption].
    apply leb_le in H. congruence.
Qed.

Lemma sort_sorted l : StronglySorted String.le (sort l).
Proof.
  induction l as [|x l IH]; simpl; [constructor | now apply insert_sorted_sorted].
Qed.

Lemma sort_of_sorted l : StronglySorted String.le l -> sort l = l.
Proof.
  induction 1 as [|x l Hl IH Hx]; simpl; [reflexivity|].
  rewrite IH. destruct l as [|y l]; simpl; [reflexivity|].
  inversion Hx as [|? ? Hxy _]; subst. apply leb_le in Hxy. now rewrite Hxy.
Qed.

Lemma sort_idempotent l : sort (sort l) = sort l.
Proof. apply sort_of_sorted, sort_sorted. Qed.

(** Sorting forgets the order of its input. *)
Lemma sort_permutation l l' : Permutation l l' -> sort l = sort l'.
Proof.
  intros H. apply (StronglySorted_unique String.le); try apply sort_sorted.
  now rewrite !sort_perm.
Qed.

End SortFacts.

(** ** Canonical serialization ([stableStringify]) *)

Module Canonical.
Import Js.

(** [obj[key]] *)
Fixpoint get {A} (key : string) (fields : list (string * A)) : option A :=
  match fields with
  | [] => None
  | (k, v) :: rest => if String.eqb k key then Some v else get key rest
  end.

(** [stableStringify(value)]; [None] is the result [undefined]. The
    elements are rendered before [join], which writes nothing for an
    [undefined] one; the properties are rendered before the sorted keys look
    them up, and the template literal writes [undefined] as that word. *)
Fixpoint stableStringify (v : value) : option string :=
  match v with
  | JUndefined => None
  | JNull => Some "null"
  | JBool true => Some "true"
  | JBool false => Some "false"
  | JNum n => Some (number_to_string n)
  | JStr s => Some (quote s)
  | JArr items =>
      Some ("[" +:+ join "," (map (fun item => default "" (stableStringify item)) items) +:+ "]")
  | JObj fields =>
      let rendered :=
        map (fun kv => (fst kv, default "undefined" (stableStringify (snd kv)))) fields in
      let keys := sort (map fst fields) in
      let parts :=
        map (fun key => quote key +:+ ":" +:+ default "undefined" (get key rendered)) keys in
      Some ("{" +:+ join "," parts +:+ "}")
  end.

(** [undefined] occurs in the value, at any depth. *)
Fixpoint has_undefined (v : value) : bool :=
  match v with
  | JUndefined => true
  | JArr items => existsb has_undefined items
  | JObj fields => existsb (fun kv => has_undefined (snd kv)) fields
  | _ => false
  end.

(** The array holds [undefined] and nothing else. *)
Definition sole_undefined (items : list value) : bool :=
  match items with [JUndefined] => true | _ => false end.

(** [undefined] occurs nowhere in the value, except as the only element of
    an array. *)
Fixpoint well_rendered (v : value) : bool :=
  match v with
  | JUndefined => false
  | JArr items => sole_undefined items || forallb well_rendered items
  | JObj fields => forallb (fun kv => well_rendered (snd kv)) fields
  | _ => true
  end.

(** Objects have distinct keys, at every depth. *)
Fixpoint distinct_keys (v : value) : Prop :=
  match v with
  | JArr items => fold_right (fun item acc => distinct_keys item /\ acc) True items
  | JObj fields =>
      List.NoDup (map fst fields)
      /\ fold_right (fun kv acc => distinct_keys (snd kv) /\ acc) True fields
  | _ => True
  end.

End Canonical.

(** ** JSON texts (RFC 8259) *)

Module JsonText.

Definition code (c : ascii) : nat := nat_of_ascii c.

Definition is_ws (c : ascii) : bool :=
  (code c =? 32)%nat || (code c =? 9)%nat || (code c =? 10)%nat || (code c =? 13)%nat.

Definition is_digit (c : ascii) : bool := (48 <=? code c)%nat && (code c <=? 57)%nat.

Definition is_onenine (c : ascii) : bool := (49 <=? code c)%nat && (code c <=? 57)%nat.

Definition is_hex (c : ascii) : bool :=
  is_digit c
  || ((65 <=? code c)%nat && (code c <=? 70)%nat)
  || ((97 <=? code c)%nat && (code c <=? 102)%nat).

(** A character that may stand unescaped in a string. *)
Definition is_unescaped (c : ascii) : bool :=
  (32 <=? code c)%nat && negb (code c =? 34)%nat && negb (code c =? 92)%nat.

(** The character after the backslash of a two-character escape. *)
Definition is_escape (c : ascii) : bool :=
  existsb (Nat.eqb (code c)) [34; 92; 47; 98; 102; 110; 114; 116]%nat.

Fixpoint all (p : ascii -> bool) (s : string) : bool :=
  match s with
  | EmptyString => true
  | String c s' => p c && all p s'
  end.

(** One item of a string's contents: a character, an escape, or [\uXXXX]. *)
Definition is_item (s : string) : bool :=
  match s with
  | String c EmptyString => is_unescaped c
  | String b (String e EmptyString) => (code b =? 92)%nat && is_escape e
  | String b (String u (String h1 (String h2 (String h3 (String h4 EmptyString))))) =>
      (code b =? 92)%nat && (code u =? 117)%nat
      && is_hex h1 && is_hex h2 && is_hex h3 && is_hex h4
  | _ => false
  end.

Inductive Chars : string -> Prop :=
| Chars_nil : Chars ""
| Chars_cons item rest : is_item item = true -> Chars rest -> Chars (item +:+ rest).

Inductive StringLit : string -> Prop :=
| StringLit_intro body : Chars body -> StringLit (String Js.dquote (body +:+ String Js.dquote "")).

Definition digits (s : string) : Prop := s <> "" /\ all is_digit s = true.

Inductive IntPart : string -> Prop :=
| Int_zero : IntPart "0"
| Int_pos c ds : is_onenine c = true -> all is_digit ds = true -> IntPart (String c ds).

Inductive Frac : string -> Prop :=
| Frac_none : Frac ""
| Frac_some ds : digits ds -> Frac (String "." ds).

Inductive Exp : string -> Prop :=
| Exp_none : Exp ""
| Exp_some e sign ds :
    (e = "e" \/ e = "E")%char -> (sign = "" \/ sign = "+" \/ sign = "-") -> digits ds ->
    Exp (String e (sign +:+ ds)).

Inductive Number : string -> Prop :=
| Number_intro sign i f e :
    (sign = "" \/ sign = "-") -> IntPart i -> Frac f -> Exp e ->
    Number (sign +:+ i +:+ f +:+ e).

Definition Ws (s : string) : Prop := all is_ws s = true.

(** The grammar of values, elements and members. *)
Inductive Value : string -> Prop :=
| V_null : Value "null"
| V_true : Value "true"
| V_false : Value "false"
| V_number s : Number s -> Value s
| V_string s : StringLit s -> Value s
| V_array_empty w : Ws w -> Value ("[" +:+ w +:+ "]")
| V_array s : Elements s -> Value ("[" +:+ s +:+ "]")
| V_object_empty w : Ws w -> Value ("{" +:+ w +:+ "}")
| V_object s : Members s -> Value ("{" +:+ s +:+ "}")
with Elements : string -> Prop :=
| Elements_one s : Element s -> Elements s
| Elements_cons s rest : Element s -> Elements rest -> Elements (s +:+ "," +:+ rest)
with Element : string -> Prop :=
| Element_intro w1 v w2 : Ws w1 -> Value v -> Ws w2 -> Element (w1 +:+ v +:+ w2)
with Members : string -> Prop :=
| Members_one s : Member s -> Members s
| Members_cons s rest : Member s -> Members rest -> Members (s +:+ "," +:+ rest)
with Member : string -> Prop :=
| Member_intro w1 k w2 e :
    Ws w1 -> StringLit k -> Ws w2 -> Element e -> Member (w1 +:+ k +:+ w2 +:+ ":" +:+ e).

Scheme Value_mut := Minimality for Value Sort Prop
  with Elements_mut := Minimality for Elements Sort Prop
  with Element_mut := Minimality for Element Sort Prop
  with Members_mut := Minimality for Members Sort Prop
  with Member_mut := Minimality for Member Sort Prop.

Combined Scheme grammar_ind from Value_mut, Elements_mut, Element_mut, Members_mut, Member_mut.

(** A JSON text: what [JSON.parse] accepts. *)
Definition Json (s : string) : Prop := Element s.

(** *** A scanner that tracks string literals *)

Inductive scan_state := Outside | Inside | Escaped.

(** One step: [None] when a forbidden character stands outside a string. *)
Definition step (forbidden : ascii -> bool) (st : scan_state) (c : ascii) : option scan_state :=
  match st with
  | Outside =>
      if (code c =? 34)%nat then Some Inside
      else if forbidden c then None else Some Outside
  | Inside =>
      if (code c =? 34)%nat then Some Outside
      else if (code c =? 92)%nat then Some Escaped else Some Inside
  | Escaped => Some Inside
  end.

Fixpoint scan (forbidden : ascii -> bool) (st : scan_state) (s : string) : option scan_state :=
  match s with
  | EmptyString => Some st
  | String c s' =>
      match step forbidden st c with
      | Some st' => scan forbidden st' s'
      | None => None
      end
  end.

(** The letter [d], which no JSON token outside a string contains. *)
Definition is_d (c : ascii) : bool := (code c =? 100)%nat.

(** The characters of the tokens [stableStringify] writes outside strings:
    digits, the minus sign, brackets, braces, comma, colon and the letters
    of [null], [true] and [false]. *)
Definition is_structural (c : ascii) : bool :=
  is_digit c
  || existsb (Nat.eqb (code c))
       [45; 91; 93; 123; 125; 44; 58; 110; 117; 108; 116; 114; 101; 102; 97; 115]%nat.

(** *** A scanner that also remembers the character before *)

(** What stands before the next character outside strings: an opening
    square bracket, a comma, or anything else. *)
Inductive place := AfterOpen | AfterComma | AfterOther.

Inductive lex_state := Bare (p : place) | Quoted | Slashed.

Definition place_of (c : ascii) : place :=
  if (code c =? 91)%nat then AfterOpen
  else if (code c =? 44)%nat then AfterComma else AfterOther.

(** Outside strings no JSON text has the letter [d], a comma right after an
    opening square bracket or a comma, or a closing square bracket right
    after a comma. *)
Definition refused (p : place) (c : ascii) : bool :=
  is_d c
  || ((code c =? 44)%nat && match p with AfterOther => false | _ => true end)
  || ((code c =? 93)%nat && match p with AfterComma => true | _ => false end).

Definition lex_step (st : lex_state) (c : ascii) : option lex_state :=
  match st with
  | Bare p =>
      if (code c =? 34)%nat then Some Quoted
      else if refused p c then None else Some (Bare (place_of c))
  | Quoted =>
      if (code c =? 34)%nat then Some (Bare AfterOther)
      else if (code c =? 92)%nat then Some Slashed else Some Quoted
  | Slashed => Some Quoted
  end.

Fixpoint lex (st : lex_state) (s : string) : option lex_state :=
  match s with
  | EmptyString => Some st
  | String c s' =>
      match lex_step st c with
      | Some st' => lex st' s'
      | None => None
      end
  end.

(** A character that is accepted wherever it stands outside a string, and
    after which every character but [d] is. *)
Definition is_plain (c : ascii) : bool :=
  negb (existsb (Nat.eqb (code c)) [34; 100; 44; 93; 91]%nat).

(** The place after the text [s], read from the place [p]. *)
Definition moved (p : place) (s : string) : place :=
  match s with EmptyString => p | String _ _ => AfterOther end.

End JsonText.

(** ** Facts about JSON texts and the scanner *)

Module JsonTextFacts.
Import JsonText.

Lemma app_cons (x : ascii) (a b : string) : String x a +:+ b = String x (a +:+ b).
Proof. reflexivity. Qed.

Lemma app_nil_l (a : string) : "" +:+ a = a.
Proof. reflexivity. Qed.

Lemma app_assoc (a b c : string) : (a +:+ b) +:+ c = a +:+ (b +:+ c).
Proof.
  induction a as [|x a IH]; [reflexivity|].
  rewrite !app_cons. now rewrite IH.
Qed.

Lemma app_nil_r (a : string) : a +:+ "" = a.
Proof.
  induction a as [|x a IH]; [reflexivity|].
  rewrite app_cons. now rewrite IH.
Qed.

Lemma all_app p a b : all p (a +:+ b) = all p a && all p b.
Proof.
  induction a as [|x a IH]; [reflexivity|].
  rewrite app_cons. cbn [all]. now rewrite IH, andb_assoc.
Qed.

Section Scan.
Variable forbidden : ascii -> bool.

Definition bind_scan (r : option scan_state) (s : string) : option scan_state :=
  match r with
  | Some st => scan forbidden st s
  | None => None
  end.

Lemma scan_app st a b :
  scan forbidden st (a +:+ b) = bind_scan (scan forbidden st a) b.
Proof.
  revert st. induction a as [|x a IH]; intros st; [reflexivity|].
  rewrite app_cons. cbn [scan bind_scan].
  destruct (step forbidden st x); [apply IH | reflexivity].
Qed.

(** Outside strings, characters that are neither a quote nor forbidden
    leave the scanner outside. *)
Definition passes (c : ascii) : bool := negb (code c =? 34)%nat && negb (forbidden c).

Lemma scan_passes s : all passes s = true -> scan forbidden Outside s = Some Outside.
Proof.
  induction s as [|c s IH]; cbn; [reflexivity|].
  unfold passes at 1. rewrite !andb_true_iff, !negb_true_iff.
  intros [[Hq Hf] Hs]. rewrite Hq, Hf. now apply IH.
Qed.

(** Without a quote the scanner stays outside or fails. *)
Lemma scan_no_quote s :
  all (fun c => negb (code c =? 34)%nat) s = true ->
  scan forbidden Outside s = Some Outside \/ scan forbidden Outside s = None.
Proof.
  induction s as [|c s IH]; cbn; [now left|].
  rewrite andb_true_iff, negb_true_iff. intros [Hq Hs]. rewrite Hq.
  destruct (forbidden c); [now right | now apply IH].
Qed.

Lemma scan_item item rest :
  is_item item = true -> scan forbidden Inside (item +:+ rest) = scan forbidden Inside rest.
Proof.
  destruct item as [|c1 [|c2 [|c3 [|c4 [|c5 [|c6 [|c7 item]]]]]]]; try discriminate;
    rewrite ?app_cons, ?app_nil_l; cbn [scan step is_item].
  - unfold is_unescaped. rewrite !andb_true_iff, !negb_true_iff.
    intros [[_ Hq] Hb]. now rewrite Hq, Hb.
  - rewrite andb_true_iff. intros [Hb _].
    apply Nat.eqb_eq in Hb. unfold code in Hb.
    replace (code c1 =? 34)%nat with false
      by (symmetry; apply Nat.eqb_neq; unfold code; lia).
    replace (code c1 =? 92)%nat with true
      by (symmetry; apply Nat.eqb_eq; unfold code; lia).
    reflexivity.
  - rewrite !andb_true_iff. intros [[[[[Hb _] H1] H2] H3] H4].
    apply Nat.eqb_eq in Hb. unfold code in Hb.
    replace (code c1 =? 34)%nat with false
      by (symmetry; apply Nat.eqb_neq; unfold code; lia).
    replace (code c1 =? 92)%nat with true
      by (symmetry; apply Nat.eqb_eq; unfold code; lia).
    assert (Hhex : forall h, is_hex h = true ->
              (code h =? 34)%nat = false /\ (code h =? 92)%nat = false).
    { intros h. unfold is_hex, is_digit.
      rewrite !orb_true_iff, !andb_true_iff, !Nat.leb_le, !Nat.eqb_neq. lia. }
    cbn [step].
    destruct (Hhex _ H1) as [E1 E1']; rewrite E1, E1'; cbn [step].
    destruct (Hhex _ H2) as [E2 E2']; rewrite E2, E2'; cbn [step].
    destruct (Hhex _ H3) as [E3 E3']; rewrite E3, E3'; cbn [step].
    destruct (Hhex _ H4) as [E4 E4']; rewrite E4, E4'.
    reflexivity.
Qed.

Lemma scan_chars body rest :
  Chars body -> scan forbidden Inside (body +:+ rest) = scan forbidden Inside rest.
Proof.
  induction 1 as [|item body Hitem Hbody IH]; [reflexivity|].
  now rewrite app_assoc, scan_item.
Qed.

Lemma scan_string_lit k rest :
  StringLit k -> scan forbidden Outside (k +:+ rest) = scan forbidden Outside rest.
Proof.
  intros [body Hbody]. rewrite app_cons. cbn [scan step]. change (code Js.dquote =? 34)%nat with true.
  cbv iota. now rewrite app_assoc, scan_chars.
Qed.

Lemma scan_passes_app s rest :
  all passes s = true -> scan forbidden Outside (s +:+ rest) = scan forbidden Outside rest.
Proof. intros H. now rewrite scan_app, scan_passes. Qed.

End Scan.

Lemma all_impl (p q : ascii -> bool) s :
  (forall c, p c = true -> q c = true) -> all p s = true -> all q s = true.
Proof.
  intros Hpq. induction s as [|c s IH]; cbn; [reflexivity|].
  rewrite !andb_true_iff. intros [Hc Hs]. split; auto.
Qed.

(** The characters a number is written with. *)
Definition is_number_char (c : ascii) : bool :=
  is_digit c || existsb (Nat.eqb (code c)) [43; 45; 46; 101; 69]%nat.

Lemma number_chars s : Number s -> all is_number_char s = true.
Proof.
  assert (Hd : forall ds, all is_digit ds = true -> all is_number_char ds = true).
  { intros ds. apply all_impl. intros c Hc. unfold is_number_char. now rewrite Hc. }
  intros [sign i f e Hsign Hi Hf He]. rewrite !all_app, !andb_true_iff. repeat split.
  - now destruct Hsign as [-> | ->].
  - destruct Hi as [|c ds Hc Hds]; [reflexivity|].
    cbn [all]. rewrite (Hd _ Hds), andb_true_r.
    unfold is_number_char, is_digit. unfold is_onenine in Hc.
    rewrite andb_true_iff, !Nat.leb_le in Hc.
    replace (48 <=? code c)%nat with true by (symmetry; apply Nat.leb_le; lia).
    destruct Hc as [_ Hc]. apply Nat.leb_le in Hc. now rewrite Hc.
  - destruct Hf as [|ds [_ Hds]]; [reflexivity|]. cbn [all]. now rewrite (Hd _ Hds).
  - destruct He as [|c sign' ds Hc Hs [_ Hds]]; [reflexivity|].
    cbn [all]. rewrite all_app, (Hd _ Hds), andb_true_r.
    now destruct Hc as [-> | ->], Hs as [-> | [-> | ->]].
Qed.

Lemma is_d_number_char c : is_number_char c = true -> passes is_d c = true.
Proof.
  unfold is_number_char, passes, is_d, is_digit. cbn [existsb].
  rewrite !orb_true_iff, !andb_true_iff, !negb_true_iff, !Nat.leb_le, !Nat.eqb_eq, !Nat.eqb_neq.
  lia.
Qed.

Lemma is_d_ws c : is_ws c = true -> passes is_d c = true.
Proof.
  unfold is_ws, passes, is_d.
  rewrite !orb_true_iff, !andb_true_iff, !negb_true_iff, !Nat.eqb_eq, !Nat.eqb_neq.
  lia.
Qed.

(** Scanning a JSON value, element or member list from outside a string
    ends outside a string, having met no [d] on the way. *)
Lemma grammar_scan :
  (forall s, Value s -> forall rest, scan is_d Outside (s +:+ rest) = scan is_d Outside rest)
  /\ (forall s, Elements s -> forall rest, scan is_d Outside (s +:+ rest) = scan is_d Outside rest)
  /\ (forall s, Element s -> forall rest, scan is_d Outside (s +:+ rest) = scan is_d Outside rest)
  /\ (forall s, Members s -> forall rest, scan is_d Outside (s +:+ rest) = scan is_d Outside rest)
  /\ (forall s, Member s -> forall rest, scan is_d Outside (s +:+ rest) = scan is_d Outside rest).
Proof.
  assert (Hws : forall w rest, Ws w -> scan is_d Outside (w +:+ rest) = scan is_d Outside rest).
  { intros w rest Hw. apply scan_passes_app. revert Hw. apply all_impl, is_d_ws. }
  apply grammar_ind; intros.
  - reflexivity.
  - reflexivity.
  - reflexivity.
  - apply scan_passes_app. eapply all_impl; [apply is_d_number_char | now apply number_chars].
  - now apply scan_string_lit.
  - rewrite !app_assoc. change (scan is_d Outside ("[" +:+ ?x)) with (scan is_d Outside x).
    now rewrite Hws.
  - rewrite !app_assoc. change (scan is_d Outside ("[" +:+ ?x)) with (scan is_d Outside x).
    now rewrite H0.
  - rewrite !app_assoc. change (scan is_d Outside ("{" +:+ ?x)) with (scan is_d Outside x).
    now rewrite Hws.
  - rewrite !app_assoc. change (scan is_d Outside ("{" +:+ ?x)) with (scan is_d Outside x).
    now rewrite H0.
  - auto.
  - rewrite !app_assoc, H0. change (scan is_d Outside ("," +:+ ?x)) with (scan is_d Outside x).
    auto.
  - rewrite !app_assoc, Hws, H1, Hws by assumption. reflexivity.
  - auto.
  - rewrite !app_assoc, H0. change (scan is_d Outside ("," +:+ ?x)) with (scan is_d Outside x).
    auto.
  - rewrite !app_assoc, Hws, scan_string_lit, Hws by assumption.
    change (scan is_d Outside (":" +:+ ?x)) with (scan is_d Outside x). auto.
Qed.

(** A necessary condition for [JSON.parse] to accept a text. *)
Lemma json_scan s : Json s -> scan is_d Outside s = Some Outside.
Proof.
  intros H. destruct grammar_scan as (_ & _ & He & _).
  specialize (He s H ""). now rewrite app_nil_r in He.
Qed.

(** *** The scanner that remembers the character before *)

Definition bind_lex (r : option lex_state) (s : string) : option lex_state :=
  match r with
  | Some st => lex st s
  | None => None
  end.

Lemma lex_app st a b : lex st (a +:+ b) = bind_lex (lex st a) b.
Proof.
  revert st. induction a as [|x a IH]; intros st; [reflexivity|].
  rewrite app_cons. cbn [lex bind_lex].
  destruct (lex_step st x); [apply IH | reflexivity].
Qed.

Lemma plain_step p c : is_plain c = true -> lex_step (Bare p) c = Some (Bare AfterOther).
Proof.
  unfold is_plain, lex_step, refused, place_of, is_d. cbn [existsb].
  rewrite negb_true_iff, !orb_false_iff. intros (Hq & Hd & Hc & Hr & Ho & _).
  now rewrite Hq, Hd, Hc, Hr, Ho.
Qed.

Lemma moved_other s : moved AfterOther s = AfterOther.
Proof. now destruct s. Qed.

Lemma lex_plain s p rest :
  all is_plain s = true -> lex (Bare p) (s +:+ rest) = lex (Bare (moved p s)) rest.
Proof.
  destruct s as [|c s]; [reflexivity|]. cbn [all moved]. rewrite andb_true_iff.
  intros [Hc Hs]. rewrite app_cons. cbn [lex]. rewrite (plain_step _ _ Hc).
  clear Hc. revert Hs. induction s as [|c' s IH]; [reflexivity|].
  cbn [all]. rewrite andb_true_iff. intros [Hc Hs]. rewrite app_cons. cbn [lex].
  rewrite (plain_step _ _ Hc). now apply IH.
Qed.

Lemma lex_item item rest :
  is_item item = true -> lex Quoted (item +:+ rest) = lex Quoted rest.
Proof.
  destruct item as [|c1 [|c2 [|c3 [|c4 [|c5 [|c6 [|c7 item]]]]]]]; try discriminate;
    rewrite ?app_cons, ?app_nil_l; cbn [lex lex_step is_item].
  - unfold is_unescaped. rewrite !andb_true_iff, !negb_true_iff.
    intros [[_ Hq] Hb]. now rewrite Hq, Hb.
  - rewrite andb_true_iff. intros [Hb _].
    apply Nat.eqb_eq in Hb. unfold code in Hb.
    replace (code c1 =? 34)%nat with false
      by (symmetry; apply Nat.eqb_neq; unfold code; lia).
    replace (code c1 =? 92)%nat with true
      by (symmetry; apply Nat.eqb_eq; unfold code; lia).
    reflexivity.
  - rewrite !andb_true_iff. intros [[[[[Hb _] H1] H2] H3] H4].
    apply Nat.eqb_eq in Hb. unfold code in Hb.
    replace (code c1 =? 34)%nat with false
      by (symmetry; apply Nat.eqb_neq; unfold code; lia).
    replace (code c1 =? 92)%nat with true
      by (symmetry; apply Nat.eqb_eq; unfold code; lia).
    assert (Hhex : forall h, is_hex h = true ->
              (code h =? 34)%nat = false /\ (code h =? 92)%nat = false).
    { intros h. unfold is_hex, is_digit.
      rewrite !orb_true_iff, !andb_true_iff, !Nat.leb_le, !Nat.eqb_neq. lia. }
    cbn [lex_step].
    destruct (Hhex _ H1) as [E1 E1']; rewrite E1, E1'; cbn [lex_step].
    destruct (Hhex _ H2) as [E2 E2']; rewrite E2, E2'; cbn [lex_step].
    destruct (Hhex _ H3) as [E3 E3']; rewrite E3, E3'; cbn [lex_step].
    destruct (Hhex _ H4) as [E4 E4']; rewrite E4, E4'.
    reflexivity.
Qed.

Lemma lex_chars body rest : Chars body -> lex Quoted (body +:+ rest) = lex Quoted rest.
Proof.
  induction 1 as [|item body Hitem Hbody IH]; [reflexivity|].
  now rewrite app_assoc, lex_item.
Qed.

Lemma lex_string_lit k p rest :
  StringLit k -> lex (Bare p) (k +:+ rest) = lex (Bare AfterOther) rest.
Proof.
  intros [body Hbody]. rewrite app_cons. cbn [lex lex_step].
  change (code Js.dquote =? 34)%nat with true. cbv iota.
  now rewrite app_assoc, lex_chars.
Qed.

Lemma plain_ws c : is_ws c = true -> is_plain c = true.
Proof. destruct c as [[] [] [] [] [] [] [] []]; vm_compute; intros; congruence. Qed.

Lemma plain_number_char c : is_number_char c = true -> is_plain c = true.
Proof. destruct c as [[] [] [] [] [] [] [] []]; vm_compute; intros; congruence. Qed.

Lemma number_moved s p : Number s -> moved p s = AfterOther.
Proof.
  intros [sign i f e Hsign Hi _ _].
  destruct Hsign as [-> | ->]; [|reflexivity]. now destruct Hi.
Qed.

(** Scanning a JSON value, element or member list leads from any place
    outside a string to the place after it, and meets none of the refused
    characters on the way. *)
Lemma lex_grammar :
  (forall s, Value s ->
     forall p rest, lex (Bare p) (s +:+ rest) = lex (Bare AfterOther) rest)
  /\ (forall s, Elements s ->
        forall p rest, lex (Bare p) (s +:+ rest) = lex (Bare AfterOther) rest)
  /\ (forall s, Element s ->
        forall p rest, lex (Bare p) (s +:+ rest) = lex (Bare AfterOther) rest)
  /\ (forall s, Members s ->
        forall p rest, lex (Bare p) (s +:+ rest) = lex (Bare AfterOther) rest)
  /\ (forall s, Member s ->
        forall p rest, lex (Bare p) (s +:+ rest) = lex (Bare AfterOther) rest).
Proof.
  assert (Hws : forall w p rest,
            Ws w -> lex (Bare p) (w +:+ rest) = lex (Bare (moved p w)) rest).
  { intros w p rest Hw. apply lex_plain. revert Hw. apply all_impl, plain_ws. }
  apply grammar_ind; intros.
  - exact (lex_plain "null" p rest eq_refl).
  - exact (lex_plain "true" p rest eq_refl).
  - exact (lex_plain "false" p rest eq_refl).
  - rewrite lex_plain
      by (eapply all_impl; [apply plain_number_char | now apply number_chars]).
    now rewrite number_moved.
  - now apply lex_string_lit.
  - rewrite !app_assoc. change (lex (Bare p) ("[" +:+ ?x)) with (lex (Bare AfterOpen) x).
    rewrite Hws by assumption. now destruct w.
  - rewrite !app_assoc. change (lex (Bare p) ("[" +:+ ?x)) with (lex (Bare AfterOpen) x).
    now rewrite H0.
  - rewrite !app_assoc. change (lex (Bare p) ("{" +:+ ?x)) with (lex (Bare AfterOther) x).
    rewrite Hws, moved_other by assumption. reflexivity.
  - rewrite !app_assoc. change (lex (Bare p) ("{" +:+ ?x)) with (lex (Bare AfterOther) x).
    now rewrite H0.
  - auto.
  - rewrite !app_assoc, H0.
    change (lex (Bare AfterOther) ("," +:+ ?x)) with (lex (Bare AfterComma) x). auto.
  - rewrite !app_assoc, Hws, H1, Hws, moved_other by assumption. reflexivity.
  - auto.
  - rewrite !app_assoc, H0.
    change (lex (Bare AfterOther) ("," +:+ ?x)) with (lex (Bare AfterComma) x). auto.
  - rewrite !app_assoc, Hws, lex_string_lit, Hws, moved_other by assumption.
    change (lex (Bare AfterOther) (":" +:+ ?x)) with (lex (Bare AfterOther) x). auto.
Qed.

(** A second necessary condition for [JSON.parse] to accept a text. *)
Lemma json_lex s : Json s -> lex (Bare AfterOther) s = Some (Bare AfterOther).
Proof.
  intros H. destruct lex_grammar as (_ & _ & He & _).
  specialize (He s H AfterOther ""). now rewrite app_nil_r in He.
Qed.

End JsonTextFacts.

(** ** Facts about canonical serialization *)

Module CanonicalFacts.
Import Js Canonical JsonText JsonTextFacts JsStringFacts SortFacts.

(** Induction on values, through arrays and objects. *)
Section ValueInduction.
Variable P : value -> Prop.
Hypothesis Hundefined : P JUndefined.
Hypothesis Hnull : P JNull.
Hypothesis Hbool : forall b, P (JBool b).
Hypothesis Hnum : forall n, P (JNum n).
Hypothesis Hstr : forall s, P (JStr s).
Hypothesis Harr : forall items, Forall P items -> P (JArr items).
Hypothesis Hobj : forall fields, Forall (fun kv => P (snd kv)) fields -> P (JObj fields).

Fixpoint value_induction (v : value) : P v :=
  match v with
  | JUndefined => Hundefined
  | JNull => Hnull
  | JBool b => Hbool b
  | JNum n => Hnum n
  | JStr s => Hstr s
  | JArr items =>
      Harr items
        ((fix go (l : list value) : Forall P l :=
            match l with
            | [] => @List.Forall_nil _ P
            | x :: l' => @List.Forall_cons _ P x l' (value_induction x) (go l')
            end) items)
  | JObj fields =>
      Hobj fields
        ((fix go (l : list (string * value)) : Forall (fun kv => P (snd kv)) l :=
            match l with
            | [] => @List.Forall_nil _ (fun kv => P (snd kv))
            | (k, x) :: l' =>
                @List.Forall_cons _ (fun kv => P (snd kv)) (k, x) l' (value_induction x) (go l')
            end) fields)
  end.
End ValueInduction.

(** *** Numbers *)

Lemma digit_char_spec d :
  (0 <= d <= 9)%Z ->
  is_digit (digit_char d) = true
  /\ ((1 <= d)%Z -> is_onenine (digit_char d) = true)
  /\ (d = 0%Z -> digit_char d = "0"%char).
Proof.
  intros H.
  assert (Hd : (d = 0 \/ d = 1 \/ d = 2 \/ d = 3 \/ d = 4 \/ d = 5 \/ d = 6
                \/ d = 7 \/ d = 8 \/ d = 9)%Z) by lia.
  repeat destruct Hd as [-> | Hd]; try subst d;
    (split; [reflexivity | split; [intros; reflexivity || lia | intros; reflexivity || lia]]).
Qed.

Lemma digits_fuel_S fuel n acc :
  digits_fuel (S fuel) n acc
  = if (n <? 10)%Z then String (digit_char (n mod 10)) acc
    else digits_fuel fuel (n / 10)%Z (String (digit_char (n mod 10)) acc).
Proof. reflexivity. Qed.

Lemma digits_fuel_spec fuel n acc :
  (0 <= n < 2 ^ Z.of_nat (S fuel))%Z ->
  exists c ds,
    digits_fuel (S fuel) n acc = String c (ds +:+ acc)
    /\ is_digit c = true /\ all is_digit ds = true
    /\ ((0 < n)%Z -> is_onenine c = true)
    /\ (n = 0%Z -> c = "0"%char /\ ds = "").
Proof.
  revert n acc. induction fuel as [|fuel IH]; intros n acc Hn.
  - assert (Hlt : (n <? 10)%Z = true) by (apply Z.ltb_lt; change (2 ^ Z.of_nat 1)%Z with 2%Z in Hn; lia).
    rewrite digits_fuel_S, Hlt.
    assert (Hmod : (n mod 10 = n)%Z) by (apply Z.mod_small; apply Z.ltb_lt in Hlt; lia).
    rewrite Hmod. destruct (digit_char_spec n) as (Hd & H1 & H0);
      [apply Z.ltb_lt in Hlt; lia|].
    exists (digit_char n), "". repeat split; auto. intros; apply H1; lia.
  - rewrite digits_fuel_S.
    destruct (n <? 10)%Z eqn:Hlt.
    + apply Z.ltb_lt in Hlt.
      assert (Hmod : (n mod 10 = n)%Z) by (apply Z.mod_small; lia).
      rewrite Hmod. destruct (digit_char_spec n) as (Hd & H1 & H0); [lia|].
      exists (digit_char n), "". repeat split; auto. intros; apply H1; lia.
    + apply Z.ltb_ge in Hlt.
      assert (Hdiv : (0 < n / 10 < 2 ^ Z.of_nat (S fuel))%Z).
      { split; [apply Z.div_str_pos; lia|].
        apply Z.div_lt_upper_bound; [lia|].
        rewrite (Nat2Z.inj_succ (S fuel)), Z.pow_succ_r in Hn by lia. lia. }
      destruct (IH (n / 10)%Z (String (digit_char (n mod 10)) acc)) as (c & ds & Heq & Hc & Hds & Hpos & _);
        [lia|].
      destruct (digit_char_spec (n mod 10)) as (Hd & _ & _);
        [pose proof (Z.mod_pos_bound n 10); lia|].
      exists c, (ds +:+ String (digit_char (n mod 10)) "").
      rewrite Heq, app_assoc. repeat split; auto.
      * rewrite all_app, Hds. cbn. now rewrite Hd.
      * intros _. apply Hpos. lia.
      * lia.
      * lia.
Qed.

Lemma nat_digits_spec n :
  (0 <= n)%Z ->
  exists c ds,
    nat_digits n = String c ds /\ is_digit c = true /\ all is_digit ds = true
    /\ ((0 < n)%Z -> is_onenine c = true) /\ (n = 0%Z -> c = "0"%char /\ ds = "").
Proof.
  intros Hn. unfold nat_digits.
  destruct (digits_fuel_spec (Z.to_nat (Z.log2 n)) n "") as (c & ds & Heq & H).
  - split; [assumption|].
    rewrite Nat2Z.inj_succ, Z2Nat.id by apply Z.log2_nonneg.
    destruct (Z.eq_dec n 0%Z) as [-> | Hne]; [reflexivity|].
    apply Z.log2_spec. lia.
  - exists c, ds. rewrite app_nil_r in Heq. auto.
Qed.

Lemma nat_digits_int n : (0 <= n)%Z -> IntPart (nat_digits n).
Proof.
  intros Hn. destruct (nat_digits_spec n Hn) as (c & ds & -> & Hc & Hds & Hpos & Hzero).
  destruct (Z.eq_dec n 0%Z) as [Hz | Hnz].
  - destruct (Hzero Hz) as [-> ->]. constructor.
  - constructor; [apply Hpos; lia | assumption].
Qed.

Lemma number_to_string_number n : Number (number_to_string n).
Proof.
  unfold number_to_string. destruct (n <? 0)%Z eqn:Hneg.
  - apply Z.ltb_lt in Hneg.
    rewrite <- (app_nil_r (nat_digits (- n))).
    change (String "-" (nat_digits (- n) +:+ ""))
      with ("-" +:+ nat_digits (- n) +:+ "" +:+ "").
    constructor; [now right | apply nat_digits_int; lia | constructor | constructor].
  - apply Z.ltb_ge in Hneg.
    rewrite <- (app_nil_r (nat_digits n)).
    change (nat_digits n +:+ "") with ("" +:+ nat_digits n +:+ "" +:+ "").
    constructor; [now left | now apply nat_digits_int | constructor | constructor].
Qed.

Lemma number_to_string_structural n : all is_structural (number_to_string n) = true.
Proof.
  assert (Hd : forall s, all is_digit s = true -> all is_structural s = true).
  { intros s. apply all_impl. intros c Hc. unfold is_structural. now rewrite Hc. }
  unfold number_to_string. destruct (n <? 0)%Z eqn:Hneg.
  - apply Z.ltb_lt in Hneg.
    destruct (nat_digits_spec (- n)) as (c & ds & -> & Hc & Hds & _); [lia|].
    cbn [all]. rewrite (Hd _ Hds). unfold is_structural at 2. now rewrite Hc.
  - apply Z.ltb_ge in Hneg.
    destruct (nat_digits_spec n Hneg) as (c & ds & -> & Hc & Hds & _).
    cbn [all]. rewrite (Hd _ Hds). unfold is_structural. now rewrite Hc.
Qed.

(** *** Strings *)

Lemma quote_char_item c : is_item (quote_char c) = true.
Proof. destruct c as [[] [] [] [] [] [] [] []]; reflexivity. Qed.

Lemma quote_body_chars s : Chars (quote_body s).
Proof.
  induction s as [|c s IH]; cbn [quote_body]; [constructor|].
  constructor; [apply quote_char_item | assumption].
Qed.

Lemma quote_string_lit s : StringLit (quote s).
Proof. constructor. apply quote_body_chars. Qed.

(** *** Property lookup *)

Lemma get_map {A B} (g : A -> B) key (fields : list (string * A)) :
  get key (map (fun kv => (fst kv, g (snd kv))) fields) = option_map g (get key fields).
Proof.
  induction fields as [|[k v] fields IH]; cbn; [reflexivity|].
  now destruct (String.eqb k key).
Qed.

Lemma get_In {A} key (fields : list (string * A)) v :
  get key fields = Some v -> In (key, v) fields.
Proof.
  induction fields as [|[k x] fields IH]; cbn; [discriminate|].
  destruct (String.eqb_spec k key) as [-> | Hne].
  - intros [= ->]. now left.
  - intros H. right. now apply IH.
Qed.

Lemma get_key {A} key (fields : list (string * A)) :
  In key (map fst fields) -> exists v, get key fields = Some v.
Proof.
  induction fields as [|[k x] fields IH]; cbn; [intros []|].
  destruct (String.eqb_spec k key) as [-> | Hne]; [eauto|].
  intros [H | H]; [contradiction | now apply IH].
Qed.

Lemma get_NoDup {A} key (fields : list (string * A)) v :
  List.NoDup (map fst fields) -> In (key, v) fields -> get key fields = Some v.
Proof.
  induction fields as [|[k x] fields IH]; cbn; [intros _ []|].
  intros Hnd [H | H]; inversion Hnd as [|? ? Hk Hrest]; subst.
  - injection H as -> ->. now rewrite String.eqb_refl.
  - destruct (String.eqb_spec k key) as [-> | Hne]; [|now apply IH].
    exfalso. apply Hk. apply in_map_iff. now exists (key, v).
Qed.

Lemma get_permutation {A} key (l l' : list (string * A)) :
  List.NoDup (map fst l) -> Permutation l l' -> get key l = get key l'.
Proof.
  intros Hnd Hperm.
  assert (Hnd' : List.NoDup (map fst l')).
  { eapply Permutation_NoDup; [|exact Hnd]. now apply Permutation_map. }
  destruct (get key l) as [v|] eqn:Hl.
  - symmetry. apply get_NoDup; [assumption|].
    eapply Permutation_in; [exact Hperm | now apply get_In].
  - destruct (get key l') as [v|] eqn:Hl'; [|reflexivity].
    apply get_In in Hl'. apply (Permutation_in _ (Permutation_sym Hperm)) in Hl'.
    apply get_NoDup in Hl'; [congruence | assumption].
Qed.

(** *** Scanning a canonical text *)

Section Render.
Variable forbidden : ascii -> bool.
Hypothesis structural_allowed : forall c, is_structural c = true -> forbidden c = false.

Definition clean (s : string) : Prop := scan forbidden Outside s = Some Outside.
Definition settles (s : string) : Prop := clean s \/ scan forbidden Outside s = None.

Lemma clean_app a b : clean a -> clean b -> clean (a +:+ b).
Proof. unfold clean. intros Ha Hb. now rewrite scan_app, Ha. Qed.

Lemma settles_app a b : settles a -> settles b -> settles (a +:+ b).
Proof.
  unfold settles, clean. intros [Ha | Ha] Hb; rewrite scan_app, Ha; [exact Hb | now right].
Qed.

Lemma clean_structural s : all is_structural s = true -> clean s.
Proof.
  intros H. apply scan_passes. revert H. apply all_impl. intros c Hc.
  unfold passes. rewrite (structural_allowed c Hc).
  unfold is_structural, is_digit in Hc. cbn [existsb] in Hc.
  rewrite !orb_true_iff, !andb_true_iff, !Nat.leb_le, !Nat.eqb_eq in Hc.
  replace (code c =? 34)%nat with false by (symmetry; apply Nat.eqb_neq; lia).
  reflexivity.
Qed.

Lemma clean_quote s : clean (quote s).
Proof.
  unfold clean. rewrite <- (app_nil_r (quote s)).
  now rewrite scan_string_lit by apply quote_string_lit.
Qed.

Lemma settles_undefined : settles "undefined".
Proof. apply scan_no_quote. reflexivity. Qed.

Lemma clean_join parts : Forall clean parts -> clean (join "," parts).
Proof.
  induction 1 as [|p parts Hp Hparts IH]; [reflexivity|].
  destruct parts as [|q parts]; [exact Hp|].
  change (join "," (p :: q :: parts)) with (p +:+ "," +:+ join "," (q :: parts)).
  apply clean_app; [exact Hp|]. apply clean_app; [now apply clean_structural | exact IH].
Qed.

Lemma settles_join parts : Forall settles parts -> settles (join "," parts).
Proof.
  induction 1 as [|p parts Hp Hparts IH]; [now left|].
  destruct parts as [|q parts]; [exact Hp|].
  change (join "," (p :: q :: parts)) with (p +:+ "," +:+ join "," (q :: parts)).
  apply settles_app; [exact Hp|].
  apply settles_app; [left; now apply clean_structural | exact IH].
Qed.

Lemma stableStringify_defined v : has_undefined v = false -> exists t, stableStringify v = Some t.
Proof. destruct v as [| |[]| | | |]; cbn; eauto. discriminate. Qed.

(** Every canonical text leaves the scanner outside strings or has made it
    fail; it cannot fail on a value free of [undefined]. *)
Lemma render_scan v :
  forall t, stableStringify v = Some t ->
            settles t /\ (has_undefined v = false -> clean t).
Proof.
  induction v as [| |b|n|s|items IH|fields IH] using value_induction; intros t Ht.
  - discriminate.
  - injection Ht as <-. split; [left|intros _]; now apply clean_structural.
  - destruct b; injection Ht as <-; (split; [left|intros _]); now apply clean_structural.
  - injection Ht as <-.
    split; [left|intros _]; apply clean_structural, number_to_string_structural.
  - injection Ht as <-. split; [left|intros _]; apply clean_quote.
  - injection Ht as <-. split.
    + apply settles_app; [left; now apply clean_structural|].
      apply settles_app; [|left; now apply clean_structural].
      apply settles_join, List.Forall_map.
      eapply List.Forall_impl; [|exact IH]. intros item Hitem. cbv beta in Hitem.
      destruct (stableStringify item) as [t|]; [now apply (Hitem t) | now left].
    + intros Hno. cbn [has_undefined] in Hno.
      apply clean_app; [now apply clean_structural|].
      apply clean_app; [|now apply clean_structural].
      apply clean_join, List.Forall_map. rewrite List.Forall_forall in IH |- *.
      intros item Hin.
      assert (Hitem : has_undefined item = false).
      { destruct (has_undefined item) eqn:E; [|reflexivity].
        rewrite <- Hno. symmetry. apply existsb_exists. eauto. }
      destruct (stableStringify_defined item Hitem) as [t Ht]. rewrite Ht.
      now apply (IH item Hin t Ht).
  - injection Ht as <-.
    set (rendered := map (fun kv => (fst kv, default "undefined" (stableStringify (snd kv)))) fields).
    assert (Hrendered : forall key r, get key rendered = Some r ->
              settles r /\ (has_undefined (JObj fields) = false -> clean r)).
    { intros key r Hr. unfold rendered in Hr.
      rewrite (get_map (fun v => default "undefined" (stableStringify v))) in Hr.
      destruct (get key fields) as [v|] eqn:Hv; [|discriminate].
      injection Hr as <-. apply get_In in Hv.
      rewrite List.Forall_forall in IH. specialize (IH _ Hv). cbn [snd] in IH.
      destruct (stableStringify v) as [t|] eqn:Ht.
      - destruct (IH t eq_refl) as [Hs Hc]. split; [exact Hs|].
        intros Hno. apply Hc. cbn [has_undefined] in Hno.
        destruct (has_undefined v) eqn:E; [|reflexivity].
        rewrite <- Hno. symmetry. apply existsb_exists. exists (key, v). auto.
      - split; [apply settles_undefined|]. intros Hno. exfalso.
        destruct v as [| |[]| | | |]; try discriminate. cbn [has_undefined] in Hno.
        apply not_true_iff_false in Hno. apply Hno, existsb_exists.
        exists (key, JUndefined). auto. }
    split.
    + apply settles_app; [left; now apply clean_structural|].
      apply settles_app; [|left; now apply clean_structural].
      apply settles_join, List.Forall_map, List.Forall_forall. intros key _.
      apply settles_app; [left; apply clean_quote|].
      apply settles_app; [left; now apply clean_structural|].
      destruct (get key rendered) as [r|] eqn:Hr;
        [now apply (Hrendered key r) | apply settles_undefined].
    + intros Hno.
      apply clean_app; [now apply clean_structural|].
      apply clean_app; [|now apply clean_structural].
      apply clean_join, List.Forall_map, List.Forall_forall. intros key Hkey.
      apply clean_app; [apply clean_quote|].
      apply clean_app; [now apply clean_structural|].
      apply (proj1 (sort_In _ _)) in Hkey.
      destruct (get_key key rendered) as [r Hr].
      { unfold rendered. rewrite map_map. exact Hkey. }
      rewrite Hr. now apply (Hrendered key r).
Qed.

Definition broken (s : string) : Prop := scan forbidden Outside s = None.

Lemma broken_app a b : settles a -> broken b -> broken (a +:+ b).
Proof.
  unfold settles, clean, broken. intros [Ha | Ha] Hb; now rewrite scan_app, Ha.
Qed.

Lemma broken_app_l a b : broken a -> broken (a +:+ b).
Proof. unfold broken. intros Ha. now rewrite scan_app, Ha. Qed.

Lemma broken_join parts part :
  Forall settles parts -> In part parts -> broken part -> broken (join "," parts).
Proof.
  induction 1 as [|p parts Hp Hparts IH]; [intros []|].
  intros Hin Hb. destruct parts as [|q parts].
  - destruct Hin as [-> | []]. exact Hb.
  - change (join "," (p :: q :: parts)) with (p +:+ "," +:+ join "," (q :: parts)).
    destruct Hin as [-> | Hin]; [now apply broken_app_l|].
    apply broken_app; [exact Hp|].
    apply broken_app; [left; now apply clean_structural | now apply IH].
Qed.

End Render.

Lemma is_d_structural c : is_structural c = true -> is_d c = false.
Proof. destruct c as [[] [] [] [] [] [] [] []]; vm_compute; intros; congruence. Qed.

Lemma is_ws_structural c : is_structural c = true -> is_ws c = false.
Proof. destruct c as [[] [] [] [] [] [] [] []]; vm_compute; intros; congruence. Qed.

(** *** Canonical texts are JSON texts *)

Lemma value_element t : Value t -> Element t.
Proof.
  intros H. rewrite <- (app_nil_r t). apply (Element_intro "" t ""); auto; reflexivity.
Qed.

Lemma elements_join ts : ts <> [] -> Forall Element ts -> Elements (join "," ts).
Proof.
  intros Hne H. induction H as [|t ts Ht Hts IH]; [congruence|].
  destruct ts as [|u ts]; [now constructor|].
  change (join "," (t :: u :: ts)) with (t +:+ "," +:+ join "," (u :: ts)).
  constructor; [exact Ht | apply IH; discriminate].
Qed.

Lemma members_join ts : ts <> [] -> Forall Member ts -> Members (join "," ts).
Proof.
  intros Hne H. induction H as [|t ts Ht Hts IH]; [congruence|].
  destruct ts as [|u ts]; [now constructor|].
  change (join "," (t :: u :: ts)) with (t +:+ "," +:+ join "," (u :: ts)).
  constructor; [exact Ht | apply IH; discriminate].
Qed.

Lemma well_rendered_defined v :
  well_rendered v = true -> exists t, stableStringify v = Some t.
Proof. destruct v as [| |[]| | | |]; cbn [stableStringify]; eauto. discriminate. Qed.

(** A value free of [undefined] is well rendered. *)
Lemma defined_well v : has_undefined v = false -> well_rendered v = true.
Proof.
  induction v as [| |b|n|s|items IH|fields IH] using value_induction;
    cbn [has_undefined well_rendered]; try reflexivity; try discriminate; intros Hno.
  - apply orb_true_iff. right. apply forallb_forall. intros x Hx.
    rewrite List.Forall_forall in IH. apply (IH x Hx).
    destruct (has_undefined x) eqn:E; [|reflexivity].
    rewrite <- Hno. symmetry. apply existsb_exists. eauto.
  - apply forallb_forall. intros [k x] Hx.
    rewrite List.Forall_forall in IH. apply (IH _ Hx).
    cbn [snd]. destruct (has_undefined x) eqn:E; [|reflexivity].
    rewrite <- Hno. symmetry. apply existsb_exists. exists (k, x). auto.
Qed.

Lemma render_well v :
  well_rendered v = true -> forall t, stableStringify v = Some t -> Value t.
Proof.
  induction v as [| |b|n|s|items IH|fields IH] using value_induction; intros Hw t Ht.
  - discriminate.
  - injection Ht as <-. constructor.
  - destruct b; injection Ht as <-; constructor.
  - injection Ht as <-. apply V_number, number_to_string_number.
  - injection Ht as <-. apply V_string, quote_string_lit.
  - injection Ht as <-. cbn [well_rendered] in Hw.
    destruct items as [|item items]; [apply (V_array_empty ""); reflexivity|].
    destruct (sole_undefined (item :: items)) eqn:Hsole.
    + destruct item; try discriminate. destruct items; try discriminate.
      apply (V_array_empty ""); reflexivity.
    + cbn [orb] in Hw. apply V_array, elements_join; [discriminate|].
      apply List.Forall_map. rewrite List.Forall_forall in IH |- *. intros x Hx.
      assert (Hxw : well_rendered x = true)
        by (apply (proj1 (forallb_forall _ _) Hw); exact Hx).
      destruct (well_rendered_defined x Hxw) as [t Ht]. rewrite Ht.
      apply value_element. now apply (IH x Hx).
  - injection Ht as <-. cbn [well_rendered] in Hw.
    destruct fields as [|field fields]; [apply (V_object_empty ""); reflexivity|].
    set (all_fields := field :: fields) in *.
    apply V_object, members_join.
    { intros Hnil. apply map_eq_nil in Hnil.
      assert (Hlen : length (sort (map fst all_fields)) = length (map fst all_fields))
        by apply sort_length.
      rewrite Hnil in Hlen. discriminate. }
    apply List.Forall_map, List.Forall_forall. intros key Hkey.
    apply (proj1 (sort_In _ _)) in Hkey.
    rewrite (get_map (fun v => default "undefined" (stableStringify v))).
    destruct (get_key key all_fields Hkey) as [v Hv]. rewrite Hv. cbn [option_map].
    apply get_In in Hv. rewrite List.Forall_forall in IH. specialize (IH _ Hv).
    cbn [snd] in IH.
    assert (Hvw : well_rendered v = true)
      by (apply (proj1 (forallb_forall _ _) Hw (key, v)); exact Hv).
    destruct (well_rendered_defined v Hvw) as [t Ht]. rewrite Ht.
    apply (Member_intro "" (quote key) "" t); try reflexivity.
    + apply quote_string_lit.
    + apply value_element. now apply IH.
Qed.

Lemma render_value v :
  has_undefined v = false -> forall t, stableStringify v = Some t -> Value t.
Proof. intros Hno. apply render_well. now apply defined_well. Qed.

(** *** Canonical texts do not depend on the order of the properties *)

Lemma stableStringify_permutation fields fields' :
  List.NoDup (map fst fields) -> Permutation fields fields' ->
  stableStringify (JObj fields) = stableStringify (JObj fields').
Proof.
  intros Hnd Hperm. cbn [stableStringify].
  rewrite (sort_permutation (map fst fields) (map fst fields'))
    by now apply Permutation_map.
  do 4 f_equal. apply map_ext. intros key. do 3 f_equal.
  apply get_permutation; [|now apply Permutation_map].
  now rewrite map_map.
Qed.

(** [JSON.stringify] leaves out the properties whose value is [undefined]. *)
Definition is_defined (kv : string * value) : bool :=
  match snd kv with JUndefined => false | _ => true end.

Lemma omap_defined {B} (f : string * value -> option B) fields :
  (forall kv, is_defined kv = false -> f kv = None) ->
  omap f fields = omap f (List.filter is_defined fields).
Proof.
  intros Hf. induction fields as [|kv fields IH]; [reflexivity|].
  cbn [List.filter]. destruct (is_defined kv) eqn:Hd; cbn [omap list_omap].
  - now rewrite IH.
  - now rewrite (Hf kv Hd).
Qed.

Lemma JSON_stringify_omits fields :
  JSON_stringify (JObj fields) = JSON_stringify (JObj (List.filter is_defined fields)).
Proof.
  cbn [JSON_stringify]. do 4 f_equal. apply omap_defined.
  intros [k v]. unfold is_defined. cbn [snd]. now destruct v.
Qed.

(** *** Undefined properties *)

(** The parts [stableStringify] joins for an object. *)
Definition object_parts (fields : list (string * value)) : list string :=
  map (fun key =>
         quote key +:+ ":" +:+
         default "undefined"
           (get key (map (fun kv => (fst kv, default "undefined" (stableStringify (snd kv))))
                         fields)))
      (sort (map fst fields)).

Lemma stableStringify_object fields :
  stableStringify (JObj fields) = Some ("{" +:+ join "," (object_parts fields) +:+ "}").
Proof. reflexivity. Qed.

Lemma object_parts_settle forbidden fields :
  (forall c, is_structural c = true -> forbidden c = false) ->
  Forall (settles forbidden) (object_parts fields).
Proof.
  intros Hf. unfold object_parts. apply List.Forall_map, List.Forall_forall. intros key _.
  apply settles_app; [left; now apply clean_quote|].
  apply settles_app; [left; now apply clean_structural|].
  rewrite (get_map (fun v => default "undefined" (stableStringify v))).
  destruct (get key fields) as [v|]; cbn [option_map default from_option];
    [|now apply settles_undefined].
  destruct (stableStringify v) as [t|] eqn:Ht; [|now apply settles_undefined].
  now apply (render_scan forbidden Hf v t).
Qed.

Lemma get_Some_key {A} key (fields : list (string * A)) v :
  get key fields = Some v -> In key (map fst fields).
Proof. intros H. apply get_In in H. apply in_map_iff. now exists (key, v). Qed.

Lemma undefined_part fields key :
  get key fields = Some JUndefined -> In (quote key +:+ ":undefined") (object_parts fields).
Proof.
  intros H. unfold object_parts. apply in_map_iff. exists key. split.
  - rewrite (get_map (fun v => default "undefined" (stableStringify v))), H. reflexivity.
  - apply sort_In. now apply get_Some_key in H.
Qed.

Lemma undefined_part_broken key : broken is_d (quote key +:+ ":undefined").
Proof.
  unfold broken. now rewrite scan_string_lit by apply quote_string_lit.
Qed.

(** *** Where [undefined] breaks the text *)

(** The text leads the scanner from any place outside a string to the
    place after it, or makes it refuse. *)
Definition lands (t : string) : Prop :=
  forall p, lex (Bare p) t = Some (Bare AfterOther) \/ lex (Bare p) t = None.

(** The text makes the scanner refuse, from any place outside a string. *)
Definition fails (t : string) : Prop := forall p, lex (Bare p) t = None.

Lemma fails_lands t : fails t -> lands t.
Proof. intros H p. now right. Qed.

Lemma lands_app a b : lands a -> lands b -> lands (a +:+ b).
Proof.
  intros Ha Hb p. rewrite lex_app. destruct (Ha p) as [-> | ->]; [apply Hb | now right].
Qed.

Lemma fails_app a b : lands a -> fails b -> fails (a +:+ b).
Proof.
  intros Ha Hb p. rewrite lex_app. destruct (Ha p) as [-> | ->]; [apply Hb | reflexivity].
Qed.

Lemma fails_app_l a b : fails a -> fails (a +:+ b).
Proof. intros Ha p. now rewrite lex_app, Ha. Qed.

Lemma value_lands t : Value t -> lands t.
Proof.
  intros H p. left. destruct lex_grammar as (Hv & _).
  specialize (Hv t H p ""). now rewrite app_nil_r in Hv.
Qed.

Lemma lands_quote s : lands (quote s).
Proof. apply value_lands, V_string, quote_string_lit. Qed.

Lemma lands_colon : lands ":".
Proof. intros p. now left. Qed.

Lemma lands_brace : lands "{".
Proof. intros p. now left. Qed.

Lemma lands_brace_close : lands "}".
Proof. intros p. now left. Qed.

Lemma fails_undefined : fails "undefined".
Proof. intros p. reflexivity. Qed.

Lemma lands_join parts : parts <> [] -> Forall lands parts -> lands (join "," parts).
Proof.
  intros Hne H. induction H as [|t ts Ht Hts IH]; [congruence|].
  destruct ts as [|u ts]; [exact Ht|].
  change (join "," (t :: u :: ts)) with (t +:+ "," +:+ join "," (u :: ts)).
  intros p. rewrite lex_app. destruct (Ht p) as [-> | ->]; [|now right].
  cbn [bind_lex].
  change (lex (Bare AfterOther) ("," +:+ ?x)) with (lex (Bare AfterComma) x).
  apply IH. discriminate.
Qed.

Lemma fails_join parts part :
  Forall lands parts -> In part parts -> fails part -> fails (join "," parts).
Proof.
  induction 1 as [|t ts Ht Hts IH]; [intros []|].
  intros Hin Hb. destruct ts as [|u ts].
  - destruct Hin as [-> | []]. exact Hb.
  - change (join "," (t :: u :: ts)) with (t +:+ "," +:+ join "," (u :: ts)).
    destruct Hin as [-> | Hin]; [now apply fails_app_l|].
    intros p. rewrite lex_app. destruct (Ht p) as [-> | ->]; [|reflexivity].
    cbn [bind_lex].
    change (lex (Bare AfterOther) ("," +:+ ?x)) with (lex (Bare AfterComma) x).
    now apply IH.
Qed.

Lemma stableStringify_none v : stableStringify v = None -> v = JUndefined.
Proof. destruct v as [| |[]| | | |]; cbn [stableStringify]; congruence. Qed.

Lemma forallb_false {A} (f : A -> bool) l :
  forallb f l = false -> exists x, In x l /\ f x = false.
Proof.
  induction l as [|x l IH]; cbn [forallb]; [discriminate|].
  destruct (f x) eqn:E; [|intros _; exists x; split; [now left | exact E]].
  intros H. destruct (IH H) as (y & Hy & Hf). exists y. split; [now right | exact Hf].
Qed.

Lemma distinct_items items : distinct_keys (JArr items) <-> Forall distinct_keys items.
Proof.
  change (distinct_keys (JArr items))
    with (fold_right (fun item acc => distinct_keys item /\ acc) True items).
  induction items as [|x items IH]; cbn [fold_right]; [split; auto|].
  rewrite IH. split; [intros [H1 H2]; now constructor | intros H; now inversion H].
Qed.

Lemma distinct_fields fields :
  distinct_keys (JObj fields)
  <-> List.NoDup (map fst fields) /\ Forall (fun kv => distinct_keys (snd kv)) fields.
Proof.
  change (distinct_keys (JObj fields))
    with (List.NoDup (map fst fields)
          /\ fold_right (fun kv acc => distinct_keys (snd kv) /\ acc) True fields).
  assert (H : fold_right (fun kv acc => distinct_keys (snd kv) /\ acc) True fields
              <-> Forall (fun kv => distinct_keys (snd kv)) fields).
  { induction fields as [|x fields IH]; cbn [fold_right]; [split; auto|].
    rewrite IH. split; [intros [H1 H2]; now constructor | intros H; now inversion H]. }
  now rewrite H.
Qed.

(** What [join] writes for an array element. *)
Definition rendered (item : value) : string := default "" (stableStringify item).

(** The text of [v] lands, and fails when [v] is not well rendered. *)
Definition sound (v : value) : Prop :=
  forall t, stableStringify v = Some t ->
    lands t /\ (distinct_keys v -> well_rendered v = false -> fails t).

(** The elements of an array and its closing bracket, read after the
    opening bracket or after a comma. *)
Definition items_text (items : list value) : string :=
  join "," (map rendered items) +:+ "]".

Lemma rendered_some x t : stableStringify x = Some t -> rendered x = t.
Proof. unfold rendered. now intros ->. Qed.

Lemma rendered_none x : stableStringify x = None -> rendered x = "".
Proof. unfold rendered. now intros ->. Qed.

Lemma items_lex items :
  Forall sound items ->
  forall q, q <> AfterOther ->
    (lex (Bare q) (items_text items) = Some (Bare AfterOther)
     \/ lex (Bare q) (items_text items) = None)
    /\ (Forall distinct_keys items -> forallb well_rendered items = false ->
        q = AfterComma \/ sole_undefined items = false ->
        lex (Bare q) (items_text items) = None).
Proof.
  induction 1 as [|x items Hx Hitems IH]; intros q Hq.
  - split; [|discriminate]. destruct q; [now left | now right | congruence].
  - destruct items as [|y rest].
    + change (items_text [x]) with (rendered x +:+ "]").
      destruct (stableStringify x) as [t|] eqn:Ht.
      * rewrite (rendered_some x t Ht). destruct (Hx t Ht) as [Hl Hf]. split.
        -- rewrite lex_app. destruct (Hl q) as [-> | ->]; [now left | now right].
        -- intros Hd Hw _. inversion Hd as [|? ? Hdx _]; subst.
           cbn [forallb] in Hw. rewrite andb_true_r in Hw.
           now rewrite lex_app, (Hf Hdx Hw q).
      * rewrite (rendered_none x Ht). apply stableStringify_none in Ht. subst x. split.
        -- destruct q; [now left | now right | congruence].
        -- intros _ _ [-> | Hsole]; [reflexivity | discriminate].
    + assert (Hsplit : items_text (x :: y :: rest)
                       = rendered x +:+ "," +:+ items_text (y :: rest)).
      { unfold items_text.
        change (join "," (map rendered (x :: y :: rest)))
          with (rendered x +:+ "," +:+ join "," (map rendered (y :: rest))).
        now rewrite !app_assoc. }
      rewrite Hsplit. clear Hsplit.
      destruct (IH AfterComma) as [IHl IHf]; [discriminate|].
      destruct (stableStringify x) as [t|] eqn:Ht.
      * rewrite (rendered_some x t Ht). destruct (Hx t Ht) as [Hl Hf].
        rewrite lex_app. destruct (Hl q) as [E | E]; rewrite E; cbn [bind_lex].
        -- change (lex (Bare AfterOther) ("," +:+ ?z)) with (lex (Bare AfterComma) z).
           split; [exact IHl|]. intros Hd Hw _. inversion Hd as [|? ? Hdx Hdrest]; subst.
           cbn [forallb] in Hw. apply andb_false_iff in Hw. destruct Hw as [Hw | Hw].
           ++ specialize (Hf Hdx Hw q). congruence.
           ++ apply IHf; auto.
        -- split; [now right | reflexivity].
      * rewrite (rendered_none x Ht).
        destruct q; [split; [now right | reflexivity] .. | congruence].
Qed.

(** Every canonical text lands; that of a value with distinct keys that is
    not well rendered fails. *)
Lemma render_lex v : sound v.
Proof.
  induction v as [| |b|n|s|items IH|fields IH] using value_induction; intros t Ht.
  - discriminate.
  - injection Ht as <-. split; [apply value_lands; constructor | discriminate].
  - destruct b; injection Ht as <-; (split; [apply value_lands; constructor | discriminate]).
  - injection Ht as <-.
    split; [apply value_lands, V_number, number_to_string_number | discriminate].
  - injection Ht as <-. split; [apply lands_quote | discriminate].
  - injection Ht as <-.
    destruct (items_lex items IH AfterOpen) as [Hl Hf]; [discriminate|].
    change (map (fun item => default "" (stableStringify item)) items)
      with (map rendered items).
    fold (items_text items). split.
    + intros p. exact Hl.
    + intros Hd Hw p. cbn [well_rendered] in Hw. apply orb_false_iff in Hw.
      destruct Hw as [Hsole Hw]. apply Hf; [now apply distinct_items | exact Hw | now right].
  - injection Ht as <-. fold (object_parts fields).
    destruct fields as [|field fields];
      [split; [apply value_lands, (V_object_empty ""); reflexivity | discriminate]|].
    set (all_fields := field :: fields) in *.
    assert (Hparts : Forall lands (object_parts all_fields)).
    { unfold object_parts. apply List.Forall_map, List.Forall_forall. intros key _.
      apply lands_app; [apply lands_quote|]. apply lands_app; [apply lands_colon|].
      rewrite (get_map (fun v => default "undefined" (stableStringify v))).
      destruct (get key all_fields) as [v|] eqn:Hv;
        [|apply fails_lands, fails_undefined].
      change (lands (default "undefined" (stableStringify v))).
      apply get_In in Hv. rewrite List.Forall_forall in IH. specialize (IH _ Hv).
      cbn [snd] in IH.
      destruct (stableStringify v) as [t|] eqn:Ht;
        [exact (proj1 (IH t Ht)) | apply fails_lands, fails_undefined]. }
    assert (Hne : object_parts all_fields <> []).
    { unfold object_parts. intros Hnil. apply map_eq_nil in Hnil.
      assert (Hlen : length (sort (map fst all_fields)) = length (map fst all_fields))
        by apply sort_length.
      rewrite Hnil in Hlen. discriminate. }
    split.
    + apply lands_app; [apply lands_brace|].
      apply lands_app; [now apply lands_join | apply lands_brace_close].
    + intros Hd Hw. apply distinct_fields in Hd. destruct Hd as [Hnd Hall].
      cbn [well_rendered] in Hw. apply forallb_false in Hw.
      destruct Hw as ([k x] & Hin & Hw). cbn [snd] in Hw.
      assert (Hget : get k all_fields = Some x) by now apply get_NoDup.
      apply fails_app; [apply lands_brace|]. apply fails_app_l.
      apply (fails_join _ (quote k +:+ ":" +:+ default "undefined" (stableStringify x)));
        [exact Hparts| |].
      * unfold object_parts. apply in_map_iff. exists k. split.
        -- now rewrite (get_map (fun v => default "undefined" (stableStringify v))), Hget.
        -- apply sort_In, in_map_iff. now exists (k, x).
      * apply fails_app; [apply lands_quote|]. apply fails_app; [apply lands_colon|].
        rewrite List.Forall_forall in IH, Hall.
        specialize (IH _ Hin). specialize (Hall _ Hin). cbn [snd] in IH, Hall.
        destruct (stableStringify x) as [t|] eqn:Ht;
          [exact (proj2 (IH t Ht) Hall Hw) | apply fails_undefined].
Qed.

(** The canonical text of a value with distinct keys is a JSON text only if
    the value is well rendered. *)
Lemma json_well_rendered v text :
  distinct_keys v -> stableStringify v = Some text -> Json text -> well_rendered v = true.
Proof.
  intros Hd Ht Hjson. destruct (well_rendered v) eqn:Hw; [reflexivity|].
  apply json_lex in Hjson.
  rewrite (proj2 (render_lex v text Ht) Hd Hw AfterOther) in Hjson. discriminate.
Qed.

(** [undefined] below the top: a property of a nested object and an element
    of a longer array break the text, the only element of an array does not. *)
Example nested_undefined_samples :
  (stableStringify (JObj [("a", JObj [("b", JUndefined)])])
   = Some (String "{" (String dquote ("a" +:+ String dquote (":{" +:+ String dquote
       ("b" +:+ String dquote ":undefined}}")))))
   /\ forall text, stableStringify (JObj [("a", JObj [("b", JUndefined)])]) = Some text ->
                   ~ Json text)
  /\ (stableStringify (JArr [JUndefined; JNum 1]) = Some "[,1]" /\ ~ Json "[,1]")
  /\ (stableStringify (JArr [JNum 1; JUndefined]) = Some "[1,]" /\ ~ Json "[1,]")
  /\ (stableStringify (JArr [JUndefined; JUndefined]) = Some "[,]" /\ ~ Json "[,]")
  /\ (stableStringify (JArr [JArr [JUndefined]]) = Some "[[]]" /\ Json "[[]]").
Proof.
  assert (Hnot : forall text, lex (Bare AfterOther) text = None -> ~ Json text).
  { intros text Hlex Hjson. apply json_lex in Hjson. congruence. }
  repeat split; try (apply Hnot; reflexivity).
  - intros text [= <-]. apply Hnot. reflexivity.
  - apply value_element, (render_well (JArr [JArr [JUndefined]])); reflexivity.
Qed.

(** C10 (as the serializer behaves). An object property whose value is
    [undefined] is written [key:undefined] (where [JSON.stringify] leaves
    the property out), and the text is then not a JSON text. On a value free
    of [undefined] the result is a JSON text without white space outside
    strings. The properties are written in the sorted order of their keys,
    whatever their order in the object. An [undefined] array element is
    written as the empty string between the commas. The text of a value is
    a JSON text only if [undefined] occurs nowhere in the value except as
    the only element of an array, and it is one then: an [undefined]
    property at any depth and an [undefined] element of a longer array break
    it. *)
Theorem stableStringify_canonical :
  (forall fields key, get key fields = Some JUndefined ->
     exists text,
       stableStringify (JObj fields) = Some text
       /\ text = "{" +:+ join "," (object_parts fields) +:+ "}"
       /\ In (quote key +:+ ":undefined") (object_parts fields)
       /\ ~ Json text
       /\ JSON_stringify (JObj fields) = JSON_stringify (JObj (List.filter is_defined fields)))
  /\ (forall v, has_undefined v = false ->
       exists text,
         stableStringify v = Some text /\ Json text
         /\ scan is_ws Outside text = Some Outside)
  /\ (forall fields,
       stableStringify (JObj fields) = Some ("{" +:+ join "," (object_parts fields) +:+ "}")
       /\ StronglySorted String.le (sort (map fst fields))
       /\ forall fields', List.NoDup (map fst fields) -> Permutation fields fields' ->
                          stableStringify (JObj fields') = stableStringify (JObj fields))
  /\ (forall items,
       stableStringify (JArr items)
       = Some ("[" +:+ join "," (map (fun item => default "" (stableStringify item)) items)
               +:+ "]"))
  /\ (forall v text, stableStringify v = Some text ->
       (well_rendered v = true -> Json text)
       /\ (distinct_keys v -> Json text -> well_rendered v = true))
  /\ (forall v, has_undefined v = false -> well_rendered v = true).
Proof.
  split; [|split; [|split; [|split; [|split]]]].
  - intros fields key Hkey. eexists. split; [apply stableStringify_object|].
    split; [reflexivity|]. split; [now apply undefined_part|]. split.
    + intros Hjson. apply json_scan in Hjson.
      assert (Hbroken : broken is_d ("{" +:+ join "," (object_parts fields) +:+ "}")).
      { apply broken_app; [left; now apply (clean_structural is_d is_d_structural)|].
        apply broken_app_l.
        apply (broken_join is_d is_d_structural _ (quote key +:+ ":undefined"));
          [apply object_parts_settle, is_d_structural
          | now apply undefined_part | apply undefined_part_broken]. }
      unfold broken in Hbroken. congruence.
    + apply JSON_stringify_omits.
  - intros v Hno. destruct (stableStringify_defined v Hno) as [text Ht].
    exists text. split; [exact Ht|]. split.
    + apply value_element. now apply (render_value v Hno).
    + now apply (render_scan is_ws is_ws_structural v text Ht).
  - intros fields. split; [reflexivity|]. split; [apply sort_sorted|].
    intros fields' Hnd Hperm. symmetry. now apply stableStringify_permutation.
  - reflexivity.
  - intros v text Ht. split.
    + intros Hw. apply value_element. now apply (render_well v Hw).
    + intros Hd. now apply json_well_rendered.
  - apply defined_well.
Qed.

(** C10 as stated fails in its last part: an array whose only element is
    [undefined] contains [undefined], and its canonical text is the
    well-formed, whitespace-free JSON text of the empty array. *)
Lemma undefined_element_well_formed :
  has_undefined (JArr [JUndefined]) = true
  /\ stableStringify (JArr [JUndefined]) = Some "[]"
  /\ Json "[]"
  /\ scan is_ws Outside "[]" = Some Outside
  /\ JSON_stringify (JArr [JUndefined]) = Some "[null]".
Proof.
  repeat split.
  apply value_element. apply (V_array_empty ""). reflexivity.
Qed.

Example stableStringify_samples :
  stableStringify (JObj [("b", JNum 2); ("a", JArr [JNum 1; JUndefined; JStr "x"]); ("c", JUndefined)])
  = Some (String "{" (String dquote ("a" +:+ String dquote (":[1,," +:+ String dquote ("x" +:+ String dquote
      ("]," +:+ String dquote ("b" +:+ String dquote (":2," +:+ String dquote ("c" +:+ String dquote
      ":undefined}"))))))))).
Proof. reflexivity. Qed.

End CanonicalFacts.

(** ** SHA-256 and HMAC-SHA256 ([node:crypto]) *)

Module Sha256.

Local Open Scope Z_scope.

Definition mask32 : Z := 4294967295.
Definition add32 (a b : Z) : Z := Z.land (a + b) mask32.
Definition rotr (n x : Z) : Z :=
  Z.land (Z.lor (Z.shiftr x n) (Z.shiftl x (32 - n))) mask32.
Definition shr (n x : Z) : Z := Z.shiftr x n.
Definition not32 (x : Z) : Z := Z.lxor x mask32.

Definition Ch (x y z : Z) : Z := Z.lxor (Z.land x y) (Z.land (not32 x) z).
Definition Maj (x y z : Z) : Z := Z.lxor (Z.lxor (Z.land x y) (Z.land x z)) (Z.land y z).
Definition Sigma0 (x : Z) : Z := Z.lxor (Z.lxor (rotr 2 x) (rotr 13 x)) (rotr 22 x).
Definition Sigma1 (x : Z) : Z := Z.lxor (Z.lxor (rotr 6 x) (rotr 11 x)) (rotr 25 x).
Definition sigma0 (x : Z) : Z := Z.lxor (Z.lxor (rotr 7 x) (rotr 18 x)) (shr 3 x).
Definition sigma1 (x : Z) : Z := Z.lxor (Z.lxor (rotr 17 x) (rotr 19 x)) (shr 10 x).

(** The constants of FIPS 180-4 are derived from the primes: the round
    constants are the first 32 bits of the fractional parts of the cube
    roots of the first 64 primes, the initial hash value those of the square
    roots of the first 8. *)
Definition is_prime (n : Z) : bool :=
  (1 <? n) && forallb (fun d => negb (n mod Z.of_nat d =? 0)) (seq 2 (Z.to_nat n - 2)).

Definition primes (howMany : nat) : list Z :=
  firstn howMany (List.filter is_prime (map Z.of_nat (seq 2 310))).

(** The integer cube root, one bit at a time. *)
Definition cube_root (n : Z) : Z :=
  fold_left (fun r bit => let c := r + 2 ^ Z.of_nat bit in if c * c * c <=? n then c else r)
            (rev (seq 0 36)) 0.

Definition cube_root_bits (p : Z) : Z := Z.land (cube_root (p * 2 ^ 96)) mask32.
Definition square_root_bits (p : Z) : Z := Z.land (Z.sqrt (p * 2 ^ 64)) mask32.

Definition K : list Z := Eval vm_compute in map cube_root_bits (primes 64).

(** The eight working words. *)
Record state := State { wa : Z; wb : Z; wc : Z; wd : Z; we : Z; wf : Z; wg : Z; wh : Z }.

Definition state_of (l : list Z) : state :=
  State (nth 0 l 0) (nth 1 l 0) (nth 2 l 0) (nth 3 l 0)
        (nth 4 l 0) (nth 5 l 0) (nth 6 l 0) (nth 7 l 0).

Definition H0 : state := Eval vm_compute in state_of (map square_root_bits (primes 8)).

(** Message padding: the bit 1, zeros, and the bit length on 64 bits. *)
Definition be_bytes (count : nat) (x : Z) : list Z :=
  map (fun i => Z.land (Z.shiftr x (8 * Z.of_nat i)) 255) (rev (seq 0 count)).

Definition pad (msg : list Z) : list Z :=
  let len := Z.of_nat (length msg) in
  let zeros := Z.to_nat ((55 - len) mod 64) in
  msg ++ [128] ++ repeat 0 zeros ++ be_bytes 8 (8 * len).

Fixpoint words (count : nat) (bytes : list Z) : list Z :=
  match count, bytes with
  | S n, b3 :: b2 :: b1 :: b0 :: rest =>
      (b3 * 16777216 + b2 * 65536 + b1 * 256 + b0) :: words n rest
  | _, _ => []
  end.

Fixpoint blocks (count : nat) (bytes : list Z) : list (list Z) :=
  match count with
  | O => []
  | S n => words 16 (firstn 64 bytes) :: blocks n (skipn 64 bytes)
  end.

(** The message schedule, most recent word first. *)
Fixpoint schedule (steps : nat) (recent : list Z) : list Z :=
  match steps with
  | O => recent
  | S n =>
      let w := add32 (add32 (sigma1 (nth 1 recent 0)) (nth 6 recent 0))
                     (add32 (sigma0 (nth 14 recent 0)) (nth 15 recent 0)) in
      schedule n (w :: recent)
  end.

Definition round (s : state) (kw : Z * Z) : state :=
  let '(k, w) := kw in
  let t1 := add32 (add32 (add32 (wh s) (Sigma1 (we s))) (add32 (Ch (we s) (wf s) (wg s)) k)) w in
  let t2 := add32 (Sigma0 (wa s)) (Maj (wa s) (wb s) (wc s)) in
  State (add32 t1 t2) (wa s) (wb s) (wc s) (add32 (wd s) t1) (we s) (wf s) (wg s).

Definition compress (h : state) (block : list Z) : state :=
  let w := rev (schedule 48 (rev block)) in
  let s := fold_left round (combine K w) h in
  State (add32 (wa h) (wa s)) (add32 (wb h) (wb s)) (add32 (wc h) (wc s)) (add32 (wd h) (wd s))
        (add32 (we h) (we s)) (add32 (wf h) (wf s)) (add32 (wg h) (wg s)) (add32 (wh h) (wh s)).

Definition digest (msg : list Z) : list Z :=
  let padded := pad msg in
  let s := fold_left compress (blocks (length padded / 64) padded) H0 in
  flat_map (be_bytes 4) [wa s; wb s; wc s; wd s; we s; wf s; wg s; wh s].

Definition bytes_of_string (s : string) : list Z :=
  map (fun c => Z.of_nat (nat_of_ascii c)) (list_ascii_of_string s).

Definition hex_char (d : Z) : ascii := Js.hex_digit (Z.to_nat (d mod 16)).

Fixpoint hex (bytes : list Z) : string :=
  match bytes with
  | [] => ""
  | b :: rest => String (hex_char (b / 16)) (String (hex_char b) (hex rest))
  end.

(** [crypto.createHash("sha256").update(value).digest("hex")] *)
Definition sha256Hex (value : string) : string := hex (digest (bytes_of_string value)).

Definition hmac_key (secret : list Z) : list Z :=
  let k := if (64 <? Z.of_nat (length secret)) then digest secret else secret in
  k ++ repeat 0 (64 - length k)%nat.

Definition hmac (secret payload : list Z) : list Z :=
  let k := hmac_key secret in
  digest (map (Z.lxor 92) k ++ digest (map (Z.lxor 54) k ++ payload)).

(** [crypto.createHmac("sha256", secret).update(payload).digest("hex")] *)
Definition hmacSha256Hex (secret payload : string) : string :=
  hex (hmac (bytes_of_string secret) (bytes_of_string payload)).

End Sha256.

Example round_constants :
  length Sha256.K = 64%nat
  /\ nth 0 Sha256.K 0%Z = 0x428a2f98%Z /\ nth 63 Sha256.K 0%Z = 0xc67178f2%Z
  /\ Sha256.wa Sha256.H0 = 0x6a09e667%Z /\ Sha256.wh Sha256.H0 = 0x5be0cd19%Z.
Proof. repeat split. Qed.

Example sha256_abc :
  Sha256.sha256Hex "abc" = "ba7816bf8f01cfea414140de5dae2223b00361a396177a9cb410ff61f20015ad".
Proof. vm_compute. reflexivity. Qed.

Example sha256_empty :
  Sha256.sha256Hex "" = "e3b0c44298fc1c149afbf4c8996fb92427ae41e4649b934ca495991b7852b855".
Proof. vm_compute. reflexivity. Qed.

Example sha256_two_blocks :
  Sha256.sha256Hex "abcdbcdecdefdefgefghfghighijhijkijkljklmklmnlmnomnopnopq"
  = "248d6a61d20638b8e5c026930c3e6039a33ce45964ff2167f6ecedd419db06c1".
Proof. vm_compute. reflexivity. Qed.

Example hmac_sha256_fox :
  Sha256.hmacSha256Hex "key" "The quick brown fox jumps over the lazy dog"
  = "f7bc83f430538424b13298e6aa6fb143ef4d59a14946175997479dbc2d1a3cd8".
Proof. vm_compute. reflexivity. Qed.

(** ** HMAC keyring ([hmac-keyring]) *)

Module Keyring.
Import Sha256.

Record HmacKeyring := { activeKid : string; keys : JsObject.t }.

(** The parsed keyring file. *)
Record HmacKeyringFile := {
  version : option string;
  active_kid : option string;
  file_keys : option JsObject.t
}.

Record HmacSignatureV2 := { kid : string; sig : string }.

Definition is_lower_hex (c : ascii) : bool :=
  let n := nat_of_ascii c in
  ((48 <=? n)%nat && (n <=? 57)%nat) || ((97 <=? n)%nat && (n <=? 102)%nat).

(** [/^[a-f0-9]{64}$/.test(s)] *)
Definition is_hex64 (s : string) : bool :=
  (String.length s =? 64)%nat && JsonText.all is_lower_hex s.

Definition normalizeHex (value : string) : string := toLowerCase (trim value).

Definition hex_value (c : ascii) : option Z :=
  let n := nat_of_ascii c in
  if (48 <=? n)%nat && (n <=? 57)%nat then Some (Z.of_nat (n - 48))
  else if (97 <=? n)%nat && (n <=? 102)%nat then Some (Z.of_nat (n - 87))
  else if (65 <=? n)%nat && (n <=? 70)%nat then Some (Z.of_nat (n - 55))
  else None.

(** [Buffer.from(s, "hex")]: the bytes of the leading pairs of hex digits. *)
Fixpoint hex_decode (s : string) : list Z :=
  match s with
  | String h (String l rest) =>
      match hex_value h, hex_value l with
      | Some x, Some y => (16 * x + y)%Z :: hex_decode rest
      | _, _ => []
      end
  | _ => []
  end.

Definition constantTimeHexEquals (aHex bHex : string) : bool :=
  let a := normalizeHex aHex in
  let b := normalizeHex bHex in
  if negb (String.length a =? String.length b)%nat
     || (String.length a =? 0)%nat
     || negb (Nat.even (String.length a))
  then false
  else
    let left := hex_decode a in
    let right := hex_decode b in
    if negb (length left =? length right)%nat || (length left =? 0)%nat then false
    else bool_decide (left = right).

Inductive loaded := Loaded (keyring : HmacKeyring) | LoadError (message : string).

Definition loadHmacKeyring (parsed : HmacKeyringFile) : loaded :=
  let keysInput := default [] (file_keys parsed) in
  let keys :=
    fold_left (fun keys entry =>
                 let kid := trim (fst entry) in
                 let key := trim (snd entry) in
                 if negb (truthy kid) || negb (truthy key) then keys
                 else JsObject.set kid key keys)
              keysInput [] in
  let activeKid := trim (default "" (active_kid parsed)) in
  if negb (truthy activeKid) then LoadError "HMAC keyring missing active_kid."
  else
    let missing :=
      LoadError ("HMAC keyring active_kid " +:+ String Js.dquote activeKid
                 +:+ String Js.dquote " not found in keys.") in
    match JsObject.read activeKid keys with
    | JsObject.Own secret =>
        if truthy secret then Loaded {| activeKid := activeKid; keys := keys |} else missing
    | JsObject.Inherited => Loaded {| activeKid := activeKid; keys := keys |}
    | JsObject.Missing => missing
    end.

(** [None] when [keys[activeKid]] is no string: [createHmac] throws on a
    key that is a function, an object or [undefined]. *)
Definition signWithKeyring (payloadCanonical : string) (keyring : HmacKeyring)
    : option HmacSignatureV2 :=
  match JsObject.read (activeKid keyring) (keys keyring) with
  | JsObject.Own secret =>
      Some {| kid := activeKid keyring; sig := hmacSha256Hex secret payloadCanonical |}
  | _ => None
  end.

(** [None] when [keys[kid]] is an inherited member: it passes [!secret] and
    [createHmac] throws on it. *)
Definition verifyWithKeyring (payloadCanonical : string) (signature : HmacSignatureV2)
    (keyring : HmacKeyring) : option bool :=
  let k := trim (kid signature) in
  let s := toLowerCase (trim (sig signature)) in
  if negb (truthy k) || negb (is_hex64 s) then Some false
  else
    match JsObject.read k (keys keyring) with
    | JsObject.Own secret =>
        if truthy secret
        then Some (constantTimeHexEquals (hmacSha256Hex secret payloadCanonical) s)
        else Some false
    | JsObject.Inherited => None
    | JsObject.Missing => Some false
    end.

Definition verifyWithAnyKey (payloadCanonical signatureHex : string)
    (keyring : HmacKeyring) : bool * option string :=
  let s := toLowerCase (trim signatureHex) in
  if negb (is_hex64 s) then (false, None)
  else
    match List.find (fun entry =>
                       constantTimeHexEquals (hmacSha256Hex (snd entry) payloadCanonical) s)
                    (keys keyring) with
    | Some entry => (true, Some (fst entry))
    | None => (false, None)
    end.

End Keyring.

(** ** Approval attestation ([ApprovalAttestationService]) *)

Module Attestation.
Import Js Sha256 Keyring.

(** ["0".repeat(64)] *)
Definition GENESIS_HASH : string := string_of_list_ascii (repeat "0"%char 64).

(** A JSON text column: the text, and what [JSON.parse] returns on it
    ([None] when it throws). *)
Record json_text := { raw : string; parsed : option value }.

(** The text [JSON.stringify(v)]. *)
Definition stringified (v : value) : json_text :=
  {| raw := default "" (JSON_stringify v); parsed := reparse v |}.

(** A row of [approvals] as the attestation service reads it: the
    timestamps are the stored ISO texts. *)
Record ApprovalRecord := {
  id : string;
  created_at : string;
  expires_at : string;
  status : string;
  required_approvals : Z;
  required_roles : json_text;
  max_uses : Z;
  use_count : Z;
  last_used_at : option string;
  approval_actors : json_text;
  approval_actor_roles : json_text;
  request_fingerprint : string;
  reason : string;
  metadata : json_text;
  resolved_by : option string;
  resolved_at : option string
}.

Record ApprovalAttestationEntry := {
  e_id : string;
  e_created_at : string;
  e_expires_at : string;
  e_status : string;
  e_required_approvals : Z;
  e_max_uses : Z;
  e_use_count : Z;
  e_last_used_at : option string;
  e_approval_actors : list string;
  e_required_roles : list string;
  e_approval_actor_roles : JsObject.t;
  e_request_fingerprint : string;
  e_reason : string;
  e_resolved_by : option string;
  e_resolved_at : option string;
  e_metadata : value;
  previous_hash : string;
  entry_hash : string
}.

Record ApprovalAttestationPayload := {
  generated_at : string;
  since : option string;
  count : Z;
  entries : list ApprovalAttestationEntry;
  final_hash : string;
  signature : option string;
  signature_kid : option string
}.

Record ApprovalAttestationVerification := {
  valid : bool;
  v_reason : option string;
  v_count : nat;
  computed_final_hash : string;
  stored_final_hash : string;
  signature_valid : option bool;
  payload_hash : string;
  v_generated_at : string
}.

Definition parseMetadata (column : json_text) : value :=
  match parsed column with
  | Some v => v
  | None => JObj [("parse_error", JBool true); ("raw", JStr (raw column))]
  end.

Definition parseApprovalActors (column : json_text) : list string :=
  match parsed column with
  | Some (JArr items) =>
      List.filter truthy (map (fun item => trim (string_or_empty item)) items)
  | _ => []
  end.

Definition parseRequiredRoles (column : json_text) : list string :=
  match parsed column with
  | Some (JArr items) =>
      sort (List.filter truthy
              (map (fun item => toLowerCase (trim (string_or_empty item))) items))
  | _ => []
  end.

Definition parseApprovalActorRoles (column : json_text) : JsObject.t :=
  match parsed column with
  | Some (JObj fields) =>
      fold_left (fun out entry =>
                   let actorKey := trim (fst entry) in
                   let roleValue := toLowerCase (trim (string_or_empty (snd entry))) in
                   if negb (truthy actorKey) || negb (truthy roleValue) then out
                   else JsObject.set actorKey roleValue out)
                fields []
  | _ => []
  end.

Definition normalizeRequiredApprovals (value : Z) : Z := Z.min 5 (Z.max 1 value).
Definition normalizeMaxUses (value : Z) : Z := Z.min 100 (Z.max 1 value).
Definition normalizeUseCount (value : Z) : Z := Z.max 0 value.

Definition nullable (o : option string) : value :=
  match o with Some s => JStr s | None => JNull end.

Definition strings (l : list string) : value := JArr (map JStr l).

Definition string_map (o : JsObject.t) : value :=
  JObj (map (fun kv => (fst kv, JStr (snd kv))) o).

(** The object [entryHash] serializes. *)
Definition hashed_fields (previousHash : string) (record : ApprovalRecord)
    (meta : value) : list (string * value) :=
  [ ("previous_hash", JStr previousHash);
    ("id", JStr (id record));
    ("created_at", JStr (created_at record));
    ("expires_at", JStr (expires_at record));
    ("status", JStr (status record));
    ("required_approvals", JNum (normalizeRequiredApprovals (required_approvals record)));
    ("max_uses", JNum (normalizeMaxUses (max_uses record)));
    ("use_count", JNum (normalizeUseCount (use_count record)));
    ("last_used_at", nullable (last_used_at record));
    ("approval_actors", strings (parseApprovalActors (approval_actors record)));
    ("required_roles", strings (parseRequiredRoles (required_roles record)));
    ("approval_actor_roles", string_map (parseApprovalActorRoles (approval_actor_roles record)));
    ("request_fingerprint", JStr (request_fingerprint record));
    ("reason", JStr (reason record));
    ("resolved_by", nullable (resolved_by record));
    ("resolved_at", nullable (resolved_at record));
    ("metadata", meta) ].

(** [stableStringify] inside a template or as the argument of [update]:
    the text, [undefined] written as that word. *)
Definition canonical (v : value) : string :=
  default "undefined" (Canonical.stableStringify v).

Definition entryHash (previousHash : string) (record : ApprovalRecord) (meta : value) : string :=
  sha256Hex (canonical (JObj (hashed_fields previousHash record meta))).

Definition entry_value (e : ApprovalAttestationEntry) : value :=
  JObj [ ("id", JStr (e_id e));
         ("created_at", JStr (e_created_at e));
         ("expires_at", JStr (e_expires_at e));
         ("status", JStr (e_status e));
         ("required_approvals", JNum (e_required_approvals e));
         ("max_uses", JNum (e_max_uses e));
         ("use_count", JNum (e_use_count e));
         ("last_used_at", nullable (e_last_used_at e));
         ("approval_actors", strings (e_approval_actors e));
         ("required_roles", strings (e_required_roles e));
         ("approval_actor_roles", string_map (e_approval_actor_roles e));
         ("request_fingerprint", JStr (e_request_fingerprint e));
         ("reason", JStr (e_reason e));
         ("resolved_by", nullable (e_resolved_by e));
         ("resolved_at", nullable (e_resolved_at e));
         ("metadata", e_metadata e);
         ("previous_hash", JStr (previous_hash e));
         ("entry_hash", JStr (entry_hash e)) ].

(** The text that is signed: the payload without its signature fields. *)
Definition signed_text (p : ApprovalAttestationPayload) : string :=
  canonical (JObj [ ("generated_at", JStr (generated_at p));
                    ("since", nullable (since p));
                    ("count", JNum (count p));
                    ("entries", JArr (map entry_value (entries p)));
                    ("final_hash", JStr (final_hash p)) ]).

Definition payloadHash (p : ApprovalAttestationPayload) : string :=
  sha256Hex (canonical (JObj [ ("generated_at", JStr (generated_at p));
                               ("since", nullable (since p));
                               ("count", JNum (count p));
                               ("entries", JArr (map entry_value (entries p)));
                               ("final_hash", JStr (final_hash p));
                               ("signature", nullable (signature p));
                               ("signature_kid", nullable (signature_kid p)) ])).

(** The signing configuration of the service. *)
Record Signing := { signingKey : string; signingKeyring : option HmacKeyring }.

Definition entry_of (previousHash : string) (row : ApprovalRecord) : ApprovalAttestationEntry :=
  let meta := parseMetadata (metadata row) in
  {| e_id := id row;
     e_created_at := created_at row;
     e_expires_at := expires_at row;
     e_status := status row;
     e_required_approvals := normalizeRequiredApprovals (required_approvals row);
     e_max_uses := normalizeMaxUses (max_uses row);
     e_use_count := normalizeUseCount (use_count row);
     e_last_used_at := last_used_at row;
     e_approval_actors := parseApprovalActors (approval_actors row);
     e_required_roles := parseRequiredRoles (required_roles row);
     e_approval_actor_roles := parseApprovalActorRoles (approval_actor_roles row);
     e_request_fingerprint := request_fingerprint row;
     e_reason := reason row;
     e_resolved_by := resolved_by row;
     e_resolved_at := resolved_at row;
     e_metadata := meta;
     previous_hash := previousHash;
     entry_hash := entryHash previousHash row meta |}.

(** The loop of [generate]: the entries, and the hash of the last one. *)
Fixpoint chain (previousHash : string) (rows : list ApprovalRecord)
    : list ApprovalAttestationEntry * string :=
  match rows with
  | [] => ([], previousHash)
  | row :: rest =>
      let entry := entry_of previousHash row in
      let '(more, last) := chain (entry_hash entry) rest in
      (entry :: more, last)
  end.

Definition with_signature (sig kid : option string) (p : ApprovalAttestationPayload)
    : ApprovalAttestationPayload :=
  {| generated_at := generated_at p; since := since p; count := count p;
     entries := entries p; final_hash := final_hash p;
     signature := sig; signature_kid := kid |}.

(** [generate], on the rows [listForAttestation] returned and the time of
    the call; [None] when signing throws. *)
Definition generate (cfg : Signing) (rows : list ApprovalRecord) (nowIso sinceArg : string)
    : option ApprovalAttestationPayload :=
  let '(made, previousHash) := chain GENESIS_HASH rows in
  let unsigned :=
    {| generated_at := nowIso;
       since := (let trimmed := trim sinceArg in if truthy trimmed then Some trimmed else None);
       count := Z.of_nat (length made);
       entries := made;
       final_hash := previousHash;
       signature := None;
       signature_kid := None |} in
  let canonicalText := signed_text unsigned in
  match signingKeyring cfg with
  | Some keyring =>
      match signWithKeyring canonicalText keyring with
      | Some v2 => Some (with_signature (Some (sig v2)) (Some (kid v2)) unsigned)
      | None => None
      end
  | None =>
      if truthy (signingKey cfg)
      then Some (with_signature (Some (hmacSha256Hex (signingKey cfg) canonicalText)) None unsigned)
      else Some unsigned
  end.

(** The record [verifyPayload] rebuilds from an entry. *)
Definition record_of (entry : ApprovalAttestationEntry) : ApprovalRecord :=
  {| id := e_id entry;
     created_at := e_created_at entry;
     expires_at := e_expires_at entry;
     status := e_status entry;
     required_approvals := normalizeRequiredApprovals (e_required_approvals entry);
     max_uses := normalizeMaxUses (e_max_uses entry);
     use_count := normalizeUseCount (e_use_count entry);
     last_used_at := e_last_used_at entry;
     required_roles := stringified (strings (e_required_roles entry));
     approval_actors := stringified (strings (e_approval_actors entry));
     approval_actor_roles := stringified (string_map (e_approval_actor_roles entry));
     request_fingerprint := e_request_fingerprint entry;
     reason := e_reason entry;
     metadata := stringified (match e_metadata entry with
                              | JUndefined | JNull => JObj []
                              | m => m
                              end);
     resolved_by := e_resolved_by entry;
     resolved_at := e_resolved_at entry |}.

(** The loop of [verifyPayload] over the entries: the first mismatch, if
    any, and the hash reached. *)
Fixpoint check_entries (previousHash : string) (items : list ApprovalAttestationEntry)
    : option string * string :=
  match items with
  | [] => (None, previousHash)
  | entry :: rest =>
      if negb (String.eqb (previous_hash entry) previousHash)
      then (Some "Entry previous_hash mismatch.", previousHash)
      else
        let expected := entryHash previousHash (record_of entry) (e_metadata entry) in
        if negb (String.eqb expected (entry_hash entry))
        then (Some "Entry hash mismatch.", previousHash)
        else check_entries (entry_hash entry) rest
  end.

Definition option_truthy (o : option string) : bool :=
  match o with Some s => truthy s | None => false end.

(** [verifyPayload]; [None] when [verifyWithKeyring] throws. *)
Definition verifyPayload (cfg : Signing) (payload : ApprovalAttestationPayload)
    : option ApprovalAttestationVerification :=
  let items := entries payload in
  let '(why, previousHash) :=
    if negb (count payload =? Z.of_nat (length items))%Z
    then (Some "Payload count does not match entries length.", GENESIS_HASH)
    else check_entries GENESIS_HASH items in
  let why :=
    match why with
    | Some _ => why
    | None =>
        if negb (String.eqb (final_hash payload) previousHash)
        then Some "Final hash mismatch." else None
    end in
  let canonicalText := signed_text payload in
  let report signatureValid why :=
    {| valid := match why with None => true | Some _ => false end;
       v_reason := why;
       v_count := length items;
       computed_final_hash := previousHash;
       stored_final_hash := final_hash payload;
       signature_valid := signatureValid;
       payload_hash := payloadHash payload;
       v_generated_at := generated_at payload |} in
  match signingKeyring cfg with
  | Some keyring =>
      let checked :=
        if option_truthy (signature payload) && option_truthy (signature_kid payload)
        then verifyWithKeyring canonicalText
               {| kid := default "" (signature_kid payload);
                  sig := default "" (signature payload) |} keyring
        else if option_truthy (signature payload)
        then Some (fst (verifyWithAnyKey canonicalText (default "" (signature payload)) keyring))
        else Some false in
      match checked with
      | Some ok =>
          Some (report (Some ok)
                  match why with
                  | None => if ok then None else Some "Attestation keyring signature mismatch."
                  | _ => why
                  end)
      | None => None
      end
  | None =>
      if truthy (signingKey cfg) then
        let expectedSignature := hmacSha256Hex (signingKey cfg) canonicalText in
        let ok := bool_decide (signature payload = Some expectedSignature) in
        Some (report (Some ok)
                match why with
                | None => if ok then None else Some "Attestation signature mismatch."
                | _ => why
                end)
      else Some (report None why)
  end.

End Attestation.

(** ** Facts about [trim] and [toLowerCase] *)

Module TrimFacts.

Lemma lower_char_idempotent c : lower_char (lower_char c) = lower_char c.
Proof. destruct c as [[] [] [] [] [] [] [] []]; reflexivity. Qed.

Lemma is_space_lower c : is_space (lower_char c) = is_space c.
Proof. destruct c as [[] [] [] [] [] [] [] []]; reflexivity. Qed.

Lemma toLowerCase_idempotent s : toLowerCase (toLowerCase s) = toLowerCase s.
Proof.
  induction s as [|c s IH]; [reflexivity|].
  cbn [toLowerCase]. now rewrite lower_char_idempotent, IH.
Qed.

Lemma truthy_lower s : truthy (toLowerCase s) = truthy s.
Proof. now destruct s. Qed.

Lemma trimStart_lower s : trimStart (toLowerCase s) = toLowerCase (trimStart s).
Proof.
  induction s as [|c s IH]; [reflexivity|].
  cbn [toLowerCase trimStart]. rewrite is_space_lower.
  now destruct (is_space c).
Qed.

Lemma trimEnd_lower s : trimEnd (toLowerCase s) = toLowerCase (trimEnd s).
Proof.
  induction s as [|c s IH]; [reflexivity|].
  cbn [toLowerCase trimEnd]. rewrite IH, is_space_lower.
  destruct (trimEnd s); cbn [toLowerCase]; [now destruct (is_space c) | reflexivity].
Qed.

Lemma trim_lower s : trim (toLowerCase s) = toLowerCase (trim s).
Proof. unfold trim. now rewrite trimStart_lower, trimEnd_lower. Qed.

(** A string that is empty or starts with a character that is no space. *)
Definition starts_clean (s : string) : Prop :=
  match s with
  | EmptyString => True
  | String c _ => is_space c = false
  end.

Lemma trimStart_clean s : starts_clean (trimStart s).
Proof.
  induction s as [|c s IH]; [exact I|].
  cbn [trimStart]. destruct (is_space c) eqn:Hc; [exact IH | exact Hc].
Qed.

Lemma trimStart_of_clean s : starts_clean s -> trimStart s = s.
Proof. destruct s as [|c s]; [reflexivity|]. cbn. now intros ->. Qed.

Lemma trimEnd_clean s : starts_clean s -> starts_clean (trimEnd s).
Proof.
  destruct s as [|c s]; [intros _; exact I|].
  cbn [starts_clean trimEnd]. intros Hc.
  destruct (trimEnd s); [rewrite Hc|]; exact Hc.
Qed.

Lemma trimEnd_cons c s :
  trimEnd (String c s)
  = match trimEnd s with
    | EmptyString => if is_space c then EmptyString else String c EmptyString
    | t => String c t
    end.
Proof. reflexivity. Qed.

Lemma trimEnd_idempotent s : trimEnd (trimEnd s) = trimEnd s.
Proof.
  induction s as [|c s IH]; [reflexivity|].
  rewrite (trimEnd_cons c s). destruct (trimEnd s) as [|d t] eqn:Ht.
  - destruct (is_space c) eqn:Hc; [reflexivity|]. rewrite trimEnd_cons. cbn. now rewrite Hc.
  - rewrite trimEnd_cons. now rewrite IH.
Qed.

Lemma trim_idempotent s : trim (trim s) = trim s.
Proof.
  unfold trim.
  rewrite (trimStart_of_clean (trimEnd (trimStart s)))
    by apply trimEnd_clean, trimStart_clean.
  apply trimEnd_idempotent.
Qed.

Lemma clean_role_idempotent s : toLowerCase (trim (toLowerCase (trim s))) = toLowerCase (trim s).
Proof. now rewrite trim_lower, trim_idempotent, toLowerCase_idempotent. Qed.

(** Strings without spaces and capitals, such as hex digests. *)
Lemma trimEnd_no_space s :
  JsonText.all (fun c => negb (is_space c)) s = true -> trimEnd s = s.
Proof.
  induction s as [|c s IH]; [reflexivity|].
  cbn [JsonText.all]. rewrite andb_true_iff, negb_true_iff, trimEnd_cons.
  intros [Hc Hs]. rewrite (IH Hs). destruct s; [now rewrite Hc | reflexivity].
Qed.

Lemma trim_no_space s :
  JsonText.all (fun c => negb (is_space c)) s = true -> trim s = s.
Proof.
  intros H. unfold trim. rewrite trimStart_of_clean.
  - now apply trimEnd_no_space.
  - destruct s as [|c s]; [exact I|]. cbn in H |- *.
    apply andb_true_iff in H as [Hc _]. now apply negb_true_iff.
Qed.

Lemma lower_hex_plain c :
  Keyring.is_lower_hex c = true -> is_space c = false /\ lower_char c = c.
Proof. destruct c as [[] [] [] [] [] [] [] []]; vm_compute; intros; split; congruence. Qed.

Lemma normalizeHex_lower_hex s :
  JsonText.all Keyring.is_lower_hex s = true -> Keyring.normalizeHex s = s.
Proof.
  intros H. unfold Keyring.normalizeHex. rewrite trim_no_space.
  - induction s as [|c s IH]; [reflexivity|].
    cbn in H |- *. apply andb_true_iff in H as [Hc Hs].
    now rewrite (proj2 (lower_hex_plain c Hc)), IH.
  - revert H. apply JsonTextFacts.all_impl. intros c Hc.
    now rewrite (proj1 (lower_hex_plain c Hc)).
Qed.

End TrimFacts.

(** ** Facts about digests and the keyring *)

Module KeyringFacts.
Import Sha256 Keyring TrimFacts.

Lemma hex_char_lower d : is_lower_hex (hex_char d) = true.
Proof.
  unfold hex_char. pose proof (Z.mod_pos_bound d 16 eq_refl) as Hd.
  assert (Hn : (Z.to_nat (d mod 16) < 16)%nat) by lia.
  destruct (Z.to_nat (d mod 16)) as [|n]; [reflexivity|].
  do 15 (destruct n as [|n]; [reflexivity|]). lia.
Qed.

Lemma hex_length bytes : String.length (hex bytes) = (2 * length bytes)%nat.
Proof. induction bytes as [|b bytes IH]; cbn [hex String.length length]; lia. Qed.

Lemma hex_lower bytes : JsonText.all is_lower_hex (hex bytes) = true.
Proof.
  induction bytes as [|b bytes IH]; [reflexivity|].
  cbn [hex JsonText.all]. now rewrite !hex_char_lower, IH.
Qed.

Lemma digest_length msg : length (digest msg) = 32%nat.
Proof. reflexivity. Qed.

Lemma hex_digest_hex64 msg : is_hex64 (hex (digest msg)) = true.
Proof.
  unfold is_hex64. now rewrite hex_length, digest_length, hex_lower.
Qed.

Lemma hmacSha256Hex_hex64 secret payload : is_hex64 (hmacSha256Hex secret payload) = true.
Proof. apply hex_digest_hex64. Qed.

Lemma sha256Hex_hex64 value : is_hex64 (sha256Hex value) = true.
Proof. apply hex_digest_hex64. Qed.

Lemma hex64_spec s :
  is_hex64 s = true -> String.length s = 64%nat /\ JsonText.all is_lower_hex s = true.
Proof. unfold is_hex64. rewrite andb_true_iff, Nat.eqb_eq. tauto. Qed.

Lemma hex64_normal s : is_hex64 s = true -> toLowerCase (trim s) = s.
Proof. intros H. apply normalizeHex_lower_hex. now apply hex64_spec in H. Qed.

Lemma hex64_truthy s : is_hex64 s = true -> truthy s = true.
Proof. intros H. apply hex64_spec in H as [Hlen _]. now destruct s. Qed.

Lemma lower_hex_value c : is_lower_hex c = true -> exists x, hex_value c = Some x.
Proof.
  unfold is_lower_hex, hex_value. intros H.
  destruct ((48 <=? nat_of_ascii c)%nat && (nat_of_ascii c <=? 57)%nat); [eauto|].
  cbn [orb] in H. rewrite H. eauto.
Qed.

Lemma constantTimeHexEquals_refl s : is_hex64 s = true -> constantTimeHexEquals s s = true.
Proof.
  intros H. unfold constantTimeHexEquals.
  replace (normalizeHex s) with s by (symmetry; now apply hex64_normal).
  destruct (hex64_spec s H) as [Hlen Hall]. rewrite Hlen, Nat.eqb_refl.
  cbn [negb orb Nat.eqb Nat.even].
  destruct s as [|h [|l rest]]; try discriminate.
  cbn [JsonText.all] in Hall. apply andb_true_iff in Hall as [Hh Hall].
  apply andb_true_iff in Hall as [Hl _].
  destruct (lower_hex_value h Hh) as [x Hx], (lower_hex_value l Hl) as [y Hy].
  cbn [hex_decode]. rewrite Hx, Hy. cbn [length Nat.eqb negb orb].
  rewrite Nat.eqb_refl. cbn [negb orb]. now apply bool_decide_eq_true.
Qed.

(** What [loadHmacKeyring] guarantees of the keyring it returns. The
    active kid need not be an own key: a member of [Object.prototype]
    passes the check as well. *)
Lemma loadHmacKeyring_loaded parsed keyring :
  loadHmacKeyring parsed = Loaded keyring ->
  trim (activeKid keyring) = activeKid keyring
  /\ truthy (activeKid keyring) = true
  /\ forall secret,
       JsObject.get (activeKid keyring) (keys keyring) = Some secret ->
       truthy secret = true.
Proof.
  unfold loadHmacKeyring.
  destruct (truthy (trim (default "" (active_kid parsed)))) eqn:Hkid; [|discriminate].
  cbn [negb]. cbv zeta. unfold JsObject.read.
  match goal with |- context [JsObject.get ?k ?m] =>
    destruct (JsObject.get k m) as [secret|] eqn:Hget end.
  - destruct (truthy secret) eqn:Hsecret; [|discriminate].
    intros [= <-]. cbn [activeKid keys].
    split; [apply trim_idempotent|]. split; [exact Hkid|]. congruence.
  - destruct (existsb _ _); [|discriminate].
    intros [= <-]. cbn [activeKid keys].
    split; [apply trim_idempotent|]. split; [exact Hkid|]. congruence.
Qed.

(** [signWithKeyring] returns exactly when the active kid is an own key. *)
Lemma signWithKeyring_returns text keyring :
  is_Some (signWithKeyring text keyring)
  <-> is_Some (JsObject.get (activeKid keyring) (keys keyring)).
Proof.
  unfold signWithKeyring, JsObject.read.
  destruct (JsObject.get (activeKid keyring) (keys keyring)) as [secret|].
  - split; eauto.
  - destruct (existsb _ _); split; intros [x Hx]; discriminate.
Qed.

Lemma signWithKeyring_verifies parsed keyring text v2 :
  loadHmacKeyring parsed = Loaded keyring ->
  signWithKeyring text keyring = Some v2 ->
  kid v2 = activeKid keyring
  /\ is_hex64 (sig v2) = true
  /\ verifyWithKeyring text v2 keyring = Some true.
Proof.
  intros Hload. destruct (loadHmacKeyring_loaded _ _ Hload) as (Htrim & Hkid & Hsecret).
  unfold signWithKeyring, JsObject.read.
  destruct (JsObject.get (activeKid keyring) (keys keyring)) as [secret|] eqn:Hget;
    [|destruct (existsb _ _); discriminate].
  intros [= <-]. split; [reflexivity|]. split; [apply hmacSha256Hex_hex64|].
  unfold verifyWithKeyring, JsObject.read. cbn [kid sig].
  rewrite Htrim, Hkid, (hex64_normal _ (hmacSha256Hex_hex64 secret text)).
  rewrite hmacSha256Hex_hex64, Hget, (Hsecret _ eq_refl). cbn [negb orb].
  f_equal. apply constantTimeHexEquals_refl, hmacSha256Hex_hex64.
Qed.

Lemma verifyWithKeyring_own text signature keyring :
  is_Some (JsObject.get (trim (kid signature)) (keys keyring)) ->
  is_Some (verifyWithKeyring text signature keyring).
Proof.
  intros [secret Hget]. unfold verifyWithKeyring, JsObject.read. rewrite Hget.
  destruct (_ || _); [eauto|]. destruct (truthy secret); eauto.
Qed.

(** A keyring file whose active kid names a member of [Object.prototype]
    and no key loads, and signing with it throws. *)
Example inherited_active_kid :
  let parsed := {| version := None; active_kid := Some "constructor";
                   file_keys := Some [("k1", "first-secret")] |} in
  loadHmacKeyring parsed
  = Loaded {| activeKid := "constructor"; keys := [("k1", "first-secret")] |}
  /\ signWithKeyring "text" {| activeKid := "constructor"; keys := [("k1", "first-secret")] |}
     = None.
Proof. split; reflexivity. Qed.

End KeyringFacts.

(** ** Facts about the attestation service *)

Module AttestationFacts.
Import Js Sha256 Keyring Attestation TrimFacts KeyringFacts SortFacts JsStringFacts.

(** *** The decoders are idempotent on what they produce *)

Lemma reparse_strings l : reparse (strings l) = Some (strings l).
Proof.
  unfold strings. cbn [reparse]. do 2 f_equal. rewrite map_map.
  apply map_ext. reflexivity.
Qed.

Lemma reparse_string_map o : reparse (string_map o) = Some (string_map o).
Proof.
  unfold string_map. cbn [reparse]. do 2 f_equal.
  induction o as [|[k v] o IH]; [reflexivity|].
  cbn in IH |- *. now rewrite IH.
Qed.

Lemma string_or_empty_JStr s : string_or_empty (JStr s) = s.
Proof. unfold string_or_empty. cbn. now destruct s. Qed.

Lemma filter_map_fixed (f : string -> string) l :
  Forall (fun x => f x = x /\ truthy x = true) l -> List.filter truthy (map f l) = l.
Proof.
  induction 1 as [|x l [Hf Ht] Hl IH]; [reflexivity|].
  cbn [map List.filter]. now rewrite Hf, Ht, IH.
Qed.

Lemma Forall_filter_map (f : value -> string) (P : string -> Prop) items :
  (forall item, truthy (f item) = true -> P (f item)) ->
  Forall P (List.filter truthy (map f items)).
Proof.
  intros H. apply List.Forall_forall. intros x Hx.
  apply List.filter_In in Hx as [Hin Ht]. apply in_map_iff in Hin as (item & <- & _). auto.
Qed.

Lemma parseApprovalActors_again column :
  parseApprovalActors (stringified (strings (parseApprovalActors column)))
  = parseApprovalActors column.
Proof.
  unfold parseApprovalActors at 1. cbn [stringified parsed]. rewrite reparse_strings.
  unfold strings at 1. rewrite map_map.
  rewrite (map_ext _ trim) by (intros; now rewrite string_or_empty_JStr).
  apply filter_map_fixed. unfold parseApprovalActors.
  destruct (parsed column) as [[| | | | |items|]|]; try constructor.
  apply Forall_filter_map. intros item Ht. split; [apply trim_idempotent | exact Ht].
Qed.

Lemma parseRequiredRoles_again column :
  parseRequiredRoles (stringified (strings (parseRequiredRoles column)))
  = parseRequiredRoles column.
Proof.
  unfold parseRequiredRoles at 1. cbn [stringified parsed]. rewrite reparse_strings.
  unfold strings at 1. rewrite map_map.
  rewrite (map_ext _ (fun x => toLowerCase (trim x)))
    by (intros; now rewrite string_or_empty_JStr).
  unfold parseRequiredRoles.
  destruct (parsed column) as [[| | | | |items|]|]; try reflexivity.
  rewrite filter_map_fixed; [apply sort_idempotent|].
  apply List.Forall_forall. intros x Hx. apply (proj1 (sort_In _ _)) in Hx.
  revert x Hx. apply List.Forall_forall, Forall_filter_map.
  intros item Ht. split; [apply clean_role_idempotent | exact Ht].
Qed.

(** Entries of a normalized role map. *)
Definition entry_ok (kv : string * string) : Prop :=
  trim (fst kv) = fst kv /\ truthy (fst kv) = true
  /\ toLowerCase (trim (snd kv)) = snd kv /\ truthy (snd kv) = true
  /\ fst kv <> "__proto__".

Definition normalized (o : JsObject.t) : Prop :=
  List.NoDup (JsObject.keys o) /\ Forall entry_ok o /\ JsObjectFacts.ordered o.

Lemma set_normalized key v o :
  normalized o -> trim key = key -> truthy key = true ->
  toLowerCase (trim v) = v -> truthy v = true -> normalized (JsObject.set key v o).
Proof.
  intros (Hnd & Hok & Hord) Hk Hkt Hv Hvt.
  split; [now apply JsObjectFacts.set_distinct|].
  split; [|now apply JsObjectFacts.set_ordered].
  destruct (String.eqb_spec key "__proto__") as [Hp | Hp].
  - unfold JsObject.set. apply String.eqb_eq in Hp. now rewrite Hp.
  - apply JsObjectFacts.set_Forall; [|assumption]. repeat split; assumption.
Qed.

Lemma parseApprovalActorRoles_normalized column :
  normalized (parseApprovalActorRoles column).
Proof.
  unfold parseApprovalActorRoles.
  assert (H : normalized []) by (repeat split; constructor).
  destruct (parsed column) as [[| | | | | |fields]|]; try exact H.
  revert H. generalize (@nil (string * string)) as acc.
  induction fields as [|[k v] fields IH]; intros acc Hacc; [exact Hacc|].
  cbn [fold_left fst snd]. apply IH.
  destruct (truthy (trim k)) eqn:Hk; [|exact Hacc].
  destruct (truthy (toLowerCase (trim (string_or_empty v)))) eqn:Hv; [|exact Hacc].
  cbn [negb orb]. apply set_normalized; auto using trim_idempotent, clean_role_idempotent.
Qed.

(** Building a normalized map again, entry by entry, gives the same map. *)
Lemma rebuild_normalized o acc :
  List.NoDup (JsObject.keys acc ++ JsObject.keys o) -> Forall entry_ok o ->
  JsObjectFacts.ordered (acc ++ o) ->
  fold_left (fun out entry =>
               let actorKey := trim (fst entry) in
               let roleValue := toLowerCase (trim (string_or_empty (snd entry))) in
               if negb (truthy actorKey) || negb (truthy roleValue) then out
               else JsObject.set actorKey roleValue out)
            (map (fun kv => (fst kv, JStr (snd kv))) o) acc
  = acc ++ o.
Proof.
  revert acc. induction o as [|[k v] o IH]; intros acc Hnd Hok Hord.
  - now rewrite List.app_nil_r.
  - inversion Hok as [|? ? (Hk & Hkt & Hv & Hvt & Hp) Hrest]; subst.
    cbn [fst snd] in *. cbn [map fold_left fst snd].
    rewrite string_or_empty_JStr, Hk, Hkt, Hv, Hvt. cbn [negb orb].
    assert (Hsplit : acc ++ (k, v) :: o = (acc ++ [(k, v)]) ++ o)
      by now rewrite <- List.app_assoc.
    rewrite JsObjectFacts.set_last.
    + rewrite IH; [now rewrite <- List.app_assoc | | assumption | now rewrite <- Hsplit].
      unfold JsObject.keys in *. rewrite map_app, <- List.app_assoc. exact Hnd.
    + assumption.
    + unfold JsObject.keys in *. cbn [map fst] in Hnd.
      apply List.NoDup_remove_2 in Hnd. intros Hin. apply Hnd.
      apply in_or_app. now left.
    + unfold JsObjectFacts.ordered in *. rewrite Hsplit, map_app in Hord.
      now apply StronglySorted_app_1_l in Hord.
Qed.

Lemma parseApprovalActorRoles_again column :
  parseApprovalActorRoles (stringified (string_map (parseApprovalActorRoles column)))
  = parseApprovalActorRoles column.
Proof.
  destruct (parseApprovalActorRoles_normalized column) as (Hnd & Hok & Hord).
  unfold parseApprovalActorRoles at 1. cbn [stringified parsed].
  rewrite reparse_string_map. unfold string_map.
  now rewrite (rebuild_normalized _ []).
Qed.

(** *** The chain of a generated payload verifies *)

Lemma normalizeRequiredApprovals_again n :
  normalizeRequiredApprovals (normalizeRequiredApprovals n) = normalizeRequiredApprovals n.
Proof. unfold normalizeRequiredApprovals. lia. Qed.

Lemma normalizeMaxUses_again n : normalizeMaxUses (normalizeMaxUses n) = normalizeMaxUses n.
Proof. unfold normalizeMaxUses. lia. Qed.

Lemma normalizeUseCount_again n : normalizeUseCount (normalizeUseCount n) = normalizeUseCount n.
Proof. unfold normalizeUseCount. lia. Qed.

Lemma record_of_entry_of previousHash row :
  hashed_fields previousHash (record_of (entry_of previousHash row))
    (e_metadata (entry_of previousHash row))
  = hashed_fields previousHash row (parseMetadata (metadata row)).
Proof.
  unfold hashed_fields, record_of, entry_of.
  cbn [id created_at expires_at status required_approvals required_roles max_uses use_count
       last_used_at approval_actors approval_actor_roles request_fingerprint reason
       resolved_by resolved_at e_id e_created_at e_expires_at e_status e_required_approvals
       e_max_uses e_use_count e_last_used_at e_approval_actors e_required_roles
       e_approval_actor_roles e_request_fingerprint e_reason e_resolved_by e_resolved_at
       e_metadata].
  rewrite parseApprovalActors_again, parseRequiredRoles_again, parseApprovalActorRoles_again.
  now rewrite !normalizeRequiredApprovals_again, !normalizeMaxUses_again,
    !normalizeUseCount_again.
Qed.

Lemma entry_of_verifies previousHash row :
  entryHash previousHash (record_of (entry_of previousHash row))
    (e_metadata (entry_of previousHash row))
  = entry_hash (entry_of previousHash row).
Proof. unfold entryHash at 1. now rewrite record_of_entry_of. Qed.

Lemma check_chain previousHash rows :
  check_entries previousHash (fst (chain previousHash rows))
  = (None, snd (chain previousHash rows)).
Proof.
  revert previousHash. induction rows as [|row rows IH]; intros previousHash; [reflexivity|].
  cbn [chain]. specialize (IH (entry_hash (entry_of previousHash row))).
  destruct (chain (entry_hash (entry_of previousHash row)) rows) as [more last].
  cbn [fst snd] in *. cbn [check_entries].
  replace (previous_hash (entry_of previousHash row)) with previousHash by reflexivity.
  rewrite String.eqb_refl, entry_of_verifies, String.eqb_refl. cbn [negb]. exact IH.
Qed.

(** The keyring of a service is one [loadHmacKeyring] returned. *)
Definition keyring_loaded (cfg : Signing) : Prop :=
  forall keyring, signingKeyring cfg = Some keyring ->
                  exists parsed, loadHmacKeyring parsed = Loaded keyring.

Lemma signed_text_with_signature s k p : signed_text (with_signature s k p) = signed_text p.
Proof. reflexivity. Qed.

(** [generate] can sign: the active kid of the keyring, if one is
    configured, is one of its own keys. *)
Definition active_key_own (cfg : Signing) : Prop :=
  forall keyring, signingKeyring cfg = Some keyring ->
                  is_Some (JsObject.get (activeKid keyring) (keys keyring)).

(** A payload whose count, chain and final hash are consistent and whose
    signature the configured keys accept is valid. *)
Lemma verifyPayload_consistent cfg payload last :
  count payload = Z.of_nat (length (entries payload)) ->
  check_entries GENESIS_HASH (entries payload) = (None, last) ->
  final_hash payload = last ->
  (forall keyring, signingKeyring cfg = Some keyring ->
     option_truthy (signature payload) = true
     /\ option_truthy (signature_kid payload) = true
     /\ verifyWithKeyring (signed_text payload)
          {| kid := default "" (signature_kid payload);
             sig := default "" (signature payload) |} keyring = Some true) ->
  (signingKeyring cfg = None -> truthy (signingKey cfg) = true ->
     signature payload = Some (hmacSha256Hex (signingKey cfg) (signed_text payload))) ->
  exists report,
    verifyPayload cfg payload = Some report
    /\ valid report = true
    /\ v_reason report = None
    /\ computed_final_hash report = final_hash payload.
Proof.
  intros Hcount Hcheck Hfinal Hkeyring Hstatic. unfold verifyPayload.
  rewrite Hcount, Z.eqb_refl. cbn [negb]. rewrite Hcheck, Hfinal, String.eqb_refl. cbn [negb].
  destruct (signingKeyring cfg) as [keyring|].
  - destruct (Hkeyring keyring eq_refl) as (Hs & Hk & Hv). rewrite Hs, Hk, Hv.
    cbn [andb]. eexists. split; [reflexivity|]. auto.
  - destruct (truthy (signingKey cfg)) eqn:Hkey.
    + rewrite (Hstatic eq_refl eq_refl), bool_decide_eq_true_2 by reflexivity.
      eexists. split; [reflexivity|]. auto.
    + eexists. split; [reflexivity|]. auto.
Qed.

(** [generate] returns exactly when it can sign. *)
Lemma generate_returns cfg rows nowIso sinceArg :
  is_Some (generate cfg rows nowIso sinceArg) <-> active_key_own cfg.
Proof.
  unfold generate, active_key_own. destruct (chain GENESIS_HASH rows) as [made last].
  set (unsigned := {| generated_at := nowIso; since := _; count := _; entries := made;
                      final_hash := last; signature := None; signature_kid := None |}).
  destruct (signingKeyring cfg) as [keyring|].
  - pose proof (signWithKeyring_returns (signed_text unsigned) keyring) as Hsign.
    destruct (signWithKeyring (signed_text unsigned) keyring) as [v2|].
    + split; [|eauto]. intros _ keyring' [= <-]. apply Hsign. eauto.
    + split.
      * intros [x Hx]. discriminate.
      * intros Hown. apply Hsign in Hown; [|reflexivity].
        destruct Hown as [x Hx]. discriminate.
  - split; [intros _ keyring; discriminate|]. intros _.
    destruct (truthy (signingKey cfg)); eauto.
Qed.

(** The signature fields of a payload generated under a keyring. *)
Lemma generate_signature cfg rows nowIso sinceArg payload keyring :
  generate cfg rows nowIso sinceArg = Some payload ->
  signingKeyring cfg = Some keyring ->
  signature_kid payload = Some (activeKid keyring)
  /\ is_Some (signature payload)
  /\ is_Some (JsObject.get (activeKid keyring) (keys keyring)).
Proof.
  unfold generate. destruct (chain GENESIS_HASH rows) as [made last].
  set (unsigned := {| generated_at := nowIso; since := _; count := _; entries := made;
                      final_hash := last; signature := None; signature_kid := None |}).
  intros Hgen Hkr. rewrite Hkr in Hgen.
  pose proof (signWithKeyring_returns (signed_text unsigned) keyring) as Hsign.
  unfold signWithKeyring in *.
  destruct (JsObject.read (activeKid keyring) (keys keyring)); try discriminate.
  injection Hgen as <-. cbn [with_signature signature signature_kid kid sig].
  split; [reflexivity|]. split; [eauto|]. apply Hsign. eauto.
Qed.

(** C6. Under any signing configuration of the service (a loaded keyring,
    a static key, or none), for any rows, time of generation and [since]
    argument: [generate] returns a payload exactly when it can sign (the
    active kid is a key of the keyring), and [verifyPayload] under the same
    configuration finds every payload it returns valid, with no reason and
    the stored final hash. *)
Theorem generate_verifies (cfg : Signing) (rows : list ApprovalRecord)
    (nowIso sinceArg : string) :
  keyring_loaded cfg ->
  (is_Some (generate cfg rows nowIso sinceArg) <-> active_key_own cfg)
  /\ forall payload,
       generate cfg rows nowIso sinceArg = Some payload ->
       exists report,
         verifyPayload cfg payload = Some report
         /\ valid report = true
         /\ v_reason report = None
         /\ computed_final_hash report = final_hash payload.
Proof.
  intros Hloaded. split; [apply generate_returns|].
  intros payload. unfold generate.
  pose proof (check_chain GENESIS_HASH rows) as Hcheck.
  destruct (chain GENESIS_HASH rows) as [made last]. cbn [fst snd] in Hcheck.
  set (unsigned := {| generated_at := nowIso; since := _; count := _; entries := made;
                      final_hash := last; signature := None; signature_kid := None |}).
  destruct (signingKeyring cfg) as [keyring|] eqn:Hkr.
  - destruct (Hloaded keyring Hkr) as [parsed Hload].
    destruct (signWithKeyring (signed_text unsigned) keyring) as [[k s]|] eqn:Hsign;
      [|discriminate].
    destruct (signWithKeyring_verifies parsed keyring _ _ Hload Hsign)
      as (Hkid & Hhex & Hverify).
    cbn [kid sig] in *. intros [= <-].
    apply (verifyPayload_consistent _ _ last); try reflexivity; try assumption.
    + intros keyring' Hk'. rewrite Hkr in Hk'. injection Hk' as <-.
      cbn [with_signature signature signature_kid option_truthy default from_option].
      rewrite signed_text_with_signature.
      split; [now apply hex64_truthy|]. split; [|exact Hverify].
      subst k. now destruct (loadHmacKeyring_loaded _ _ Hload) as (_ & -> & _).
    + rewrite Hkr. discriminate.
  - destruct (truthy (signingKey cfg)) eqn:Hkey; intros [= <-].
    + apply (verifyPayload_consistent _ _ last); try reflexivity; try assumption.
      rewrite Hkr. discriminate.
    + apply (verifyPayload_consistent _ _ last); try reflexivity; try assumption.
      * rewrite Hkr. discriminate.
      * intros _ Hk. congruence.
Qed.

(** *** Tampering with an entry *)

Definition with_metadata (meta : value) (e : ApprovalAttestationEntry) : ApprovalAttestationEntry :=
  {| e_id := e_id e; e_created_at := e_created_at e; e_expires_at := e_expires_at e;
     e_status := e_status e; e_required_approvals := e_required_approvals e;
     e_max_uses := e_max_uses e; e_use_count := e_use_count e;
     e_last_used_at := e_last_used_at e; e_approval_actors := e_approval_actors e;
     e_required_roles := e_required_roles e;
     e_approval_actor_roles := e_approval_actor_roles e;
     e_request_fingerprint := e_request_fingerprint e; e_reason := e_reason e;
     e_resolved_by := e_resolved_by e; e_resolved_at := e_resolved_at e;
     e_metadata := meta; previous_hash := previous_hash e; entry_hash := entry_hash e |}.

Definition with_max_uses (n : Z) (e : ApprovalAttestationEntry) : ApprovalAttestationEntry :=
  {| e_id := e_id e; e_created_at := e_created_at e; e_expires_at := e_expires_at e;
     e_status := e_status e; e_required_approvals := e_required_approvals e;
     e_max_uses := n; e_use_count := e_use_count e;
     e_last_used_at := e_last_used_at e; e_approval_actors := e_approval_actors e;
     e_required_roles := e_required_roles e;
     e_approval_actor_roles := e_approval_actor_roles e;
     e_request_fingerprint := e_request_fingerprint e; e_reason := e_reason e;
     e_resolved_by := e_resolved_by e; e_resolved_at := e_resolved_at e;
     e_metadata := e_metadata e; previous_hash := previous_hash e;
     entry_hash := entry_hash e |}.

Definition with_status (x : string) (e : ApprovalAttestationEntry) : ApprovalAttestationEntry :=
  {| e_id := e_id e; e_created_at := e_created_at e; e_expires_at := e_expires_at e;
     e_status := x; e_required_approvals := e_required_approvals e;
     e_max_uses := e_max_uses e; e_use_count := e_use_count e;
     e_last_used_at := e_last_used_at e; e_approval_actors := e_approval_actors e;
     e_required_roles := e_required_roles e;
     e_approval_actor_roles := e_approval_actor_roles e;
     e_request_fingerprint := e_request_fingerprint e; e_reason := e_reason e;
     e_resolved_by := e_resolved_by e; e_resolved_at := e_resolved_at e;
     e_metadata := e_metadata e; previous_hash := previous_hash e;
     entry_hash := entry_hash e |}.

Definition with_use_count (x : Z) (e : ApprovalAttestationEntry) : ApprovalAttestationEntry :=
  {| e_id := e_id e; e_created_at := e_created_at e; e_expires_at := e_expires_at e;
     e_status := e_status e; e_required_approvals := e_required_approvals e;
     e_max_uses := e_max_uses e; e_use_count := x; e_last_used_at := e_last_used_at e;
     e_approval_actors := e_approval_actors e; e_required_roles := e_required_roles e;
     e_approval_actor_roles := e_approval_actor_roles e;
     e_request_fingerprint := e_request_fingerprint e; e_reason := e_reason e;
     e_resolved_by := e_resolved_by e; e_resolved_at := e_resolved_at e;
     e_metadata := e_metadata e; previous_hash := previous_hash e;
     entry_hash := entry_hash e |}.

Definition with_expires_at (x : string) (e : ApprovalAttestationEntry) : ApprovalAttestationEntry :=
  {| e_id := e_id e; e_created_at := e_created_at e; e_expires_at := x;
     e_status := e_status e; e_required_approvals := e_required_approvals e;
     e_max_uses := e_max_uses e; e_use_count := e_use_count e;
     e_last_used_at := e_last_used_at e; e_approval_actors := e_approval_actors e;
     e_required_roles := e_required_roles e;
     e_approval_actor_roles := e_approval_actor_roles e;
     e_request_fingerprint := e_request_fingerprint e; e_reason := e_reason e;
     e_resolved_by := e_resolved_by e; e_resolved_at := e_resolved_at e;
     e_metadata := e_metadata e; previous_hash := previous_hash e;
     entry_hash := entry_hash e |}.

Definition with_previous_hash (x : string) (e : ApprovalAttestationEntry) : ApprovalAttestationEntry :=
  {| e_id := e_id e; e_created_at := e_created_at e; e_expires_at := e_expires_at e;
     e_status := e_status e; e_required_approvals := e_required_approvals e;
     e_max_uses := e_max_uses e; e_use_count := e_use_count e;
     e_last_used_at := e_last_used_at e; e_approval_actors := e_approval_actors e;
     e_required_roles := e_required_roles e;
     e_approval_actor_roles := e_approval_actor_roles e;
     e_request_fingerprint := e_request_fingerprint e; e_reason := e_reason e;
     e_resolved_by := e_resolved_by e; e_resolved_at := e_resolved_at e;
     e_metadata := e_metadata e; previous_hash := x; entry_hash := entry_hash e |}.

Definition with_entry_hash (x : string) (e : ApprovalAttestationEntry) : ApprovalAttestationEntry :=
  {| e_id := e_id e; e_created_at := e_created_at e; e_expires_at := e_expires_at e;
     e_status := e_status e; e_required_approvals := e_required_approvals e;
     e_max_uses := e_max_uses e; e_use_count := e_use_count e;
     e_last_used_at := e_last_used_at e; e_approval_actors := e_approval_actors e;
     e_required_roles := e_required_roles e;
     e_approval_actor_roles := e_approval_actor_roles e;
     e_request_fingerprint := e_request_fingerprint e; e_reason := e_reason e;
     e_resolved_by := e_resolved_by e; e_resolved_at := e_resolved_at e;
     e_metadata := e_metadata e; previous_hash := previous_hash e; entry_hash := x |}.

Definition with_entries (items : list ApprovalAttestationEntry)
    (p : ApprovalAttestationPayload) : ApprovalAttestationPayload :=
  {| generated_at := generated_at p; since := since p; count := count p;
     entries := items; final_hash := final_hash p;
     signature := signature p; signature_kid := signature_kid p |}.

(** The payload with [f] applied to [entries[i]]. *)
Definition tamper (f : ApprovalAttestationEntry -> ApprovalAttestationEntry) (i : nat)
    (p : ApprovalAttestationPayload) : ApprovalAttestationPayload :=
  with_entries (alter f i (entries p)) p.


Lemma chain_app previousHash rows1 rows2 :
  chain previousHash (rows1 ++ rows2)
  = (fst (chain previousHash rows1) ++ fst (chain (snd (chain previousHash rows1)) rows2),
     snd (chain (snd (chain previousHash rows1)) rows2)).
Proof.
  revert previousHash. induction rows1 as [|row rows1 IH]; intros previousHash.
  - cbn. now destruct (chain previousHash rows2).
  - cbn [chain app]. rewrite IH.
    destruct (chain (entry_hash (entry_of previousHash row)) rows1) as [more last].
    reflexivity.
Qed.

Lemma chain_length previousHash rows : length (fst (chain previousHash rows)) = length rows.
Proof.
  revert previousHash. induction rows as [|row rows IH]; intros previousHash; [reflexivity|].
  cbn [chain]. specialize (IH (entry_hash (entry_of previousHash row))).
  destruct (chain _ rows). cbn in *. now rewrite IH.
Qed.

Lemma check_entries_app previousHash before rest last :
  check_entries previousHash before = (None, last) ->
  check_entries previousHash (before ++ rest) = check_entries last rest.
Proof.
  revert previousHash. induction before as [|e before IH]; intros previousHash.
  - cbn. now intros [= ->].
  - cbn [check_entries app].
    destruct (negb (String.eqb (previous_hash e) previousHash)); [discriminate|].
    destruct (negb (String.eqb _ (entry_hash e))); [discriminate|].
    apply IH.
Qed.

Lemma record_of_with_metadata previousHash row meta :
  hashed_fields previousHash (record_of (with_metadata meta (entry_of previousHash row))) meta
  = hashed_fields previousHash row meta.
Proof.
  unfold hashed_fields, record_of, with_metadata, entry_of.
  cbn [id created_at expires_at status required_approvals required_roles max_uses use_count
       last_used_at approval_actors approval_actor_roles request_fingerprint reason
       resolved_by resolved_at e_id e_created_at e_expires_at e_status e_required_approvals
       e_max_uses e_use_count e_last_used_at e_approval_actors e_required_roles
       e_approval_actor_roles e_request_fingerprint e_reason e_resolved_by e_resolved_at
       e_metadata].
  rewrite parseApprovalActors_again, parseRequiredRoles_again, parseApprovalActorRoles_again.
  now rewrite !normalizeRequiredApprovals_again, !normalizeMaxUses_again,
    !normalizeUseCount_again.
Qed.

Lemma generate_entries cfg rows nowIso sinceArg payload :
  generate cfg rows nowIso sinceArg = Some payload ->
  entries payload = fst (chain GENESIS_HASH rows)
  /\ count payload = Z.of_nat (length (entries payload)).
Proof.
  unfold generate. destruct (chain GENESIS_HASH rows) as [made last].
  destruct (signingKeyring cfg) as [keyring|].
  - destruct (signWithKeyring _ keyring); [|discriminate]. now intros [= <-].
  - destruct (truthy (signingKey cfg)); now intros [= <-].
Qed.


(** *** A three-entry snapshot *)

Definition sample_row (name state : string) (uses : Z) (meta : value) : ApprovalRecord :=
  {| id := name;
     created_at := "2026-01-01T00:00:00.000Z";
     expires_at := "2026-01-01T00:05:00.000Z";
     status := state;
     required_approvals := 2;
     required_roles := stringified (JArr [JStr "admin"; JStr "security"]);
     max_uses := uses;
     use_count := 0;
     last_used_at := None;
     approval_actors := stringified (JArr [JStr "alice"; JStr "bob"]);
     approval_actor_roles :=
       stringified (JObj [("alice", JStr "admin"); ("bob", JStr "security")]);
     request_fingerprint := "fp-" +:+ name;
     reason := "High-risk action requires approval.";
     metadata := stringified meta;
     resolved_by := Some "bob";
     resolved_at := Some "2026-01-01T00:01:00.000Z" |}.

Definition first_row : ApprovalRecord :=
  sample_row "a-1" "approved" 1 (JObj [("path", JStr "/v1/chat/completions")]).
Definition second_row : ApprovalRecord :=
  sample_row "a-2" "approved" 100 (JObj [("tool", JStr "shell"); ("attempt", JNum 1)]).
Definition third_row : ApprovalRecord :=
  sample_row "a-3" "denied" 3 (JObj []).

Definition sample_file : HmacKeyringFile :=
  {| version := Some "v1";
     active_kid := Some "k1";
     file_keys := Some [("k1", "first-secret"); ("k2", "second-secret")] |}.

Definition sample_keyring : HmacKeyring :=
  {| activeKid := "k1"; keys := [("k1", "first-secret"); ("k2", "second-secret")] |}.

Definition signed_service : Signing :=
  {| signingKey := ""; signingKeyring := Some sample_keyring |}.

Definition unsigned_service : Signing :=
  {| signingKey := ""; signingKeyring := None |}.

(** A service whose keyring file names [constructor] as the active kid. *)
Definition inherited_service : Signing :=
  {| signingKey := "";
     signingKeyring := Some {| activeKid := "constructor";
                               keys := [("k1", "first-secret")] |} |}.

Lemma signed_service_loaded : keyring_loaded signed_service.
Proof. intros keyring [= <-]. exists sample_file. reflexivity. Qed.

Lemma signed_service_own : active_key_own signed_service.
Proof. intros keyring [= <-]. cbn. eauto. Qed.

Lemma unsigned_service_loaded : keyring_loaded unsigned_service.
Proof. intros keyring [=]. Qed.

(** The signed snapshot of the three rows verifies. *)
Lemma generate_verifies_signed_snapshot :
  keyring_loaded signed_service
  /\ (is_Some (generate signed_service [first_row; second_row; third_row]
                 "2026-01-02T00:00:00.000Z" "")
      <-> active_key_own signed_service)
  /\ forall payload,
       generate signed_service [first_row; second_row; third_row]
         "2026-01-02T00:00:00.000Z" "" = Some payload ->
       exists report,
         verifyPayload signed_service payload = Some report
         /\ valid report = true
         /\ v_reason report = None
         /\ computed_final_hash report = final_hash payload.
Proof.
  split; [exact signed_service_loaded|].
  apply (generate_verifies signed_service [first_row; second_row; third_row]
           "2026-01-02T00:00:00.000Z" "" signed_service_loaded).
Defined.

(** The same, by running both functions. *)
Example signed_snapshot_runs :
  option_map (fun payload =>
                (option_map (fun report =>
                               (valid report, v_reason report, signature_valid report,
                                v_count report))
                            (verifyPayload signed_service payload),
                 signature_kid payload))
             (generate signed_service [first_row; second_row; third_row]
                "2026-01-02T00:00:00.000Z" "")
  = Some (Some (true, None, Some true, 3%nat), Some "k1").
Proof. vm_compute. reflexivity. Qed.

(** With [constructor] as the active kid and no such key, the keyring
    loads, and [generate] throws. *)
Example inherited_service_throws :
  keyring_loaded inherited_service
  /\ generate inherited_service [first_row] "2026-01-02T00:00:00.000Z" "" = None.
Proof.
  split; [|reflexivity]. intros keyring [= <-].
  now exists {| version := None; active_kid := Some "constructor";
                file_keys := Some [("k1", "first-secret")] |}.
Qed.


(** The reason of a report, [None] also when there is no report. *)
Definition reason_of (report : option ApprovalAttestationVerification) : option string :=
  report ≫= v_reason.

(** The report of the tampered snapshot, by running [verifyPayload]: the
    reason is the fixed text, the same at every index. *)
Example tampered_snapshot_runs :
  option_map (fun payload =>
                let report i :=
                  verifyPayload signed_service
                    (tamper (with_metadata (JObj [("tool", JStr "read_file")])) i payload) in
                (reason_of (report 0%nat), reason_of (report 1%nat), reason_of (report 2%nat),
                 bool_decide (option_map computed_final_hash (report 1%nat)
                              = option_map entry_hash (entries payload !! 0%nat))))
             (generate signed_service [first_row; second_row; third_row]
                "2026-01-02T00:00:00.000Z" "")
  = Some (Some "Entry hash mismatch.", Some "Entry hash mismatch.",
          Some "Entry hash mismatch.", true).
Proof. vm_compute. reflexivity. Qed.

(** One field of [entries[1]] changed at a time, with no signing key
    configured, by running [verifyPayload]: each change is refused by the
    loop over the entries, and the hash computed is that of entry 0. *)
Example single_field_changes_run :
  option_map (fun payload =>
                let report f := verifyPayload unsigned_service (tamper f 1 payload) in
                let seen f :=
                  (option_map valid (report f), reason_of (report f),
                   bool_decide (option_map computed_final_hash (report f)
                                = option_map entry_hash (entries payload !! 0%nat))) in
                [seen (with_status "denied"); seen (with_use_count 1);
                 seen (with_expires_at "2027-01-01T00:05:00.000Z");
                 seen (with_max_uses 99); seen (with_entry_hash GENESIS_HASH);
                 seen (with_previous_hash GENESIS_HASH)])
             (generate unsigned_service [first_row; second_row; third_row]
                "2026-01-02T00:00:00.000Z" "")
  = Some [(Some false, Some "Entry hash mismatch.", true);
          (Some false, Some "Entry hash mismatch.", true);
          (Some false, Some "Entry hash mismatch.", true);
          (Some false, Some "Entry hash mismatch.", true);
          (Some false, Some "Entry hash mismatch.", true);
          (Some false, Some "Entry previous_hash mismatch.", true)].
Proof. vm_compute. reflexivity. Qed.


End AttestationFacts.

(** ** The other calls of the approval service *)

Module ApprovalCalls.
Import JsNumber JsDate Approval.

(** The two statuses [resolve] is called with. *)
Inductive Resolution := ResolveApproved | ResolveDenied.

Definition resolution_status (s : Resolution) : ApprovalStatus :=
  match s with ResolveApproved => Approved | ResolveDenied => Denied end.

Definition resolve (nowCleanup nowIso : string) (i : string) (s : Resolution)
    (actor : string) (db : Store) : Store * result ApprovalRecord :=
  let db := cleanupExpired nowCleanup db in
  let db := update_where (fun r => has_id i r && status_eqb (status r) Pending)
              (with_resolution (resolution_status s) actor nowIso) db in
  match getById i db with
  | Some row => (db, Ok row)
  | None => (db, Throw ("Approval not found: " +:+ i))
  end.

Definition deny (nowCleanup nowIso : string) (i actor : string) (db : Store)
    : Store * result ApprovalRecord :=
  resolve nowCleanup nowIso i ResolveDenied actor db.

Record ApprovalStats := { pending : Z; approved : Z; denied : Z; expired : Z }.

(** [COUNT( * )] of the group of a status; a status without rows has no
    group and keeps the initial 0. *)
Definition count_status (s : ApprovalStatus) (db : Store) : Z :=
  Z.of_nat (length (List.filter (fun r => status_eqb (status r) s) db)).

Definition getStats (nowCleanup : string) (db : Store) : Store * ApprovalStats :=
  let db := cleanupExpired nowCleanup db in
  (db, {| pending := count_status Pending db; approved := count_status Approved db;
          denied := count_status Denied db; expired := count_status Expired db |}).

(** [Math.min(Math.max(1, Math.floor(limit)), 10000)]; [None] is NaN. *)
Definition safeLimit (limit : number) : option nat :=
  match limit with
  | NaN => None
  | PosInf => Some (Z.to_nat 10000)
  | NegInf => Some (Z.to_nat 1)
  | Fin q => Some (Z.to_nat (Z.min (Z.max 1 (Qfloor q)) 10000))
  end.

(** [ORDER BY created_at ASC, id ASC] *)
Definition attestation_order (a b : ApprovalRecord) : bool :=
  String.ltb (created_at a) (created_at b)
  || (String.eqb (created_at a) (created_at b) && String.leb (id a) (id b)).

Fixpoint insert_row (r : ApprovalRecord) (l : list ApprovalRecord) : list ApprovalRecord :=
  match l with
  | [] => [r]
  | x :: l' => if attestation_order r x then r :: l else x :: insert_row r l'
  end.

Definition order_rows (l : list ApprovalRecord) : list ApprovalRecord :=
  fold_right insert_row [] l.

(** The arguments are optional, with defaults 1000 and the empty string.
    A NaN limit is bound as NULL, which SQLite refuses in [LIMIT]. *)
Definition listForAttestation (nowCleanup : string) (limit : option number)
    (sinceIso : option string) (db : Store) : Store * result (list ApprovalRecord) :=
  let db := cleanupExpired nowCleanup db in
  match safeLimit (default (of_Z 1000) limit) with
  | None => (db, Throw "datatype mismatch")
  | Some n =>
      let since := trim (default "" sinceIso) in
      let selected :=
        List.filter (fun r => (if truthy since then String.leb since (created_at r) else true)
                              && negb (status_eqb (status r) Pending)) db in
      (db, Ok (take n (order_rows selected)))
  end.

(** A call that writes to the table, with the readings of the clock and
    the random id it takes. The reading calls write what [cleanupExpired]
    writes. *)
Inductive call :=
| CallCleanup (nowIso : string)
| CallGetOrCreatePending (nowCleanup : string) (createdAt : Z) (uuid : string)
    (input : ApprovalCreateInput)
| CallApprove (nowCleanup nowIso i actor : string) (actorRole : option string)
| CallDeny (nowCleanup nowIso i actor : string)
| CallConsumeApproved (nowCleanup nowIso i fingerprint : string).

(** The table a call leaves. *)
Definition after (c : call) (db : Store) : Store :=
  match c with
  | CallCleanup nowIso => cleanupExpired nowIso db
  | CallGetOrCreatePending nowCleanup createdAt uuid input =>
      fst (getOrCreatePending nowCleanup createdAt uuid input db)
  | CallApprove nowCleanup nowIso i actor actorRole =>
      fst (approve nowCleanup nowIso i actor actorRole db)
  | CallDeny nowCleanup nowIso i actor => fst (deny nowCleanup nowIso i actor db)
  | CallConsumeApproved nowCleanup nowIso i fingerprint =>
      fst (consumeApproved nowCleanup nowIso i fingerprint db)
  end.

Definition history (calls : list call) (db : Store) : Store :=
  fold_left (fun db c => after c db) calls db.

(** Consuming the same approval at each of the given times [(nowCleanup,
    nowIso)]: the table left and the results, in order. *)
Fixpoint consume_each (times : list (string * string)) (i fingerprint : string) (db : Store)
    : Store * list bool :=
  match times with
  | [] => (db, [])
  | (nowCleanup, nowIso) :: rest =>
      let '(db, ok) := consumeApproved nowCleanup nowIso i fingerprint db in
      let '(db, oks) := consume_each rest i fingerprint db in
      (db, ok :: oks)
  end.

End ApprovalCalls.

Module ApprovalCallsFacts.
Import JsNumber JsDate Approval ApprovalFacts ApprovalCalls JsStringFacts SortFacts TrimFacts.

(** What the calls may do to a row: the identifying columns stay, a settled
    status stays, the use count and the quorum do not decrease, and the use
    count stays within [max_uses]. *)
Record evolves (r r' : ApprovalRecord) : Prop := {
  ev_id : id r' = id r;
  ev_created : created_at r' = created_at r;
  ev_expires : expires_at r' = expires_at r;
  ev_fingerprint : request_fingerprint r' = request_fingerprint r;
  ev_status : status r <> Pending -> status r' = status r;
  ev_quorum : (required_approvals r <= required_approvals r')%Z;
  ev_max : (max_uses r <= max_uses r')%Z;
  ev_use : (use_count r <= use_count r')%Z;
  ev_budget : (use_count r <= max_uses r)%Z -> (use_count r' <= max_uses r')%Z
}.

Lemma evolves_refl r : evolves r r.
Proof. constructor; auto; lia. Qed.

Lemma evolves_trans a b c : evolves a b -> evolves b c -> evolves a c.
Proof.
  intros [] []. constructor; try congruence; try lia; auto.
  intros H. rewrite <- ev_status0 by assumption. apply ev_status1. now rewrite ev_status0.
Qed.

Lemma Forall2_evolves_refl db : Forall2 evolves db db.
Proof. induction db; constructor; auto using evolves_refl. Qed.

Lemma Forall2_evolves_trans a b c :
  Forall2 evolves a b -> Forall2 evolves b c -> Forall2 evolves a c.
Proof.
  intros Hab. revert c. induction Hab as [|x y a b Hxy Hab IH]; intros c Hbc.
  - inversion Hbc. constructor.
  - inversion Hbc as [|? z ? c' Hyz Hbc']; subst. constructor; eauto using evolves_trans.
Qed.

Lemma update_where_evolves cond f db :
  (forall r, In r db -> cond r = true -> evolves r (f r)) ->
  Forall2 evolves db (update_where cond f db).
Proof.
  induction db as [|r db IH]; intros H; simpl; constructor.
  - destruct (cond r) eqn:Hc; [apply H; [now left | assumption] | apply evolves_refl].
  - apply IH. intros x Hx. apply H. now right.
Qed.

Lemma Forall2_evolves_ids db db' : Forall2 evolves db db' -> map id db' = map id db.
Proof. induction 1 as [|r r' db db' Hr _ IH]; simpl; [reflexivity|]. now rewrite IH, (ev_id _ _ Hr). Qed.

Lemma cleanupExpired_evolves nowIso db : Forall2 evolves db (cleanupExpired nowIso db).
Proof.
  apply update_where_evolves. intros r _ Hs. unfold is_stale in Hs.
  apply andb_true_iff in Hs as [Hs _]. apply status_eqb_eq in Hs.
  constructor; simpl; auto; try lia. congruence.
Qed.

(** Rows are identified by their id. *)
Lemma unique_id db a b :
  List.NoDup (map id db) -> In a db -> In b db -> id a = id b -> a = b.
Proof.
  induction db as [|r db IH]; simpl; [contradiction|].
  intros Hnd [->|Ha] [->|Hb] Hid; inversion Hnd as [|? ? Hr Hdb]; subst; auto.
  - exfalso. apply Hr. rewrite Hid. now apply in_map.
  - exfalso. apply Hr. rewrite <- Hid. now apply in_map.
Qed.

Lemma existsb_has_id i db : existsb (has_id i) db = false -> ~ In i (map id db).
Proof.
  intros H Hin. apply in_map_iff in Hin as (r & Hid & Hr).
  assert (existsb (has_id i) db = true); [|congruence].
  apply existsb_exists. exists r. split; [assumption | now apply has_id_eq].
Qed.

(** The table a call leaves: the rows it had, evolved, in place, and at
    most one new row; ids stay distinct. *)
Definition table_evolves (db db' : Store) : Prop :=
  exists kept added, db' = kept ++ added /\ Forall2 evolves db kept.

Lemma table_evolves_same db db' : Forall2 evolves db db' -> table_evolves db db'.
Proof. intros H. exists db', []. now rewrite app_nil_r. Qed.

Lemma table_evolves_trans a b c : table_evolves a b -> table_evolves b c -> table_evolves a c.
Proof.
  intros (kb & ab & -> & Hab) (kc & ac & -> & Hbc).
  apply Forall2_app_inv_l in Hbc as (k1 & k2 & Hk1 & Hk2 & ->).
  exists k1, (k2 ++ ac). split; [now rewrite <- app_assoc|].
  eapply Forall2_evolves_trans; eassumption.
Qed.

Lemma table_evolves_getById db db' i r :
  table_evolves db db' -> getById i db = Some r ->
  exists r', getById i db' = Some r' /\ evolves r r'.
Proof.
  intros (kept & added & -> & H). unfold getById. revert i r.
  induction H as [|x y db kept Hxy H IH]; intros i r; simpl; [discriminate|].
  unfold has_id at 1 3. rewrite (ev_id _ _ Hxy). fold (has_id i x).
  destruct (has_id i x).
  - intros [= <-]. eauto.
  - apply IH.
Qed.

Lemma getOrCreatePending_evolves nowCleanup createdAt uuid input db :
  List.NoDup (map id db) ->
  table_evolves db (fst (getOrCreatePending nowCleanup createdAt uuid input db))
  /\ List.NoDup (map id (fst (getOrCreatePending nowCleanup createdAt uuid input db))).
Proof.
  intros Hnd.
  pose proof (cleanupExpired_evolves nowCleanup db) as Hclean.
  assert (Hnd0 : List.NoDup (map id (cleanupExpired nowCleanup db)))
    by now rewrite (Forall2_evolves_ids _ _ Hclean).
  unfold getOrCreatePending.
  set (db0 := cleanupExpired nowCleanup db) in *.
  destruct (latest_pending _ db0) as [existing|] eqn:Hlatest.
  - apply latest_pending_Some in Hlatest as (Hin & _ & Hpending).
    set (maxUses := normalizeMaxUses _). set (quorum := normalizeRequiredApprovals _).
    set (db1 := if (max_uses existing <? maxUses)%Z then _ else db0).
    assert (H1 : Forall2 evolves db0 db1).
    { subst db1. destruct (max_uses existing <? maxUses)%Z eqn:Hlt;
        [|apply Forall2_evolves_refl].
      apply Z.ltb_lt in Hlt. apply update_where_evolves. intros r Hr Hid.
      apply has_id_eq in Hid. assert (r = existing) as -> by now apply (unique_id db0).
      constructor; simpl; auto; lia. }
    assert (Hmax : forall r, In r db1 -> id r = id existing ->
                             status r = Pending /\ required_approvals r = required_approvals existing).
    { intros r Hr Hid. subst db1. destruct (max_uses existing <? maxUses)%Z.
      - unfold update_where in Hr. apply in_map_iff in Hr as (x & <- & Hx).
        assert (Hxid : id x = id existing) by (destruct (has_id _ x); simpl in Hid; exact Hid).
        assert (x = existing) as -> by now apply (unique_id db0).
        destruct (has_id _ existing); auto.
      - assert (r = existing) as -> by now apply (unique_id db0). auto. }
    assert (Hstep : forall f,
              (forall r, status r = Pending ->
                         required_approvals r = required_approvals existing ->
                         evolves r (f r)) ->
              Forall2 evolves db1 (update_where (has_id (id existing)) f db1)).
    { intros f Hf. apply update_where_evolves. intros r Hr Hid. apply has_id_eq in Hid.
      destruct (Hmax r Hr Hid). auto. }
    assert (Hresult : forall db2 (out : result ApprovalCreateResult),
              Forall2 evolves db1 db2 ->
              table_evolves db (fst (db2, out)) /\ List.NoDup (map id (fst (db2, out)))).
    { intros db2 out H2. simpl.
      assert (H : Forall2 evolves db db2)
        by (eapply Forall2_evolves_trans; [exact Hclean|];
            eapply Forall2_evolves_trans; eassumption).
      split; [now apply table_evolves_same | now rewrite (Forall2_evolves_ids _ _ H)]. }
    destruct (required_approvals existing <? quorum)%Z eqn:Hq.
    + apply Z.ltb_lt in Hq.
      destruct (getById _ _); apply Hresult; apply Hstep; intros r Hs Hr;
        (constructor; simpl; auto; try lia; congruence).
    + destruct (negb _).
      * destruct (getById _ _); apply Hresult; apply Hstep; intros r Hs Hr;
          (constructor; simpl; auto; try lia; congruence).
      * apply Hresult, Forall2_evolves_refl.
  - destruct (toISOString createdAt); [|simpl; split; [now apply table_evolves_same|assumption]].
    destruct (_ ≫= toISOString); [|simpl; split; [now apply table_evolves_same|assumption]].
    destruct (existsb (has_id uuid) db0) eqn:Hfresh;
      [simpl; split; [now apply table_evolves_same|assumption]|].
    simpl. split.
    + eexists db0, [_]. split; [reflexivity | assumption].
    + rewrite map_app. simpl. apply NoDup_ListNoDup, NoDup_app.
      split; [now apply NoDup_ListNoDup|]. split.
      * intros x Hx Hin. apply list_elem_of_singleton in Hin as ->.
        apply list_elem_of_In in Hx. now apply existsb_has_id in Hfresh.
      * apply NoDup_singleton.
Qed.

Lemma approve_evolves nowCleanup nowIso i actor actorRole db :
  Forall2 evolves db (fst (approve nowCleanup nowIso i actor actorRole db)).
Proof.
  pose proof (cleanupExpired_evolves nowCleanup db) as Hclean.
  unfold approve. set (db0 := cleanupExpired nowCleanup db) in *.
  destruct (negb (truthy (trim actor))); [exact Hclean|].
  destruct (getById i db0) as [row|]; [|exact Hclean].
  destruct (negb (status_eqb (status row) Pending)); [exact Hclean|].
  assert (Hstep : forall f,
            (forall r, status r = Pending -> evolves r (f r)) ->
            Forall2 evolves db
              (update_where (fun r => has_id i r && status_eqb (status r) Pending) f db0)).
  { intros f Hf. eapply Forall2_evolves_trans; [exact Hclean|].
    apply update_where_evolves. intros r _ Hc. apply andb_true_iff in Hc as [_ Hs].
    apply status_eqb_eq in Hs. auto. }
  destruct (_ && _); destruct (getById i _); simpl; apply Hstep; intros r Hs;
    (constructor; simpl; auto; try lia; congruence).
Qed.

Lemma deny_evolves nowCleanup nowIso i actor db :
  Forall2 evolves db (fst (deny nowCleanup nowIso i actor db)).
Proof.
  pose proof (cleanupExpired_evolves nowCleanup db) as Hclean.
  unfold deny, resolve. set (db0 := cleanupExpired nowCleanup db) in *.
  assert (Hstep : Forall2 evolves db
            (update_where (fun r => has_id i r && status_eqb (status r) Pending)
               (with_resolution (resolution_status ResolveDenied) actor nowIso) db0)).
  { eapply Forall2_evolves_trans; [exact Hclean|].
    apply update_where_evolves. intros r _ Hc. apply andb_true_iff in Hc as [_ Hs].
    apply status_eqb_eq in Hs. constructor; simpl; auto; try lia; congruence. }
  destruct (getById i _); exact Hstep.
Qed.

Lemma consumeApproved_evolves nowCleanup nowIso i fingerprint db :
  Forall2 evolves db (fst (consumeApproved nowCleanup nowIso i fingerprint db)).
Proof.
  unfold consumeApproved. simpl.
  eapply Forall2_evolves_trans; [apply cleanupExpired_evolves|].
  apply update_where_evolves. intros r _ Hc. apply consumable_spec in Hc as (_ & _ & _ & _ & Hlt).
  constructor; simpl; auto; lia.
Qed.

Lemma after_evolves c db :
  List.NoDup (map id db) ->
  table_evolves db (after c db) /\ List.NoDup (map id (after c db)).
Proof.
  intros Hnd.
  assert (Hsame : forall db', Forall2 evolves db db' ->
                              table_evolves db db' /\ List.NoDup (map id db')).
  { intros db' H. split; [now apply table_evolves_same|].
    now rewrite (Forall2_evolves_ids _ _ H). }
  destruct c; simpl.
  - apply Hsame, cleanupExpired_evolves.
  - now apply getOrCreatePending_evolves.
  - apply Hsame, approve_evolves.
  - apply Hsame, deny_evolves.
  - apply Hsame, consumeApproved_evolves.
Qed.

Lemma history_evolves calls db :
  List.NoDup (map id db) ->
  table_evolves db (history calls db) /\ List.NoDup (map id (history calls db)).
Proof.
  revert db. induction calls as [|c calls IH]; intros db Hnd; simpl.
  - split; [apply table_evolves_same, Forall2_evolves_refl | assumption].
  - destruct (after_evolves c db Hnd) as [Hc Hnd'].
    destruct (IH _ Hnd') as [Hrest Hnd''].
    split; [eapply table_evolves_trans; eassumption | assumption].
Qed.

(** X1. Whatever calls follow, in a table with distinct ids: a record is
    never deleted and keeps its id, creation and expiry texts and
    fingerprint; once approved, denied or expired its status never changes
    again; its quorum, [max_uses] and use count never decrease; and a use
    count within [max_uses] stays within it. *)
Theorem settled_records_stay (calls : list call) (db : Store) (i : string)
    (r : ApprovalRecord) :
  List.NoDup (map id db) ->
  getById i db = Some r ->
  exists r',
    getById i (history calls db) = Some r'
    /\ id r' = id r /\ created_at r' = created_at r /\ expires_at r' = expires_at r
    /\ request_fingerprint r' = request_fingerprint r
    /\ (status r <> Pending -> status r' = status r)
    /\ (required_approvals r <= required_approvals r')%Z
    /\ (max_uses r <= max_uses r')%Z
    /\ (use_count r <= use_count r')%Z
    /\ ((use_count r <= max_uses r)%Z -> (use_count r' <= max_uses r')%Z).
Proof.
  intros Hnd Hr. destruct (history_evolves calls db Hnd) as [H _].
  destruct (table_evolves_getById _ _ _ _ H Hr) as (r' & Hr' & []).
  exists r'. repeat split; assumption.
Qed.

Definition one_row_calls : list call :=
  [ CallApprove "2026-01-01T00:01:00.000Z" "2026-01-01T00:01:00.001Z" "a1" "alice"
      (Some "security");
    CallApprove "2026-01-01T00:02:00.000Z" "2026-01-01T00:02:00.001Z" "a1" "bob"
      (Some "platform");
    CallConsumeApproved "2026-01-01T00:03:00.000Z" "2026-01-01T00:03:00.001Z" "a1" "fp";
    CallDeny "2026-01-01T00:04:00.000Z" "2026-01-01T00:04:00.001Z" "a1" "mallory";
    CallCleanup "2026-01-01T00:09:00.000Z" ].

Lemma settled_records_stay_quorum_row :
  exists r',
    getById "a1" (history one_row_calls [quorum_row]) = Some r'
    /\ id r' = id quorum_row /\ created_at r' = created_at quorum_row
    /\ expires_at r' = expires_at quorum_row
    /\ request_fingerprint r' = request_fingerprint quorum_row
    /\ (status quorum_row <> Pending -> status r' = status quorum_row)
    /\ (required_approvals quorum_row <= required_approvals r')%Z
    /\ (max_uses quorum_row <= max_uses r')%Z
    /\ (use_count quorum_row <= use_count r')%Z
    /\ ((use_count quorum_row <= max_uses quorum_row)%Z -> (use_count r' <= max_uses r')%Z).
Proof.
  apply (settled_records_stay one_row_calls [quorum_row] "a1" quorum_row).
  - repeat constructor. simpl. tauto.
  - reflexivity.
Defined.

(** The calls above leave the record approved and used once: the later
    denial and the clean-up after its expiry do not touch it. *)
Example settled_history_runs :
  option_map (fun r => (status r, use_count r, resolved_by r))
    (getById "a1" (history one_row_calls [quorum_row]))
  = Some (Approved, 1%Z, Some "bob").
Proof. vm_compute. reflexivity. Qed.

(** X2. [deny] settles a pending record that has not expired: it sets the
    status [denied], [resolved_by] to the actor as given and [resolved_at]
    to the time of the call, whatever the quorum, the roles and the actor
    (a blank one too). A pending record past its expiry comes back expired,
    a settled one unchanged; the other rows are only lazily expired; an
    unknown id throws. *)
Theorem deny_settles_pending (nowCleanup nowIso i actor : string) (db : Store) :
  let out := deny nowCleanup nowIso i actor db in
  fst out
  = map (fun r => if has_id i r && status_eqb (status r) Pending
                     && negb (String.ltb (expires_at r) nowCleanup)
                  then with_resolution Denied actor nowIso r
                  else expire nowCleanup r) db
  /\ (getById i db = None -> snd out = Throw ("Approval not found: " +:+ i))
  /\ (forall row, getById i db = Some row ->
        snd out = Ok (if status_eqb (status row) Pending
                      then if String.ltb (expires_at row) nowCleanup
                           then with_status Expired row
                           else with_resolution Denied actor nowIso row
                      else row)).
Proof.
  cbv zeta. unfold deny, resolve.
  set (cond := fun r => has_id i r && status_eqb (status r) Pending).
  set (f := with_resolution (resolution_status ResolveDenied) actor nowIso).
  assert (Hrow : forall r,
            (if cond (expire nowCleanup r) then f (expire nowCleanup r) else expire nowCleanup r)
            = if has_id i r && status_eqb (status r) Pending
                 && negb (String.ltb (expires_at r) nowCleanup)
              then with_resolution Denied actor nowIso r
              else expire nowCleanup r).
  { intros r. subst cond f. cbv beta. unfold has_id. rewrite expire_id.
    unfold expire, is_stale.
    destruct (status_eqb (status r) Pending) eqn:Hs; simpl.
    - destruct (String.ltb (expires_at r) nowCleanup); simpl.
      + now rewrite !andb_false_r.
      + now rewrite Hs, !andb_true_r.
    - now rewrite Hs, !andb_false_r. }
  assert (Hfst : update_where cond f (cleanupExpired nowCleanup db)
                 = map (fun r => if has_id i r && status_eqb (status r) Pending
                                    && negb (String.ltb (expires_at r) nowCleanup)
                                 then with_resolution Denied actor nowIso r
                                 else expire nowCleanup r) db).
  { rewrite cleanupExpired_map. unfold update_where. rewrite map_map.
    apply map_ext. exact Hrow. }
  assert (Hget : getById i (update_where cond f (cleanupExpired nowCleanup db))
                 = option_map (fun r => if cond (expire nowCleanup r)
                                        then f (expire nowCleanup r) else expire nowCleanup r)
                     (getById i db)).
  { rewrite getById_update_where by reflexivity. rewrite getById_cleanupExpired.
    now destruct (getById i db). }
  rewrite Hget. split; [|split].
  - destruct (getById i db); exact Hfst.
  - intros ->. reflexivity.
  - intros row Hget'. rewrite Hget'. simpl. f_equal. rewrite Hrow.
    destruct (getById_Some i db row Hget') as [_ Hid]. apply has_id_eq in Hid.
    rewrite Hid. unfold expire, is_stale.
    destruct (status_eqb (status row) Pending); simpl; [|reflexivity].
    now destruct (String.ltb (expires_at row) nowCleanup).
Qed.

(** *** A repeated request *)

Lemma set_add_member x seen : In x seen -> set_add x seen = seen.
Proof.
  induction seen as [|y seen IH]; simpl; [contradiction|].
  destruct (String.eqb_spec x y) as [->|Hne]; [reflexivity|].
  intros [->|Hin]; [contradiction|]. now rewrite IH.
Qed.

Lemma set_add_new x seen : ~ In x seen -> set_add x seen = seen ++ [x].
Proof.
  induction seen as [|y seen IH]; simpl; [reflexivity|].
  intros Hnot. destruct (String.eqb_spec x y) as [->|Hne]; [tauto|].
  rewrite IH by tauto. reflexivity.
Qed.

Lemma fold_set_add_members l seen :
  (forall x, In x l -> In x seen) -> fold_left (fun seen x => set_add x seen) l seen = seen.
Proof.
  induction l as [|x l IH]; simpl; intros H; [reflexivity|].
  rewrite set_add_member by auto. apply IH. auto.
Qed.

Lemma fold_set_add_new l seen :
  List.NoDup (seen ++ l) -> fold_left (fun seen x => set_add x seen) l seen = seen ++ l.
Proof.
  revert seen. induction l as [|x l IH]; simpl; intros seen Hnd; [now rewrite app_nil_r|].
  rewrite set_add_new.
  - rewrite IH; rewrite <- app_assoc; [reflexivity | exact Hnd].
  - apply NoDup_remove_2 in Hnd. intros Hin. apply Hnd. apply in_or_app. now left.
Qed.

Lemma set_of_list_distinct l : List.NoDup l -> set_of_list l = l.
Proof. intros H. unfold set_of_list. now rewrite fold_set_add_new. Qed.

Lemma set_of_list_twice l : List.NoDup l -> set_of_list (l ++ l) = l.
Proof.
  intros H. unfold set_of_list. rewrite fold_left_app.
  fold (set_of_list l). rewrite set_of_list_distinct by assumption.
  now apply fold_set_add_members.
Qed.

Lemma normalizeRoles_spec values :
  let roles := normalizeRoles values in
  StronglySorted String.le roles /\ List.NoDup roles
  /\ Forall (fun role => clean_role role = role /\ truthy role = true) roles.
Proof.
  cbv zeta. unfold normalizeRoles. split; [apply sort_sorted|].
  split; [apply sort_NoDup, set_of_list_NoDup|].
  apply List.Forall_forall. intros role Hin.
  apply (proj1 (sort_In _ _)) in Hin. apply (proj1 (set_of_list_In _ _)) in Hin.
  unfold nonempty in Hin.
  apply List.filter_In in Hin as [Hin Ht]. split; [|exact Ht].
  apply in_map_iff in Hin as (v & <- & _). apply clean_role_idempotent.
Qed.

Lemma parseRoleArray_normalized roles :
  StronglySorted String.le roles ->
  Forall (fun role => clean_role role = role /\ truthy role = true) roles ->
  parseRoleArray roles = roles.
Proof.
  intros Hsorted Hclean. unfold parseRoleArray.
  replace (nonempty (map clean_role roles)) with roles; [now apply sort_of_sorted|].
  clear Hsorted. induction Hclean as [|role roles [Hc Ht] _ IH]; [reflexivity|].
  simpl. rewrite Hc, Ht. now f_equal.
Qed.

Lemma mergeRoles_same roles :
  StronglySorted String.le roles -> List.NoDup roles -> mergeRoles roles roles = roles.
Proof.
  intros Hsorted Hnd. unfold mergeRoles. rewrite set_of_list_twice by assumption.
  now apply sort_of_sorted.
Qed.

Lemma latest_fold_found l b : is_Some (fold_left latest l (Some b)).
Proof.
  revert b. induction l as [|x l IH]; intros b; simpl; [eauto|].
  destruct (String.ltb _ _); apply IH.
Qed.

Lemma latest_pending_none_filter fingerprint db :
  latest_pending fingerprint db = None -> List.filter (is_pending_for fingerprint) db = [].
Proof.
  unfold latest_pending. destruct (List.filter _ db) as [|r l]; [reflexivity|].
  simpl. intros H. destruct (latest_fold_found l r) as [x Hx]. congruence.
Qed.

Lemma filter_pending_cleanup fingerprint nowIso db :
  List.filter (is_pending_for fingerprint) db = [] ->
  List.filter (is_pending_for fingerprint) (cleanupExpired nowIso db) = [].
Proof.
  rewrite cleanupExpired_map.
  induction db as [|r db IH]; simpl; [reflexivity|].
  destruct (is_pending_for fingerprint r) eqn:Hr; [discriminate|].
  intros H. rewrite (IH H).
  replace (is_pending_for fingerprint (expire nowIso r)) with false; [reflexivity|].
  unfold expire. destruct (is_stale nowIso r); [|now rewrite Hr].
  unfold is_pending_for. simpl. now rewrite andb_false_r.
Qed.

(** What a creating call wrote. *)
Lemma getOrCreatePending_created nowCleanup createdAt uuid input db res :
  snd (getOrCreatePending nowCleanup createdAt uuid input db) = Ok res ->
  created res = true ->
  latest_pending (requestFingerprint input) (cleanupExpired nowCleanup db) = None
  /\ fst (getOrCreatePending nowCleanup createdAt uuid input db)
     = cleanupExpired nowCleanup db ++ [record res]
  /\ status (record res) = Pending
  /\ request_fingerprint (record res) = requestFingerprint input
  /\ max_uses (record res) = normalizeMaxUses (maxUses input)
  /\ required_approvals (record res) = normalizeRequiredApprovals (requiredApprovals input)
  /\ required_roles (record res) = normalizeRoles (requiredRoles input).
Proof.
  unfold getOrCreatePending.
  destruct (latest_pending _ (cleanupExpired nowCleanup db)) eqn:Hnone.
  { destruct (_ <? _)%Z; [destruct (getById _ _)|destruct (negb _); [destruct (getById _ _)|]];
      simpl; intros [= <-]; discriminate. }
  destruct (toISOString createdAt) as [createdText|]; [|discriminate].
  destruct (_ ≫= toISOString) as [expiresText|]; [|discriminate].
  destruct (existsb (has_id uuid) _) eqn:Hfresh; [discriminate|].
  rewrite getById_app_new by (assumption || reflexivity).
  simpl. intros [= <-] _. simpl. repeat split.
Qed.

(** X3. A request repeated while its record is pending and unexpired gets
    the same record, with [created = false]: the second call writes nothing
    but the lazy expiry of other rows, whatever its clock and random id. *)
Theorem getOrCreatePending_repeat (now1 : string) (createdAt1 : Z) (uuid1 : string)
    (now2 : string) (createdAt2 : Z) (uuid2 : string) (input : ApprovalCreateInput)
    (db : Store) (res : ApprovalCreateResult) :
  snd (getOrCreatePending now1 createdAt1 uuid1 input db) = Ok res ->
  created res = true ->
  String.ltb (expires_at (record res)) now2 = false ->
  let db1 := fst (getOrCreatePending now1 createdAt1 uuid1 input db) in
  getOrCreatePending now2 createdAt2 uuid2 input db1
  = (cleanupExpired now2 db1, Ok {| record := record res; created := false |}).
Proof.
  intros Hres Hcreated Hlive.
  destruct (getOrCreatePending_created _ _ _ _ _ _ Hres Hcreated)
    as (Hnone & -> & Hstatus & Hfp & Hmax & Hquorum & Hroles).
  cbv zeta. set (row := record res) in *. set (db0 := cleanupExpired now1 db) in *.
  assert (Hclean : cleanupExpired now2 (db0 ++ [row]) = cleanupExpired now2 db0 ++ [row]).
  { rewrite !cleanupExpired_map, map_app. simpl. f_equal. f_equal. now apply expire_fresh. }
  unfold getOrCreatePending. rewrite Hclean.
  assert (Hlatest : latest_pending (requestFingerprint input) (cleanupExpired now2 db0 ++ [row])
                    = Some row).
  { unfold latest_pending. rewrite List.filter_app.
    rewrite filter_pending_cleanup by now apply latest_pending_none_filter.
    simpl. unfold is_pending_for. now rewrite Hfp, Hstatus, String.eqb_refl. }
  rewrite Hlatest, Hmax, Hquorum, Hroles, !Z.ltb_irrefl.
  destruct (normalizeRoles_spec (requiredRoles input)) as (Hsorted & Hnd & Hclean').
  rewrite parseRoleArray_normalized by assumption.
  rewrite mergeRoles_same by assumption.
  rewrite bool_decide_eq_true_2 by reflexivity. reflexivity.
Qed.

Lemma getOrCreatePending_repeat_zero_ttl :
  let db1 := fst (getOrCreatePending "2023-11-14T22:13:20.000Z" 1700000000000 "u1"
                    zero_ttl_input []) in
  getOrCreatePending "2023-11-14T22:13:50.000Z" 1700000030000 "u2" zero_ttl_input db1
  = (cleanupExpired "2023-11-14T22:13:50.000Z" db1,
     Ok {| record := record zero_ttl_result; created := false |}).
Proof.
  apply (getOrCreatePending_repeat "2023-11-14T22:13:20.000Z" 1700000000000 "u1"
           "2023-11-14T22:13:50.000Z" 1700000030000 "u2" zero_ttl_input [] zero_ttl_result);
    reflexivity.
Defined.

(** *** Consuming an approval *)

Lemma existsb_unique i (p : ApprovalRecord -> bool) db r :
  List.NoDup (map id db) -> getById i db = Some r ->
  existsb (fun x => has_id i x && p x) db = p r.
Proof.
  unfold getById. induction db as [|x db IH]; simpl; [discriminate|].
  intros Hnd. inversion Hnd as [|? ? Hx Hdb]; subst.
  destruct (has_id i x) eqn:Hid; simpl.
  - intros [= ->]. destruct (p r); [reflexivity|]. simpl.
    apply PolicyFacts.existsb_const_false. intros y Hy.
    destruct (has_id i y) eqn:Hy'; [|reflexivity]. exfalso. apply Hx.
    apply has_id_eq in Hid, Hy'. rewrite Hid, <- Hy'. now apply in_map.
  - now apply IH.
Qed.

Lemma existsb_map_ext {A B} (f : A -> B) (p : B -> bool) (q : A -> bool) l :
  (forall x, p (f x) = q x) -> existsb p (map f l) = existsb q l.
Proof. intros H. induction l as [|x l IH]; simpl; [reflexivity|]. now rewrite H, IH. Qed.

Lemma consumeApproved_one nowCleanup nowIso i fingerprint db r :
  List.NoDup (map id db) -> getById i db = Some r ->
  status r = Approved -> request_fingerprint r = fingerprint ->
  String.leb nowIso (expires_at r) = true ->
  let out := consumeApproved nowCleanup nowIso i fingerprint db in
  snd out = (use_count r <? max_uses r)%Z
  /\ getById i (fst out)
     = Some (if (use_count r <? max_uses r)%Z then with_use nowIso r else r)
  /\ List.NoDup (map id (fst out)).
Proof.
  intros Hnd Hget Hs Hfp Hlive. cbv zeta.
  assert (Hexp : expire nowCleanup r = r) by (apply expire_not_pending; congruence).
  assert (Hc : consumable nowIso i fingerprint r = (use_count r <? max_uses r)%Z).
  { unfold consumable. destruct (getById_Some _ _ _ Hget) as [_ Hid].
    apply has_id_eq in Hid. rewrite Hid, Hs, Hfp, String.eqb_refl, Hlive. reflexivity. }
  split; [|split].
  - unfold consumeApproved. cbn [snd]. rewrite changes_pos.
    rewrite cleanupExpired_map.
    rewrite (existsb_map_ext _ _ (fun x => has_id i x && consumable nowIso i fingerprint x)).
    + now rewrite (existsb_unique i _ db r).
    + intros x. rewrite consumable_expire. unfold consumable.
      now destruct (has_id i x).
  - unfold consumeApproved. cbn [fst].
    rewrite getById_update_where by reflexivity. rewrite getById_cleanupExpired, Hget.
    simpl. now rewrite Hexp, Hc.
  - now rewrite (Forall2_evolves_ids _ _ (consumeApproved_evolves _ _ _ _ _)).
Qed.

Lemma consume_each_cons nowCleanup nowIso rest i fingerprint db :
  snd (consume_each ((nowCleanup, nowIso) :: rest) i fingerprint db)
  = snd (consumeApproved nowCleanup nowIso i fingerprint db)
    :: snd (consume_each rest i fingerprint
              (fst (consumeApproved nowCleanup nowIso i fingerprint db))).
Proof.
  simpl. now destruct (consume_each rest i fingerprint _).
Qed.

Lemma consume_each_results times i fingerprint db r :
  List.NoDup (map id db) -> getById i db = Some r ->
  status r = Approved -> request_fingerprint r = fingerprint ->
  Forall (fun t => String.leb (snd t) (expires_at r) = true) times ->
  snd (consume_each times i fingerprint db)
  = map (fun k => (use_count r + Z.of_nat k <? max_uses r)%Z) (seq 0 (length times)).
Proof.
  revert db r. induction times as [|[nowCleanup nowIso] rest IH];
    intros db r Hnd Hget Hs Hfp Hlive; [reflexivity|].
  inversion Hlive as [|? ? Hnow Hrest]; subst. simpl in Hnow.
  rewrite consume_each_cons.
  destruct (consumeApproved_one nowCleanup nowIso i (request_fingerprint r) db r
              Hnd Hget Hs eq_refl Hnow) as (Hok & Hget' & Hnd').
  rewrite Hok. cbn [length seq map]. rewrite Z.add_0_r. f_equal.
  rewrite <- seq_shift, map_map.
  destruct (use_count r <? max_uses r)%Z eqn:Hlt.
  - rewrite (IH _ (with_use nowIso r) Hnd' Hget') by (simpl; first [assumption | reflexivity]).
    apply map_ext. intros k. simpl. f_equal. lia.
  - rewrite (IH _ r Hnd' Hget') by first [assumption | reflexivity].
    apply map_ext_in. intros k _. apply Z.ltb_ge in Hlt.
    transitivity false; [|symmetry]; apply Z.ltb_ge; lia.
Qed.

Lemma count_below (a : Z) (n : nat) :
  Z.of_nat (length (List.filter (fun ok : bool => ok)
                      (map (fun k => (Z.of_nat k <? a)%Z) (seq 0 n))))
  = Z.max 0 (Z.min (Z.of_nat n) a).
Proof.
  induction n as [|n IH]; [simpl; lia|].
  rewrite seq_S, map_app, List.filter_app, length_app, Nat2Z.inj_add, IH.
  simpl. destruct (Z.of_nat n <? a)%Z eqn:Hlt; simpl;
    [apply Z.ltb_lt in Hlt | apply Z.ltb_ge in Hlt]; lia.
Qed.

(** X4. An approved record with distinct id, consumed at times not after
    its expiry text under its own fingerprint: the attempt number [k]
    (from 0) succeeds exactly when [use_count + k < max_uses]. So of any
    number of attempts exactly [max_uses - use_count] succeed (none when
    that is negative), and they are the first ones. *)
Theorem consumeApproved_budget (times : list (string * string)) (i fingerprint : string)
    (db : Store) (r : ApprovalRecord) :
  List.NoDup (map id db) ->
  getById i db = Some r ->
  status r = Approved ->
  request_fingerprint r = fingerprint ->
  Forall (fun t => String.leb (snd t) (expires_at r) = true) times ->
  let results := snd (consume_each times i fingerprint db) in
  results = map (fun k => (use_count r + Z.of_nat k <? max_uses r)%Z) (seq 0 (length times))
  /\ Z.of_nat (length (List.filter (fun ok : bool => ok) results))
     = Z.max 0 (Z.min (Z.of_nat (length times)) (max_uses r - use_count r)).
Proof.
  intros Hnd Hget Hs Hfp Hlive. cbv zeta.
  rewrite (consume_each_results times i fingerprint db r) by assumption.
  split; [reflexivity|].
  rewrite <- (count_below (max_uses r - use_count r) (length times)).
  do 3 f_equal. apply map_ext. intros k.
  destruct (Z.ltb_spec (use_count r + Z.of_nat k) (max_uses r));
    destruct (Z.ltb_spec (Z.of_nat k) (max_uses r - use_count r)); lia || reflexivity.
Qed.

Definition approved_twice : ApprovalRecord :=
  {| id := "a1"; created_at := "2026-01-01T00:00:00.000Z";
     expires_at := "2026-01-01T00:05:00.000Z"; status := Approved;
     required_approvals := 1; required_roles := []; max_uses := 2; use_count := 0;
     last_used_at := None; approval_actors := ["alice"];
     approval_actor_roles := [("alice", "security")];
     request_fingerprint := "fp"; reason := "r"; metadata := "{}";
     resolved_by := Some "alice"; resolved_at := Some "2026-01-01T00:01:00.000Z" |}.

Definition three_attempts : list (string * string) :=
  [ ("2026-01-01T00:02:00.000Z", "2026-01-01T00:02:00.001Z");
    ("2026-01-01T00:03:00.000Z", "2026-01-01T00:03:00.001Z");
    ("2026-01-01T00:04:00.000Z", "2026-01-01T00:04:00.001Z") ].

Lemma consumeApproved_budget_of_two :
  let results := snd (consume_each three_attempts "a1" "fp" [approved_twice]) in
  results = map (fun k => (use_count approved_twice + Z.of_nat k <? max_uses approved_twice)%Z)
              (seq 0 (length three_attempts))
  /\ Z.of_nat (length (List.filter (fun ok : bool => ok) results))
     = Z.max 0 (Z.min (Z.of_nat (length three_attempts))
                  (max_uses approved_twice - use_count approved_twice)).
Proof.
  apply (consumeApproved_budget three_attempts "a1" "fp" [approved_twice] approved_twice).
  - repeat constructor. simpl. tauto.
  - reflexivity.
  - reflexivity.
  - reflexivity.
  - repeat constructor.
Defined.

Example consume_twice_runs :
  snd (consume_each three_attempts "a1" "fp" [approved_twice]) = [true; true; false].
Proof. reflexivity. Qed.

(** *** The rows handed to the attestation *)

Lemma ltb_spec a b : String.ltb a b = true <-> String.le a b /\ a <> b.
Proof.
  pose proof (JsDateFacts.leb_ltb b a) as H. rewrite <- (negb_involutive (String.ltb a b)), <- H.
  rewrite negb_true_iff. split.
  - intros Hba. split.
    + destruct (String.leb_total a b) as [Hab|Hab]; [now apply leb_le | congruence].
    + intros ->. destruct (String.leb_total b b); congruence.
  - intros [Hab Hne]. destruct (String.leb b a) eqn:Hba; [|reflexivity].
    exfalso. apply Hne. apply String.leb_antisym; [now apply leb_le | assumption].
Qed.

Lemma attestation_order_spec a b :
  attestation_order a b = true
  <-> (String.le (created_at a) (created_at b) /\ created_at a <> created_at b)
      \/ (created_at a = created_at b /\ String.le (id a) (id b)).
Proof.
  unfold attestation_order.
  rewrite orb_true_iff, andb_true_iff, ltb_spec, String.eqb_eq, leb_le. tauto.
Qed.

Lemma attestation_order_total a b :
  attestation_order a b = true \/ attestation_order b a = true.
Proof.
  rewrite !attestation_order_spec.
  destruct (decide (created_at a = created_at b)) as [Heq|Hne].
  - destruct (total String.le (id a) (id b)); [left | right]; right; auto.
  - destruct (total String.le (created_at a) (created_at b)); [left | right]; left; auto.
Qed.

Lemma attestation_order_trans a b c :
  attestation_order a b = true -> attestation_order b c = true ->
  attestation_order a c = true.
Proof.
  rewrite !attestation_order_spec.
  intros [[Hab Hne]|[Heq Hab]] [[Hbc Hne']|[Heq' Hbc]].
  - left. split; [now transitivity (created_at b)|].
    intros Hac. rewrite Hac in Hab. apply Hne'. now apply (anti_symm String.le).
  - left. rewrite <- Heq'. auto.
  - left. rewrite Heq. auto.
  - right. split; [congruence | now transitivity (id b)].
Qed.

Lemma insert_row_In r x l : In x (insert_row r l) <-> x = r \/ In x l.
Proof.
  induction l as [|y l IH]; simpl; [intuition congruence|].
  destruct (attestation_order r y); simpl; [intuition congruence|].
  rewrite IH. intuition congruence.
Qed.

Lemma order_rows_In x l : In x (order_rows l) <-> In x l.
Proof.
  induction l as [|r l IH]; simpl; [reflexivity|].
  rewrite insert_row_In, IH. intuition congruence.
Qed.

Lemma insert_row_length r l : length (insert_row r l) = S (length l).
Proof.
  induction l as [|y l IH]; simpl; [reflexivity|].
  destruct (attestation_order r y); simpl; [reflexivity | now rewrite IH].
Qed.

Lemma order_rows_length l : length (order_rows l) = length l.
Proof. induction l as [|r l IH]; simpl; [reflexivity|]. now rewrite insert_row_length, IH. Qed.

Definition in_order (a b : ApprovalRecord) : Prop := attestation_order a b = true.

Lemma insert_row_sorted r l :
  StronglySorted in_order l -> StronglySorted in_order (insert_row r l).
Proof.
  induction 1 as [|y l Hl IH Hy]; simpl; [repeat constructor|].
  destruct (attestation_order r y) eqn:Hry.
  - constructor; [now constructor|]. constructor; [assumption|].
    eapply List.Forall_impl; [|exact Hy]. intros z Hz.
    now apply (attestation_order_trans r y z).
  - constructor; [assumption|]. apply List.Forall_forall. intros z Hz.
    apply insert_row_In in Hz as [->|Hz].
    + destruct (attestation_order_total r y) as [H|H]; [congruence | exact H].
    + revert z Hz. now apply List.Forall_forall.
Qed.

Lemma order_rows_sorted l : StronglySorted in_order (order_rows l).
Proof. induction l; simpl; [constructor | now apply insert_row_sorted]. Qed.

Lemma StronglySorted_take {A} (R : A -> A -> Prop) n (l : list A) :
  StronglySorted R l -> StronglySorted R (take n l).
Proof.
  intros H. revert n. induction H as [|x l Hl IH Hx]; intros [|n]; simpl; try constructor.
  - apply IH.
  - apply List.Forall_forall. intros y Hy. apply list_elem_of_In in Hy.
    apply elem_of_take in Hy as (k & Hy & _). apply list_elem_of_lookup_2 in Hy.
    apply list_elem_of_In in Hy. revert y Hy. now apply List.Forall_forall.
Qed.

Lemma safeLimit_range limit n : safeLimit limit = Some n -> (1 <= Z.of_nat n <= 10000)%Z.
Proof. destruct limit; simpl; intros [= <-]; lia. Qed.

(** X5. [listForAttestation] first expires the stale pending rows. Unless
    the limit is NaN it returns: at most as many rows as the limit clamped
    to 1..10000 (1000 when omitted), each a settled row of the table (never
    a pending one) created at or after the trimmed [since] when that is
    not empty, in ascending order of creation text and then id; and when
    fewer rows than the limit are returned, every such row of the table is
    among them. *)
Theorem listForAttestation_settled (nowCleanup : string) (limit : option number)
    (sinceIso : option string) (db : Store) :
  let out := listForAttestation nowCleanup limit sinceIso db in
  let since := trim (default "" sinceIso) in
  let wanted r :=
    status r <> Pending /\ (since <> "" -> String.leb since (created_at r) = true) in
  fst out = cleanupExpired nowCleanup db
  /\ (limit <> Some NaN -> exists rows, snd out = Ok rows)
  /\ forall rows,
       snd out = Ok rows ->
       exists n,
         safeLimit (default (of_Z 1000) limit) = Some n
         /\ (1 <= Z.of_nat n <= 10000)%Z /\ (length rows <= n)%nat
         /\ (forall r, In r rows -> In r (fst out) /\ wanted r)
         /\ StronglySorted in_order rows
         /\ ((length rows < n)%nat -> forall r, In r (fst out) -> wanted r -> In r rows).
Proof.
  cbv zeta. unfold listForAttestation.
  set (db0 := cleanupExpired nowCleanup db).
  set (pick := fun r => (if truthy (trim (default "" sinceIso))
                         then String.leb (trim (default "" sinceIso)) (created_at r)
                         else true)
                        && negb (status_eqb (status r) Pending)).
  assert (Hpick : forall r, pick r = true <->
            status r <> Pending
            /\ (trim (default "" sinceIso) <> "" ->
                String.leb (trim (default "" sinceIso)) (created_at r) = true)).
  { intros r. subst pick. cbv beta. rewrite andb_true_iff, negb_true_iff.
    rewrite <- not_true_iff_false, status_eqb_eq.
    destruct (truthy _) eqn:Ht.
    - apply truthy_true in Ht. tauto.
    - assert (trim (default "" sinceIso) = "") as -> by (now destruct (trim _)). tauto. }
  destruct (safeLimit _) as [n|] eqn:Hn.
  - split; [reflexivity|]. split; [eauto|].
    intros rows [= <-]. exists n. cbn [fst].
    split; [reflexivity|]. split; [now apply safeLimit_range in Hn|].
    split; [rewrite length_take; lia|]. split; [|split].
    + intros r Hr. apply list_elem_of_In in Hr. apply elem_of_take in Hr as (k & Hr & _).
      apply list_elem_of_lookup_2, list_elem_of_In in Hr.
      apply order_rows_In, List.filter_In in Hr as [Hin Hp]. split; [exact Hin|].
      now apply Hpick.
    + apply StronglySorted_take, order_rows_sorted.
    + rewrite length_take. intros Hlt r Hin Hw.
      rewrite take_ge by lia. apply order_rows_In, List.filter_In. split; [exact Hin|].
      now apply Hpick.
  - split; [reflexivity|]. split; [|discriminate].
    intros Hlimit. exfalso. destruct limit as [[| | |q]|]; simpl in Hn; congruence.
Qed.

Lemma count_status_cons s r db :
  count_status s (r :: db)
  = ((if status_eqb (status r) s then 1 else 0) + count_status s db)%Z.
Proof.
  unfold count_status. cbn [List.filter]. destruct (status_eqb (status r) s); cbn [length]; lia.
Qed.

(** [getStats] counts the table after lazy expiry: the four counts add
    up to the number of rows, the pending count is the number of pending
    rows whose expiry text is not before the time of the call, and the
    approved and denied counts are those of the table. *)
Theorem getStats_partition (nowCleanup : string) (db : Store) :
  let out := getStats nowCleanup db in
  fst out = cleanupExpired nowCleanup db
  /\ (pending (snd out) + approved (snd out) + denied (snd out) + expired (snd out)
      = Z.of_nat (length db))%Z
  /\ pending (snd out)
     = Z.of_nat (length (List.filter
                           (fun r => status_eqb (status r) Pending
                                     && negb (String.ltb (expires_at r) nowCleanup)) db))
  /\ approved (snd out) = count_status Approved db
  /\ denied (snd out) = count_status Denied db.
Proof.
  cbv zeta. unfold getStats. cbn [fst snd pending approved denied expired].
  split; [reflexivity|]. rewrite cleanupExpired_map.
  induction db as [|r db (IHsum & IHp & IHa & IHd)]; [repeat split|].
  cbn [map length]. rewrite Nat2Z.inj_succ, <- IHsum, !count_status_cons.
  rewrite <- IHa, <- IHd, IHp.
  cbn [List.filter length]. unfold expire, is_stale.
  destruct (status r) eqn:Hs; cbn [status_eqb andb negb]; rewrite ?Hs; cbn [status_eqb];
    try (repeat split; cbn [length]; lia).
  destruct (String.ltb (expires_at r) nowCleanup); cbn [with_status status status_eqb negb];
    rewrite ?Hs; cbn [status_eqb length]; repeat split; lia.
Qed.

End ApprovalCallsFacts.

(** ** Verification with the keyring *)

Module KeyringChecks.
Import Sha256 Keyring TrimFacts KeyringFacts.

Lemma lower_hex_digit c :
  is_lower_hex c = true -> exists x, hex_value c = Some x /\ (0 <= x < 16)%Z.
Proof.
  unfold is_lower_hex, hex_value. intros H.
  destruct ((48 <=? nat_of_ascii c)%nat && (nat_of_ascii c <=? 57)%nat) eqn:Hd.
  - eexists. split; [reflexivity|]. apply andb_true_iff in Hd as [H1 H2].
    apply Nat.leb_le in H1, H2. lia.
  - cbn [orb] in H. rewrite H. eexists. split; [reflexivity|].
    apply andb_true_iff in H as [H1 H2]. apply Nat.leb_le in H1, H2. lia.
Qed.

Lemma hex_value_lower_inj c d x :
  is_lower_hex c = true -> is_lower_hex d = true ->
  hex_value c = Some x -> hex_value d = Some x -> c = d.
Proof.
  intros Hc Hd Hx Hy.
  rewrite <- (ascii_nat_embedding c), <- (ascii_nat_embedding d). f_equal.
  unfold is_lower_hex, hex_value in *.
  destruct ((48 <=? nat_of_ascii c)%nat && (nat_of_ascii c <=? 57)%nat) eqn:Hc1;
    destruct ((48 <=? nat_of_ascii d)%nat && (nat_of_ascii d <=? 57)%nat) eqn:Hd1;
    cbn [orb] in Hc, Hd; rewrite ?Hc in Hx; rewrite ?Hd in Hy;
    injection Hx as <-; injection Hy as Hy;
    rewrite ?andb_true_iff, ?Nat.leb_le in *; lia.
Qed.

Lemma hex_decode_pairs n :
  forall a b,
    String.length a = (2 * n)%nat -> String.length b = (2 * n)%nat ->
    JsonText.all is_lower_hex a = true -> JsonText.all is_lower_hex b = true ->
    length (hex_decode a) = n
    /\ (hex_decode a = hex_decode b -> a = b).
Proof.
  induction n as [|n IH]; intros a b Ha Hb Hla Hlb.
  - destruct a, b; try discriminate. auto.
  - destruct a as [|h1 [|l1 a]], b as [|h2 [|l2 b]]; try (simpl in *; lia).
    cbn [JsonText.all] in Hla, Hlb.
    apply andb_true_iff in Hla as [Hh1 Hla]. apply andb_true_iff in Hla as [Hl1 Hla].
    apply andb_true_iff in Hlb as [Hh2 Hlb]. apply andb_true_iff in Hlb as [Hl2 Hlb].
    destruct (lower_hex_digit h1 Hh1) as (x1 & Hx1 & Rx1).
    destruct (lower_hex_digit l1 Hl1) as (y1 & Hy1 & Ry1).
    destruct (lower_hex_digit h2 Hh2) as (x2 & Hx2 & Rx2).
    destruct (lower_hex_digit l2 Hl2) as (y2 & Hy2 & Ry2).
    cbn [hex_decode]. rewrite Hx1, Hy1, Hx2, Hy2.
    destruct (IH a b) as [Hlen Hinj]; try assumption; try (simpl in *; lia).
    split; [simpl; now rewrite Hlen|].
    intros [= Hbyte Hrest].
    assert (x1 = x2 /\ y1 = y2) as [-> ->] by lia.
    rewrite (hex_value_lower_inj h1 h2 x2), (hex_value_lower_inj l1 l2 y2) by assumption.
    now rewrite (Hinj Hrest).
Qed.

Lemma even_half n : Nat.even n = true -> exists k, n = (2 * k)%nat.
Proof. intros H. apply Nat.even_spec in H as [k ->]. eauto. Qed.

(** X6. On texts that are hex digits once trimmed and lowercased,
    [constantTimeHexEquals] is equality of the trimmed, lowercased texts,
    except that the empty text and texts of odd length equal nothing, not
    even themselves. *)
Theorem constantTimeHexEquals_equality (aHex bHex : string) :
  JsonText.all is_lower_hex (normalizeHex aHex) = true ->
  JsonText.all is_lower_hex (normalizeHex bHex) = true ->
  constantTimeHexEquals aHex bHex = true
  <-> normalizeHex aHex = normalizeHex bHex
      /\ normalizeHex aHex <> ""
      /\ Nat.even (String.length (normalizeHex aHex)) = true.
Proof.
  intros Ha Hb. unfold constantTimeHexEquals.
  set (a := normalizeHex aHex) in *. set (b := normalizeHex bHex) in *.
  destruct (String.length a =? String.length b)%nat eqn:Hlen; cbn [negb orb].
  2: { split; [discriminate|]. intros (Heq & _). rewrite Heq, Nat.eqb_refl in Hlen.
       discriminate. }
  apply Nat.eqb_eq in Hlen.
  destruct (String.length a =? 0)%nat eqn:Hzero; cbn [orb].
  { split; [discriminate|]. intros (_ & Hne & _). destruct a; [tauto | discriminate]. }
  destruct (Nat.even (String.length a)) eqn:Heven; cbn [negb].
  2: { split; [discriminate | intros (_ & _ & ?); discriminate]. }
  destruct (even_half _ Heven) as [n Hn].
  destruct (hex_decode_pairs n a b) as [Hla Hinj]; try assumption; [congruence|].
  destruct (hex_decode_pairs n b a) as [Hlb _]; try assumption; [congruence|].
  rewrite Hla, Hlb, Nat.eqb_refl. cbn [negb orb].
  assert (Hpos : (n =? 0)%nat = false).
  { apply Nat.eqb_neq. apply Nat.eqb_neq in Hzero. lia. }
  rewrite Hpos. rewrite bool_decide_eq_true. split.
  - intros Heq. split; [now apply Hinj|]. split; [|reflexivity].
    intros Hempty. rewrite Hempty in Hzero. discriminate.
  - intros (-> & _). reflexivity.
Qed.

Lemma constantTimeHexEquals_equality_digest :
  constantTimeHexEquals "  AB12cd " "ab12CD" = true
  <-> normalizeHex "  AB12cd " = normalizeHex "ab12CD"
      /\ normalizeHex "  AB12cd " <> ""
      /\ Nat.even (String.length (normalizeHex "  AB12cd ")) = true.
Proof. apply (constantTimeHexEquals_equality "  AB12cd " "ab12CD"); reflexivity. Defined.

(** Texts with other characters: the decoder stops at the first pair that
    is not hex, so texts that differ after it are found equal. *)
Example constantTimeHexEquals_prefix :
  constantTimeHexEquals "abzz" "abyy" = true /\ constantTimeHexEquals "zz" "zz" = false.
Proof. split; reflexivity. Qed.

Lemma constantTimeHexEquals_hex64 a b :
  is_hex64 a = true -> is_hex64 b = true -> constantTimeHexEquals a b = true <-> a = b.
Proof.
  intros Ha Hb.
  pose proof (hex64_normal a Ha) as Hna. pose proof (hex64_normal b Hb) as Hnb.
  fold (normalizeHex a) in Hna. fold (normalizeHex b) in Hnb.
  destruct (hex64_spec a Ha) as [Hlen Hall], (hex64_spec b Hb) as [_ Hallb].
  rewrite constantTimeHexEquals_equality by (rewrite ?Hna, ?Hnb; assumption).
  rewrite Hna, Hnb, Hlen. split; [tauto|]. intros ->. split; [reflexivity|].
  split; [|reflexivity]. intros ->. discriminate.
Qed.

(** X7. [verifyWithKeyring] returns true exactly when the trimmed kid is not
    empty and names an own key of the keyring, that key is not empty, and
    the signature, trimmed and lowercased, is the HMAC-SHA256 of the payload
    under that key. *)
Theorem verifyWithKeyring_exact (payloadCanonical : string) (signature : HmacSignatureV2)
    (keyring : HmacKeyring) :
  verifyWithKeyring payloadCanonical signature keyring = Some true
  <-> trim (kid signature) <> ""
      /\ exists secret,
           JsObject.get (trim (kid signature)) (keys keyring) = Some secret
           /\ secret <> ""
           /\ toLowerCase (trim (sig signature)) = hmacSha256Hex secret payloadCanonical.
Proof.
  unfold verifyWithKeyring, JsObject.read.
  set (k := trim (kid signature)). set (s := toLowerCase (trim (sig signature))).
  split.
  - destruct (truthy k) eqn:Hk; [|discriminate]. cbn [negb orb].
    destruct (is_hex64 s) eqn:Hs; [|discriminate]. cbn [negb].
    destruct (JsObject.get k (keys keyring)) as [secret|];
      [|destruct (existsb _ _); discriminate].
    destruct (truthy secret) eqn:Hsecret; [|discriminate].
    intros [= Heq]. split; [now apply ApprovalFacts.truthy_true|].
    exists secret. split; [reflexivity|]. split; [now apply ApprovalFacts.truthy_true|].
    symmetry. apply constantTimeHexEquals_hex64; [apply hmacSha256Hex_hex64 | | ]; assumption.
  - intros (Hk & secret & Hget & Hsecret & Hs).
    apply ApprovalFacts.truthy_true in Hk, Hsecret.
    rewrite Hk, Hget, Hsecret, Hs, hmacSha256Hex_hex64. cbn [negb orb]. f_equal.
    apply constantTimeHexEquals_refl, hmacSha256Hex_hex64.
Qed.

(** X8. [verifyWithAnyKey] finds the signature valid exactly when, trimmed
    and lowercased, it is the HMAC-SHA256 of the payload under some key of
    the keyring; the kid it reports is then the first such key in the order
    of the keyring, and is null otherwise. *)
Theorem verifyWithAnyKey_exact (payloadCanonical signatureHex : string)
    (keyring : HmacKeyring) :
  let s := toLowerCase (trim signatureHex) in
  let signs (entry : string * string) := s = hmacSha256Hex (snd entry) payloadCanonical in
  (fst (verifyWithAnyKey payloadCanonical signatureHex keyring) = true
   <-> exists entry, In entry (keys keyring) /\ signs entry)
  /\ (forall k,
        snd (verifyWithAnyKey payloadCanonical signatureHex keyring) = Some k ->
        fst (verifyWithAnyKey payloadCanonical signatureHex keyring) = true
        /\ exists before secret rest,
             keys keyring = before ++ (k, secret) :: rest
             /\ signs (k, secret) /\ Forall (fun entry => ~ signs entry) before)
  /\ (fst (verifyWithAnyKey payloadCanonical signatureHex keyring) = false ->
      snd (verifyWithAnyKey payloadCanonical signatureHex keyring) = None).
Proof.
  cbv zeta. unfold verifyWithAnyKey. set (s := toLowerCase (trim signatureHex)).
  destruct (is_hex64 s) eqn:Hs; cbn [negb].
  - set (test := fun entry : string * string =>
                   constantTimeHexEquals (hmacSha256Hex (snd entry) payloadCanonical) s).
    assert (Htest : forall entry, test entry = true
                                  <-> s = hmacSha256Hex (snd entry) payloadCanonical).
    { intros entry. subst test. cbv beta.
      rewrite constantTimeHexEquals_hex64 by (apply hmacSha256Hex_hex64 || assumption).
      split; congruence. }
    destruct (List.find test (keys keyring)) as [entry|] eqn:Hfind; cbn [fst snd].
    + split; [|split; [|discriminate]].
      * split; [|reflexivity]. intros _. apply List.find_some in Hfind as [Hin Ht].
        exists entry. split; [assumption | now apply Htest].
      * intros k [= <-]. split; [reflexivity|].
        clear Hs. induction (keys keyring) as [|e l IH]; [discriminate|].
        cbn [List.find] in Hfind. destruct (test e) eqn:He.
        -- injection Hfind as ->. exists [], (snd entry), l. destruct entry.
           split; [reflexivity|]. split; [now apply (Htest (_, _)) | constructor].
        -- destruct (IH Hfind) as (before & secret & rest & -> & Hsig & Hbefore).
           exists (e :: before), secret, rest. split; [reflexivity|].
           split; [assumption|]. constructor; [|assumption].
           intros Hsigns. apply Htest in Hsigns. congruence.
    + split; [|split; [discriminate | reflexivity]].
      split; [discriminate|]. intros (entry & Hin & Hsig).
      apply (List.find_none _ _ Hfind) in Hin. apply Htest in Hsig. congruence.
  - cbn [fst snd]. split; [|split; [discriminate | reflexivity]].
    split; [discriminate|]. intros (entry & _ & Hsig).
    rewrite Hsig, hmacSha256Hex_hex64 in Hs. discriminate.
Qed.

Lemma get_entry_In key (o : JsObject.t) v : JsObject.get key o = Some v -> In (key, v) o.
Proof.
  induction o as [|[k w] o IH]; simpl; [discriminate|].
  destruct (String.eqb_spec k key) as [->|Hne].
  - intros [= ->]. now left.
  - intros H. right. auto.
Qed.

(** X9. Signing with a loaded keyring whose active kid is one of its keys
    returns a signature that carries the active kid, that
    [verifyWithKeyring] accepts for the same payload, and that
    [verifyWithAnyKey] accepts without the kid. *)
Theorem keyring_round_trip (parsed : HmacKeyringFile) (keyring : HmacKeyring)
    (payloadCanonical : string) :
  loadHmacKeyring parsed = Loaded keyring ->
  is_Some (JsObject.get (activeKid keyring) (keys keyring)) ->
  exists v2,
    signWithKeyring payloadCanonical keyring = Some v2
    /\ kid v2 = activeKid keyring
    /\ verifyWithKeyring payloadCanonical v2 keyring = Some true
    /\ fst (verifyWithAnyKey payloadCanonical (sig v2) keyring) = true.
Proof.
  intros Hload Hown.
  destruct (proj2 (signWithKeyring_returns payloadCanonical keyring) Hown) as [v2 Hsign].
  destruct (signWithKeyring_verifies _ _ _ _ Hload Hsign) as (Hkid & Hhex & Hverify).
  exists v2. repeat split; try assumption.
  unfold verifyWithAnyKey. rewrite (hex64_normal _ Hhex), Hhex. cbn [negb].
  destruct (List.find _ (keys keyring)) as [entry|] eqn:Hfind; [reflexivity|].
  exfalso. destruct Hown as [secret Hget].
  apply get_entry_In, (List.find_none _ _ Hfind) in Hget. cbn [snd] in Hget.
  unfold signWithKeyring, JsObject.read in Hsign.
  destruct (JsObject.get (activeKid keyring) (keys keyring)) as [secret'|] eqn:Hget';
    [|destruct (existsb _ _); discriminate].
  injection Hsign as <-. cbn [sig] in *.
  apply get_entry_In in Hget'.
  assert (Hs : constantTimeHexEquals (hmacSha256Hex secret' payloadCanonical)
                 (hmacSha256Hex secret' payloadCanonical) = true)
    by apply constantTimeHexEquals_refl, hmacSha256Hex_hex64.
  apply (List.find_none _ _ Hfind) in Hget'. cbn [snd] in Hget'. congruence.
Qed.

Lemma keyring_round_trip_sample :
  exists v2,
    signWithKeyring "payload" AttestationFacts.sample_keyring = Some v2
    /\ kid v2 = activeKid AttestationFacts.sample_keyring
    /\ verifyWithKeyring "payload" v2 AttestationFacts.sample_keyring = Some true
    /\ fst (verifyWithAnyKey "payload" (sig v2) AttestationFacts.sample_keyring) = true.
Proof.
  apply (keyring_round_trip AttestationFacts.sample_file AttestationFacts.sample_keyring
           "payload").
  - reflexivity.
  - exists "first-secret". reflexivity.
Defined.

(** *** The keys of a loaded keyring *)

Definition key_ok (source : JsObject.t) (kv : string * string) : Prop :=
  trim (fst kv) = fst kv /\ fst kv <> "" /\ fst kv <> "__proto__"
  /\ trim (snd kv) = snd kv /\ snd kv <> ""
  /\ exists raw, In raw source /\ trim (fst raw) = fst kv /\ trim (snd raw) = snd kv.

Lemma set_keys_ok source key value o :
  List.NoDup (JsObject.keys o) -> Forall (key_ok source) o ->
  (key <> "__proto__" -> key_ok source (key, value)) ->
  List.NoDup (JsObject.keys (JsObject.set key value o))
  /\ Forall (key_ok source) (JsObject.set key value o).
Proof.
  intros Hnd Hall Hnew. split; [now apply JsObjectFacts.set_distinct|].
  destruct (String.eqb_spec key "__proto__") as [Hp|Hne].
  - unfold JsObject.set. apply String.eqb_eq in Hp. now rewrite Hp.
  - apply JsObjectFacts.set_Forall; auto.
Qed.

Lemma load_keys_ok source entries acc :
  (forall raw, In raw entries -> In raw source) ->
  List.NoDup (JsObject.keys acc) -> Forall (key_ok source) acc ->
  let keys :=
    fold_left (fun keys entry =>
                 let kid := trim (fst entry) in
                 let key := trim (snd entry) in
                 if negb (truthy kid) || negb (truthy key) then keys
                 else JsObject.set kid key keys) entries acc in
  List.NoDup (JsObject.keys keys) /\ Forall (key_ok source) keys.
Proof.
  cbv zeta. revert acc. induction entries as [|entry entries IH]; intros acc Hsrc Hnd Hall;
    [now split|].
  cbn [fold_left]. apply IH; [intros; apply Hsrc; now right| |];
    destruct (truthy (trim (fst entry))) eqn:Hk; cbn [negb orb]; try assumption;
    destruct (truthy (trim (snd entry))) eqn:Hv; cbn [negb]; try assumption;
    apply (set_keys_ok source); try assumption;
    (intros Hne; unfold key_ok; cbn [fst snd];
     rewrite !trim_idempotent; apply ApprovalFacts.truthy_true in Hk, Hv;
     repeat split; try assumption; exists entry; split; [apply Hsrc; now left | auto]).
Qed.

(** X10. A keyring that [loadHmacKeyring] returns: the active kid is the
    trimmed [active_kid] of the file and not empty; the kids are distinct,
    trimmed, not empty and not [__proto__]; every secret is trimmed and not
    empty; every entry comes from an entry of the file by trimming; and the
    active kid is a key of the keyring or a member of [Object.prototype]. *)
Theorem loadHmacKeyring_normalized (parsed : HmacKeyringFile) (keyring : HmacKeyring) :
  loadHmacKeyring parsed = Loaded keyring ->
  activeKid keyring = trim (default "" (active_kid parsed))
  /\ activeKid keyring <> ""
  /\ List.NoDup (JsObject.keys (keys keyring))
  /\ Forall (key_ok (default [] (file_keys parsed))) (keys keyring)
  /\ JsObject.read (activeKid keyring) (keys keyring) <> JsObject.Missing.
Proof.
  unfold loadHmacKeyring.
  destruct (truthy (trim (default "" (active_kid parsed)))) eqn:Hkid; [|discriminate].
  cbn [negb]. cbv zeta.
  destruct (load_keys_ok (default [] (file_keys parsed)) (default [] (file_keys parsed)) [])
    as [Hnd Hall]; [auto | constructor | constructor |].
  cbv zeta in Hnd, Hall.
  set (loaded_keys := fold_left _ _ _) in *.
  apply ApprovalFacts.truthy_true in Hkid.
  destruct (JsObject.read _ loaded_keys) as [secret| |] eqn:Hread.
  - destruct (truthy secret); [|discriminate]. intros [= <-]. cbn [activeKid keys].
    rewrite Hread. repeat split; try assumption. discriminate.
  - intros [= <-]. cbn [activeKid keys]. rewrite Hread.
    repeat split; try assumption. discriminate.
  - discriminate.
Qed.

Lemma loadHmacKeyring_normalized_sample :
  activeKid AttestationFacts.sample_keyring
  = trim (default "" (active_kid AttestationFacts.sample_file))
  /\ activeKid AttestationFacts.sample_keyring <> ""
  /\ List.NoDup (JsObject.keys (keys AttestationFacts.sample_keyring))
  /\ Forall (key_ok (default [] (file_keys AttestationFacts.sample_file)))
       (keys AttestationFacts.sample_keyring)
  /\ JsObject.read (activeKid AttestationFacts.sample_keyring)
       (keys AttestationFacts.sample_keyring) <> JsObject.Missing.
Proof.
  apply (loadHmacKeyring_normalized AttestationFacts.sample_file
           AttestationFacts.sample_keyring).
  reflexivity.
Defined.

(** Kids that differ only by surrounding white space are one key; the
    last secret is kept, at the place of the first. *)
Example loadHmacKeyring_merges :
  loadHmacKeyring {| version := None; active_kid := Some " k1 ";
                     file_keys := Some [("k1", "old"); ("k2", " s2 "); (" k1", "new");
                                        ("  ", "x"); ("k3", "")] |}
  = Loaded {| activeKid := "k1"; keys := [("k1", "new"); ("k2", "s2")] |}.
Proof. reflexivity. Qed.

End KeyringChecks.

(** ** Capability gate: batches, channels and the signed catalog *)

Module CapabilityCatalog.
Import Js Sha256 Keyring Capability.

Inductive CapabilityAction := ToolExecute | ChannelIngest | ChannelSend.

Definition action_name (a : CapabilityAction) : string :=
  match a with
  | ToolExecute => "tool.execute"
  | ChannelIngest => "channel.ingest"
  | ChannelSend => "channel.send"
  end.

Definition evaluateChannelAction (e : CapabilityPolicyEngine) (action : CapabilityAction)
    (channel : string) : CapabilityDecision :=
  let normalizedChannel := toLowerCase (trim channel) in
  let rules := resolveRules e normalizedChannel in
  decisionFromRule (action_name action) (mode rules) (allowActions rules) (denyActions rules)
    VAction.

(** The rules of a catalog file, every member optional. *)
Record CapabilityRuleFile := {
  file_mode : option string;
  allow_tools : option (list string);
  deny_tools : option (list string);
  allow_actions : option (list string);
  deny_actions : option (list string)
}.

(** The parsed catalog file; [channels_file] lists the entries of the
    object in enumeration order, [None] for a value that is no object. *)
Record CapabilityCatalogFile := {
  version : option string;
  defaults_file : option CapabilityRuleFile;
  channels_file : option (list (string * option CapabilityRuleFile));
  signature : option string;
  signature_v2 : option HmacSignatureV2
}.

Inductive SigningMode := SigningNone | SigningStatic | SigningKeyring.

Record CapabilityCatalogLoadResult := {
  r_version : string;
  r_defaults : CapabilityRules;
  r_channels : list (string * CapabilityRules);
  fingerprint : string;
  signing_mode : SigningMode;
  keyring_active_kid : option string;
  keyring_key_count : nat
}.

Definition normalizeRules (fileRules : option CapabilityRuleFile) : CapabilityRules :=
  match fileRules with
  | None => DEFAULT_RULES
  | Some f =>
      {| mode := normalizeMode (default "" (file_mode f));
         allowTools := normalizeList (default [] (allow_tools f));
         denyTools := normalizeList (default [] (deny_tools f));
         allowActions := normalizeList (default [] (allow_actions f));
         denyActions := normalizeList (default [] (deny_actions f)) |}
  end.

(** [channels[channel] = v] with an object [v], on an object created by
    [{}]: an existing property is overwritten, a new one added at its place
    in the enumeration order; assigning to [__proto__] changes the
    prototype and adds no property. *)
Definition assign {A} (key : string) (v : A) (o : list (string * A)) : list (string * A) :=
  JsObject.set key v o.

(** The loop over [Object.entries(parsed.channels || {})], which both
    [canonicalPayload] and [loadSignedCapabilityCatalog] run. *)
Definition channel_table {A} (render : CapabilityRules -> A)
    (entries : list (string * option CapabilityRuleFile)) : list (string * A) :=
  fold_left (fun out entry =>
               let channel := toLowerCase (trim (fst entry)) in
               if truthy channel then assign channel (render (normalizeRules (snd entry))) out
               else out)
            entries [].

Definition mode_name (m : CapabilityMode) : string :=
  match m with ModeAllow => "allow" | ModeDeny => "deny" end.

Definition strings (l : list string) : value := JArr (map JStr l).

Definition rules_value (r : CapabilityRules) : value :=
  JObj [ ("mode", JStr (mode_name (mode r)));
         ("allow_tools", strings (allowTools r));
         ("deny_tools", strings (denyTools r));
         ("allow_actions", strings (allowActions r));
         ("deny_actions", strings (denyActions r)) ].

(** [String(parsed.version || "v1")] *)
Definition version_text (parsed : CapabilityCatalogFile) : string :=
  match version parsed with
  | Some v => if truthy v then v else "v1"
  | None => "v1"
  end.

Definition canonicalPayload (parsed : CapabilityCatalogFile) : value :=
  JObj [ ("version", JStr (version_text parsed));
         ("defaults", rules_value (normalizeRules (defaults_file parsed)));
         ("channels", JObj (channel_table rules_value (default [] (channels_file parsed)))) ].

Definition canonicalText (parsed : CapabilityCatalogFile) : string :=
  default "undefined" (Canonical.stableStringify (canonicalPayload parsed)).

(** A load returns, throws an [Error] with a message, or fails inside
    [createHmac] on a key that is no string. *)
Inductive outcome (A : Type) := Returned (a : A) | Refused (message : string) | KeyTypeError.
Arguments Returned {A} a.
Arguments Refused {A} message.
Arguments KeyTypeError {A}.

Definition verifyCatalogSignature (text : string) (parsed : CapabilityCatalogFile)
    (signingKey : string) (keyring : option HmacKeyring)
    : outcome (SigningMode * option string * nat) :=
  match keyring with
  | Some keyring =>
      let accepted :=
        Returned (SigningKeyring, Some (activeKid keyring), length (JsObject.keys (keys keyring))) in
      match signature_v2 parsed with
      | Some v2 =>
          match verifyWithKeyring text v2 keyring with
          | Some true => accepted
          | Some false => Refused "Capability catalog signature_v2 mismatch."
          | None => KeyTypeError
          end
      | None =>
          let legacySig := toLowerCase (trim (default "" (signature parsed))) in
          if negb (truthy legacySig)
          then Refused "Capability catalog signature missing for keyring verification."
          else if fst (verifyWithAnyKey text legacySig keyring) then accepted
          else Refused "Capability catalog legacy signature mismatch under keyring."
      end
  | None =>
      if negb (truthy (trim signingKey)) then Returned (SigningNone, None, O)
      else
        let given := toLowerCase (trim (default "" (signature parsed))) in
        if negb (is_hex64 given)
        then Refused "Capability catalog signature missing or invalid format."
        else if negb (String.eqb given (hmacSha256Hex (trim signingKey) text))
        then Refused "Capability catalog signature mismatch."
        else Returned (SigningStatic, None, O)
  end.

(** [loadSignedCapabilityCatalog] on the parsed catalog file and the parsed
    keyring file, if a keyring path is configured. *)
Definition loadSignedCapabilityCatalog (parsed : CapabilityCatalogFile) (signingKey : string)
    (keyringFile : option HmacKeyringFile) : outcome CapabilityCatalogLoadResult :=
  let text := canonicalText parsed in
  let finish keyring :=
    match verifyCatalogSignature text parsed signingKey keyring with
    | Returned (signingMode, activeKid, keyCount) =>
        Returned {| r_version := version_text parsed;
                    r_defaults := normalizeRules (defaults_file parsed);
                    r_channels := channel_table (fun r => r) (default [] (channels_file parsed));
                    fingerprint := sha256Hex text;
                    signing_mode := signingMode;
                    keyring_active_kid := activeKid;
                    keyring_key_count := keyCount |}
    | Refused message => Refused message
    | KeyTypeError => KeyTypeError
    end in
  match keyringFile with
  | Some file =>
      match loadHmacKeyring file with
      | Loaded keyring => finish (Some keyring)
      | LoadError message => Refused message
      end
  | None => finish None
  end.

(** [new Map(Object.entries(catalog.channels))] *)
Definition updateRules (catalog : CapabilityCatalogLoadResult) : CapabilityPolicyEngine :=
  {| defaults := r_defaults catalog;
     channels := fold_left (fun m entry => <[fst entry := snd entry]> m) (r_channels catalog) ∅ |}.

End CapabilityCatalog.

Module CapabilityCatalogFacts.
Import Js Sha256 Keyring Capability CapabilityFacts CapabilityCatalog.
Import JsStringFacts SortFacts TrimFacts KeyringFacts.

Definition normal_name (v : string) : string := toLowerCase (trim v).

Lemma normalizeList_In x values :
  In x (normalizeList values) <-> x <> "" /\ exists v, In v values /\ x = normal_name v.
Proof.
  unfold normalizeList. rewrite sort_In, set_of_list_In.
  rewrite <- list_elem_of_In, list_elem_of_filter, list_elem_of_In, in_map_iff.
  rewrite ApprovalFacts.truthy_true. split.
  - intros [Hne (v & <- & Hv)]. split; [assumption|]. now exists v.
  - intros [Hne (v & Hv & ->)]. split; [assumption|]. now exists v.
Qed.

Lemma sorted_distinct_unique (l l' : list string) :
  StronglySorted String.le l -> StronglySorted String.le l' ->
  List.NoDup l -> List.NoDup l' -> (forall x, In x l <-> In x l') -> l = l'.
Proof.
  intros Hs Hs' Hnd Hnd' Hsame.
  apply (StronglySorted_unique String.le); try assumption.
  now apply Permutation.NoDup_Permutation.
Qed.

Lemma normalizeList_sorted values :
  StronglySorted String.le (normalizeList values) /\ List.NoDup (normalizeList values).
Proof.
  unfold normalizeList. split; [apply sort_sorted | apply sort_NoDup, set_of_list_NoDup].
Qed.

(** [normalizeList] returns the trimmed, lowercased, non-empty names
    of its argument, each once, in ascending order. It depends on the names
    only (not on their order, repetitions, case or surrounding white space)
    and returns its own results unchanged. *)
Theorem normalizeList_canonical (values : list string) :
  StronglySorted String.le (normalizeList values)
  /\ List.NoDup (normalizeList values)
  /\ (forall x, In x (normalizeList values)
                <-> x <> "" /\ exists v, In v values /\ x = toLowerCase (trim v))
  /\ (forall values',
        (forall x, In x (map (fun v => toLowerCase (trim v)) values)
                   <-> In x (map (fun v => toLowerCase (trim v)) values')) ->
        normalizeList values' = normalizeList values)
  /\ normalizeList (normalizeList values) = normalizeList values.
Proof.
  destruct (normalizeList_sorted values) as [Hsorted Hnd].
  split; [assumption|]. split; [assumption|].
  split; [intros x; apply normalizeList_In|]. split.
  - intros values' Hsame.
    destruct (normalizeList_sorted values') as [Hsorted' Hnd'].
    apply sorted_distinct_unique; try assumption.
    intros x. rewrite !normalizeList_In. unfold normal_name.
    split; intros [Hne (v & Hv & ->)]; (split; [assumption|]).
    + assert (Hin : In (toLowerCase (trim v)) (map (fun v => toLowerCase (trim v)) values'))
        by (apply in_map_iff; eauto).
      apply Hsame, in_map_iff in Hin as (w & Hw & Hin). eauto.
    + assert (Hin : In (toLowerCase (trim v)) (map (fun v => toLowerCase (trim v)) values))
        by (apply in_map_iff; eauto).
      apply Hsame, in_map_iff in Hin as (w & Hw & Hin). eauto.
  - destruct (normalizeList_sorted (normalizeList values)) as [Hsorted' Hnd'].
    apply sorted_distinct_unique; try assumption.
    intros x. rewrite (normalizeList_In x (normalizeList values)). split.
    + intros [Hne (v & Hv & ->)]. apply normalizeList_In in Hv as [_ (w & Hw & ->)].
      unfold normal_name in *. rewrite clean_role_idempotent in *.
      apply normalizeList_In. split; [assumption|]. now exists w.
    + intros Hx. pose proof Hx as Hx'. apply normalizeList_In in Hx' as [Hne (w & Hw & ->)].
      split; [assumption|]. exists (normal_name w). split; [assumption|].
      unfold normal_name. now rewrite clean_role_idempotent.
Qed.

Example normalizeList_sample :
  normalizeList ["  Shell "; "read_file"; "SHELL"; "   "; ""; "Browser"]
  = ["browser"; "read_file"; "shell"].
Proof. reflexivity. Qed.

(** *** Batches of tool names *)

Definition passes (rules : CapabilityRules) (tool : string) : bool :=
  allowlist_rule (mode rules) (allowTools rules) (denyTools rules) tool.

Lemma evaluateToolExecution_allowed e toolNames channelHint :
  allowed (evaluateToolExecution e toolNames channelHint)
  = match normalizeList toolNames with
    | [] => true
    | tools =>
        let rules := resolveRules e channelHint in
        allowlist_rule (mode rules) (allowActions rules) (denyActions rules) "tool.execute"
        && forallb (passes rules) tools
    end.
Proof.
  unfold evaluateToolExecution.
  destruct (normalizeList toolNames) as [|t ts]; [reflexivity|].
  cbv zeta. set (rules := resolveRules e channelHint).
  rewrite <- (decisionFromRule_allowed "tool.execute" _ _ _ VAction).
  destruct (allowed (decisionFromRule "tool.execute" _ _ _ VAction)) eqn:Ha; cbn [negb andb];
    [|exact Ha].
  destruct (first_denied rules (t :: ts)) as [d|] eqn:Hd.
  - rewrite (first_denied_some _ _ _ Hd). symmetry. apply not_true_iff_false.
    intros Hall. rewrite forallb_forall in Hall.
    assert (first_denied rules (t :: ts) = None); [|congruence].
    apply first_denied_none. apply List.Forall_forall. intros x Hx. now apply Hall.
  - apply first_denied_none in Hd. symmetry. apply forallb_forall.
    intros x Hx. revert x Hx. now apply List.Forall_forall.
Qed.

Lemma forallb_normalizeList (p : string -> bool) values :
  forallb p (normalizeList values) = true
  <-> forall v, In v values -> normal_name v <> "" -> p (normal_name v) = true.
Proof.
  rewrite forallb_forall. split.
  - intros H v Hv Hne. apply H, normalizeList_In. eauto.
  - intros H x Hx. apply normalizeList_In in Hx as [Hne (v & Hv & ->)]. auto.
Qed.

Lemma normalizeList_nil values :
  normalizeList values = [] <-> forall v, In v values -> normal_name v = "".
Proof.
  split.
  - intros Hnil v Hv. destruct (decide (normal_name v = "")) as [|Hne]; [assumption|].
    assert (Hin : In (normal_name v) (normalizeList values)) by (apply normalizeList_In; eauto).
    rewrite Hnil in Hin. contradiction.
  - intros H. destruct (normalizeList values) as [|x l] eqn:Hl; [reflexivity|].
    assert (Hin : In x (normalizeList values)) by (rewrite Hl; now left).
    apply normalizeList_In in Hin as [Hne (v & Hv & ->)]. now apply H in Hv.
Qed.

(** The gate's verdict on a batch, name by name. *)
Lemma evaluateToolExecution_names e toolNames channelHint :
  allowed (evaluateToolExecution e toolNames channelHint) = true
  <-> (forall v, In v toolNames -> normal_name v = "")
      \/ (let rules := resolveRules e channelHint in
          allowlist_rule (mode rules) (allowActions rules) (denyActions rules) "tool.execute"
          = true
          /\ forall v, In v toolNames -> normal_name v <> "" ->
                       passes rules (normal_name v) = true).
Proof.
  rewrite evaluateToolExecution_allowed, <- normalizeList_nil. cbv zeta.
  rewrite <- forallb_normalizeList.
  destruct (normalizeList toolNames) as [|t ts] eqn:Hl.
  - split; auto.
  - rewrite andb_true_iff. split; [auto|]. intros [Hnil|H]; [discriminate | exact H].
Qed.

(** X11. The gate allows a batch of tool names exactly when it allows each
    part of it: the verdict on [a ++ b] is the conjunction of the verdicts
    on [a] and on [b]. So a batch is allowed exactly when every single name
    of it is; names that are blank once trimmed count for nothing. *)
Theorem evaluateToolExecution_batch (e : CapabilityPolicyEngine) (a b : list string)
    (channelHint : string) :
  allowed (evaluateToolExecution e (a ++ b) channelHint)
  = allowed (evaluateToolExecution e a channelHint)
    && allowed (evaluateToolExecution e b channelHint)
  /\ (allowed (evaluateToolExecution e a channelHint) = true
      <-> forall v, In v a -> allowed (evaluateToolExecution e [v] channelHint) = true).
Proof.
  split.
  - apply eq_true_iff_eq. rewrite andb_true_iff, !evaluateToolExecution_names. cbv zeta.
    set (rules := resolveRules e channelHint).
    set (action := allowlist_rule _ _ _ "tool.execute").
    split.
    + intros [Hnil|[Ha Hall]].
      * split; left; intros v Hv; apply Hnil, in_or_app; auto.
      * split; right; (split; [assumption|]); intros v Hv; apply Hall, in_or_app; auto.
    + intros [[Hnil|[Ha Hall]] [Hnil'|[Ha' Hall']]].
      * left. intros v Hv. apply in_app_or in Hv as [Hv|Hv]; auto.
      * right. split; [assumption|]. intros v Hv Hne.
        apply in_app_or in Hv as [Hv|Hv]; [now apply Hnil in Hv | auto].
      * right. split; [assumption|]. intros v Hv Hne.
        apply in_app_or in Hv as [Hv|Hv]; [auto | now apply Hnil' in Hv].
      * right. split; [assumption|]. intros v Hv Hne.
        apply in_app_or in Hv as [Hv|Hv]; auto.
  - rewrite evaluateToolExecution_names. cbv zeta.
    set (rules := resolveRules e channelHint).
    set (action := allowlist_rule _ _ _ "tool.execute").
    split.
    + intros H v Hv. apply evaluateToolExecution_names. cbv zeta.
      fold rules. fold action.
      destruct H as [Hnil|[Ha Hall]].
      * left. intros w [<-|[]]. auto.
      * right. split; [assumption|]. intros w [<-|[]]. auto.
    + intros H.
      destruct (existsb (fun v => negb (String.eqb (normal_name v) "")) a) eqn:Hex.
      2: { left. intros v Hv. apply String.eqb_eq, negb_false_iff.
           destruct (negb _) eqn:Hv'; [|reflexivity].
           assert (existsb (fun v => negb (String.eqb (normal_name v) "")) a = true);
             [|congruence].
           apply existsb_exists. eauto. }
      * right. apply existsb_exists in Hex as (v0 & Hv0 & Hne0).
        apply negb_true_iff, String.eqb_neq in Hne0.
        split.
        -- specialize (H v0 Hv0). apply evaluateToolExecution_names in H. cbv zeta in H.
           destruct H as [Hnil|[Ha _]]; [|exact Ha].
           exfalso. apply Hne0, Hnil. now left.
        -- intros v Hv Hne. specialize (H v Hv).
           apply evaluateToolExecution_names in H. cbv zeta in H.
           destruct H as [Hnil|[_ Hall]]; [exfalso; apply Hne, Hnil; now left|].
           apply Hall; [now left | assumption].
Qed.

(** *** The signed catalog *)

Import KeyringChecks.

Lemma verifyWithAnyKey_valid text signatureHex keyring :
  fst (verifyWithAnyKey text signatureHex keyring) = true
  <-> exists entry, In entry (keys keyring)
                    /\ toLowerCase (trim signatureHex) = hmacSha256Hex (snd entry) text.
Proof.
  unfold verifyWithAnyKey. set (s := toLowerCase (trim signatureHex)).
  destruct (is_hex64 s) eqn:Hs; cbn [negb].
  - destruct (List.find _ (keys keyring)) as [entry|] eqn:Hfind; cbn [fst].
    + split; [|reflexivity]. intros _. apply List.find_some in Hfind as [Hin Ht].
      exists entry. split; [assumption|]. symmetry.
      apply constantTimeHexEquals_hex64 in Ht; [assumption | apply hmacSha256Hex_hex64 |
                                                assumption].
    + split; [discriminate|]. intros (entry & Hin & Hsig).
      apply (List.find_none _ _ Hfind) in Hin. cbv beta in Hin.
      rewrite <- Hsig, constantTimeHexEquals_refl in Hin by assumption. discriminate.
  - cbn [fst]. split; [discriminate|]. intros (entry & _ & Hsig).
    rewrite Hsig, hmacSha256Hex_hex64 in Hs. discriminate.
Qed.

Definition returns {A} (o : outcome A) : Prop := exists a, o = Returned a.

Lemma load_returns parsed signingKey keyring :
  returns (verifyCatalogSignature (canonicalText parsed) parsed signingKey keyring)
  <-> returns (match verifyCatalogSignature (canonicalText parsed) parsed signingKey keyring with
               | Returned (signingMode, activeKid, keyCount) =>
                   Returned {| r_version := version_text parsed;
                               r_defaults := normalizeRules (defaults_file parsed);
                               r_channels := channel_table (fun r => r)
                                               (default [] (channels_file parsed));
                               fingerprint := sha256Hex (canonicalText parsed);
                               signing_mode := signingMode;
                               keyring_active_kid := activeKid;
                               keyring_key_count := keyCount |}
               | Refused message => Refused message
               | KeyTypeError => KeyTypeError
               end).
Proof.
  destruct (verifyCatalogSignature _ _ _ _) as [[[m k] n]| |]; unfold returns;
    split; intros [x Hx]; try discriminate; eauto.
Qed.

(** What a load returns does not depend on the signature. *)
Lemma loadSignedCapabilityCatalog_result (parsed : CapabilityCatalogFile) (signingKey : string) :
  forall file result,
    loadSignedCapabilityCatalog parsed signingKey file = Returned result ->
    r_version result = version_text parsed
    /\ r_defaults result = normalizeRules (defaults_file parsed)
    /\ r_channels result = channel_table (fun r => r) (default [] (channels_file parsed))
    /\ fingerprint result = sha256Hex (canonicalText parsed)
    /\ (signing_mode result = SigningNone <-> file = None /\ trim signingKey = "").
Proof.
  intros file result. unfold loadSignedCapabilityCatalog.
  assert (Hfinish : forall keyring',
            match verifyCatalogSignature (canonicalText parsed) parsed signingKey keyring' with
            | Returned (signingMode, activeKid, keyCount) =>
                Returned {| r_version := version_text parsed;
                            r_defaults := normalizeRules (defaults_file parsed);
                            r_channels := channel_table (fun r => r)
                                            (default [] (channels_file parsed));
                            fingerprint := sha256Hex (canonicalText parsed);
                            signing_mode := signingMode;
                            keyring_active_kid := activeKid;
                            keyring_key_count := keyCount |}
            | Refused message => Refused message
            | KeyTypeError => KeyTypeError
            end = Returned result ->
            r_version result = version_text parsed
            /\ r_defaults result = normalizeRules (defaults_file parsed)
            /\ r_channels result
               = channel_table (fun r => r) (default [] (channels_file parsed))
            /\ fingerprint result = sha256Hex (canonicalText parsed)
            /\ (signing_mode result = SigningNone
                <-> keyring' = None /\ trim signingKey = "")).
  { intros keyring'.
    destruct (verifyCatalogSignature _ _ _ keyring') as [[[m k] n]| |] eqn:Hv;
      try discriminate.
    intros [= <-]. cbn [r_version r_defaults r_channels fingerprint signing_mode].
    do 4 (split; [reflexivity|]).
    unfold verifyCatalogSignature in Hv. destruct keyring' as [kr|].
    - assert (m = SigningKeyring) as ->.
      { destruct (signature_v2 parsed);
          [destruct (verifyWithKeyring _ _ _) as [[|]|]
          |destruct (negb _); [|destruct (fst _)]]; congruence. }
      split; [discriminate | intros [? _]; discriminate].
    - destruct (truthy (trim signingKey)) eqn:Ht; cbn [negb] in Hv.
      + assert (m = SigningStatic) as ->.
        { destruct (negb (is_hex64 _)); [|destruct (negb (String.eqb _ _))]; congruence. }
        split; [discriminate|]. intros [_ Hblank]. rewrite Hblank in Ht. discriminate.
      + injection Hv as <- _ _. split; [|reflexivity]. intros _.
        split; [reflexivity | now destruct (trim signingKey)]. }
  destruct file as [file|].
  + destruct (loadHmacKeyring file) as [kr|]; [|discriminate].
    intros H. destruct (Hfinish _ H) as (Hv & Hd & Hc & Hf & Hmode).
    do 4 (split; [assumption|]). split.
    * intros Hn. apply Hmode in Hn as [? _]. discriminate.
    * intros [? _]. discriminate.
  + intros H. destruct (Hfinish _ H) as (Hv & Hd & Hc & Hf & Hmode).
    do 4 (split; [assumption|]). rewrite Hmode. tauto.
Qed.

(** X12. Which catalogs [loadSignedCapabilityCatalog] accepts. With no
    keyring and a blank signing key, every catalog, signed or not. With no
    keyring and a signing key, exactly those whose [signature], trimmed and
    lowercased, is the HMAC-SHA256 of the canonical text under the trimmed
    key. With a keyring that loads, exactly those whose [signature_v2]
    [verifyWithKeyring] accepts or, when there is none, whose [signature]
    is the HMAC of the canonical text under one of the keys. What it then
    returns does not depend on the signature: the normalized rules, and the
    SHA-256 of the canonical text as fingerprint. *)
Theorem loadSignedCapabilityCatalog_accepts (parsed : CapabilityCatalogFile)
    (signingKey : string) (keyringFile : HmacKeyringFile) (keyring : HmacKeyring) :
  let text := canonicalText parsed in
  let given := toLowerCase (trim (default "" (signature parsed))) in
  (trim signingKey = "" -> returns (loadSignedCapabilityCatalog parsed signingKey None))
  /\ (trim signingKey <> "" ->
      (returns (loadSignedCapabilityCatalog parsed signingKey None)
       <-> given = hmacSha256Hex (trim signingKey) text))
  /\ (loadHmacKeyring keyringFile = Loaded keyring ->
      (returns (loadSignedCapabilityCatalog parsed signingKey (Some keyringFile))
       <-> match signature_v2 parsed with
           | Some v2 => verifyWithKeyring text v2 keyring = Some true
           | None => exists entry, In entry (keys keyring)
                                   /\ given = hmacSha256Hex (snd entry) text
           end))
  /\ forall file result,
       loadSignedCapabilityCatalog parsed signingKey file = Returned result ->
       r_version result = version_text parsed
       /\ r_defaults result = normalizeRules (defaults_file parsed)
       /\ r_channels result = channel_table (fun r => r) (default [] (channels_file parsed))
       /\ fingerprint result = sha256Hex text
       /\ (signing_mode result = SigningNone <-> file = None /\ trim signingKey = "").
Proof.
  cbv zeta. split; [|split; [|split]].
  - intros Hkey. unfold loadSignedCapabilityCatalog. apply load_returns.
    unfold verifyCatalogSignature. rewrite Hkey. cbn [truthy negb]. unfold returns. eauto.
  - intros Hkey. unfold loadSignedCapabilityCatalog. rewrite <- load_returns.
    unfold verifyCatalogSignature.
    apply ApprovalFacts.truthy_true in Hkey. rewrite Hkey. cbn [negb].
    set (given := toLowerCase _). set (expected := hmacSha256Hex _ _).
    destruct (is_hex64 given) eqn:Hhex; cbn [negb].
    + destruct (String.eqb_spec given expected) as [Heq|Hne]; cbn [negb]; unfold returns.
      * split; eauto.
      * split; [intros [x Hx]; discriminate | contradiction].
    + unfold returns. split; [intros [x Hx]; discriminate|].
      intros Heq. subst expected. rewrite Heq, hmacSha256Hex_hex64 in Hhex. discriminate.
  - intros Hload. unfold loadSignedCapabilityCatalog. rewrite Hload, <- load_returns.
    unfold verifyCatalogSignature.
    destruct (signature_v2 parsed) as [v2|].
    + destruct (verifyWithKeyring _ v2 keyring) as [[|]|]; unfold returns;
        split; try (intros [x Hx]; discriminate); try discriminate; eauto.
    + set (given := toLowerCase _).
      assert (Hvalid : fst (verifyWithAnyKey (canonicalText parsed) given keyring) = true
                       <-> exists entry, In entry (keys keyring)
                                         /\ given = hmacSha256Hex (snd entry)
                                                      (canonicalText parsed)).
      { rewrite verifyWithAnyKey_valid. subst given. now rewrite clean_role_idempotent. }
      rewrite <- Hvalid.
      destruct (truthy given) eqn:Ht; cbn [negb].
      * destruct (fst (verifyWithAnyKey _ given keyring)); unfold returns;
          split; try (intros [x Hx]; discriminate); try discriminate; eauto.
      * unfold returns. split; [intros [x Hx]; discriminate|].
        intros Hv. apply Hvalid in Hv as (entry & _ & Hsig).
        pose proof (hmacSha256Hex_hex64 (snd entry) (canonicalText parsed)) as Hhex.
        rewrite <- Hsig in Hhex. apply hex64_truthy in Hhex. congruence.
  - apply loadSignedCapabilityCatalog_result.
Qed.

Definition sample_catalog (sig : option string) : CapabilityCatalogFile :=
  {| version := None;
     defaults_file :=
       Some {| file_mode := Some "allow"; allow_tools := None;
               deny_tools := Some [" Shell "]; allow_actions := None; deny_actions := None |};
     channels_file :=
       Some [ (" Slack ",
               Some {| file_mode := Some "DENY"; allow_tools := Some ["read_file"];
                       deny_tools := None; allow_actions := Some ["tool.execute"];
                       deny_actions := None |}) ];
     signature := sig;
     signature_v2 := None |}.

(** A catalog signed with the static key loads, in any case of the hex
    digits; the same catalog with another signature, or none, is refused. *)
Example signed_catalog_runs :
  let good := hmacSha256Hex "static-key" (canonicalText (sample_catalog None)) in
  option_map signing_mode
    (match loadSignedCapabilityCatalog (sample_catalog (Some good)) " static-key " None with
     | Returned r => Some r | _ => None end) = Some SigningStatic
  /\ loadSignedCapabilityCatalog (sample_catalog (Some (sha256Hex "other"))) "static-key" None
     = Refused "Capability catalog signature mismatch."
  /\ loadSignedCapabilityCatalog (sample_catalog None) "static-key" None
     = Refused "Capability catalog signature missing or invalid format.".
Proof. vm_compute. repeat split. Qed.

(** *** The rules a channel gets *)

Lemma assign_get {A} key (v : A) o x :
  key <> "__proto__" ->
  Canonical.get x (assign key v o) = if String.eqb key x then Some v else Canonical.get x o.
Proof. intros Hne. exact (JsObjectFacts.set_get key v o x Hne). Qed.

Lemma assign_distinct {A} key (v : A) o :
  List.NoDup (map fst o) -> List.NoDup (map fst (assign key v o)).
Proof. apply JsObjectFacts.set_distinct. Qed.

Definition named (n : string) (entry : string * option CapabilityRuleFile) : bool :=
  String.eqb (toLowerCase (trim (fst entry))) n.

Lemma find_snoc {A} (p : A -> bool) l x :
  List.find p (l ++ [x])
  = match List.find p l with Some y => Some y | None => if p x then Some x else None end.
Proof. induction l as [|y l IH]; simpl; [reflexivity|]. now destruct (p y). Qed.

Definition table_step {A} (render : CapabilityRules -> A) (out : list (string * A))
    (entry : string * option CapabilityRuleFile) : list (string * A) :=
  let channel := toLowerCase (trim (fst entry)) in
  if truthy channel then assign channel (render (normalizeRules (snd entry))) out else out.

Lemma table_step_get {A} (render : CapabilityRules -> A) out entry n :
  Canonical.get n (table_step render out entry)
  = if named n entry && truthy n && negb (String.eqb n "__proto__")
    then Some (render (normalizeRules (snd entry)))
    else Canonical.get n out.
Proof.
  unfold table_step, named. cbv zeta. set (channel := toLowerCase (trim (fst entry))).
  destruct (String.eqb_spec channel n) as [Heq|Hne]; cbn [andb].
  - rewrite <- Heq. destruct (truthy channel); cbn [andb]; [|reflexivity].
    destruct (String.eqb_spec channel "__proto__") as [Hp|Hp]; cbn [negb].
    + unfold assign, JsObject.set. now rewrite Hp.
    + rewrite assign_get by assumption. now rewrite String.eqb_refl.
  - destruct (truthy channel); [|reflexivity].
    destruct (String.eqb_spec channel "__proto__") as [Hp|Hp].
    + unfold assign, JsObject.set. now rewrite Hp.
    + rewrite assign_get by assumption. apply String.eqb_neq in Hne. now rewrite Hne.
Qed.

Lemma fold_table_get {A} (render : CapabilityRules -> A) entries acc n :
  Canonical.get n (fold_left (table_step render) entries acc)
  = match List.find (named n) (rev entries) with
    | Some entry =>
        if truthy n && negb (String.eqb n "__proto__")
        then Some (render (normalizeRules (snd entry)))
        else Canonical.get n acc
    | None => Canonical.get n acc
    end.
Proof.
  revert acc. induction entries as [|entry entries IH]; intros acc; [reflexivity|].
  cbn [fold_left rev]. rewrite IH, find_snoc, table_step_get.
  destruct (List.find (named n) (rev entries)) as [found|].
  - destruct (truthy n && negb (String.eqb n "__proto__")) eqn:Hok; [reflexivity|].
    rewrite <- andb_assoc, Hok, andb_false_r. reflexivity.
  - destruct (named n entry); cbn [andb]; reflexivity.
Qed.

Lemma fold_table_distinct {A} (render : CapabilityRules -> A) entries acc :
  List.NoDup (map fst acc) -> List.NoDup (map fst (fold_left (table_step render) entries acc)).
Proof.
  revert acc. induction entries as [|entry entries IH]; intros acc Hnd; [assumption|].
  cbn [fold_left]. apply IH. unfold table_step. cbv zeta.
  destruct (truthy _); [now apply assign_distinct | assumption].
Qed.

Lemma map_of_entries {A} (l : list (string * A)) (m : gmap string A) k :
  List.NoDup (map fst l) ->
  fold_left (fun m entry => <[fst entry := snd entry]> m) l m !! k
  = match Canonical.get k l with Some v => Some v | None => m !! k end.
Proof.
  revert m. induction l as [|[key v] l IH]; intros m Hnd; [reflexivity|].
  inversion Hnd as [|? ? Hkey Hl]; subst. cbn [fold_left fst snd Canonical.get].
  rewrite IH by assumption.
  destruct (String.eqb_spec key k) as [->|Hne].
  - destruct (Canonical.get k l) as [w|] eqn:Hget.
    + exfalso. apply Hkey. apply CanonicalFacts.get_In in Hget.
      apply in_map_iff. now exists (k, w).
    + apply lookup_insert_eq.
  - destruct (Canonical.get k l); [reflexivity|]. now apply lookup_insert_ne.
Qed.

(** X13. The rules a loaded catalog gives a channel. A channel name is
    trimmed and lowercased, in the catalog and in the request; a request
    for a name the catalog configures gets the normalized rules of the last
    entry with that name, and those only (nothing is merged with the
    defaults); a blank name, a name the catalog does not configure and the
    name [__proto__] get the normalized defaults. [evaluateChannelAction]
    decides by those rules. *)
Theorem catalog_channel_rules (parsed : CapabilityCatalogFile) (signingKey : string)
    (file : option HmacKeyringFile) (result : CapabilityCatalogLoadResult)
    (hint : string) :
  loadSignedCapabilityCatalog parsed signingKey file = Returned result ->
  let engine := updateRules result in
  let n := toLowerCase (trim hint) in
  let rules :=
    match List.find (fun entry => String.eqb (toLowerCase (trim (fst entry))) n)
            (rev (default [] (channels_file parsed))) with
    | Some entry =>
        if truthy n && negb (String.eqb n "__proto__")
        then normalizeRules (snd entry)
        else normalizeRules (defaults_file parsed)
    | None => normalizeRules (defaults_file parsed)
    end in
  resolveRules engine hint = rules
  /\ forall action,
       evaluateChannelAction engine action hint
       = decisionFromRule (action_name action) (mode rules) (allowActions rules)
           (denyActions rules) VAction.
Proof.
  intros Hload. cbv zeta.
  destruct (loadSignedCapabilityCatalog_result parsed signingKey file result Hload)
    as (_ & Hdefaults & Hchannels & _).
  set (n := toLowerCase (trim hint)).
  assert (Hresolve : resolveRules (updateRules result) hint
                     = match List.find (named n) (rev (default [] (channels_file parsed))) with
                       | Some entry =>
                           if truthy n && negb (String.eqb n "__proto__")
                           then normalizeRules (snd entry)
                           else normalizeRules (defaults_file parsed)
                       | None => normalizeRules (defaults_file parsed)
                       end).
  { unfold resolveRules, updateRules. cbn [defaults channels]. fold n.
    rewrite Hdefaults, Hchannels.
    destruct (truthy n) eqn:Ht; cbn [andb].
    - rewrite map_of_entries by (apply fold_table_distinct; constructor).
      unfold channel_table. fold (@table_step CapabilityRules (fun r => r)).
      rewrite (fold_table_get (fun r => r)), Ht. cbn [andb Canonical.get].
      rewrite lookup_empty.
      destruct (List.find _ _); [destruct (negb _)|]; reflexivity.
    - now destruct (List.find _ _). }
  split; [exact Hresolve|].
  intros action. unfold evaluateChannelAction. cbv zeta.
  replace (resolveRules (updateRules result) (toLowerCase (trim hint)))
    with (resolveRules (updateRules result) hint); [now rewrite Hresolve|].
  unfold resolveRules. now rewrite clean_role_idempotent.
Qed.

Definition sample_result : CapabilityCatalogLoadResult :=
  {| r_version := "v1";
     r_defaults := normalizeRules (defaults_file (sample_catalog None));
     r_channels := channel_table (fun r => r) (default [] (channels_file (sample_catalog None)));
     fingerprint := sha256Hex (canonicalText (sample_catalog None));
     signing_mode := SigningNone;
     keyring_active_kid := None;
     keyring_key_count := 0 |}.

Lemma catalog_channel_rules_slack :
  let engine := updateRules sample_result in
  let n := toLowerCase (trim "SLACK ") in
  let rules :=
    match List.find (fun entry => String.eqb (toLowerCase (trim (fst entry))) n)
            (rev (default [] (channels_file (sample_catalog None)))) with
    | Some entry =>
        if truthy n && negb (String.eqb n "__proto__")
        then normalizeRules (snd entry)
        else normalizeRules (defaults_file (sample_catalog None))
    | None => normalizeRules (defaults_file (sample_catalog None))
    end in
  resolveRules engine "SLACK " = rules
  /\ forall action,
       evaluateChannelAction engine action "SLACK "
       = decisionFromRule (action_name action) (mode rules) (allowActions rules)
           (denyActions rules) VAction.
Proof.
  apply (catalog_channel_rules (sample_catalog None) "" None sample_result "SLACK ").
  reflexivity.
Defined.

(** On the [slack] channel of the sample catalog only [tool.execute] is an
    allowed action and [read_file] an allowed tool; elsewhere the defaults
    deny [shell] alone. *)
Example sample_catalog_runs :
  let engine := updateRules sample_result in
  map (fun channel => allowed (evaluateChannelAction engine ChannelSend channel))
    ["slack"; " Slack"; "email"; ""]
  = [false; false; true; true]
  /\ map (fun batch => allowed (evaluateToolExecution engine (fst batch) (snd batch)))
       [ (["read_file"], "SLACK"); (["shell"], "slack"); (["write_file"], "slack");
         (["write_file"], "email"); (["SHELL "], "email"); ([" "], "slack") ]
     = [true; false; false; true; false; true].
Proof. vm_compute. split; reflexivity. Qed.

End CapabilityCatalogFacts.

(** ** Policy engine: what the decision depends on *)

Module PolicyChecks.
Import Policy PolicyFacts JsStringFacts TrimFacts.

(** The decisions in ascending order of severity. *)
Definition severity (d : PolicyDecisionType) : nat :=
  match d with Allow => 0 | RequireApproval => 1 | Block => 2 end.

Definition severity_of (verdict : PolicyDecisionType * RiskClass) : nat := severity (fst verdict).

Lemma evaluate_verdict e input :
  decision (evaluate e input) = fst (tie_break e input)
  /\ riskClass (evaluate e input) = snd (tie_break e input)
  /\ reason (evaluate e input)
     = match fst (tie_break e input) with
       | Block => "Critical destructive pattern detected."
       | RequireApproval => "High-risk action requires approval."
       | Allow => "No high-risk policy signals detected."
       end
  /\ matchedSignals (evaluate e input) = collect_signals e input.
Proof.
  unfold evaluate, tie_break.
  rewrite (hasCritical_spec e input), (hasHighRisk_spec e input).
  destruct (body_has_critical e input); [|destruct (high_risk_matched e input)];
    repeat split.
Qed.

(** The decision, the risk class and the reason depend on the path,
    the method, the body and the tool names only: the model, the modality
    and the [hasToolIntent] flag change nothing but the modality signal in
    [matchedSignals]. *)
Theorem evaluate_ignores_model (e : PolicyEngine) (input input' : PolicyInput) :
  path input' = path input ->
  method input' = method input ->
  body input' = body input ->
  toolNames (intent input') = toolNames (intent input) ->
  decision (evaluate e input') = decision (evaluate e input)
  /\ riskClass (evaluate e input') = riskClass (evaluate e input)
  /\ reason (evaluate e input') = reason (evaluate e input)
  /\ (forall s, ~ startsWith s "modality:" = true ->
        In s (matchedSignals (evaluate e input')) <-> In s (matchedSignals (evaluate e input)))
  /\ (modality input' = modality input ->
      matchedSignals (evaluate e input') = matchedSignals (evaluate e input)).
Proof.
  intros Hpath Hmethod Hbody Htools.
  destruct (evaluate_verdict e input) as (Hd & Hr & Hreason & Hs).
  destruct (evaluate_verdict e input') as (Hd' & Hr' & Hreason' & Hs').
  assert (Htie : tie_break e input' = tie_break e input).
  { unfold tie_break, body_has_critical, high_risk_matched.
    now rewrite Hpath, Hmethod, Hbody, Htools. }
  rewrite Hd, Hd', Hr, Hr', Hreason, Hreason', Hs, Hs', Htie.
  do 3 (split; [reflexivity|]). unfold collect_signals.
  rewrite Hpath, Hmethod, Hbody, Htools. split.
  - intros s Hs0. rewrite !app_assoc, !(in_app_iff _ (modality_signals _)).
    assert (Hm : forall m, ~ In s (modality_signals m)).
    { intros m Hin. apply Hs0. destruct m; simpl in Hin; try contradiction;
        destruct Hin as [<-|[]]; reflexivity. }
    split; (intros [H|H]; [now left | now apply Hm in H]).
  - now intros ->.
Qed.

Definition with_model (m : string) (kind : ModelModality) (flag : bool) (input : PolicyInput)
    : PolicyInput :=
  {| path := path input; method := method input; body := body input; model := m;
     modality := kind;
     intent := {| hasToolIntent := flag; toolNames := toolNames (intent input) |} |}.

Lemma evaluate_ignores_model_vision :
  let input := sample_input (Js.JObj [("input", Js.JStr "deploy to production")]) in
  let input' := with_model "vision-large" Vision true input in
  decision (evaluate default_engine input') = decision (evaluate default_engine input)
  /\ riskClass (evaluate default_engine input') = riskClass (evaluate default_engine input)
  /\ reason (evaluate default_engine input') = reason (evaluate default_engine input)
  /\ (forall s, ~ startsWith s "modality:" = true ->
        In s (matchedSignals (evaluate default_engine input'))
        <-> In s (matchedSignals (evaluate default_engine input)))
  /\ (modality input' = modality input ->
      matchedSignals (evaluate default_engine input')
      = matchedSignals (evaluate default_engine input)).
Proof.
  apply (evaluate_ignores_model default_engine
           (sample_input (Js.JObj [("input", Js.JStr "deploy to production")]))
           (with_model "vision-large" Vision true
              (sample_input (Js.JObj [("input", Js.JStr "deploy to production")]))));
    reflexivity.
Defined.

Lemma existsb_incl {A} (p : A -> bool) (l l' : list A) :
  (forall x, In x l -> In x l') -> existsb p l = true -> existsb p l' = true.
Proof.
  intros Hincl H. apply existsb_exists in H as (x & Hx & Hp).
  apply existsb_exists. exists x. auto.
Qed.

Lemma set_has_incl (s s' : list string) x :
  (forall y, In y s -> In y s') -> set_has s x = true -> set_has s' x = true.
Proof. intros Hincl H. apply set_has_In. apply set_has_In in H. auto. Qed.

(** X14. Adding tool names to a request, or rules to the engine, never
    lowers the decision: with the same path, method and body, more tool
    names and larger rule tables give a decision at least as severe. *)
Theorem evaluate_monotone (e e' : PolicyEngine) (input input' : PolicyInput) :
  path input' = path input ->
  method input' = method input ->
  body input' = body input ->
  (forall name, In name (toolNames (intent input)) -> In name (toolNames (intent input'))) ->
  (forall t, In t (highRiskTools e) -> In t (highRiskTools e')) ->
  (forall p, In p (criticalPatterns e) -> In p (criticalPatterns e')) ->
  (forall p, In p (highRiskPatterns e) -> In p (highRiskPatterns e')) ->
  (severity (decision (evaluate e input)) <= severity (decision (evaluate e' input')))%nat.
Proof.
  intros Hpath Hmethod Hbody Htools Ht Hc Hp.
  rewrite (proj1 (evaluate_verdict e input)), (proj1 (evaluate_verdict e' input')).
  unfold tie_break.
  destruct (body_has_critical e input) eqn:Hcrit.
  - assert (body_has_critical e' input' = true) as ->; [|reflexivity].
    unfold body_has_critical in *. rewrite Hbody. now apply (existsb_incl _ _ _ Hc).
  - destruct (body_has_critical e' input'); [destruct (high_risk_matched e input); simpl; lia|].
    destruct (high_risk_matched e input) eqn:Hhigh; [|simpl; lia].
    assert (high_risk_matched e' input' = true) as ->; [|reflexivity].
    unfold high_risk_matched in *. rewrite Hpath, Hmethod, Hbody.
    apply orb_true_iff in Hhigh as [Hhigh|Hhigh]; [|now rewrite Hhigh, orb_true_r].
    apply orb_true_iff in Hhigh as [Hhigh|Hhigh].
    + apply existsb_exists in Hhigh as (name & Hname & Hhas).
      assert (existsb (fun name => set_has (highRiskTools e') (toLowerCase name))
                (toolNames (intent input')) = true) as ->; [|reflexivity].
      apply existsb_exists. exists name. split; [auto|]. now apply (set_has_incl _ _ _ Ht).
    + rewrite (existsb_incl _ _ _ Hp Hhigh). now rewrite orb_true_r.
Qed.

Definition with_tools (names : list string) (input : PolicyInput) : PolicyInput :=
  {| path := path input; method := method input; body := body input; model := model input;
     modality := modality input;
     intent := {| hasToolIntent := hasToolIntent (intent input); toolNames := names |} |}.

Lemma evaluate_monotone_shell :
  (severity (decision (evaluate default_engine (sample_input Js.JNull)))
   <= severity (decision (evaluate default_engine
                            (with_tools ["Shell"] (sample_input Js.JNull)))))%nat.
Proof.
  apply (evaluate_monotone default_engine default_engine (sample_input Js.JNull)
           (with_tools ["Shell"] (sample_input Js.JNull))); try reflexivity; auto.
  intros name [].
Defined.

(** *** The rule tables *)

Lemma normalize_In x values :
  In x (normalize values) <-> x <> "" /\ exists v, In v values /\ x = toLowerCase (trim v).
Proof.
  unfold normalize. rewrite set_of_list_In.
  rewrite <- list_elem_of_In, list_elem_of_filter, list_elem_of_In, in_map_iff.
  rewrite ApprovalFacts.truthy_true. split.
  - intros [Hne (v & <- & Hv)]. split; [assumption|]. now exists v.
  - intros [Hne (v & Hv & ->)]. split; [assumption|]. now exists v.
Qed.

(** The tables [updateRules] builds hold the configured entries
    trimmed and lowercased, without the blank ones and without repetitions
    (the defaults where an option is missing). So no table holds the empty
    pattern, and a requested tool name is high-risk exactly when, lowercased,
    it is a configured name trimmed and lowercased: the case of either does
    not matter, nor white space around the configured name, while white
    space around the requested name does. *)
Theorem updateRules_tables (options : PolicyEngineOptions) :
  let e := updateRules options in
  let configured given fallback (x : string) :=
    x <> "" /\ exists v, In v (default fallback given) /\ x = toLowerCase (trim v) in
  List.NoDup (highRiskTools e) /\ List.NoDup (criticalPatterns e)
  /\ List.NoDup (highRiskPatterns e)
  /\ (forall x, In x (highRiskTools e)
                <-> configured (opt_highRiskTools options) DEFAULT_HIGH_RISK_TOOLS x)
  /\ (forall x, In x (criticalPatterns e)
                <-> configured (opt_criticalPatterns options) DEFAULT_CRITICAL_PATTERNS x)
  /\ (forall x, In x (highRiskPatterns e)
                <-> configured (opt_highRiskPatterns options) DEFAULT_HIGH_RISK_PATTERNS x)
  /\ forall input name,
       In name (toolNames (intent input)) ->
       configured (opt_highRiskTools options) DEFAULT_HIGH_RISK_TOOLS (toLowerCase name) ->
       decision (evaluate e input) <> Allow
       /\ In ("high-risk-tool:" +:+ toLowerCase name) (matchedSignals (evaluate e input)).
Proof.
  cbv zeta. unfold updateRules. cbn [highRiskTools criticalPatterns highRiskPatterns].
  split; [apply set_of_list_NoDup|]. split; [apply set_of_list_NoDup|].
  split; [apply set_of_list_NoDup|].
  split; [intros x; apply normalize_In|]. split; [intros x; apply normalize_In|].
  split; [intros x; apply normalize_In|].
  intros input name Hname Hconf.
  set (e := {| highRiskTools := _ |}).
  assert (Hhas : set_has (highRiskTools e) (toLowerCase name) = true)
    by (apply set_has_In; cbn [highRiskTools e]; now apply normalize_In).
  destruct (evaluate_verdict e input) as (Hd & _ & _ & Hs). rewrite Hd, Hs. split.
  - unfold tie_break. destruct (body_has_critical e input); [discriminate|].
    assert (high_risk_matched e input = true) as ->; [|discriminate].
    unfold high_risk_matched.
    assert (existsb (fun name => set_has (highRiskTools e) (toLowerCase name))
              (toolNames (intent input)) = true) as ->; [|reflexivity].
    apply existsb_exists. eauto.
  - apply collect_signals_matched. now constructor.
Qed.

(** The default engine asks for approval of [Shell] and [TERMINAL], and
    lets [ shell] with a leading space pass. *)
Example tool_name_case :
  map (fun name => decision (evaluate default_engine (with_tools [name] (sample_input Js.JNull))))
    ["Shell"; "TERMINAL"; " shell"; "shell "; "read_file"]
  = [RequireApproval; RequireApproval; Allow; Allow; Allow].
Proof. vm_compute. reflexivity. Qed.

End PolicyChecks.

(** ** The signed policy catalog ([loadSignedPolicyCatalog]) *)

Module PolicyCatalog.
Import Js Sha256 Keyring Policy.

(** The parsed catalog file; a member may be missing. *)
Record PolicyCatalogFile := {
  version : option string;
  high_risk_tools : option (list string);
  critical_patterns : option (list string);
  high_risk_patterns : option (list string);
  signature : option string;
  signature_v2 : option HmacSignatureV2
}.

Record PolicyCatalogLoadResult := {
  policyOptions : PolicyEngineOptions;
  fingerprint : string
}.

(** [values.map((value) => value.trim()).filter(Boolean)] *)
Definition normalize (values : list string) : list string :=
  List.filter truthy (map trim values).

Definition strings (l : list string) : value := JArr (map JStr l).

Definition canonicalPayload (parsed : PolicyCatalogFile) : value :=
  JObj [ ("version", match version parsed with Some v => JStr v | None => JUndefined end);
         ("high_risk_tools", strings (normalize (default [] (high_risk_tools parsed))));
         ("critical_patterns", strings (normalize (default [] (critical_patterns parsed))));
         ("high_risk_patterns", strings (normalize (default [] (high_risk_patterns parsed)))) ].

Definition canonicalText (parsed : PolicyCatalogFile) : string :=
  default "undefined" (Canonical.stableStringify (canonicalPayload parsed)).

(** [!parsed.signature || !parsed.signature.trim()] *)
Definition signature_missing (parsed : PolicyCatalogFile) : bool :=
  match signature parsed with
  | Some s => negb (truthy s) || negb (truthy (trim s))
  | None => true
  end.

(** A load returns, throws an [Error] with a message, or fails inside
    [createHmac] on a key that is no string. *)
Inductive outcome (A : Type) := Returned (a : A) | Refused (message : string) | KeyTypeError.
Arguments Returned {A} a.
Arguments Refused {A} message.
Arguments KeyTypeError {A}.

(** [loadSignedPolicyCatalog] on the parsed catalog file and the parsed
    keyring file, if a keyring path is configured. *)
Definition loadSignedPolicyCatalog (parsed : PolicyCatalogFile) (signingKey : string)
    (keyringFile : option HmacKeyringFile) : outcome PolicyCatalogLoadResult :=
  let text := canonicalText parsed in
  let accepted :=
    Returned
      {| policyOptions :=
           {| opt_highRiskTools := Some (normalize (default [] (high_risk_tools parsed)));
              opt_criticalPatterns := Some (normalize (default [] (critical_patterns parsed)));
              opt_highRiskPatterns := Some (normalize (default [] (high_risk_patterns parsed))) |};
         fingerprint := sha256Hex text |} in
  match keyringFile with
  | Some file =>
      match loadHmacKeyring file with
      | LoadError message => Refused message
      | Loaded keyring =>
          match signature_v2 parsed with
          | Some v2 =>
              match verifyWithKeyring text v2 keyring with
              | Some true => accepted
              | Some false => Refused "Policy catalog signature_v2 mismatch."
              | None => KeyTypeError
              end
          | None =>
              if signature_missing parsed
              then Refused "Policy catalog signature missing for keyring verification."
              else if fst (verifyWithAnyKey text (default "" (signature parsed)) keyring)
              then accepted
              else Refused "Policy catalog legacy signature mismatch under keyring."
          end
      end
  | None =>
      if signature_missing parsed then Refused "Policy catalog signature missing."
      else if negb (bool_decide (Some (hmacSha256Hex signingKey text) = signature parsed))
      then Refused "Policy catalog signature mismatch."
      else accepted
  end.

End PolicyCatalog.

Module PolicyCatalogFacts.
Import Js Sha256 Keyring Policy PolicyCatalog TrimFacts KeyringFacts JsStringFacts.

Definition returns {A} (o : outcome A) : Prop := exists a, o = Returned a.

Lemma normalize_twice values :
  List.filter truthy (map (fun v => toLowerCase (trim v)) (PolicyCatalog.normalize values))
  = List.filter truthy (map (fun v => toLowerCase (trim v)) values).
Proof.
  unfold PolicyCatalog.normalize. induction values as [|v values IH]; [reflexivity|].
  cbn [map List.filter]. rewrite truthy_lower.
  destruct (truthy (trim v)) eqn:Ht; cbn [map List.filter]; rewrite ?trim_idempotent, ?IH.
  - now rewrite truthy_lower, Ht.
  - reflexivity.
Qed.

Lemma filter_truthy (l : list string) : filter (fun v => truthy v = true) l = List.filter truthy l.
Proof.
  induction l as [|v l IH]; [reflexivity|].
  cbn [List.filter]. rewrite filter_cons. destruct (truthy v) eqn:Ht.
  - rewrite decide_True by reflexivity. now rewrite IH.
  - rewrite decide_False by discriminate. exact IH.
Qed.

Lemma policy_normalize_twice values :
  Policy.normalize (PolicyCatalog.normalize values) = Policy.normalize values.
Proof. unfold Policy.normalize. now rewrite !filter_truthy, normalize_twice. Qed.

Lemma signature_present parsed :
  signature_missing parsed = false
  <-> exists s, signature parsed = Some s /\ trim s <> "".
Proof.
  unfold signature_missing. destruct (signature parsed) as [s|].
  - rewrite orb_false_iff, !negb_false_iff, !ApprovalFacts.truthy_true. split.
    + intros [_ Ht]. eauto.
    + intros (s' & [= <-] & Ht). split; [|assumption]. intros ->. now apply Ht.
  - split; [discriminate | intros (s & Hs & _); discriminate].
Qed.

Lemma hex64_trim s : is_hex64 s = true -> trim s = s /\ s <> "".
Proof.
  intros H. split.
  - apply trim_no_space. apply hex64_spec in H as [_ H].
    revert H. apply JsonTextFacts.all_impl. intros c Hc.
    now rewrite (proj1 (lower_hex_plain c Hc)).
  - apply ApprovalFacts.truthy_true. now apply hex64_truthy.
Qed.

Lemma verifyWithAnyKey_accepts text signatureHex keyring :
  fst (verifyWithAnyKey text signatureHex keyring) = true
  <-> exists entry, In entry (keys keyring)
                    /\ toLowerCase (trim signatureHex) = hmacSha256Hex (snd entry) text.
Proof. apply CapabilityCatalogFacts.verifyWithAnyKey_valid. Qed.

(** X15. Which catalogs [loadSignedPolicyCatalog] accepts. With no keyring,
    exactly those whose [signature] is, character for character, the
    lowercase hex HMAC-SHA256 of the canonical text under the signing key as
    given (the empty key when none is configured): an unsigned catalog is
    never accepted. With a keyring that loads, exactly those whose
    [signature_v2] [verifyWithKeyring] accepts or, when there is none,
    whose [signature], trimmed and lowercased, is the HMAC under one of the
    keys. An engine built from the returned options holds the entries of the
    file trimmed and lowercased, and has an empty table (not the default
    one) where the file has no entries. *)
Theorem loadSignedPolicyCatalog_accepts (parsed : PolicyCatalogFile) (signingKey : string)
    (keyringFile : HmacKeyringFile) (keyring : HmacKeyring) :
  let text := canonicalText parsed in
  (returns (loadSignedPolicyCatalog parsed signingKey None)
   <-> signature parsed = Some (hmacSha256Hex signingKey text))
  /\ (loadHmacKeyring keyringFile = Loaded keyring ->
      (returns (loadSignedPolicyCatalog parsed signingKey (Some keyringFile))
       <-> match signature_v2 parsed with
           | Some v2 => verifyWithKeyring text v2 keyring = Some true
           | None =>
               exists s entry,
                 signature parsed = Some s /\ In entry (keys keyring)
                 /\ toLowerCase (trim s) = hmacSha256Hex (snd entry) text
           end))
  /\ forall file result,
       loadSignedPolicyCatalog parsed signingKey file = Returned result ->
       fingerprint result = sha256Hex text
       /\ updateRules (policyOptions result)
          = {| highRiskTools := Policy.normalize (default [] (high_risk_tools parsed));
               criticalPatterns := Policy.normalize (default [] (critical_patterns parsed));
               highRiskPatterns := Policy.normalize (default [] (high_risk_patterns parsed)) |}.
Proof.
  cbv zeta. split; [|split].
  - unfold loadSignedPolicyCatalog.
    destruct (signature_missing parsed) eqn:Hmissing.
    + unfold returns. split; [intros [x Hx]; discriminate|].
      intros Hsig. exfalso.
      assert (signature_missing parsed = false); [|congruence].
      apply signature_present. eexists. split; [exact Hsig|].
      destruct (hex64_trim _ (hmacSha256Hex_hex64 signingKey (canonicalText parsed)))
        as [-> Hne]. exact Hne.
    + destruct (bool_decide_reflect
                  (Some (hmacSha256Hex signingKey (canonicalText parsed)) = signature parsed))
        as [Heq|Hne]; cbn [negb]; unfold returns.
      * split; eauto.
      * split; [intros [x Hx]; discriminate | congruence].
  - intros Hload. unfold loadSignedPolicyCatalog. rewrite Hload.
    destruct (signature_v2 parsed) as [v2|].
    + destruct (verifyWithKeyring _ v2 keyring) as [[|]|]; unfold returns;
        split; try (intros [x Hx]; discriminate); try discriminate; eauto.
    + destruct (signature_missing parsed) eqn:Hmissing.
      * unfold returns. split; [intros [x Hx]; discriminate|].
        intros (s & entry & Hs & _ & Hsig). exfalso.
        assert (signature_missing parsed = false); [|congruence].
        apply signature_present. exists s. split; [assumption|].
        intros Hblank. rewrite Hblank in Hsig.
        pose proof (hmacSha256Hex_hex64 (snd entry) (canonicalText parsed)) as Hhex.
        rewrite <- Hsig in Hhex. discriminate.
      * apply signature_present in Hmissing as (s & Hs & Hne). rewrite Hs.
        cbn [default from_option]. unfold Datatypes.id.
        pose proof (verifyWithAnyKey_accepts (canonicalText parsed) s keyring) as Hvalid.
        destruct (fst (verifyWithAnyKey _ s keyring)); unfold returns.
        -- split; [|eauto]. intros _. destruct (proj1 Hvalid eq_refl) as (entry & Hin & Hsig).
           exists s, entry. auto.
        -- split; [intros [x Hx]; discriminate|].
           intros (s' & entry & [= <-] & Hin & Hsig).
           assert (false = true); [|discriminate]. apply Hvalid. eauto.
  - intros file result Hres.
    assert (Hresult : result
                      = {| policyOptions :=
                             {| opt_highRiskTools :=
                                  Some (PolicyCatalog.normalize
                                          (default [] (high_risk_tools parsed)));
                                opt_criticalPatterns :=
                                  Some (PolicyCatalog.normalize
                                          (default [] (critical_patterns parsed)));
                                opt_highRiskPatterns :=
                                  Some (PolicyCatalog.normalize
                                          (default [] (high_risk_patterns parsed))) |};
                           fingerprint := sha256Hex (canonicalText parsed) |}).
    { unfold loadSignedPolicyCatalog in Hres.
      destruct file as [file|].
      - destruct (loadHmacKeyring file); [|discriminate].
        destruct (signature_v2 parsed);
          [destruct (verifyWithKeyring _ _ _) as [[|]|]
          |destruct (signature_missing parsed); [|destruct (fst _)]]; congruence.
      - destruct (signature_missing parsed); [|destruct (negb _)]; congruence. }
    rewrite Hresult. cbn [fingerprint policyOptions]. split; [reflexivity|].
    unfold updateRules.
    cbn [opt_highRiskTools opt_criticalPatterns opt_highRiskPatterns default from_option].
    unfold Datatypes.id. now rewrite !policy_normalize_twice.
Qed.

Definition sample_policy (sig : option string) : PolicyCatalogFile :=
  {| version := Some "v1";
     high_risk_tools := Some [" Deploy "; ""];
     critical_patterns := None;
     high_risk_patterns := Some ["Prod"];
     signature := sig;
     signature_v2 := None |}.

(** The sample catalog is accepted with the exact HMAC, refused with the
    same digits behind a space or with a space before the key, and refused
    unsigned even when no key is configured, where the HMAC under the empty
    key is accepted. The engine it gives has no critical pattern. *)
Example signed_policy_runs :
  let good := hmacSha256Hex "static-key" (canonicalText (sample_policy None)) in
  let load sig key :=
    match loadSignedPolicyCatalog (sample_policy sig) key None with
    | Returned r => inl (updateRules (policyOptions r))
    | Refused message => inr message
    | KeyTypeError => inr "TypeError"
    end in
  load (Some good) "static-key"
  = inl {| highRiskTools := ["deploy"]; criticalPatterns := []; highRiskPatterns := ["prod"] |}
  /\ load (Some (" " +:+ good)) "static-key" = inr "Policy catalog signature mismatch."
  /\ load (Some good) " static-key" = inr "Policy catalog signature mismatch."
  /\ load None "" = inr "Policy catalog signature missing."
  /\ is_Some (match load (Some (hmacSha256Hex "" (canonicalText (sample_policy None)))) "" with
              | inl e => Some e | inr _ => None end).
Proof. vm_compute. repeat split. eauto. Qed.

End PolicyCatalogFacts.

(** ** Budget controller: accounting, suspension and resumption *)

Module BudgetCalls.
Import Double JsDate Budget.

(** A [CostRecord]: an estimate with the request path and an optional
    timestamp. *)
Record CostRecord := {
  cost : CostEstimate;
  requestPath : string;
  cost_timestamp : option string
}.

Definition resume (nowResumed nowUpdated : string) (resumedBy : string) (db : Db) : Db :=
  let row := budget_state db in
  {| budget_state :=
       {| suspended := 0; reason := None; triggered_at := triggered_at row;
          resumed_at := Some nowResumed; resumed_by := Some resumedBy;
          updated_at := nowUpdated |};
     cost_events := cost_events db |}.

Definition is_nan (x : double) : bool :=
  match x with S754_nan => true | _ => false end.

(** A call returns or throws; the table is the one it leaves. *)
Inductive ending := Done | Threw (message : string).

Record BudgetStatus := {
  st_suspended : bool;
  st_reason : option string;
  st_triggeredAt : option string;
  st_hourlyUsd : double;
  st_dailyUsd : double;
  st_hourlyUsdCap : double;
  st_dailyUsdCap : double
}.

Section Calls.
Variable large_toString : double -> string.
Variable policy : BudgetPolicy.

Definition exceeded_after (window : string) (used cap : double) : string :=
  window +:+ " compute budget exceeded after actual accounting ("
  +:+ toFixed large_toString 4 used +:+ " > " +:+ toFixed large_toString 4 cap +:+ " USD).".

(** [nowInsert] is the text of the clock read for a record without
    timestamp. NaN is bound as NULL, which the NOT NULL columns refuse; the
    row is inserted before the usage is read. *)
Definition recordActual (nowInsert : string) (nowHourly nowDaily : Z)
    (nowTriggered nowUpdated : string) (c : CostRecord) (db : Db) : Db * ending :=
  let stamp :=
    match cost_timestamp c with
    | Some t => if truthy t then t else nowInsert
    | None => nowInsert
    end in
  if is_nan (inputTokens (cost c)) then
    (db, Threw "NOT NULL constraint failed: cost_events.input_tokens")
  else if is_nan (outputTokens (cost c)) then
    (db, Threw "NOT NULL constraint failed: cost_events.output_tokens")
  else if is_nan (estimatedUsd (cost c)) then
    (db, Threw "NOT NULL constraint failed: cost_events.usd_cost")
  else
    let db :=
      {| budget_state := budget_state db;
         cost_events :=
           cost_events db
           ++ [ {| timestamp := stamp; event_model := model (cost c);
                   input_tokens := inputTokens (cost c);
                   output_tokens := outputTokens (cost c);
                   usd_cost := estimatedUsd (cost c);
                   request_path := requestPath c |} ] |} in
    match readUsage nowHourly nowDaily db with
    | None => (db, Threw "Invalid time value")
    | Some (hourlyUsd, dailyUsd) =>
        if gt hourlyUsd (hourlyUsdCap policy) then
          (suspend nowTriggered nowUpdated
             (exceeded_after "Hourly" hourlyUsd (hourlyUsdCap policy)) db, Done)
        else if gt dailyUsd (dailyUsdCap policy) then
          (suspend nowTriggered nowUpdated
             (exceeded_after "Daily" dailyUsd (dailyUsdCap policy)) db, Done)
        else (db, Done)
    end.

(** [readState().reason || "Budget controller is currently suspended."] *)
Definition stored_reason (db : Db) : string :=
  match reason (budget_state db) with
  | Some text => if truthy text then text else "Budget controller is currently suspended."
  | None => "Budget controller is currently suspended."
  end.

(** A call of [evaluateProjected] or [recordActual], with its readings of
    the clock. *)
Inductive call :=
| Projected (nowHourly nowDaily : Z) (nowTriggered nowUpdated : string)
    (estimate : CostEstimate)
| Actual (nowInsert : string) (nowHourly nowDaily : Z) (nowTriggered nowUpdated : string)
    (c : CostRecord).

Definition is_projected (c : call) : bool :=
  match c with Projected _ _ _ _ _ => true | Actual _ _ _ _ _ _ => false end.

(** The tables a call leaves; an evaluation that throws has written nothing. *)
Definition after (c : call) (db : Db) : Db :=
  match c with
  | Projected nowHourly nowDaily nowTriggered nowUpdated estimate =>
      match evaluateProjected large_toString policy nowHourly nowDaily nowTriggered
              nowUpdated estimate db with
      | Some (db', _) => db'
      | None => db
      end
  | Actual nowInsert nowHourly nowDaily nowTriggered nowUpdated c =>
      fst (recordActual nowInsert nowHourly nowDaily nowTriggered nowUpdated c db)
  end.

Definition run (calls : list call) (db : Db) : Db :=
  fold_left (fun db c => after c db) calls db.

Definition getStatus (nowHourly nowDaily : Z) (db : Db) : option BudgetStatus :=
  let '(isSuspended, stored, triggered) := readState db in
  match readUsage nowHourly nowDaily db with
  | None => None
  | Some (hourlyUsd, dailyUsd) =>
      Some {| st_suspended := isSuspended; st_reason := stored; st_triggeredAt := triggered;
              st_hourlyUsd := hourlyUsd; st_dailyUsd := dailyUsd;
              st_hourlyUsdCap := hourlyUsdCap policy; st_dailyUsdCap := dailyUsdCap policy |}
  end.

End Calls.

End BudgetCalls.

Module BudgetCallsFacts.
Import Double JsDate Budget BudgetFacts BudgetCalls.

Section Facts.
Variable large_toString : double -> string.
Variable policy : BudgetPolicy.

Lemma exceeded_truthy window projected cap :
  truthy window = true -> truthy (exceeded large_toString window projected cap) = true.
Proof. unfold exceeded. now destruct window. Qed.

Lemma evaluateProjected_suspended nowHourly nowDaily nowTriggered nowUpdated estimate db :
  suspended (budget_state db) = 1%Z ->
  evaluateProjected large_toString policy nowHourly nowDaily nowTriggered nowUpdated estimate db
  = Some (db, {| decision := DecisionSuspend;
                 outcome_reason :=
                   Some (match reason (budget_state db) with
                         | Some text => if truthy text then text
                                        else "Budget controller is currently suspended."
                         | None => "Budget controller is currently suspended."
                         end) |}).
Proof. intros Hs. unfold evaluateProjected, readState. now rewrite Hs. Qed.

Lemma evaluateProjected_refuses nowHourly nowDaily nowTriggered nowUpdated estimate db :
  suspended (budget_state db) = 1%Z ->
  evaluateProjected large_toString policy nowHourly nowDaily nowTriggered nowUpdated estimate db
  = Some (db, {| decision := DecisionSuspend; outcome_reason := Some (stored_reason db) |}).
Proof. apply evaluateProjected_suspended. Qed.

(** One call on a suspended budget. *)
Lemma after_suspended c db :
  suspended (budget_state db) = 1%Z ->
  suspended (budget_state (after large_toString policy c db)) = 1%Z
  /\ (is_projected c = true -> after large_toString policy c db = db)
  /\ (reason (budget_state (after large_toString policy c db)) = reason (budget_state db)
      \/ exists window used cap,
           In window ["Hourly"; "Daily"]
           /\ reason (budget_state (after large_toString policy c db))
              = Some (exceeded_after large_toString window used cap))
  /\ exists more, cost_events (after large_toString policy c db) = cost_events db ++ more.
Proof.
  intros Hs.
  assert (Hsame : exists more, cost_events db = cost_events db ++ more)
    by (exists []; now rewrite app_nil_r).
  destruct c as [h d t u e | i h d t u c]; cbn [after is_projected].
  - rewrite evaluateProjected_suspended by assumption. auto.
  - unfold recordActual.
    destruct (is_nan (inputTokens (cost c)));
      [cbn [fst]; repeat split; auto; discriminate|].
    destruct (is_nan (outputTokens (cost c)));
      [cbn [fst]; repeat split; auto; discriminate|].
    destruct (is_nan (estimatedUsd (cost c)));
      [cbn [fst]; repeat split; auto; discriminate|].
    destruct (readUsage _ _ _) as [[hourlyUsd dailyUsd]|];
      [destruct (gt hourlyUsd (hourlyUsdCap policy));
         [|destruct (gt dailyUsd (dailyUsdCap policy))]|];
      cbn [fst suspend budget_state cost_events suspended reason];
      (split; [assumption || reflexivity|]); (split; [discriminate|]);
      (split; [|eauto]).
    + right. exists "Hourly", hourlyUsd, (hourlyUsdCap policy). split; [now left | reflexivity].
    + right. exists "Daily", dailyUsd, (dailyUsdCap policy).
      split; [right; now left | reflexivity].
    + now left.
    + now left.
Qed.

(** Any calls on a suspended budget. *)
Lemma run_suspended calls db :
  suspended (budget_state db) = 1%Z ->
  suspended (budget_state (run large_toString policy calls db)) = 1%Z
  /\ (forallb is_projected calls = true -> run large_toString policy calls db = db)
  /\ (reason (budget_state (run large_toString policy calls db)) = reason (budget_state db)
      \/ exists window used cap,
           In window ["Hourly"; "Daily"]
           /\ reason (budget_state (run large_toString policy calls db))
              = Some (exceeded_after large_toString window used cap))
  /\ exists more, cost_events (run large_toString policy calls db) = cost_events db ++ more.
Proof.
  revert db. induction calls as [|c calls IH]; intros db Hs.
  - cbn [run fold_left]. repeat split; auto. exists []. now rewrite app_nil_r.
  - change (run large_toString policy (c :: calls) db)
      with (run large_toString policy calls (after large_toString policy c db)).
    destruct (after_suspended c db Hs) as (Hs1 & Hsame1 & Hreason1 & more1 & Hmore1).
    destruct (IH _ Hs1) as (Hs2 & Hsame2 & Hreason2 & more2 & Hmore2).
    split; [exact Hs2|]. split; [|split].
    + cbn [forallb]. rewrite andb_true_iff. intros [Hc Hcalls].
      now rewrite (Hsame2 Hcalls), (Hsame1 Hc).
    + destruct Hreason2 as [-> | Hreason2]; [exact Hreason1 | now right].
    + exists (more1 ++ more2). now rewrite Hmore2, Hmore1, app_assoc.
Qed.

(** X16. Suspension is sticky. Once a projected evaluation has answered
    suspend, the budget stays suspended through any further projected
    evaluations and recordings of actual costs; every projected evaluation
    then answers suspend with the reason stored at that time, whatever its
    estimate and the time, and writes nothing. The stored reason is that of
    the first answer until a recording finds the usage over a cap and
    stores its own. Only [resume] clears the flag and the reason, and it
    keeps the cost events. *)
Theorem suspension_is_sticky (nowHourly nowDaily : Z) (nowTriggered nowUpdated : string)
    (estimate : CostEstimate) (db db' : Db) (out : Outcome) :
  evaluateProjected large_toString policy nowHourly nowDaily nowTriggered nowUpdated estimate db
  = Some (db', out) ->
  decision out = DecisionSuspend ->
  out = {| decision := DecisionSuspend; outcome_reason := Some (stored_reason db') |}
  /\ (forall calls,
        let later := run large_toString policy calls db' in
        suspended (budget_state later) = 1%Z
        /\ (forall nowHourly' nowDaily' nowTriggered' nowUpdated' estimate',
              evaluateProjected large_toString policy nowHourly' nowDaily' nowTriggered'
                nowUpdated' estimate' later
              = Some (later, {| decision := DecisionSuspend;
                                outcome_reason := Some (stored_reason later) |}))
        /\ (forallb is_projected calls = true -> later = db')
        /\ (reason (budget_state later) = reason (budget_state db')
            \/ exists window used cap,
                 In window ["Hourly"; "Daily"]
                 /\ reason (budget_state later)
                    = Some (exceeded_after large_toString window used cap))
        /\ (exists more, cost_events later = cost_events db' ++ more)
        /\ forall nowResumed nowUpdated' resumedBy,
             suspended (budget_state (resume nowResumed nowUpdated' resumedBy later)) = 0%Z
             /\ reason (budget_state (resume nowResumed nowUpdated' resumedBy later)) = None
             /\ cost_events (resume nowResumed nowUpdated' resumedBy later)
                = cost_events later).
Proof.
  intros Heval Hdecision.
  assert (Hstate : suspended (budget_state db') = 1%Z
                   /\ out = {| decision := DecisionSuspend;
                               outcome_reason := Some (stored_reason db') |}).
  { unfold evaluateProjected, readState in Heval.
    destruct (suspended (budget_state db) =? 1)%Z eqn:Hs.
    - injection Heval as <- <-. apply Z.eqb_eq in Hs. split; [assumption | reflexivity].
    - destruct (readUsage nowHourly nowDaily db) as [[hourlyUsd dailyUsd]|]; [|discriminate].
      destruct (gt _ (hourlyUsdCap policy)); [|destruct (gt _ (dailyUsdCap policy))];
        injection Heval as <- <-; try discriminate;
        (split; [reflexivity|]); unfold stored_reason;
        cbn [suspend budget_state reason]; now rewrite exceeded_truthy. }
  destruct Hstate as (Hs & Hout). split; [exact Hout|].
  intros calls later.
  destruct (run_suspended calls db' Hs) as (Hs' & Hsame & Hreason & Hmore).
  split; [exact Hs'|]. split; [|split; [exact Hsame|split; [exact Hreason|split]]].
  - intros. now apply evaluateProjected_refuses.
  - exact Hmore.
  - intros. repeat split.
Qed.

End Facts.

Lemma suspension_is_sticky_scenario :
  let db' :=
    suspend "2023-11-14T22:16:40.000Z" "2023-11-14T22:16:40.000Z"
      "Hourly compute budget exceeded (1.0400 > 1.0000 USD)." usage_099 in
  let out := {| decision := DecisionSuspend;
                outcome_reason :=
                  Some "Hourly compute budget exceeded (1.0400 > 1.0000 USD)." |} in
  out = {| decision := DecisionSuspend; outcome_reason := Some (stored_reason db') |}
  /\ (forall calls,
        let later := run exponent_1e21 cap_1usd calls db' in
        suspended (budget_state later) = 1%Z
        /\ (forall nowHourly' nowDaily' nowTriggered' nowUpdated' estimate',
              evaluateProjected exponent_1e21 cap_1usd nowHourly' nowDaily' nowTriggered'
                nowUpdated' estimate' later
              = Some (later, {| decision := DecisionSuspend;
                                outcome_reason := Some (stored_reason later) |}))
        /\ (forallb is_projected calls = true -> later = db')
        /\ (reason (budget_state later) = reason (budget_state db')
            \/ exists window used cap,
                 In window ["Hourly"; "Daily"]
                 /\ reason (budget_state later)
                    = Some (exceeded_after exponent_1e21 window used cap))
        /\ (exists more, cost_events later = cost_events db' ++ more)
        /\ forall nowResumed nowUpdated' resumedBy,
             suspended (budget_state (resume nowResumed nowUpdated' resumedBy later)) = 0%Z
             /\ reason (budget_state (resume nowResumed nowUpdated' resumedBy later)) = None
             /\ cost_events (resume nowResumed nowUpdated' resumedBy later)
                = cost_events later).
Proof.
  apply (suspension_is_sticky exponent_1e21 cap_1usd 1700000200000 1700000200000
           "2023-11-14T22:16:40.000Z" "2023-11-14T22:16:40.000Z" estimate_005 usage_099).
  - vm_compute. reflexivity.
  - reflexivity.
Defined.

Section Windows.
Import JsDateFacts.

(** Events with the instants their timestamps are the ISO texts of. *)
Definition stamped (pairs : list (Z * CostEvent)) : Prop :=
  Forall (fun p => (year0 <= fst p < year10000)%Z
                   /\ toISOString (fst p) = Some (timestamp (snd p))) pairs.

(** The sum of the costs of the events at or after an instant, as SQLite
    adds REAL values. *)
Definition spent_since (start : Z) (pairs : list (Z * CostEvent)) : double :=
  sum_real (map (fun p => usd_cost (snd p))
              (List.filter (fun p => (start <=? fst p)%Z) pairs)).

Lemma sum_since_stamped start since pairs :
  (year0 <= start < year10000)%Z -> toISOString start = Some since -> stamped pairs ->
  sum_since since (map snd pairs) = spent_since start pairs.
Proof.
  intros Hstart Hsince Hpairs. unfold sum_since, spent_since. f_equal.
  induction Hpairs as [|p pairs [Hp Hstamp] _ IH]; [reflexivity|].
  cbn [map List.filter].
  rewrite (toISOString_leb start (fst p) since (timestamp (snd p))) by assumption.
  destruct (start <=? fst p)%Z; cbn [map]; now rewrite IH.
Qed.

(** X17. The usage windows are windows of time. For cost events stamped
    with ISO texts of instants in the years 0 to 9999, the hourly usage is
    the sum of the costs of the events of the last 3600 seconds and the
    daily usage the sum of those since the last UTC midnight, although the
    timestamps are compared as texts. *)
Theorem readUsage_windows (nowHourly nowDaily : Z) (pairs : list (Z * CostEvent))
    (state : BudgetState) :
  stamped pairs ->
  (year0 + 3600000 <= nowHourly < year10000)%Z ->
  (year0 <= nowDaily < year10000)%Z ->
  readUsage nowHourly nowDaily {| budget_state := state; cost_events := map snd pairs |}
  = Some (or_zero (spent_since (nowHourly - 3600000) pairs),
          or_zero (spent_since (nowDaily / msPerDay * msPerDay) pairs)).
Proof.
  intros Hpairs Hhourly Hdaily. unfold readUsage.
  assert (Hday : (year0 <= nowDaily / msPerDay * msPerDay < year10000)%Z).
  { unfold year0, year10000, msPerDay in *. split.
    - assert (-62167219200000 = -719528 * 86400000)%Z as Heq by reflexivity.
      rewrite Heq at 1. apply Z.mul_le_mono_nonneg_r; [lia|].
      apply Z.div_le_lower_bound; lia.
    - pose proof (Z.mul_div_le nowDaily 86400000 eq_refl). lia. }
  destruct (toISOString_defined (nowHourly - 3600000)) as [since Hsince];
    [unfold year0, year10000, JsNumber.maxTime in *; lia|].
  destruct (toISOString_defined (nowDaily / msPerDay * msPerDay)) as [dayStart HdayStart];
    [unfold year0, year10000, JsNumber.maxTime in *; lia|].
  replace (nowHourly - 60 * 60 * 1000)%Z with (nowHourly - 3600000)%Z by lia.
  rewrite Hsince, HdayStart. cbn [cost_events].
  rewrite (sum_since_stamped (nowHourly - 3600000)) by (assumption || lia).
  now rewrite (sum_since_stamped (nowDaily / msPerDay * msPerDay)) by assumption.
Qed.

End Windows.

Definition usage_pairs : list (Z * CostEvent) :=
  combine [1699992800000; 1700000000000; 1700000100000]%Z (cost_events usage_099).

Lemma readUsage_windows_scenario :
  readUsage 1700000200000 1700000200000
    {| budget_state := fresh_state; cost_events := map snd usage_pairs |}
  = Some (or_zero (spent_since (1700000200000 - 3600000) usage_pairs),
          or_zero (spent_since (1700000200000 / msPerDay * msPerDay) usage_pairs)).
Proof.
  apply (readUsage_windows 1700000200000 1700000200000 usage_pairs fresh_state).
  - repeat constructor; unfold year0, year10000; simpl; lia.
  - unfold year0, year10000. lia.
  - unfold year0, year10000. lia.
Defined.

Example usage_windows_run :
  spent_since (1700000200000 - 3600000) usage_pairs = cents 99
  /\ spent_since (1700000200000 / msPerDay * msPerDay) usage_pairs = cents 174.
Proof. vm_compute. split; reflexivity. Qed.

(** *** Amounts that are not numbers *)

Lemma add_nan_r x : add x S754_nan = S754_nan.
Proof. now destruct x as [| | |? ? ?]. Qed.

Lemma gt_nan_l x : gt S754_nan x = false.
Proof. now destruct x as [[]|[]| |[] ? ?]. Qed.

Lemma gt_nan_r x : gt x S754_nan = false.
Proof. now destruct x as [[]|[]| |[] ? ?]. Qed.

Lemma is_nan_spec x : is_nan x = true <-> x = S754_nan.
Proof. destruct x; simpl; split; congruence. Qed.

Lemma estimate_nan pricing m inTokens outTokens est :
  estimateCost pricing m inTokens outTokens = Some est ->
  is_nan inTokens = true \/ is_nan outTokens = true ->
  estimatedUsd est = S754_nan.
Proof.
  unfold estimateCost. destruct (match pricing !! m with Some p => Some p | None => _ end)
    as [entry|]; [|discriminate].
  intros [= <-]. cbn [estimatedUsd].
  intros [H|H]; apply is_nan_spec in H; subst.
  - now destruct (mul (div outTokens (of_Z 1000)) (output_usd_per_1k entry)).
  - cbn. apply add_nan_r.
Qed.

(** X18. Token counts that are NaN escape the budget: the estimate of
    [estimateCost] is then NaN, a budget that is not suspended allows it
    whatever has been spent, and [recordActual] throws on it without
    recording anything. *)
Theorem nan_tokens_escape (large_toString : double -> string) (policy : BudgetPolicy)
    (pricing : gmap string PricingEntry) (m : string) (inTokens outTokens : double)
    (est : CostEstimate) (nowHourly nowDaily : Z) (nowTriggered nowUpdated : string)
    (db : Db) :
  estimateCost pricing m inTokens outTokens = Some est ->
  is_nan inTokens = true \/ is_nan outTokens = true ->
  suspended (budget_state db) <> 1%Z ->
  is_Some (readUsage nowHourly nowDaily db) ->
  estimatedUsd est = S754_nan
  /\ evaluateProjected large_toString policy nowHourly nowDaily nowTriggered nowUpdated est db
     = Some (db, {| decision := DecisionAllow; outcome_reason := None |})
  /\ forall nowInsert requestPath stamp,
       exists message,
         recordActual large_toString policy nowInsert nowHourly nowDaily nowTriggered
           nowUpdated {| cost := est; requestPath := requestPath; cost_timestamp := stamp |} db
         = (db, Threw message).
Proof.
  intros Hest Hnan Hs [[hourlyUsd dailyUsd] Husage].
  pose proof (estimate_nan _ _ _ _ _ Hest Hnan) as Husd.
  split; [exact Husd|]. split.
  - unfold evaluateProjected, readState. apply Z.eqb_neq in Hs. rewrite Hs, Husage, Husd.
    now rewrite !add_nan_r, !gt_nan_l.
  - intros nowInsert path stamp. unfold recordActual. cbn [cost].
    destruct (is_nan (inputTokens est)); [eauto|].
    destruct (is_nan (outputTokens est)); [eauto|].
    rewrite Husd. cbn [is_nan]. eauto.
Qed.

Definition flat_pricing : gmap string PricingEntry :=
  {[ "*" := {| pricing_model := "*"; input_usd_per_1k := cents 1;
               output_usd_per_1k := cents 3 |} ]}.

Definition nan_estimate : CostEstimate :=
  {| model := "gpt"; inputTokens := S754_nan; outputTokens := of_Z 100;
     estimatedUsd := S754_nan |}.

Lemma nan_tokens_escape_scenario :
  estimatedUsd nan_estimate = S754_nan
  /\ evaluateProjected exponent_1e21 cap_1usd 1700000200000 1700000200000
       "2023-11-14T22:16:40.000Z" "2023-11-14T22:16:40.000Z" nan_estimate usage_099
     = Some (usage_099, {| decision := DecisionAllow; outcome_reason := None |})
  /\ forall nowInsert requestPath stamp,
       exists message,
         recordActual exponent_1e21 cap_1usd nowInsert 1700000200000 1700000200000
           "2023-11-14T22:16:40.000Z" "2023-11-14T22:16:40.000Z"
           {| cost := nan_estimate; requestPath := requestPath; cost_timestamp := stamp |}
           usage_099
         = (usage_099, Threw message).
Proof.
  apply (nan_tokens_escape exponent_1e21 cap_1usd flat_pricing "gpt" S754_nan (of_Z 100)
           nan_estimate 1700000200000 1700000200000
           "2023-11-14T22:16:40.000Z" "2023-11-14T22:16:40.000Z" usage_099).
  - reflexivity.
  - left. reflexivity.
  - discriminate.
  - vm_compute. eauto.
Defined.

(** *** Recording actual costs *)

Definition event_of (stamp : string) (c : CostRecord) : CostEvent :=
  {| timestamp := stamp; event_model := model (cost c);
     input_tokens := inputTokens (cost c); output_tokens := outputTokens (cost c);
     usd_cost := estimatedUsd (cost c); request_path := requestPath c |}.

Lemma exceeded_after_truthy large_toString window used cap :
  truthy window = true -> truthy (exceeded_after large_toString window used cap) = true.
Proof. unfold exceeded_after. now destruct window. Qed.

(** A cost whose amounts are numbers is recorded, suspended or not,
    under its own timestamp or, without one, the time of the call. When the
    usage read after it exceeds the hourly cap, or else the daily cap, the
    budget is suspended and every later projected evaluation is refused
    with the reason of the actual accounting; otherwise recording changes
    the cost events only. *)
Theorem recordActual_accounts (large_toString : double -> string) (policy : BudgetPolicy)
    (nowInsert : string) (nowHourly nowDaily : Z) (nowTriggered nowUpdated : string)
    (c : CostRecord) (db : Db) (hourlyUsd dailyUsd : double) :
  is_nan (inputTokens (cost c)) = false ->
  is_nan (outputTokens (cost c)) = false ->
  is_nan (estimatedUsd (cost c)) = false ->
  let stamp := match cost_timestamp c with
               | Some t => if truthy t then t else nowInsert
               | None => nowInsert
               end in
  let recorded := cost_events db ++ [event_of stamp c] in
  readUsage nowHourly nowDaily {| budget_state := budget_state db; cost_events := recorded |}
  = Some (hourlyUsd, dailyUsd) ->
  let out := recordActual large_toString policy nowInsert nowHourly nowDaily nowTriggered
               nowUpdated c db in
  let refused why :=
    forall nowHourly' nowDaily' nowTriggered' nowUpdated' estimate,
      evaluateProjected large_toString policy nowHourly' nowDaily' nowTriggered' nowUpdated'
        estimate (fst out)
      = Some (fst out, {| decision := DecisionSuspend; outcome_reason := Some why |}) in
  snd out = Done
  /\ cost_events (fst out) = recorded
  /\ (gt hourlyUsd (hourlyUsdCap policy) = true ->
      refused (exceeded_after large_toString "Hourly" hourlyUsd (hourlyUsdCap policy)))
  /\ (gt hourlyUsd (hourlyUsdCap policy) = false ->
      gt dailyUsd (dailyUsdCap policy) = true ->
      refused (exceeded_after large_toString "Daily" dailyUsd (dailyUsdCap policy)))
  /\ (gt hourlyUsd (hourlyUsdCap policy) = false ->
      gt dailyUsd (dailyUsdCap policy) = false ->
      budget_state (fst out) = budget_state db).
Proof.
  intros Hin Hout Husd. cbv zeta. intros Husage.
  unfold recordActual. rewrite Hin, Hout, Husd. fold (event_of
    (match cost_timestamp c with
     | Some t => if truthy t then t else nowInsert
     | None => nowInsert
     end) c).
  rewrite Husage.
  destruct (gt hourlyUsd (hourlyUsdCap policy)) eqn:Hh;
    [|destruct (gt dailyUsd (dailyUsdCap policy)) eqn:Hd];
    cbn [fst snd]; (split; [reflexivity|]); (split; [reflexivity|]);
    repeat split; try discriminate; intros;
    rewrite evaluateProjected_suspended by reflexivity;
    cbn [suspend budget_state reason]; now rewrite exceeded_after_truthy.
Qed.

Definition overrun : CostRecord :=
  {| cost := {| model := "gpt"; inputTokens := of_Z 1000; outputTokens := of_Z 500;
                estimatedUsd := cents 5 |};
     requestPath := "/v1/responses"; cost_timestamp := None |}.

Lemma recordActual_accounts_overrun :
  let recorded := cost_events usage_099 ++ [event_of "2023-11-14T22:16:40.000Z" overrun] in
  let out := recordActual exponent_1e21 cap_1usd "2023-11-14T22:16:40.000Z" 1700000200000
               1700000200000 "2023-11-14T22:16:40.001Z" "2023-11-14T22:16:40.002Z"
               overrun usage_099 in
  let refused why :=
    forall nowHourly' nowDaily' nowTriggered' nowUpdated' estimate,
      evaluateProjected exponent_1e21 cap_1usd nowHourly' nowDaily' nowTriggered' nowUpdated'
        estimate (fst out)
      = Some (fst out, {| decision := DecisionSuspend; outcome_reason := Some why |}) in
  snd out = Done
  /\ cost_events (fst out) = recorded
  /\ (gt (sum_real [cents 50; cents 49; cents 5]) (hourlyUsdCap cap_1usd) = true ->
      refused (exceeded_after exponent_1e21 "Hourly" (sum_real [cents 50; cents 49; cents 5])
                 (hourlyUsdCap cap_1usd)))
  /\ (gt (sum_real [cents 50; cents 49; cents 5]) (hourlyUsdCap cap_1usd) = false ->
      gt (sum_real [cents 75; cents 50; cents 49; cents 5]) (dailyUsdCap cap_1usd) = true ->
      refused (exceeded_after exponent_1e21 "Daily"
                 (sum_real [cents 75; cents 50; cents 49; cents 5])
                 (dailyUsdCap cap_1usd)))
  /\ (gt (sum_real [cents 50; cents 49; cents 5]) (hourlyUsdCap cap_1usd) = false ->
      gt (sum_real [cents 75; cents 50; cents 49; cents 5]) (dailyUsdCap cap_1usd) = false ->
      budget_state (fst out) = budget_state usage_099).
Proof.
  apply (recordActual_accounts exponent_1e21 cap_1usd "2023-11-14T22:16:40.000Z"
           1700000200000 1700000200000 "2023-11-14T22:16:40.001Z" "2023-11-14T22:16:40.002Z"
           overrun usage_099 (sum_real [cents 50; cents 49; cents 5])
           (sum_real [cents 75; cents 50; cents 49; cents 5]));
    vm_compute; reflexivity.
Defined.

(** The overrun above is accounted as 1.04 USD against the cap of 1 USD. *)
Example overrun_runs :
  let out := recordActual exponent_1e21 cap_1usd "2023-11-14T22:16:40.000Z" 1700000200000
               1700000200000 "2023-11-14T22:16:40.001Z" "2023-11-14T22:16:40.002Z"
               overrun usage_099 in
  reason (budget_state (fst out))
  = Some "Hourly compute budget exceeded after actual accounting (1.0400 > 1.0000 USD)."
  /\ length (cost_events (fst out)) = 4%nat.
Proof. vm_compute. split; reflexivity. Qed.

(** A recording over the cap on a suspended budget stores its own reason,
    which the next projected evaluation returns; evaluations alone leave the
    first reason. *)
Example overwritten_reason_runs :
  let db' :=
    suspend "2023-11-14T22:16:40.000Z" "2023-11-14T22:16:40.000Z"
      "Hourly compute budget exceeded (1.0400 > 1.0000 USD)." usage_099 in
  let evaluation :=
    Projected 1700000300000 1700000300000 "2023-11-14T22:18:20.000Z"
      "2023-11-14T22:18:20.000Z" estimate_005 in
  let recording :=
    Actual "2023-11-14T22:16:50.000Z" 1700000210000 1700000210000
      "2023-11-14T22:16:50.001Z" "2023-11-14T22:16:50.002Z" overrun in
  stored_reason (run exponent_1e21 cap_1usd [evaluation; evaluation] db')
  = "Hourly compute budget exceeded (1.0400 > 1.0000 USD)."
  /\ stored_reason (run exponent_1e21 cap_1usd [evaluation; recording; evaluation] db')
     = "Hourly compute budget exceeded after actual accounting (1.0400 > 1.0000 USD).".
Proof. vm_compute. split; reflexivity. Qed.

End BudgetCallsFacts.

(** ** Attestation: the shape of a snapshot and what breaks it *)

Module AttestationChecks.
Import Js Sha256 Keyring Attestation TrimFacts KeyringFacts AttestationFacts.

(** The entries are linked: each carries the hash of its predecessor. *)
Fixpoint linked (previousHash : string) (items : list ApprovalAttestationEntry) : Prop :=
  match items with
  | [] => True
  | entry :: rest => previous_hash entry = previousHash /\ linked (entry_hash entry) rest
  end.

(** The hash of the last entry, or the given one when there is none. *)
Definition last_hash (previousHash : string) (items : list ApprovalAttestationEntry) : string :=
  fold_left (fun _ entry => entry_hash entry) items previousHash.

Lemma chain_shape previousHash rows :
  let made := fst (chain previousHash rows) in
  linked previousHash made
  /\ snd (chain previousHash rows) = last_hash previousHash made
  /\ map e_id made = map id rows
  /\ Forall (fun entry => is_hex64 (entry_hash entry) = true) made.
Proof.
  cbv zeta. revert previousHash. induction rows as [|row rows IH]; intros previousHash.
  - repeat split. constructor.
  - cbn [chain]. specialize (IH (entry_hash (entry_of previousHash row))).
    destruct (chain (entry_hash (entry_of previousHash row)) rows) as [more last].
    cbn [fst snd] in *. destruct IH as (Hlinked & Hlast & Hids & Hhex).
    split; [split; [reflexivity | exact Hlinked]|].
    split; [exact Hlast|]. split; [cbn; now rewrite Hids|].
    constructor; [apply sha256Hex_hex64 | exact Hhex].
Qed.

Lemma generate_fields cfg rows nowIso sinceArg payload :
  generate cfg rows nowIso sinceArg = Some payload ->
  generated_at payload = nowIso
  /\ since payload = (let trimmed := trim sinceArg in
                      if truthy trimmed then Some trimmed else None)
  /\ final_hash payload = snd (chain GENESIS_HASH rows).
Proof.
  unfold generate. destruct (chain GENESIS_HASH rows) as [made last].
  destruct (signingKeyring cfg) as [keyring|].
  - destruct (signWithKeyring _ keyring); [|discriminate]. now intros [= <-].
  - destruct (truthy (signingKey cfg)); now intros [= <-].
Qed.

(** X19. The shape of a generated snapshot: one entry per row, in the order
    of the rows and with their ids; the first entry carries the genesis
    hash of 64 zeros as [previous_hash] and every other entry the
    [entry_hash] of its predecessor; [final_hash] is the [entry_hash] of
    the last entry, and the genesis hash when there are no rows; every
    [entry_hash] is 64 lowercase hex digits; [count] is the number of
    entries, [generated_at] the time of the call and [since] the trimmed
    argument, or null when that is blank. *)
Theorem generate_links (cfg : Signing) (rows : list ApprovalRecord) (nowIso sinceArg : string)
    (payload : ApprovalAttestationPayload) :
  generate cfg rows nowIso sinceArg = Some payload ->
  map e_id (entries payload) = map id rows
  /\ count payload = Z.of_nat (length rows)
  /\ linked GENESIS_HASH (entries payload)
  /\ final_hash payload = last_hash GENESIS_HASH (entries payload)
  /\ (rows = [] -> final_hash payload = GENESIS_HASH)
  /\ Forall (fun entry => is_hex64 (entry_hash entry) = true) (entries payload)
  /\ generated_at payload = nowIso
  /\ since payload = (if truthy (trim sinceArg) then Some (trim sinceArg) else None).
Proof.
  intros Hgen.
  destruct (generate_entries _ _ _ _ _ Hgen) as [Hentries Hcount].
  destruct (generate_fields _ _ _ _ _ Hgen) as (Hat & Hsince & Hfinal).
  destruct (chain_shape GENESIS_HASH rows) as (Hlinked & Hlast & Hids & Hhex).
  rewrite Hentries. split; [exact Hids|].
  split; [now rewrite Hcount, Hentries, chain_length|].
  split; [exact Hlinked|]. split; [now rewrite Hfinal|].
  split; [intros ->; now rewrite Hfinal|]. split; [exact Hhex|]. split; assumption.
Qed.

Lemma generate_links_signed_snapshot :
  exists payload,
    generate signed_service [first_row; second_row; third_row] "2026-01-02T00:00:00.000Z" " "
    = Some payload
    /\ map e_id (entries payload) = map id [first_row; second_row; third_row]
    /\ count payload = Z.of_nat (length [first_row; second_row; third_row])
    /\ linked GENESIS_HASH (entries payload)
    /\ final_hash payload = last_hash GENESIS_HASH (entries payload)
    /\ ([first_row; second_row; third_row] = [] -> final_hash payload = GENESIS_HASH)
    /\ Forall (fun entry => is_hex64 (entry_hash entry) = true) (entries payload)
    /\ generated_at payload = "2026-01-02T00:00:00.000Z"
    /\ since payload = (if truthy (trim " ") then Some (trim " ") else None).
Proof.
  destruct (proj2 (generate_returns signed_service [first_row; second_row; third_row]
                     "2026-01-02T00:00:00.000Z" " ") signed_service_own) as [payload Hgen].
  exists payload. split; [exact Hgen|].
  apply (generate_links signed_service [first_row; second_row; third_row]
           "2026-01-02T00:00:00.000Z" " " payload Hgen).
Defined.

(** *** Payloads that do not verify *)

(** Verifying the signature of the payload does not throw: the kid it
    names, if any, is a key of the configured keyring. *)
Definition kid_known (cfg : Signing) (payload : ApprovalAttestationPayload) : Prop :=
  forall keyring,
    signingKeyring cfg = Some keyring ->
    option_truthy (signature payload) = true ->
    option_truthy (signature_kid payload) = true ->
    is_Some (JsObject.get (trim (default "" (signature_kid payload))) (keys keyring)).

Lemma generate_kid_known cfg rows nowIso sinceArg payload :
  keyring_loaded cfg ->
  generate cfg rows nowIso sinceArg = Some payload ->
  kid_known cfg payload.
Proof.
  intros Hloaded Hgen keyring Hkr _ _.
  destruct (generate_signature _ _ _ _ _ _ Hgen Hkr) as (Hkid & _ & Hkey).
  destruct (Hloaded keyring Hkr) as [parsed Hload].
  destruct (loadHmacKeyring_loaded _ _ Hload) as (Htrim & _).
  rewrite Hkid. cbn [default from_option]. unfold Datatypes.id. now rewrite Htrim.
Qed.

(** The count, chain and final-hash checks of [verifyPayload]: the first
    failure, if any, and the hash reached. *)
Definition chain_verdict (payload : ApprovalAttestationPayload) : option string * string :=
  let '(why, previousHash) :=
    if negb (count payload =? Z.of_nat (length (entries payload)))%Z
    then (Some "Payload count does not match entries length.", GENESIS_HASH)
    else check_entries GENESIS_HASH (entries payload) in
  (match why with
   | Some _ => why
   | None => if negb (String.eqb (final_hash payload) previousHash)
             then Some "Final hash mismatch." else None
   end, previousHash).

Definition signature_reason (cfg : Signing) : string :=
  match signingKeyring cfg with
  | Some _ => "Attestation keyring signature mismatch."
  | None => "Attestation signature mismatch."
  end.

(** The report of [verifyPayload], by its checks: the chain comes first,
    the signature second. *)
Lemma verifyPayload_report cfg payload :
  kid_known cfg payload ->
  exists report,
    verifyPayload cfg payload = Some report
    /\ computed_final_hash report = snd (chain_verdict payload)
    /\ v_count report = length (entries payload)
    /\ valid report = match v_reason report with None => true | Some _ => false end
    /\ v_reason report
       = match fst (chain_verdict payload) with
         | Some why => Some why
         | None => match signature_valid report with
                   | Some false => Some (signature_reason cfg)
                   | _ => None
                   end
         end
    /\ (signature payload = None ->
        signature_valid report
        = if bool_decide (signingKeyring cfg = None) && negb (truthy (signingKey cfg))
          then None else Some false).
Proof.
  intros Hkid. unfold verifyPayload, chain_verdict, signature_reason.
  destruct (if negb (count payload =? Z.of_nat (length (entries payload)))%Z
            then (Some "Payload count does not match entries length.", GENESIS_HASH)
            else check_entries GENESIS_HASH (entries payload)) as [why reached].
  cbn [fst snd].
  set (why' := match why with
               | Some _ => why
               | None => if negb (String.eqb (final_hash payload) reached)
                         then Some "Final hash mismatch." else None
               end).
  destruct (signingKeyring cfg) as [keyring|] eqn:Hkr.
  - rewrite (bool_decide_eq_false_2 (Some keyring = None)) by discriminate. cbn [andb].
    destruct (option_truthy (signature payload)) eqn:Hs; cbn [andb].
    + assert (Hnone : signature payload <> None) by (intros Hn; now rewrite Hn in Hs).
      destruct (option_truthy (signature_kid payload)) eqn:Hk.
      * destruct (verifyWithKeyring_own (signed_text payload)
                    {| kid := default "" (signature_kid payload);
                       sig := default "" (signature payload) |} keyring) as [ok Hok];
          [now apply Hkid|].
        rewrite Hok. eexists. split; [reflexivity|].
        cbn [computed_final_hash v_count valid v_reason signature_valid].
        repeat split; try contradiction; destruct why' as [w|]; try reflexivity;
          now destruct ok.
      * eexists. split; [reflexivity|].
        cbn [computed_final_hash v_count valid v_reason signature_valid].
        repeat split; try contradiction; destruct why' as [w|]; try reflexivity;
          now destruct (fst (verifyWithAnyKey _ _ _)).
    + eexists. split; [reflexivity|].
      cbn [computed_final_hash v_count valid v_reason signature_valid].
      repeat split; destruct why' as [w|]; reflexivity.
  - rewrite (bool_decide_eq_true_2 (@None HmacKeyring = None)) by reflexivity. cbn [andb].
    destruct (truthy (signingKey cfg)); cbn [negb].
    + eexists. split; [reflexivity|].
      cbn [computed_final_hash v_count valid v_reason signature_valid].
      do 3 (split; [reflexivity|]). split.
      * destruct why' as [w|]; [reflexivity|]. now destruct (bool_decide _).
      * intros Hnone. rewrite Hnone. now rewrite bool_decide_eq_false_2 by discriminate.
    + eexists. split; [reflexivity|].
      cbn [computed_final_hash v_count valid v_reason signature_valid].
      repeat split; destruct why' as [w|]; reflexivity.
Qed.

(** The payload without [entries[i]], its count lowered by one. *)
Definition without (i : nat) (p : ApprovalAttestationPayload) : ApprovalAttestationPayload :=
  {| generated_at := generated_at p; since := since p; count := count p - 1;
     entries := delete i (entries p); final_hash := final_hash p;
     signature := signature p; signature_kid := signature_kid p |}.

Lemma delete_middle_entry {A} (before : list A) (x : A) (rest : list A) :
  delete (length before) (before ++ x :: rest) = before ++ rest.
Proof. induction before as [|y before IH]; [reflexivity|]. cbn. now f_equal. Qed.

(** X20. Removing an entry from a generated snapshot, with the count
    lowered to match, is detected whatever the signing configuration,
    unless the hash of the removed entry equals the hash it was chained
    to: the report is invalid, the reason is "Entry previous_hash mismatch."
    when an entry follows the removed one and "Final hash mismatch." when it
    was the last, and the computed hash is the one reached before it. *)
Theorem removed_entry_detected (cfg : Signing) (rows1 : list ApprovalRecord)
    (row : ApprovalRecord) (rows2 : list ApprovalRecord) (nowIso sinceArg : string) :
  keyring_loaded cfg ->
  active_key_own cfg ->
  let reached := snd (chain GENESIS_HASH rows1) in
  entry_hash (entry_of reached row) <> reached ->
  exists payload report,
    generate cfg (rows1 ++ row :: rows2) nowIso sinceArg = Some payload
    /\ verifyPayload cfg (without (length rows1) payload) = Some report
    /\ valid report = false
    /\ v_reason report = Some (match rows2 with
                               | [] => "Final hash mismatch."
                               | _ => "Entry previous_hash mismatch."
                               end)
    /\ computed_final_hash report = reached
    /\ v_count report = (length rows1 + length rows2)%nat.
Proof.
  intros Hloaded Hown reached Hdiffer.
  destruct (proj2 (generate_returns cfg (rows1 ++ row :: rows2) nowIso sinceArg) Hown)
    as (payload & Hgen).
  exists payload.
  destruct (generate_entries _ _ _ _ _ Hgen) as [Hentries Hcount].
  destruct (generate_fields _ _ _ _ _ Hgen) as (_ & _ & Hfinal).
  rewrite chain_app in Hentries, Hfinal. cbn [fst snd] in Hentries, Hfinal.
  fold reached in Hentries, Hfinal. cbn [chain] in Hentries, Hfinal.
  pose proof (chain_length (entry_hash (entry_of reached row)) rows2) as Hmore.
  assert (Hfirst : match rows2 with
                   | [] => fst (chain (entry_hash (entry_of reached row)) rows2) = []
                           /\ snd (chain (entry_hash (entry_of reached row)) rows2)
                              = entry_hash (entry_of reached row)
                   | _ => exists e rest,
                            fst (chain (entry_hash (entry_of reached row)) rows2) = e :: rest
                            /\ previous_hash e = entry_hash (entry_of reached row)
                   end).
  { destruct rows2 as [|r rows2]; [split; reflexivity|].
    cbn [chain]. destruct (chain _ rows2) as [more' last']. cbn [fst]. eauto. }
  destruct (chain (entry_hash (entry_of reached row)) rows2) as [more last].
  cbn [fst snd] in *.
  set (before := fst (chain GENESIS_HASH rows1)) in *.
  assert (Hbefore : length before = length rows1) by apply chain_length.
  assert (Hdelete : delete (length rows1) (entries payload) = before ++ more).
  { rewrite Hentries, <- Hbefore. apply delete_middle_entry. }
  assert (Hkid : kid_known cfg (without (length rows1) payload)).
  { exact (generate_kid_known _ _ _ _ _ Hloaded Hgen). }
  destruct (verifyPayload_report cfg (without (length rows1) payload) Hkid)
    as (report & Hreport & Hcomputed & Hn & Hvalid & Hreason & _).
  exists report.
  assert (Hverdict : chain_verdict (without (length rows1) payload)
                     = (Some (match rows2 with
                              | [] => "Final hash mismatch."
                              | _ => "Entry previous_hash mismatch."
                              end), reached)).
  { unfold chain_verdict. cbn [without count entries final_hash].
    rewrite Hdelete, Hcount, Hentries.
    replace (Z.of_nat (length (before ++ entry_of reached row :: more)) - 1)%Z
      with (Z.of_nat (length (before ++ more)))
      by (rewrite !length_app; cbn [length]; lia).
    rewrite Z.eqb_refl. cbn [negb].
    rewrite (check_entries_app _ _ _ reached) by apply check_chain.
    destruct rows2 as [|r rows2].
    - destruct Hfirst as [-> ->]. cbn [check_entries]. rewrite Hfinal.
      apply String.eqb_neq in Hdiffer. now rewrite Hdiffer.
    - destruct Hfirst as (e & rest & -> & Hprev). cbn [check_entries]. rewrite Hprev.
      apply String.eqb_neq in Hdiffer. now rewrite Hdiffer. }
  rewrite Hverdict in Hcomputed, Hreason. cbn [fst snd] in Hcomputed, Hreason.
  split; [exact Hgen|]. split; [exact Hreport|].
  split; [now rewrite Hvalid, Hreason|]. split; [exact Hreason|].
  split; [exact Hcomputed|].
  rewrite Hn. cbn [without entries]. rewrite Hdelete, length_app. lia.
Qed.

Lemma removed_entry_detected_second :
  exists payload report,
    generate signed_service ([first_row] ++ second_row :: [third_row])
      "2026-01-02T00:00:00.000Z" "" = Some payload
    /\ verifyPayload signed_service (without (length [first_row]) payload) = Some report
    /\ valid report = false
    /\ v_reason report = Some "Entry previous_hash mismatch."
    /\ computed_final_hash report = snd (chain GENESIS_HASH [first_row])
    /\ v_count report = (length [first_row] + length [third_row])%nat.
Proof.
  apply (removed_entry_detected signed_service [first_row] second_row [third_row]
           "2026-01-02T00:00:00.000Z" "").
  - exact signed_service_loaded.
  - exact signed_service_own.
  - vm_compute. discriminate.
Defined.

(** X21. A payload without signature. Under a configured keyring or
    static key it is never valid: the signature is reported false, and the
    reason is that of the chain checks or else the signature mismatch.
    With no key configured the signature is not looked at: it is reported
    null, and the payload is judged by its count, chain and final hash
    alone, whatever signature fields it carries. *)
Theorem signature_required (cfg : Signing) (payload : ApprovalAttestationPayload) :
  signature payload = None ->
  exists report,
    verifyPayload cfg payload = Some report
    /\ (signingKeyring cfg <> None \/ truthy (signingKey cfg) = true ->
        valid report = false
        /\ signature_valid report = Some false
        /\ v_reason report
           = Some (default (signature_reason cfg) (fst (chain_verdict payload))))
    /\ (signingKeyring cfg = None -> truthy (signingKey cfg) = false ->
        signature_valid report = None
        /\ v_reason report = fst (chain_verdict payload)
        /\ forall s k,
             option_map (fun r => (valid r, v_reason r, signature_valid r))
               (verifyPayload cfg (with_signature s k payload))
             = Some (valid report, v_reason report, None)).
Proof.
  intros Hnone.
  assert (Hkid : kid_known cfg payload).
  { intros keyring _ Hs. rewrite Hnone in Hs. discriminate. }
  destruct (verifyPayload_report cfg payload Hkid)
    as (report & Hreport & _ & _ & Hvalid & Hreason & Hsig).
  specialize (Hsig Hnone). exists report. split; [exact Hreport|]. split.
  - intros Hconfigured.
    assert (Hfalse : signature_valid report = Some false).
    { rewrite Hsig. destruct Hconfigured as [Hk|Hk].
      - now rewrite bool_decide_eq_false_2 by assumption.
      - rewrite Hk. now rewrite andb_false_r. }
    rewrite Hfalse in Hreason. rewrite Hvalid, Hreason.
    destruct (fst (chain_verdict payload)); auto.
  - intros Hkr Hkey.
    assert (Hnull : signature_valid report = None).
    { rewrite Hsig, Hkey. now rewrite bool_decide_eq_true_2 by assumption. }
    rewrite Hnull in Hreason. split; [exact Hnull|].
    split; [rewrite Hreason; now destruct (fst (chain_verdict payload))|].
    intros s k.
    assert (Hkid' : kid_known cfg (with_signature s k payload)).
    { intros keyring Hk'. congruence. }
    destruct (verifyPayload_report cfg (with_signature s k payload) Hkid')
      as (report' & Hreport' & _ & _ & Hvalid' & Hreason' & _).
    assert (Hnull' : signature_valid report' = None).
    { unfold verifyPayload in Hreport'. rewrite Hkr, Hkey in Hreport'.
      destruct (if negb _ then _ else _). now injection Hreport' as <-. }
    rewrite Hreport'. cbn [option_map]. rewrite Hnull' in *.
    change (chain_verdict (with_signature s k payload)) with (chain_verdict payload)
      in Hreason'.
    rewrite Hvalid', Hvalid, Hreason', Hreason. reflexivity.
Qed.

Definition unsigned_payload : ApprovalAttestationPayload :=
  {| generated_at := "2026-01-02T00:00:00.000Z"; since := None; count := 0; entries := [];
     final_hash := GENESIS_HASH; signature := None; signature_kid := None |}.

Lemma signature_required_empty_snapshot :
  exists report,
    verifyPayload signed_service unsigned_payload = Some report
    /\ (signingKeyring signed_service <> None \/ truthy (signingKey signed_service) = true ->
        valid report = false
        /\ signature_valid report = Some false
        /\ v_reason report
           = Some (default (signature_reason signed_service)
                     (fst (chain_verdict unsigned_payload))))
    /\ (signingKeyring signed_service = None -> truthy (signingKey signed_service) = false ->
        signature_valid report = None
        /\ v_reason report = fst (chain_verdict unsigned_payload)
        /\ forall s k,
             option_map (fun r => (valid r, v_reason r, signature_valid r))
               (verifyPayload signed_service (with_signature s k unsigned_payload))
             = Some (valid report, v_reason report, None)).
Proof. apply (signature_required signed_service unsigned_payload). reflexivity. Defined.

(** The empty snapshot without signature: refused under the keyring,
    accepted without keys, also when it carries a made-up signature. *)
Example unsigned_snapshot_runs :
  option_map (fun r => (valid r, v_reason r))
    (verifyPayload signed_service unsigned_payload)
  = Some (false, Some "Attestation keyring signature mismatch.")
  /\ option_map (fun r => (valid r, signature_valid r))
       (verifyPayload unsigned_service
          (with_signature (Some "made-up") (Some "k9") unsigned_payload))
     = Some (true, None).
Proof. vm_compute. split; reflexivity. Qed.

End AttestationChecks.

(** ** Rate limiter ([FixedWindowRateLimiter])

    The two limits are what [Math.max(1, Math.floor(x))] returns: an
    integer, [Infinity] or NaN. The clock readings and the counts are
    integers; integers are exact in binary64 below 2^53. *)

Module RateLimit.
Import JsNumber.

Inductive bound := NotANumber | Unbounded | Finite (z : Z).

(** [Math.max(1, Math.floor(x))] *)
Definition at_least_one (x : number) : bound :=
  match x with
  | NaN => NotANumber
  | PosInf => Unbounded
  | NegInf => Finite 1
  | Fin q => Finite (Z.max 1 (Qfloor q))
  end.

(** [b * k] for an integer [k > 0] *)
Definition scale (k : Z) (b : bound) : bound :=
  match b with Finite z => Finite (z * k) | other => other end.

(** [a >= b] for an integer [a] *)
Definition reaches (a : Z) (b : bound) : bool :=
  match b with Finite z => (z <=? a)%Z | _ => false end.

(** [Math.ceil(a / b)] for integers [a] and [b > 0] *)
Definition ceil_div (a b : Z) : Z := (- ((- a) / b))%Z.

Record Bucket := { windowStartMs : Z; count : Z }.

Record RateLimitDecision := {
  allowed : bool;
  remaining : bound;
  retryAfterSeconds : bound
}.

Record FixedWindowRateLimiter := {
  windowMs : bound;
  maxRequests : bound;
  buckets : gmap string Bucket
}.

Definition make (windowSeconds maxRequestsArg : number) : FixedWindowRateLimiter :=
  {| windowMs := scale 1000 (at_least_one windowSeconds);
     maxRequests := at_least_one maxRequestsArg;
     buckets := ∅ |}.

Definition with_buckets (b : gmap string Bucket) (l : FixedWindowRateLimiter)
    : FixedWindowRateLimiter :=
  {| windowMs := windowMs l; maxRequests := maxRequests l; buckets := b |}.

(** [nowMs - bucket.windowStartMs >= this.windowMs * 2] *)
Definition stale (l : FixedWindowRateLimiter) (nowMs : Z) (bucket : Bucket) : bool :=
  reaches (nowMs - windowStartMs bucket) (scale 2 (windowMs l)).

Definition cleanup (nowMs : Z) (l : FixedWindowRateLimiter) : FixedWindowRateLimiter :=
  with_buckets (filter (fun entry => stale l nowMs (snd entry) = false) (buckets l)) l.

(** [check(key)], with the reading [now] of the clock. *)
Definition check (key : string) (now : Z) (l : FixedWindowRateLimiter)
    : FixedWindowRateLimiter * RateLimitDecision :=
  let l := cleanup now l in
  let opened :=
    (with_buckets (<[key := {| windowStartMs := now; count := 1 |}]> (buckets l)) l,
     {| allowed := true;
        remaining := match maxRequests l with Finite m => Finite (m - 1) | other => other end;
        retryAfterSeconds := Finite 0 |}) in
  match buckets l !! key with
  | None => opened
  | Some existing =>
      if reaches (now - windowStartMs existing) (windowMs l) then opened
      else if reaches (count existing) (maxRequests l) then
        (l, {| allowed := false;
               remaining := Finite 0;
               retryAfterSeconds :=
                 match windowMs l with
                 | Finite w =>
                     Finite (Z.max 1 (ceil_div (windowStartMs existing + w - now) 1000))
                 | other => other
                 end |})
      else
        let counted := (count existing + 1)%Z in
        (with_buckets (<[key := {| windowStartMs := windowStartMs existing;
                                   count := counted |}]> (buckets l)) l,
         {| allowed := true;
            remaining := match maxRequests l with
                         | Finite m => Finite (Z.max 0 (m - counted))
                         | other => other
                         end;
            retryAfterSeconds := Finite 0 |})
  end.

(** A sequence of checks [(key, now)]: the limiter left and the decisions. *)
Fixpoint run (calls : list (string * Z)) (l : FixedWindowRateLimiter)
    : FixedWindowRateLimiter * list (string * RateLimitDecision) :=
  match calls with
  | [] => (l, [])
  | (key, now) :: rest =>
      let '(l, d) := check key now l in
      let '(l, ds) := run rest l in
      (l, (key, d) :: ds)
  end.

(** The number of allowed checks of a key among the decisions. *)
Definition allowed_for (key : string) (ds : list (string * RateLimitDecision)) : nat :=
  length (List.filter (fun kd => String.eqb (fst kd) key && allowed (snd kd)) ds).

End RateLimit.

Module RateLimitFacts.
Import JsNumber RateLimit.

Lemma check_limits key now l :
  windowMs (fst (check key now l)) = windowMs l
  /\ maxRequests (fst (check key now l)) = maxRequests l.
Proof.
  unfold check. cbv zeta.
  destruct (buckets (cleanup now l) !! key) as [existing|]; [|split; reflexivity].
  destruct (reaches _ (windowMs _)); [split; reflexivity|].
  destruct (reaches _ (maxRequests _)); split; reflexivity.
Qed.

Lemma cleanup_lookup now l key :
  buckets (cleanup now l) !! key
  = match buckets l !! key with
    | Some bucket => if stale l now bucket then None else Some bucket
    | None => None
    end.
Proof.
  unfold cleanup. cbn [buckets with_buckets].
  destruct (buckets l !! key) as [bucket|] eqn:Hl.
  - destruct (stale l now bucket) eqn:Hs.
    + apply map_lookup_filter_None. right. intros b Hb. rewrite Hl in Hb.
      injection Hb as <-. cbn. congruence.
    + apply map_lookup_filter_Some. split; [assumption | exact Hs].
  - apply map_lookup_filter_None. now left.
Qed.

(** The bucket of another key after a check. *)
Lemma check_other key other now l :
  other <> key ->
  buckets (fst (check key now l)) !! other = buckets (cleanup now l) !! other.
Proof.
  intros Hne. unfold check. cbv zeta.
  destruct (buckets (cleanup now l) !! key) as [existing|]; cbn [fst buckets with_buckets].
  - destruct (reaches _ (windowMs _)); cbn [fst buckets with_buckets];
      [now rewrite lookup_insert_ne|].
    destruct (reaches _ (maxRequests _)); cbn [fst buckets with_buckets];
      [reflexivity | now rewrite lookup_insert_ne].
  - now rewrite lookup_insert_ne.
Qed.

Section Window.
Variables (w m : Z).
Hypothesis Hw : (0 < w)%Z.

(** The limits of the limiter are the integers [w] and [m]. *)
Definition limits (l : FixedWindowRateLimiter) : Prop :=
  windowMs l = Finite w /\ maxRequests l = Finite m.

Lemma check_keeps_limits key now l : limits l -> limits (fst (check key now l)).
Proof.
  intros [Hlw Hlm]. destruct (check_limits key now l) as [H1 H2]. split; congruence.
Qed.

Lemma cleanup_in_window now l key t0 c :
  limits l -> (now - t0 < w)%Z ->
  buckets l !! key = Some {| windowStartMs := t0; count := c |} ->
  buckets (cleanup now l) !! key = Some {| windowStartMs := t0; count := c |}.
Proof.
  intros [Hlw _] Hnow Hb. rewrite cleanup_lookup, Hb. unfold stale. rewrite Hlw.
  cbn [scale reaches windowStartMs].
  replace (w * 2 <=? now - t0)%Z with false; [reflexivity|].
  symmetry. apply Z.leb_gt. lia.
Qed.

(** A check of the key inside its window. *)
Lemma check_in_window key now l t0 c :
  limits l -> (now - t0 < w)%Z ->
  buckets l !! key = Some {| windowStartMs := t0; count := c |} ->
  allowed (snd (check key now l)) = (c <? m)%Z
  /\ buckets (fst (check key now l)) !! key
     = Some {| windowStartMs := t0; count := if (c <? m)%Z then c + 1 else c |}.
Proof.
  intros Hl Hnow Hb. pose proof (cleanup_in_window now l key t0 c Hl Hnow Hb) as Hc.
  destruct Hl as [Hlw Hlm]. unfold check. cbv zeta. rewrite Hc.
  change (windowMs (cleanup now l)) with (windowMs l).
  change (maxRequests (cleanup now l)) with (maxRequests l).
  rewrite Hlw, Hlm. cbn [reaches windowStartMs count].
  replace (w <=? now - t0)%Z with false by (symmetry; apply Z.leb_gt; lia).
  rewrite Z.leb_antisym. destruct (c <? m)%Z; cbn [negb fst snd allowed].
  - split; [reflexivity|]. cbn [buckets with_buckets]. apply lookup_insert_eq.
  - split; [reflexivity | exact Hc].
Qed.

Lemma check_other_in_window key other now l t0 c :
  limits l -> (now - t0 < w)%Z -> other <> key ->
  buckets l !! key = Some {| windowStartMs := t0; count := c |} ->
  buckets (fst (check other now l)) !! key = Some {| windowStartMs := t0; count := c |}.
Proof.
  intros Hl Hnow Hne Hb. rewrite check_other by congruence.
  now apply cleanup_in_window.
Qed.

(** The checks of a key among the calls. *)
Definition checks_of (key : string) (calls : list (string * Z)) : nat :=
  length (List.filter (fun call => String.eqb (fst call) key) calls).

Lemma run_cons key now rest l :
  snd (run ((key, now) :: rest) l)
  = (key, snd (check key now l)) :: snd (run rest (fst (check key now l))).
Proof.
  cbn [run]. destruct (check key now l) as [l' d]. cbn [fst snd].
  now destruct (run rest l').
Qed.

Lemma run_in_window key t0 calls :
  forall l c,
    limits l ->
    Forall (fun call => (snd call - t0 < w)%Z) calls ->
    buckets l !! key = Some {| windowStartMs := t0; count := c |} ->
    Z.of_nat (allowed_for key (snd (run calls l)))
    = Z.max 0 (Z.min (Z.of_nat (checks_of key calls)) (m - c)).
Proof.
  induction calls as [|[other now] rest IH]; intros l c Hl Hcalls Hb.
  - cbn. lia.
  - inversion Hcalls as [|? ? Hnow Hrest]; subst. cbn [snd] in Hnow.
    rewrite run_cons. unfold allowed_for, checks_of in *. cbn [List.filter fst snd].
    destruct (String.eqb_spec other key) as [->|Hne]; cbn [andb].
    + destruct (check_in_window key now l t0 c Hl Hnow Hb) as [Ha Hb'].
      rewrite Ha. pose proof (check_keeps_limits key now l Hl) as Hl'.
      destruct (c <? m)%Z eqn:Hlt; cbn [length].
      * rewrite !Nat2Z.inj_succ, (IH _ (c + 1)%Z Hl' Hrest Hb').
        apply Z.ltb_lt in Hlt. lia.
      * rewrite Nat2Z.inj_succ, (IH _ c Hl' Hrest Hb'). apply Z.ltb_ge in Hlt. lia.
    + apply (IH _ c); [now apply check_keeps_limits | assumption|].
      now apply check_other_in_window.
Qed.

(** X22. A key that has no bucket, or whose window has run its length,
    opens a window with its next check, which is allowed. Of the checks of
    that key made before the window has run its length, whatever other keys
    are checked in between and in whatever order the clock readings come,
    exactly the first [maxRequests - 1] are allowed: no key gets more than
    [maxRequests] requests through in one window. *)
Theorem window_quota (l : FixedWindowRateLimiter) (key : string) (t0 : Z)
    (calls : list (string * Z)) :
  limits l ->
  match buckets l !! key with
  | Some bucket => (w <= t0 - windowStartMs bucket)%Z
  | None => True
  end ->
  Forall (fun call => (snd call - t0 < w)%Z) calls ->
  let first := check key t0 l in
  snd first = {| allowed := true; remaining := Finite (m - 1); retryAfterSeconds := Finite 0 |}
  /\ Z.of_nat (allowed_for key (snd (run calls (fst first))))
     = Z.max 0 (Z.min (Z.of_nat (checks_of key calls)) (m - 1))
  /\ (Z.of_nat (allowed_for key (snd (run ((key, t0) :: calls) l))) <= Z.max 1 m)%Z.
Proof.
  intros Hl Hopen Hcalls. cbv zeta.
  assert (Hfirst : snd (check key t0 l)
                   = {| allowed := true; remaining := Finite (m - 1);
                        retryAfterSeconds := Finite 0 |}
                   /\ buckets (fst (check key t0 l)) !! key
                      = Some {| windowStartMs := t0; count := 1 |}).
  { destruct Hl as [Hlw Hlm]. unfold check. cbv zeta. rewrite cleanup_lookup.
    change (windowMs (cleanup t0 l)) with (windowMs l).
    change (maxRequests (cleanup t0 l)) with (maxRequests l).
    rewrite Hlw, Hlm.
    assert (Hopened : buckets (with_buckets
                         (<[key := {| windowStartMs := t0; count := 1 |}]>
                            (buckets (cleanup t0 l))) (cleanup t0 l)) !! key
                      = Some {| windowStartMs := t0; count := 1 |})
      by (cbn [buckets with_buckets]; apply lookup_insert_eq).
    destruct (buckets l !! key) as [bucket|]; [|now split].
    destruct (stale l t0 bucket); [now split|].
    cbn [reaches]. apply Z.leb_le in Hopen. rewrite Hopen. now split. }
  destruct Hfirst as [Hd Hb]. split; [exact Hd|].
  pose proof (run_in_window key t0 calls _ 1%Z (check_keeps_limits key t0 l Hl) Hcalls Hb)
    as Hrun.
  split; [exact Hrun|].
  rewrite run_cons. unfold allowed_for in *. cbn [List.filter fst snd].
  rewrite String.eqb_refl, Hd. cbn [andb allowed length].
  rewrite Nat2Z.inj_succ, Hrun. lia.
Qed.

End Window.

Lemma ceil_div_bound a : (a <= 1000 * ceil_div a 1000 < a + 1000)%Z.
Proof. unfold ceil_div. Z.div_mod_to_equations. lia. Qed.

(** X23. The retry hint is honest and tight. When a check is refused,
    nothing is counted and [retryAfterSeconds] is at least 1; the same key
    checked again that many seconds later, or any time after, is allowed
    and opens a new window, and checked again a full second earlier than
    that, or any time before, it is still refused. *)
Theorem retry_after_is_enough (w m : Z) (l : FixedWindowRateLimiter) (key : string)
    (now later : Z) :
  (0 < w)%Z ->
  windowMs l = Finite w ->
  maxRequests l = Finite m ->
  allowed (snd (check key now l)) = false ->
  exists seconds,
    retryAfterSeconds (snd (check key now l)) = Finite seconds
    /\ (1 <= seconds)%Z
    /\ remaining (snd (check key now l)) = Finite 0
    /\ fst (check key now l) = cleanup now l
    /\ ((now + 1000 * seconds <= later)%Z ->
        snd (check key later (fst (check key now l)))
        = {| allowed := true; remaining := Finite (m - 1); retryAfterSeconds := Finite 0 |})
    /\ ((later <= now + 1000 * (seconds - 1))%Z ->
        allowed (snd (check key later (fst (check key now l)))) = false).
Proof.
  intros Hw Hlw Hlm. unfold check at 1. cbv zeta.
  destruct (buckets (cleanup now l) !! key) as [existing|] eqn:Hb; [|discriminate].
  change (windowMs (cleanup now l)) with (windowMs l).
  change (maxRequests (cleanup now l)) with (maxRequests l).
  rewrite Hlw, Hlm. cbn [reaches].
  destruct (w <=? now - windowStartMs existing)%Z eqn:Hin; [discriminate|].
  destruct (m <=? count existing)%Z eqn:Hfull; [|discriminate].
  intros _. apply Z.leb_gt in Hin.
  set (left := (windowStartMs existing + w - now)%Z).
  pose proof (ceil_div_bound left) as Hceil.
  exists (Z.max 1 (ceil_div left 1000)).
  assert (Hcheck : check key now l
                   = (cleanup now l,
                      {| allowed := false; remaining := Finite 0;
                         retryAfterSeconds := Finite (Z.max 1 (ceil_div left 1000)) |})).
  { unfold check. cbv zeta. rewrite Hb.
    change (windowMs (cleanup now l)) with (windowMs l).
    change (maxRequests (cleanup now l)) with (maxRequests l).
    rewrite Hlw, Hlm. cbn [reaches].
    apply Z.leb_gt in Hin. now rewrite Hin, Hfull. }
  rewrite Hcheck. cbn [fst snd retryAfterSeconds remaining].
  split; [reflexivity|]. split; [lia|].
  split; [reflexivity|]. split; [reflexivity|]. split.
  - intros Hlater. unfold check. cbv zeta. rewrite cleanup_lookup, Hb.
    change (windowMs (cleanup later (cleanup now l))) with (windowMs l).
    change (maxRequests (cleanup later (cleanup now l))) with (maxRequests l).
    rewrite Hlw, Hlm.
    destruct (stale (cleanup now l) later existing); [reflexivity|].
    cbn [reaches snd].
    replace (w <=? later - windowStartMs existing)%Z with true; [reflexivity|].
    symmetry. apply Z.leb_le. subst left. lia.
  - intros Hearly. unfold check. cbv zeta. rewrite cleanup_lookup, Hb.
    change (windowMs (cleanup later (cleanup now l))) with (windowMs l).
    change (maxRequests (cleanup later (cleanup now l))) with (maxRequests l).
    rewrite Hlw, Hlm.
    assert (Hstill : (later - windowStartMs existing < w)%Z) by (subst left; lia).
    unfold stale. change (windowMs (cleanup now l)) with (windowMs l). rewrite Hlw.
    cbn [scale reaches].
    replace (w * 2 <=? later - windowStartMs existing)%Z with false
      by (symmetry; apply Z.leb_gt; lia).
    replace (w <=? later - windowStartMs existing)%Z with false
      by (symmetry; apply Z.leb_gt; lia).
    now rewrite Hfull.
Qed.

(** *** Keys do not share quota *)

Lemma reaches_later a a' b : (a <= a')%Z -> reaches a b = true -> reaches a' b = true.
Proof. destruct b; cbn; try discriminate. rewrite !Z.leb_le. lia. Qed.

Lemma stale_expired l now later bucket :
  match windowMs l with Finite w => (0 <= w)%Z | _ => True end ->
  (now <= later)%Z ->
  stale l now bucket = true ->
  stale l later bucket = true /\ reaches (later - windowStartMs bucket) (windowMs l) = true.
Proof.
  unfold stale. destruct (windowMs l) as [| |w]; cbn; try discriminate.
  rewrite !Z.leb_le. lia.
Qed.

(** What a check of [key] at [later] sees of the bucket of [key]. *)
Definition seen (l : FixedWindowRateLimiter) (key : string) (later : Z) : option Bucket :=
  match buckets (cleanup later l) !! key with
  | Some bucket =>
      if reaches (later - windowStartMs bucket) (windowMs l) then None else Some bucket
  | None => None
  end.

Lemma check_by_seen key later l l' :
  windowMs l' = windowMs l -> maxRequests l' = maxRequests l ->
  seen l' key later = seen l key later ->
  snd (check key later l') = snd (check key later l).
Proof.
  intros Hlw Hlm. unfold seen, check. cbv zeta.
  change (windowMs (cleanup later l')) with (windowMs l').
  change (maxRequests (cleanup later l')) with (maxRequests l').
  change (windowMs (cleanup later l)) with (windowMs l).
  change (maxRequests (cleanup later l)) with (maxRequests l).
  rewrite Hlw, Hlm.
  destruct (buckets (cleanup later l') !! key) as [b'|],
           (buckets (cleanup later l) !! key) as [b|];
    repeat match goal with
           | |- context [reaches (later - windowStartMs ?x) (windowMs l)] =>
               destruct (reaches (later - windowStartMs x) (windowMs l))
           end; try discriminate; try reflexivity.
  intros [= ->]. destruct (reaches (count b) (maxRequests l)); reflexivity.
Qed.

(** X24. Keys do not share quota: a check of one key, allowed or refused,
    changes no later decision on another key. (The clock does not run
    backwards between the two checks.) *)
Theorem keys_are_independent (l : FixedWindowRateLimiter) (key other : string)
    (now later : Z) :
  match windowMs l with Finite w => (0 <= w)%Z | _ => True end ->
  other <> key ->
  (now <= later)%Z ->
  snd (check key later (fst (check other now l))) = snd (check key later l).
Proof.
  intros Hw Hne Hlater.
  destruct (check_limits other now l) as [Hlw Hlm].
  apply check_by_seen; [assumption | assumption|].
  unfold seen. rewrite Hlw.
  rewrite !cleanup_lookup, check_other by congruence. rewrite cleanup_lookup.
  destruct (buckets l !! key) as [bucket|]; [|reflexivity].
  assert (Hsame : forall l', windowMs l' = windowMs l ->
                             stale l' later bucket = stale l later bucket).
  { intros l' H. unfold stale. now rewrite H. }
  destruct (stale l now bucket) eqn:Hstale.
  - destruct (stale_expired l now later bucket Hw Hlater Hstale) as [-> _]. reflexivity.
  - now rewrite (Hsame (fst (check other now l)) Hlw).
Qed.

(** *** Limits that are not numbers *)

(** What the constructor makes of its arguments. Finite arguments
    give a window of at least 1000 ms and a limit of at least 1. A limit
    that is NaN or infinite refuses nothing. A window that is NaN or
    infinite never ends: a bucket is then never reset nor removed, and a key
    that has used up its limit is refused at every later time. *)
Theorem limits_of_constructor (windowSeconds maxRequestsArg : number)
    (l : FixedWindowRateLimiter) (key : string) (now : Z) :
  windowMs l = windowMs (make windowSeconds maxRequestsArg) ->
  maxRequests l = maxRequests (make windowSeconds maxRequestsArg) ->
  (forall a b, windowSeconds = Fin a -> maxRequestsArg = Fin b ->
     exists w m, windowMs l = Finite w /\ maxRequests l = Finite m
                 /\ w = (1000 * Z.max 1 (Qfloor a))%Z /\ m = Z.max 1 (Qfloor b)
                 /\ (1000 <= w)%Z /\ (1 <= m)%Z)
  /\ (maxRequestsArg = NaN \/ maxRequestsArg = PosInf ->
      allowed (snd (check key now l)) = true)
  /\ (windowSeconds = NaN \/ windowSeconds = PosInf ->
      forall bucket,
        buckets l !! key = Some bucket ->
        reaches (count bucket) (maxRequests l) = true ->
        allowed (snd (check key now l)) = false
        /\ fst (check key now l) = cleanup now l
        /\ buckets (cleanup now l) !! key = Some bucket).
Proof.
  intros Hlw Hlm. unfold make in Hlw, Hlm. cbn [windowMs maxRequests] in Hlw, Hlm.
  split; [|split].
  - intros a b -> ->. cbn in Hlw, Hlm. eexists _, _. split; [exact Hlw|].
    split; [exact Hlm|]. split; [lia|]. split; [reflexivity|]. lia.
  - intros Hnan. unfold check. cbv zeta.
    change (maxRequests (cleanup now l)) with (maxRequests l).
    assert (Hnever : forall c, reaches c (maxRequests l) = false)
      by (intros c; rewrite Hlm; now destruct Hnan as [-> | ->]).
    destruct (buckets (cleanup now l) !! key); [|reflexivity].
    destruct (reaches _ (windowMs _)); [reflexivity|]. now rewrite Hnever.
  - intros Hnan bucket Hb Hfull.
    assert (Hnever : forall c, reaches c (windowMs l) = false
                               /\ reaches c (scale 2 (windowMs l)) = false)
      by (intros c; rewrite Hlw; now destruct Hnan as [-> | ->]).
    assert (Hkept : buckets (cleanup now l) !! key = Some bucket).
    { rewrite cleanup_lookup, Hb. unfold stale. now rewrite (proj2 (Hnever _)). }
    unfold check. cbv zeta. rewrite Hkept.
    change (windowMs (cleanup now l)) with (windowMs l).
    change (maxRequests (cleanup now l)) with (maxRequests l).
    rewrite (proj1 (Hnever _)), Hfull. repeat split.
Qed.

(** *** A limiter of two requests a minute *)

Definition two_a_minute : FixedWindowRateLimiter := make (of_Z 60) (of_Z 2).

Definition used_up : FixedWindowRateLimiter :=
  fst (run [("a", 1000); ("a", 2000)]%Z two_a_minute).

Lemma window_quota_two_a_minute :
  let calls := [("a", 2000); ("b", 3000); ("a", 4000); ("a", 60999)]%Z in
  let first := check "a" 1000 two_a_minute in
  snd first = {| allowed := true; remaining := Finite (2 - 1); retryAfterSeconds := Finite 0 |}
  /\ Z.of_nat (allowed_for "a" (snd (run calls (fst first))))
     = Z.max 0 (Z.min (Z.of_nat (checks_of "a" calls)) (2 - 1))
  /\ (Z.of_nat (allowed_for "a" (snd (run (("a", 1000%Z) :: calls) two_a_minute)))
      <= Z.max 1 2)%Z.
Proof.
  apply (window_quota 60000 2 eq_refl two_a_minute "a" 1000
           [("a", 2000); ("b", 3000); ("a", 4000); ("a", 60999)]%Z).
  - split; reflexivity.
  - exact I.
  - repeat constructor.
Defined.

Lemma retry_after_is_enough_used_up :
  exists seconds,
    retryAfterSeconds (snd (check "a" 3000 used_up)) = Finite seconds
    /\ (1 <= seconds)%Z
    /\ remaining (snd (check "a" 3000 used_up)) = Finite 0
    /\ fst (check "a" 3000 used_up) = cleanup 3000 used_up
    /\ ((3000 + 1000 * seconds <= 61000)%Z ->
        snd (check "a" 61000 (fst (check "a" 3000 used_up)))
        = {| allowed := true; remaining := Finite (2 - 1); retryAfterSeconds := Finite 0 |})
    /\ ((61000 <= 3000 + 1000 * (seconds - 1))%Z ->
        allowed (snd (check "a" 61000 (fst (check "a" 3000 used_up)))) = false).
Proof.
  apply (retry_after_is_enough 60000 2 used_up "a" 3000 61000); reflexivity.
Defined.

(** The run behind it: the third request of the minute is refused with a
    hint of 58 seconds, and the request 58 seconds later is allowed. *)
Example two_a_minute_runs :
  map (fun kd => (allowed (snd kd), remaining (snd kd), retryAfterSeconds (snd kd)))
    (snd (run [("a", 1000); ("a", 2000); ("a", 3000); ("b", 3000); ("a", 60999); ("a", 61000)]%Z
            two_a_minute))
  = [ (true, Finite 1, Finite 0); (true, Finite 0, Finite 0); (false, Finite 0, Finite 58);
      (true, Finite 1, Finite 0); (false, Finite 0, Finite 1); (true, Finite 1, Finite 0) ].
Proof. vm_compute. reflexivity. Qed.

Lemma keys_are_independent_two_keys :
  snd (check "a" 3500 (fst (check "b" 3000 used_up))) = snd (check "a" 3500 used_up).
Proof.
  apply (keys_are_independent used_up "a" "b" 3000 3500).
  - vm_compute. discriminate.
  - discriminate.
  - lia.
Defined.

Lemma limits_of_constructor_nan_window :
  let l := fst (run [("a", 1000); ("a", 2000)]%Z (make NaN (of_Z 2))) in
  (forall a b, NaN = Fin a -> of_Z 2 = Fin b ->
     exists w m, windowMs l = Finite w /\ maxRequests l = Finite m
                 /\ w = (1000 * Z.max 1 (Qfloor a))%Z /\ m = Z.max 1 (Qfloor b)
                 /\ (1000 <= w)%Z /\ (1 <= m)%Z)
  /\ (of_Z 2 = NaN \/ of_Z 2 = PosInf ->
      allowed (snd (check "a" 99000000 l)) = true)
  /\ (NaN = NaN \/ NaN = PosInf ->
      forall bucket,
        buckets l !! "a" = Some bucket ->
        reaches (count bucket) (maxRequests l) = true ->
        allowed (snd (check "a" 99000000 l)) = false
        /\ fst (check "a" 99000000 l) = cleanup 99000000 l
        /\ buckets (cleanup 99000000 l) !! "a" = Some bucket).
Proof.
  apply (limits_of_constructor NaN (of_Z 2)
           (fst (run [("a", 1000); ("a", 2000)]%Z (make NaN (of_Z 2)))) "a" 99000000);
    reflexivity.
Defined.

(** With a window of NaN seconds the third request of a key is refused
    for ever; with a limit of NaN requests nothing is refused. *)
Example nan_limits_run :
  map (fun kd => allowed (snd kd))
    (snd (run [("a", 1000); ("a", 2000); ("a", 3000); ("a", 99000000)]%Z (make NaN (of_Z 2))))
  = [true; true; false; false]
  /\ map (fun kd => allowed (snd kd))
       (snd (run [("a", 1000); ("a", 1001); ("a", 1002); ("a", 1003)]%Z (make (of_Z 60) NaN)))
     = [true; true; true; true].
Proof. vm_compute. split; reflexivity. Qed.

End RateLimitFacts.

(** ** Redaction ([redactSensitive]) *)

Module Redaction.
Import Js CapabilityCatalog.

Definition SENSITIVE_KEY_PATTERNS : list string :=
  [ "token"; "secret"; "password"; "api_key"; "apikey"; "authorization"; "cookie";
    "private_key" ].

Definition isSensitiveKey (key : string) : bool :=
  let lower := toLowerCase key in
  existsb (fun pattern => includes lower pattern) SENSITIVE_KEY_PATTERNS.

(** [value.slice(0, 3)] and [value.slice(-2)] around three stars. *)
Definition redactString (value : string) : string :=
  if (String.length value <=? 6)%nat then "***"
  else substring 0 3 value +:+ "***" +:+ substring (String.length value - 2) 2 value.

(** The class [[A-Za-z0-9_\-]]. *)
Definition is_token_char (c : ascii) : bool :=
  let n := nat_of_ascii c in
  ((65 <=? n)%nat && (n <=? 90)%nat) || ((97 <=? n)%nat && (n <=? 122)%nat)
  || ((48 <=? n)%nat && (n <=? 57)%nat) || (n =? 95)%nat || (n =? 45)%nat.

(** The test of [/[A-Za-z0-9_\-]{12,}/]: twelve characters of the class in
    a row somewhere; [run] counts the ones just read. *)
Fixpoint token_run (run : nat) (s : string) : bool :=
  (12 <=? run)%nat ||
  match s with
  | EmptyString => false
  | String c s' => if is_token_char c then token_run (S run) s' else token_run 0 s'
  end.

(** [redactSensitive]. The result object is filled by assignment in the
    order of [Object.entries]; an assignment to [__proto__] adds no property
    (it sets or leaves the prototype of the result, which the model does not
    follow). *)
Fixpoint redactSensitive (v : value) : value :=
  match v with
  | JStr s =>
      if (24 <? String.length s)%nat && token_run 0 s then JStr (redactString s) else v
  | JArr items => JArr (map redactSensitive items)
  | JObj fields =>
      JObj (fold_left
              (fun out kv =>
                 assign (fst kv)
                   (if isSensitiveKey (fst kv)
                    then JStr (match snd kv with JStr s => redactString s | _ => "***" end)
                    else redactSensitive (snd kv))
                   out)
              fields [])
  | other => other
  end.

End Redaction.

Module RedactionFacts.
Import Js Redaction CapabilityCatalog CapabilityCatalogFacts CanonicalFacts.

(** A text that shows three characters, three stars and two characters,
    or three stars alone. *)
Definition masked (s : string) : Prop :=
  s = "***"
  \/ exists a b c d e,
       s = String a (String b (String c ("***" +:+ String d (String e "")))).

Lemma substring_length n m s :
  (n + m <= String.length s)%nat -> String.length (substring n m s) = m.
Proof.
  revert n m. induction s as [|ch s IH]; intros n m H; simpl in H.
  - assert (n = 0%nat) as -> by lia. assert (m = 0%nat) as -> by lia. reflexivity.
  - destruct n as [|n]; simpl.
    + destruct m as [|m]; [reflexivity|]. simpl. f_equal. apply IH. simpl. lia.
    + apply IH. lia.
Qed.

Lemma redactString_masked s : masked (redactString s).
Proof.
  unfold redactString. destruct (Nat.leb_spec (String.length s) 6) as [Hle|Hgt]; [now left|].
  right.
  assert (H3 : String.length (substring 0 3 s) = 3%nat) by (apply substring_length; lia).
  assert (H2 : String.length (substring (String.length s - 2) 2 s) = 2%nat)
    by (apply substring_length; lia).
  destruct (substring 0 3 s) as [|a [|b [|c [|]]]]; try discriminate.
  destruct (substring (String.length s - 2) 2 s) as [|d [|e [|]]]; try discriminate.
  now exists a, b, c, d, e.
Qed.

Lemma masked_fixed s : masked s -> redactString s = s.
Proof. intros [->|(a & b & c & d & e & ->)]; reflexivity. Qed.

Lemma masked_short s : masked s -> (String.length s <= 8)%nat.
Proof. intros [->|(a & b & c & d & e & ->)]; simpl; lia. Qed.

(** The field [redactSensitive] writes for an entry. *)
Definition redacted_field (kv : string * value) : value :=
  if isSensitiveKey (fst kv)
  then JStr (match snd kv with JStr s => redactString s | _ => "***" end)
  else redactSensitive (snd kv).

Definition redact_fields (fields acc : list (string * value)) : list (string * value) :=
  fold_left (fun out kv => assign (fst kv) (redacted_field kv) out) fields acc.

Lemma redactSensitive_object fields :
  redactSensitive (JObj fields) = JObj (redact_fields fields []).
Proof. reflexivity. Qed.

(** What the loop of [redactSensitive] leaves in the result object. *)
Definition from (fields : list (string * value)) (entry : string * value) : Prop :=
  fst entry <> "__proto__"
  /\ exists y, In (fst entry, y) fields /\ snd entry = redacted_field (fst entry, y).

Lemma redact_fields_spec fields acc :
  List.NoDup (map fst acc) ->
  Forall (from fields) acc ->
  JsObjectFacts.ordered acc ->
  forall more, incl more fields ->
  List.NoDup (map fst (redact_fields more acc))
  /\ Forall (from fields) (redact_fields more acc)
  /\ JsObjectFacts.ordered (redact_fields more acc).
Proof.
  intros Hnd Hacc Hord more. revert acc Hnd Hacc Hord.
  induction more as [|[k y] more IH]; intros acc Hnd Hacc Hord Hincl; [now repeat split|].
  unfold redact_fields. cbn [fold_left fst]. apply IH.
  - now apply assign_distinct.
  - apply List.Forall_forall. intros [k' x] Hin.
    apply JsObjectFacts.set_In in Hin as [[[= -> ->] Hp]|Hin].
    + split; [assumption|]. exists y. split; [apply Hincl; now left | reflexivity].
    + rewrite List.Forall_forall in Hacc. now apply Hacc.
  - now apply JsObjectFacts.set_ordered.
  - intros e He. apply Hincl. now right.
Qed.

(** On entries in enumeration order, with distinct keys, that the loop
    maps to themselves, it rebuilds the object as it is. *)
Lemma redact_fields_fixed l acc :
  List.NoDup (map fst (acc ++ l)) ->
  JsObjectFacts.ordered (acc ++ l) ->
  Forall (fun kv => fst kv <> "__proto__" /\ redacted_field kv = snd kv) l ->
  redact_fields l acc = acc ++ l.
Proof.
  revert acc. induction l as [|[k x] l IH]; intros acc Hnd Hord Hl.
  - now rewrite app_nil_r.
  - apply List.Forall_cons_iff in Hl as [[Hp Hx] Hl]. cbn [fst snd] in Hp, Hx.
    assert (Hsplit : acc ++ (k, x) :: l = (acc ++ [(k, x)]) ++ l)
      by now rewrite <- app_assoc.
    unfold redact_fields. cbn [fold_left fst]. rewrite Hx.
    unfold assign. rewrite JsObjectFacts.set_last; [|assumption| |].
    + change (redact_fields l (acc ++ [(k, x)]) = acc ++ (k, x) :: l).
      rewrite IH; [now rewrite <- app_assoc | now rewrite <- Hsplit | now rewrite <- Hsplit
                   | assumption].
    + rewrite map_app in Hnd. cbn [map fst] in Hnd.
      apply NoDup_remove_2 in Hnd. intros Hin. apply Hnd. apply in_app_iff. now left.
    + unfold JsObjectFacts.ordered in *. rewrite Hsplit, map_app in Hord.
      now apply StronglySorted_app_1_l in Hord.
Qed.

(** X25. Redaction is idempotent: redacting a redacted value changes
    nothing more. *)
Theorem redactSensitive_idempotent (v : value) :
  redactSensitive (redactSensitive v) = redactSensitive v.
Proof.
  induction v as [| | | |s|items IH|fields IH] using value_induction; try reflexivity.
  - cbn [redactSensitive].
    destruct ((24 <? String.length s)%nat && token_run 0 s) eqn:Hlong.
    + cbn [redactSensitive].
      pose proof (masked_short _ (redactString_masked s)) as Hshort.
      destruct (Nat.ltb_spec 24 (String.length (redactString s))); [lia | reflexivity].
    + cbn [redactSensitive]. now rewrite Hlong.
  - cbn [redactSensitive]. f_equal. rewrite map_map. apply map_ext_in.
    intros item Hin. rewrite List.Forall_forall in IH. now apply IH.
  - rewrite !redactSensitive_object. f_equal.
    destruct (redact_fields_spec fields [] (List.NoDup_nil _) (List.Forall_nil _)
                (SSorted_nil _) fields (incl_refl _)) as (Hnd & Hfrom & Hord).
    change (redact_fields (redact_fields fields []) [] = [] ++ redact_fields fields []).
    apply redact_fields_fixed; [assumption | assumption |].
    eapply List.Forall_impl; [|exact Hfrom].
    intros [k x] [Hp (y & Hin & Hx)]. cbn [fst snd] in *. split; [assumption|].
    subst x. unfold redacted_field. cbn [fst snd].
    destruct (isSensitiveKey k).
    + destruct y; try reflexivity. now rewrite (masked_fixed _ (redactString_masked _)).
    + rewrite List.Forall_forall in IH. apply (IH (k, y) Hin).
Qed.

(** A step into a value: to a property of an object or to an element of
    an array. *)
Inductive step := Key (k : string) | Index (i : nat).

(** [field_at v path k x]: the object reached from [v] along [path] has
    the property [k] with value [x]. *)
Inductive field_at : value -> list step -> string -> value -> Prop :=
| field_here fields k x : In (k, x) fields -> field_at (JObj fields) [] k x
| field_under fields k' y path k x :
    In (k', y) fields -> field_at y path k x -> field_at (JObj fields) (Key k' :: path) k x
| field_item items i item path k x :
    nth_error items i = Some item -> field_at item path k x ->
    field_at (JArr items) (Index i :: path) k x.

(** What is shown of a secret [y]: three stars, alone when [y] is no string
    or a string of six characters or fewer, and else between its first
    three and its last two characters, the rest (two characters at least)
    left out. *)
Definition shown (y x : value) : Prop :=
  match y with
  | JStr s =>
      if (String.length s <=? 6)%nat then x = JStr "***"
      else exists a hidden b,
             s = a +:+ hidden +:+ b
             /\ String.length a = 3%nat /\ String.length b = 2%nat
             /\ (2 <= String.length hidden)%nat
             /\ x = JStr (a +:+ "***" +:+ b)
  | _ => x = JStr "***"
  end.

Lemma substring_app n p q s :
  (n + p + q <= String.length s)%nat ->
  substring n (p + q) s = substring n p s +:+ substring (n + p) q s.
Proof.
  revert n p q. induction s as [|c s IH]; intros n p q H; cbn [String.length] in H.
  - assert (n = 0%nat) as -> by lia. assert (p = 0%nat) as -> by lia.
    assert (q = 0%nat) as -> by lia. reflexivity.
  - destruct n as [|n].
    + destruct p as [|p]; [reflexivity|].
      cbn. rewrite JsonTextFacts.app_cons. f_equal. apply (IH 0%nat p q). lia.
    + cbn [Nat.add substring]. apply IH. lia.
Qed.

Lemma substring_all s : substring 0 (String.length s) s = s.
Proof. induction s as [|c s IH]; [reflexivity|]. cbn. now rewrite IH. Qed.

Lemma redactString_shown s : shown (JStr s) (JStr (redactString s)).
Proof.
  unfold shown, redactString. destruct (Nat.leb_spec (String.length s) 6) as [Hle|Hgt];
    [reflexivity|].
  set (n := String.length s) in *.
  exists (substring 0 3 s), (substring 3 (n - 5) s), (substring (n - 2) 2 s).
  repeat split.
  - rewrite <- (substring_all s) at 1. fold n.
    replace n with (3 + ((n - 5) + 2))%nat at 1 by lia.
    rewrite (substring_app 0 3 _ s) by (fold n; lia).
    rewrite (substring_app (0 + 3) (n - 5) 2 s) by (fold n; lia).
    now replace (0 + 3 + (n - 5))%nat with (n - 2)%nat by lia.
  - apply substring_length. fold n. lia.
  - apply substring_length. fold n. lia.
  - rewrite substring_length by (fold n; lia). lia.
Qed.

Lemma redacted_field_shown k y :
  isSensitiveKey k = true -> shown y (redacted_field (k, y)).
Proof.
  intros Hk. unfold redacted_field. cbn [fst snd]. rewrite Hk.
  destruct y; try reflexivity. apply redactString_shown.
Qed.

(** X26. In the value [redactSensitive] returns, a field whose key is
    sensitive (its lowercase form contains one of the eight patterns), at
    any depth, stands for a field of the argument with the same key at the
    same place, and shows of it three stars only when that was no string
    or a string of six characters or fewer, and else its first three and
    last two characters around three stars, two characters at least being
    left out. *)
Theorem sensitive_fields_masked (v : value) (path : list step) (k : string) (x : value) :
  field_at (redactSensitive v) path k x ->
  isSensitiveKey k = true ->
  exists y, field_at v path k y /\ shown y x.
Proof.
  revert path k x.
  induction v as [| | | |s|items IH|fields IH] using value_induction;
    intros path k x Hin Hk; try (cbn [redactSensitive] in Hin; now inversion Hin).
  - cbn [redactSensitive] in Hin.
    destruct ((24 <? String.length s)%nat && token_run 0 s); inversion Hin.
  - cbn [redactSensitive] in Hin.
    inversion Hin as [| |? i item rest ? ? Hitem Hfield]; subst.
    rewrite nth_error_map in Hitem.
    destruct (nth_error items i) as [orig|] eqn:Horig; [|discriminate].
    injection Hitem as <-. rewrite List.Forall_forall in IH.
    destruct (IH orig (nth_error_In _ _ Horig) rest k x Hfield Hk) as (y & Hy & Hshown).
    exists y. split; [|assumption]. now apply (field_item items i orig).
  - rewrite redactSensitive_object in Hin.
    destruct (redact_fields_spec fields [] (List.NoDup_nil _) (List.Forall_nil _)
                (SSorted_nil _) fields (incl_refl _)) as (_ & Hfrom & _).
    rewrite List.Forall_forall in Hfrom.
    inversion Hin as [? ? ? Hhere|? k' y' rest ? ? Hunder Hfield|]; subst.
    + destruct (Hfrom _ Hhere) as [_ (y & Hy & Hx)]. cbn [fst snd] in Hx, Hy.
      exists y. split; [now apply field_here|]. subst x. now apply redacted_field_shown.
    + destruct (Hfrom _ Hunder) as [_ (y & Hy & Hx)]. cbn [fst snd] in Hx, Hy.
      unfold redacted_field in Hx. cbn [fst snd] in Hx.
      destruct (isSensitiveKey k'); [subst y'; inversion Hfield|].
      subst y'. rewrite List.Forall_forall in IH.
      destruct (IH (k', y) Hy rest k x Hfield Hk) as (y0 & Hy0 & Hshown).
      exists y0. split; [|assumption]. now apply (field_under fields k' y).
Qed.

Lemma sensitive_fields_masked_password :
  exists y,
    field_at (JArr [JObj [("Password", JStr "hunter2!"); ("pin_token", JStr "12345")]])
      [Index 0] "Password" y
    /\ shown y (JStr "hun***2!").
Proof.
  apply (sensitive_fields_masked
           (JArr [JObj [("Password", JStr "hunter2!"); ("pin_token", JStr "12345")]])
           [Index 0] "Password").
  - apply (field_item _ 0 (JObj [("Password", JStr "hun***2!"); ("pin_token", JStr "***")]));
      [reflexivity|]. apply field_here. now left.
  - reflexivity.
Defined.

Example redactSensitive_runs :
  redactSensitive
    (JObj [ ("user", JStr "ann");
            ("API_Key", JStr "sk-live-12345");
            ("password", JStr "hunter");
            ("session", JObj [("Cookie", JNum 5); ("__proto__", JNull)]);
            ("note", JStr "Bearer abcdefghijklmnopqrstuvwxyz");
            ("text", JStr "a long sentence, but of short words") ])
  = JObj [ ("user", JStr "ann");
           ("API_Key", JStr "sk-***45");
           ("password", JStr "***");
           ("session", JObj [("Cookie", JStr "***")]);
           ("note", JStr "Bea***yz");
           ("text", JStr "a long sentence, but of short words") ].
Proof. vm_compute. reflexivity. Qed.

End RedactionFacts.

(** ** Channel hub ([ChannelHub]) *)

Module Hubs.
Import Js JsNumber Sha256 Approval.

(** [Math.floor(x)] *)
Definition floor (x : number) : number :=
  match x with Fin q => Fin (inject_Z (Qfloor q)) | other => other end.

(** [Math.min(a, b)] *)
Definition min (a b : number) : number :=
  match a, b with
  | NaN, _ | _, NaN => NaN
  | NegInf, _ | _, NegInf => NegInf
  | PosInf, other | other, PosInf => other
  | Fin p, Fin q => Fin (if Qle_bool p q then p else q)
  end.

(** [n > x] for an array length [n] *)
Definition exceeds (n : nat) (x : number) : bool :=
  match x with
  | NaN | PosInf => false
  | NegInf => true
  | Fin q => negb (Qle_bool (inject_Z (Z.of_nat n)) q)
  end.

(** The lengths an array can be given: the integers from 0 to 2^32 - 1. *)
Definition array_length (x : number) : option nat :=
  match x with
  | Fin q =>
      if Qeq_bool (inject_Z (Qfloor q)) q && (0 <=? Qfloor q)%Z && (Qfloor q <? 2 ^ 32)%Z
      then Some (Z.to_nat (Qfloor q)) else None
  | _ => None
  end.

Section Buffer.
Context {A : Type}.

(** [list.unshift(x); if (list.length > maxSize) list.length = maxSize]:
    the array afterwards, and whether the assignment threw. *)
Definition unshift_capped (maxSize : number) (x : A) (l : list A) : list A * bool :=
  let l' := x :: l in
  if exceeds (length l') maxSize
  then match array_length maxSize with
       | Some n => (take n l', false)
       | None => (l', true)
       end
  else (l', false).

(** [list.slice(0, upto)] *)
Definition slice_to (upto : number) (l : list A) : list A :=
  match upto with
  | NaN | NegInf => []
  | PosInf => l
  | Fin q =>
      let e := trunc q in
      if (e <? 0)%Z then take (Z.to_nat (Z.of_nat (length l) + e)) l else take (Z.to_nat e) l
  end.

(** [list.slice(0, Math.min(Math.max(1, Math.floor(limit)), maxSize))] *)
Definition newest (maxSize : number) (limit : option number) (l : list A) : list A :=
  slice_to (min (max_with 1 (floor (default (of_Z 100) limit))) maxSize) l.

End Buffer.

Record ChannelInboundEvent := {
  id : string;
  channel : string;
  source : string;
  sender : string;
  text : string;
  timestamp : string;
  metadata : value
}.

Record ChannelOutboundMessage := {
  o_id : string;
  o_channel : string;
  destination : string;
  o_text : string;
  o_timestamp : string;
  o_metadata : value
}.

(** The argument of [ingestInbound]. *)
Record InboundInput := {
  in_channel : string;
  in_source : string;
  in_sender : string;
  in_text : string;
  in_timestamp : option string;
  in_metadata : value
}.

(** The argument of [queueOutbound]. *)
Record OutboundInput := {
  out_channel : string;
  out_destination : string;
  out_text : string;
  out_timestamp : option string;
  out_metadata : value
}.

Record ChannelHub := {
  inbound : list ChannelInboundEvent;
  outbound : list ChannelOutboundMessage;
  maxSize : number
}.

(** [new ChannelHub(maxSize)] *)
Definition make (maxSizeArg : option number) : ChannelHub :=
  {| inbound := []; outbound := [];
     maxSize := max_with 100 (default (of_Z 2000) maxSizeArg) |}.

(** [given || new Date().toISOString()] *)
Definition stamp (given : option string) (nowIso : string) : string :=
  match given with
  | Some t => if truthy t then t else nowIso
  | None => nowIso
  end.

Definition inbound_event (nowIso : string) (input : InboundInput) : ChannelInboundEvent :=
  let timestamp := stamp (in_timestamp input) nowIso in
  {| id := sha256Hex (in_channel input +:+ "|" +:+ in_source input +:+ "|" +:+ in_sender input
                      +:+ "|" +:+ timestamp +:+ "|"
                      +:+ Attestation.canonical (in_metadata input) +:+ "|" +:+ in_text input);
     channel := in_channel input;
     source := in_source input;
     sender := in_sender input;
     text := in_text input;
     timestamp := timestamp;
     metadata := in_metadata input |}.

Definition outbound_message (nowIso : string) (input : OutboundInput) : ChannelOutboundMessage :=
  let timestamp := stamp (out_timestamp input) nowIso in
  {| o_id := sha256Hex (out_channel input +:+ "|" +:+ out_destination input +:+ "|"
                        +:+ timestamp +:+ "|"
                        +:+ Attestation.canonical (out_metadata input) +:+ "|" +:+ out_text input);
     o_channel := out_channel input;
     destination := out_destination input;
     o_text := out_text input;
     o_timestamp := timestamp;
     o_metadata := out_metadata input |}.

(** [ingestInbound], at a clock reading [nowIso]. *)
Definition ingestInbound (nowIso : string) (input : InboundInput) (hub : ChannelHub)
    : ChannelHub * result ChannelInboundEvent :=
  let event := inbound_event nowIso input in
  let '(kept, threw) := unshift_capped (maxSize hub) event (inbound hub) in
  ({| inbound := kept; outbound := outbound hub; maxSize := maxSize hub |},
   if threw then Throw "Invalid array length" else Ok event).

(** [queueOutbound], at a clock reading [nowIso]. *)
Definition queueOutbound (nowIso : string) (input : OutboundInput) (hub : ChannelHub)
    : ChannelHub * result ChannelOutboundMessage :=
  let message := outbound_message nowIso input in
  let '(kept, threw) := unshift_capped (maxSize hub) message (outbound hub) in
  ({| inbound := inbound hub; outbound := kept; maxSize := maxSize hub |},
   if threw then Throw "Invalid array length" else Ok message).

Definition listInbound (limit : option number) (hub : ChannelHub) : list ChannelInboundEvent :=
  newest (maxSize hub) limit (inbound hub).

Definition listOutbound (limit : option number) (hub : ChannelHub) : list ChannelOutboundMessage :=
  newest (maxSize hub) limit (outbound hub).

(** Inbound events ingested one after the other, each at its clock
    reading; the hub afterwards and how many calls threw. *)
Fixpoint ingest_all (inputs : list (string * InboundInput)) (hub : ChannelHub)
    : ChannelHub * nat :=
  match inputs with
  | [] => (hub, 0%nat)
  | (nowIso, input) :: rest =>
      let '(hub', outcome) := ingestInbound nowIso input hub in
      let '(final, thrown) := ingest_all rest hub' in
      (final, match outcome with Throw _ => S thrown | Ok _ => thrown end)
  end.

End Hubs.

Module HubsFacts.
Import Js JsNumber Sha256 Approval Hubs.

Lemma Qle_bool_Z (a b : Z) : Qle_bool (inject_Z a) (inject_Z b) = (a <=? b)%Z.
Proof.
  destruct (Z.leb_spec a b) as [H|H].
  - apply Qle_bool_iff. now rewrite <- Zle_Qle.
  - destruct (Qle_bool (inject_Z a) (inject_Z b)) eqn:Hq; [|reflexivity].
    apply Qle_bool_iff in Hq. rewrite <- Zle_Qle in Hq. lia.
Qed.

Lemma exceeds_of_Z n c : exceeds n (of_Z c) = (c <? Z.of_nat n)%Z.
Proof. unfold exceeds, of_Z. rewrite Qle_bool_Z. lia. Qed.

Lemma array_length_of_Z c :
  (0 <= c < 2 ^ 32)%Z -> array_length (of_Z c) = Some (Z.to_nat c).
Proof.
  intros Hc. unfold array_length, of_Z. rewrite Qfloor_Z.
  rewrite (proj2 (Qeq_bool_iff _ _) (Qeq_refl _)).
  destruct (Z.leb_spec 0 c); [|lia]. destruct (Z.ltb_spec c (2 ^ 32)); [|lia]. reflexivity.
Qed.

Lemma take_app_take {A} n (a b : list A) : take n (a ++ take n b) = take n (a ++ b).
Proof. rewrite !take_app, take_take. do 2 f_equal. lia. Qed.

Lemma unshift_capped_of_Z {A} c (x : A) l :
  (0 <= c < 2 ^ 32)%Z ->
  unshift_capped (of_Z c) x l = (take (Z.to_nat c) (x :: l), false).
Proof.
  intros Hc. unfold unshift_capped. rewrite exceeds_of_Z, array_length_of_Z by assumption.
  destruct (Z.ltb_spec c (Z.of_nat (length (x :: l)))) as [Hlt|Hge]; [reflexivity|].
  rewrite take_ge; [reflexivity | lia].
Qed.

Definition events_of (inputs : list (string * InboundInput)) : list ChannelInboundEvent :=
  map (fun i => inbound_event (fst i) (snd i)) inputs.

Lemma ingest_all_of_Z c inputs hub :
  (0 <= c < 2 ^ 32)%Z ->
  maxSize hub = of_Z c ->
  (length (inbound hub) <= Z.to_nat c)%nat ->
  snd (ingest_all inputs hub) = 0%nat
  /\ inbound (fst (ingest_all inputs hub))
     = take (Z.to_nat c) (rev (events_of inputs) ++ inbound hub)
  /\ outbound (fst (ingest_all inputs hub)) = outbound hub
  /\ maxSize (fst (ingest_all inputs hub)) = of_Z c.
Proof.
  intros Hc. revert hub. induction inputs as [|[nowIso input] rest IH]; intros hub Hmax Hlen.
  - cbn [ingest_all fst snd events_of map rev app]. now rewrite take_ge.
  - cbn [ingest_all]. unfold ingestInbound. rewrite Hmax, unshift_capped_of_Z by assumption.
    match goal with |- context [ingest_all rest ?h] => set (hub' := h) end.
    assert (Hlen' : (length (inbound hub') <= Z.to_nat c)%nat).
    { subst hub'. cbn [inbound]. rewrite length_take. lia. }
    specialize (IH hub' eq_refl Hlen'). destruct (ingest_all rest hub') as [final thrown].
    cbn [fst snd] in *. destruct IH as (-> & -> & -> & ->).
    repeat split; try reflexivity.
    subst hub'. cbn [inbound events_of map rev fst snd].
    fold (events_of rest). rewrite take_app_take, <- app_assoc. reflexivity.
Qed.

Lemma make_of_Z maxSizeArg c : maxSize (make maxSizeArg) = of_Z c -> (100 <= c)%Z.
Proof.
  unfold make, max_with, of_Z. cbn [maxSize].
  destruct (default _ maxSizeArg) as [| | |q]; try discriminate.
  - intros H. inversion H. lia.
  - destruct (Qle_bool 100 q) eqn:Hq; intros H.
    + injection H as ->. change 100%Q with (inject_Z 100) in Hq.
      rewrite Qle_bool_Z in Hq. lia.
    + inversion H. lia.
Qed.

(** X27. A hub whose [maxSize] is a whole number (below 2^32) keeps the
    newest events only: after any ingests into a new hub, none of which
    throws, [inbound] holds the last [maxSize] events, the newest first,
    and the outbound queue is untouched. [maxSize] is never under 100, whatever is asked
    for. [listInbound] returns the newest of them: as many as the limit
    floored, at least 1 and at most [maxSize]; 100 without limit, all of
    them under an infinite limit, none under NaN. *)
Theorem hub_keeps_newest (maxSizeArg limit : option number) (c : Z)
    (inputs : list (string * InboundInput)) :
  maxSize (make maxSizeArg) = of_Z c ->
  (c < 2 ^ 32)%Z ->
  let hub := fst (ingest_all inputs (make maxSizeArg)) in
  snd (ingest_all inputs (make maxSizeArg)) = 0%nat
  /\ (100 <= c)%Z
  /\ inbound hub = take (Z.to_nat c) (rev (events_of inputs))
  /\ outbound hub = []
  /\ listInbound limit hub
     = match default (of_Z 100) limit with
       | NaN => []
       | PosInf => inbound hub
       | NegInf => take 1 (inbound hub)
       | Fin q => take (Z.to_nat (Z.min (Z.max 1 (Qfloor q)) c)) (inbound hub)
       end.
Proof.
  intros Hmax Hc hub. pose proof (make_of_Z _ _ Hmax) as H100.
  destruct (ingest_all_of_Z c inputs (make maxSizeArg) ltac:(lia) Hmax)
    as (Hthrown & Hin & Hout & Hcap); [cbn; lia|].
  fold hub in Hin, Hout, Hcap.
  assert (Hkept : inbound hub = take (Z.to_nat c) (rev (events_of inputs))).
  { rewrite Hin. cbn [make inbound]. now rewrite app_nil_r. }
  repeat split; try assumption.
  unfold listInbound, newest. rewrite Hcap.
  assert (Hlen : (length (inbound hub) <= Z.to_nat c)%nat).
  { rewrite Hkept, length_take. lia. }
  destruct (default (of_Z 100) limit) as [| | |q]; cbn [floor max_with min of_Z slice_to].
  - reflexivity.
  - unfold trunc. rewrite Qfloor_Z.
    destruct (Qle_bool 0 (inject_Z c)) eqn:H0.
    + destruct (Z.ltb_spec c 0); [lia|]. rewrite take_ge; [reflexivity | lia].
    + change 0%Q with (inject_Z 0) in H0. rewrite Qle_bool_Z in H0. lia.
  - change 1%Q with (inject_Z 1). rewrite Qle_bool_Z.
    destruct (Z.leb_spec 1 c); [|lia]. unfold trunc. cbn. reflexivity.
  - change 1%Q with (inject_Z 1). rewrite Qle_bool_Z.
    set (m := Z.max 1 (Qfloor q)).
    assert (Hm : (if (1 <=? Qfloor q)%Z then inject_Z (Qfloor q) else inject_Z 1) = inject_Z m).
    { subst m. destruct (Z.leb_spec 1 (Qfloor q)); f_equal; lia. }
    rewrite Hm, Qle_bool_Z.
    assert (Hpick : (if (m <=? c)%Z then inject_Z m else inject_Z c) = inject_Z (Z.min m c)).
    { destruct (Z.leb_spec m c); f_equal; lia. }
    rewrite Hpick. unfold trunc. rewrite Qfloor_Z.
    change 0%Q with (inject_Z 0). rewrite Qle_bool_Z.
    destruct (Z.leb_spec 0 (Z.min m c)); [|lia].
    destruct (Z.ltb_spec (Z.min m c) 0); [lia | reflexivity].
Qed.

Definition message (body : string) : string * InboundInput :=
  ("2026-01-01T00:00:00.000Z",
   {| in_channel := "slack"; in_source := "general"; in_sender := "ann"; in_text := body;
      in_timestamp := None; in_metadata := JObj [] |}).

Definition three_messages : list (string * InboundInput) :=
  [message "a"; message "b"; message "c"].

Lemma hub_keeps_newest_three :
  inbound (fst (ingest_all three_messages (make (Some (of_Z 5)))))
  = take 100 (rev (events_of three_messages)).
Proof.
  exact (proj1 (proj2 (proj2
           (hub_keeps_newest (Some (of_Z 5)) None 100 three_messages eq_refl eq_refl)))).
Defined.

Example listInbound_runs :
  let hub := fst (ingest_all three_messages (make None)) in
  map text (listInbound (Some (Fin (5 # 2))) hub) = ["c"; "b"]
  /\ map text (listInbound (Some (of_Z 0)) hub) = ["c"]
  /\ map text (listInbound (Some NaN) hub) = []
  /\ map text (listInbound None hub) = ["c"; "b"; "a"].
Proof. vm_compute. repeat split. Qed.

(** How many of the array lengths [from + 1 .. from + n] exceed the cap. *)
Definition over (cap : number) (from n : nat) : nat :=
  length (List.filter (fun k => exceeds k cap) (seq (S from) n)).

Lemma ingest_all_uncapped inputs hub :
  array_length (maxSize hub) = None ->
  snd (ingest_all inputs hub) = over (maxSize hub) (length (inbound hub)) (length inputs)
  /\ inbound (fst (ingest_all inputs hub)) = rev (events_of inputs) ++ inbound hub
  /\ maxSize (fst (ingest_all inputs hub)) = maxSize hub.
Proof.
  revert hub. induction inputs as [|[nowIso input] rest IH]; intros hub Hcap.
  - now cbn.
  - cbn [ingest_all]. unfold ingestInbound, unshift_capped. rewrite Hcap.
    set (event := inbound_event nowIso input).
    assert (Hstep : (if exceeds (length (event :: inbound hub)) (maxSize hub)
                     then (event :: inbound hub, true) else (event :: inbound hub, false))
                    = (event :: inbound hub, exceeds (length (event :: inbound hub)) (maxSize hub)))
      by now destruct (exceeds _ _).
    rewrite Hstep. clear Hstep.
    match goal with |- context [ingest_all rest ?h] => set (hub' := h) end.
    specialize (IH hub' Hcap). destruct (ingest_all rest hub') as [final thrown].
    cbn [fst snd] in *. destruct IH as (-> & -> & ->).
    subst hub'. cbn [inbound maxSize events_of map rev fst snd length].
    fold (events_of rest). fold event. rewrite <- app_assoc. cbn [app].
    repeat split; try reflexivity.
    unfold over. cbn [seq List.filter length].
    now destruct (exceeds (S (length (inbound hub))) (maxSize hub)).
Qed.

Lemma over_none cap from n :
  (forall k, exceeds k cap = false) -> over cap from n = 0%nat.
Proof.
  intros Hcap. unfold over. generalize (S from).
  induction n as [|n IH]; intros start; cbn [seq List.filter]; [reflexivity|].
  rewrite Hcap. apply IH.
Qed.

Lemma exceeds_floor k q : exceeds k (Fin q) = (Qfloor q <? Z.of_nat k)%Z.
Proof.
  unfold exceeds. destruct (Z.ltb_spec (Qfloor q) (Z.of_nat k)) as [Hlt|Hge].
  - destruct (Qle_bool (inject_Z (Z.of_nat k)) q) eqn:Hq; [|reflexivity].
    apply Qle_bool_iff, Qfloor_resp_le in Hq. rewrite Qfloor_Z in Hq. lia.
  - assert (Hq : Qle_bool (inject_Z (Z.of_nat k)) q = true); [|now rewrite Hq].
    apply Qle_bool_iff. apply Qle_trans with (inject_Z (Qfloor q)); [|apply Qfloor_le].
    now rewrite <- Zle_Qle.
Qed.

Lemma over_floor q n :
  (0 <= Qfloor q)%Z -> over (Fin q) 0 n = (n - Z.to_nat (Qfloor q))%nat.
Proof.
  intros Hq. unfold over.
  assert (Hgen : forall start,
             length (List.filter (fun k => exceeds k (Fin q)) (seq start n))
             = (Nat.max (start + n) (S (Z.to_nat (Qfloor q)))
                - Nat.max start (S (Z.to_nat (Qfloor q))))%nat).
  { induction n as [|n IH]; intros start; cbn [seq List.filter length]; [lia|].
    rewrite exceeds_floor. destruct (Z.ltb_spec (Qfloor q) (Z.of_nat start)).
    - cbn [length]. rewrite IH. lia.
    - rewrite IH. lia. }
  rewrite Hgen. lia.
Qed.

(** X28. A hub whose [maxSize] cannot be an array length (NaN, Infinity,
    or a fraction such as 100.5) never drops an event: [inbound] holds
    every ingested event, the newest first. With a fraction, of [n] ingests
    into a new hub [n - floor(maxSize)] throw a range error, and their
    events are stored all the same; with NaN or Infinity no call throws,
    and with NaN every listing is empty. *)
Theorem hub_without_bound (maxSizeArg limit : option number)
    (inputs : list (string * InboundInput)) :
  array_length (maxSize (make maxSizeArg)) = None ->
  let hub := fst (ingest_all inputs (make maxSizeArg)) in
  inbound hub = rev (events_of inputs)
  /\ snd (ingest_all inputs (make maxSizeArg))
     = match maxSize (make maxSizeArg) with
       | Fin q => (length inputs - Z.to_nat (Qfloor q))%nat
       | _ => 0%nat
       end
  /\ (maxSize (make maxSizeArg) = NaN -> listInbound limit hub = []).
Proof.
  intros Hcap hub.
  destruct (ingest_all_uncapped inputs (make maxSizeArg) Hcap) as (Hthrown & Hin & Hmax).
  fold hub in Hin, Hmax. split; [|split].
  - rewrite Hin. cbn [make inbound]. now rewrite app_nil_r.
  - rewrite Hthrown. change (length (inbound (make maxSizeArg))) with 0%nat.
    destruct (maxSize (make maxSizeArg)) as [| | |q] eqn:Hmk.
    + now apply over_none.
    + now apply over_none.
    + exfalso. revert Hmk. unfold make, max_with. cbn [maxSize].
      now destruct (default _ maxSizeArg).
    + apply over_floor.
      assert (H100 : Qle_bool 100 q = true).
      { revert Hmk. unfold make, max_with. cbn [maxSize].
        destruct (default _ maxSizeArg) as [| | |p]; try discriminate.
        - now intros [= <-].
        - destruct (Qle_bool 100 p) eqn:Hp; now intros [= <-]. }
      apply Qle_bool_iff, Qfloor_resp_le in H100.
      change 100%Q with (inject_Z 100) in H100. rewrite Qfloor_Z in H100. lia.
  - intros Hnan. unfold listInbound, newest. rewrite Hmax, Hnan.
    now destruct (max_with 1 (floor (default (of_Z 100) limit))).
Qed.

Lemma hub_without_bound_fraction :
  snd (ingest_all (repeat (message "a") 102) (make (Some (Fin (201 # 2))))) = 2%nat.
Proof.
  exact (proj1 (proj2
           (hub_without_bound (Some (Fin (201 # 2))) None (repeat (message "a") 102) eq_refl))).
Defined.

End HubsFacts.

(** ** Sealed snapshots ([exportSealedSnapshot], [verifySealedChain]) *)

Module SealedChain.
Import Js Sha256 Keyring Attestation.

Record ApprovalAttestationSealEntry := {
  sealed_at : string;
  snapshot_path : string;
  s_payload_hash : string;
  previous_snapshot_hash : string;
  current_snapshot_hash : string;
  s_count : Z;
  s_final_hash : string;
  s_signature : option string;
  s_signature_kid : option string
}.

Record ApprovalAttestationChainVerification := {
  c_valid : bool;
  c_reason : option string;
  c_entries : nat;
  last_snapshot_hash : string
}.

Definition sealHash (sealedAt snapshotPath payloadHashValue previousSnapshotHash : string)
    (countValue : Z) (finalHash : string) (signatureValue signatureKid : option string)
    (generatedAt : string) : string :=
  sha256Hex (canonical (JObj [ ("sealed_at", JStr sealedAt);
                               ("snapshot_path", JStr snapshotPath);
                               ("payload_hash", JStr payloadHashValue);
                               ("previous_snapshot_hash", JStr previousSnapshotHash);
                               ("count", JNum countValue);
                               ("final_hash", JStr finalHash);
                               ("signature", nullable signatureValue);
                               ("signature_kid", nullable signatureKid);
                               ("generated_at", JStr generatedAt) ])).

(** A line of a chain file as [JSON.parse] reads it: a seal entry, or a
    text on which it throws. *)
Inductive line := Sealed (entry : ApprovalAttestationSealEntry) | Unparsable.

(** What [JSON.parse] returns on the whole text of a file: a payload, a
    seal entry (the text is a chain of one line), or nothing when it
    throws. *)
Inductive reading :=
| Payload (payload : ApprovalAttestationPayload)
| Entry (entry : ApprovalAttestationSealEntry)
| Throws.

(** A file, by what its two readers get from its text: [JSON.parse] on the
    whole text, and [JSON.parse] on each of its lines that are not blank. *)
Record file := { whole : reading; file_lines : list line }.

(** The one file system, by the files that paths name. *)
Definition Files := gmap string file.

(** What [JSON.parse] reads back from the text [JSON.stringify] wrote for
    an entry: the metadata is the part that is not plain texts and numbers. *)
Definition reread_entry (e : ApprovalAttestationEntry) : ApprovalAttestationEntry :=
  AttestationFacts.with_metadata (default JUndefined (reparse (e_metadata e))) e.

Definition reread (p : ApprovalAttestationPayload) : ApprovalAttestationPayload :=
  AttestationFacts.with_entries (map reread_entry (entries p)) p.

(** [(given || "").trim() || fallback] *)
Definition path_or (given : option string) (fallback : string) : string :=
  let trimmed := trim (default "" given) in
  if truthy trimmed then trimmed else fallback.

Record SealedExport := {
  x_snapshot_path : string;
  x_chain_path : string;
  x_count : Z;
  x_final_hash : string;
  x_signature : option string;
  x_signature_kid : option string;
  x_current_snapshot_hash : string;
  x_previous_snapshot_hash : string;
  x_payload_hash : string;
  x_generated_at : string
}.

(** How [exportSealedSnapshot] ends: with its result, or with what
    [generate] or [readLastSnapshotHash] threw. *)
Inductive exported := Exported (result : SealedExport) | SigningThrew | ChainUnreadable.

Definition failed (why : string) (i : nat) (previous : string)
    : ApprovalAttestationChainVerification :=
  {| c_valid := false; c_reason := Some why; c_entries := i; last_snapshot_hash := previous |}.

(** The line number [i + 1] as the messages print it. *)
Definition line_number (i : nat) : string := number_to_string (Z.of_nat i + 1).

(** The text [verifyPayload] checks the signature of when it is given a
    seal entry: of the fields of a payload the entry has [count] and
    [final_hash] only. *)
Definition entry_text (e : ApprovalAttestationSealEntry) : string :=
  canonical (JObj [ ("generated_at", JUndefined);
                    ("since", JUndefined);
                    ("count", JNum (s_count e));
                    ("entries", JUndefined);
                    ("final_hash", JStr (s_final_hash e)) ]).

(** [verifyPayload] on a seal entry: the reason it reports, a seal entry
    having no [entries]; [None] when [verifyWithKeyring] throws. *)
Definition verifyEntry (cfg : Signing) (e : ApprovalAttestationSealEntry) : option string :=
  let why := "Payload entries must be an array." in
  match signingKeyring cfg with
  | Some keyring =>
      if option_truthy (s_signature e) && option_truthy (s_signature_kid e)
      then
        match verifyWithKeyring (entry_text e)
                {| kid := default "" (s_signature_kid e); sig := default "" (s_signature e) |}
                keyring with
        | Some _ => Some why
        | None => None
        end
      else Some why
  | None => Some why
  end.

Section Paths.
(** The file a path names, as the file system resolves it: two spellings
    of one file have one image. *)
Variable file_of : string -> string.

Definition read (path : string) (fs : Files) : option file := fs !! file_of path.

(** [fs.writeFileSync(path, JSON.stringify(payload, null, 2) + "\n")]. The
    text opens with the line [{] and closes with the line [}], on both of
    which [JSON.parse] throws; who reads the lines looks at the first one
    or at the last one only. *)
Definition write_snapshot (path : string) (payload : ApprovalAttestationPayload)
    (fs : Files) : Files :=
  <[file_of path := {| whole := Payload (reread payload);
                       file_lines := [Unparsable; Unparsable] |}]> fs.

(** [fs.appendFileSync(path, JSON.stringify(entry) + "\n")]. The whole text
    is a JSON text only when the new line is all that is not blank in it. *)
Definition append_line (path : string) (entry : ApprovalAttestationSealEntry)
    (fs : Files) : Files :=
  let before := default [] (file_lines <$> read path fs) in
  <[file_of path := {| whole := match before with [] => Entry entry | _ => Throws end;
                       file_lines := before ++ [Sealed entry] |}]> fs.

(** [readLastSnapshotHash]; [None] when [JSON.parse] throws on the last
    line. *)
Definition readLastSnapshotHash (chainPath : string) (fs : Files) : option string :=
  match read chainPath fs with
  | None => Some GENESIS_HASH
  | Some f =>
      match last (file_lines f) with
      | None => Some GENESIS_HASH
      | Some Unparsable => None
      | Some (Sealed entry) =>
          let hash := trim (current_snapshot_hash entry) in
          Some (if is_hex64 hash then hash else GENESIS_HASH)
      end
  end.

(** [exportSealedSnapshot], on the rows the approval service lists, at the
    clock readings of [generate] and of the seal. The snapshot is written
    before the chain is read. *)
Definition exportSealedSnapshot (cfg : Signing) (defaultExportPath : string)
    (rows : list ApprovalRecord) (nowIso sealedAt : string)
    (snapshotPathArg chainPathArg : option string) (sinceArg : string) (fs : Files)
    : Files * exported :=
  let snapshotPath := path_or snapshotPathArg defaultExportPath in
  let chainPath := path_or chainPathArg (snapshotPath +:+ ".chain.jsonl") in
  match generate cfg rows nowIso sinceArg with
  | None => (fs, SigningThrew)
  | Some payload =>
      let written := write_snapshot snapshotPath payload fs in
      let payloadHashValue := payloadHash payload in
      match readLastSnapshotHash chainPath written with
      | None => (written, ChainUnreadable)
      | Some previousSnapshotHash =>
          let currentSnapshotHash :=
            sealHash sealedAt snapshotPath payloadHashValue previousSnapshotHash
              (count payload) (final_hash payload) (signature payload)
              (signature_kid payload) (generated_at payload) in
          let sealEntry :=
            {| sealed_at := sealedAt;
               snapshot_path := snapshotPath;
               s_payload_hash := payloadHashValue;
               previous_snapshot_hash := previousSnapshotHash;
               current_snapshot_hash := currentSnapshotHash;
               s_count := count payload;
               s_final_hash := final_hash payload;
               s_signature := signature payload;
               s_signature_kid := signature_kid payload |} in
          (append_line chainPath sealEntry written,
           Exported {| x_snapshot_path := snapshotPath;
                       x_chain_path := chainPath;
                       x_count := count payload;
                       x_final_hash := final_hash payload;
                       x_signature := signature payload;
                       x_signature_kid := signature_kid payload;
                       x_current_snapshot_hash := currentSnapshotHash;
                       x_previous_snapshot_hash := previousSnapshotHash;
                       x_payload_hash := payloadHashValue;
                       x_generated_at := generated_at payload |})
      end
  end.

(** The loop of [verifySealedChain] from line [i] on; [None] when
    [JSON.parse] throws on the snapshot or [verifyPayload] throws. *)
Fixpoint verify_lines (cfg : Signing) (verifySnapshots : bool) (fs : Files) (i : nat)
    (previous : string) (lines : list line) : option ApprovalAttestationChainVerification :=
  match lines with
  | [] => Some {| c_valid := true; c_reason := None; c_entries := i;
                  last_snapshot_hash := previous |}
  | Unparsable :: _ =>
      Some (failed ("Invalid JSON in chain line " +:+ line_number i +:+ ".") i previous)
  | Sealed parsed :: rest =>
      if negb (String.eqb (previous_snapshot_hash parsed) previous)
      then Some (failed ("Chain previous hash mismatch at line " +:+ line_number i +:+ ".")
                   i previous)
      else if verifySnapshots then
        match read (snapshot_path parsed) fs with
        | None =>
            Some (failed ("Snapshot file missing for chain line " +:+ line_number i +:+ ".")
                    i previous)
        | Some snapshotFile =>
            match whole snapshotFile with
            | Throws => None
            | Entry e =>
                match verifyEntry cfg e with
                | None => None
                | Some why =>
                    Some (failed ("Snapshot verification failed at line " +:+ line_number i
                                  +:+ ": " +:+ why) i previous)
                end
            | Payload snapshotPayload =>
                match verifyPayload cfg snapshotPayload with
                | None => None
                | Some verification =>
                    if negb (valid verification)
                    then Some (failed ("Snapshot verification failed at line "
                                       +:+ line_number i +:+ ": "
                                       +:+ default "null" (v_reason verification))
                                 i previous)
                    else if negb (String.eqb (payload_hash verification)
                                    (s_payload_hash parsed))
                    then Some (failed ("Payload hash mismatch at chain line "
                                       +:+ line_number i +:+ ".") i previous)
                    else if negb (String.eqb
                                    (sealHash (sealed_at parsed) (snapshot_path parsed)
                                       (s_payload_hash parsed) (previous_snapshot_hash parsed)
                                       (s_count parsed) (s_final_hash parsed)
                                       (s_signature parsed) (s_signature_kid parsed)
                                       (v_generated_at verification))
                                    (current_snapshot_hash parsed))
                    then Some (failed ("Seal hash mismatch at chain line " +:+ line_number i
                                       +:+ ".") i previous)
                    else verify_lines cfg verifySnapshots fs (S i)
                           (current_snapshot_hash parsed) rest
                end
            end
        end
      else verify_lines cfg verifySnapshots fs (S i) (current_snapshot_hash parsed) rest
  end.

(** [verifySealedChain]; [verifySnapshots] is true unless the option is
    [false]. *)
Definition verifySealedChain (cfg : Signing) (chainPath : string) (verifySnapshots : bool)
    (fs : Files) : option ApprovalAttestationChainVerification :=
  match read chainPath fs with
  | None => Some (failed "Chain file does not exist." 0 GENESIS_HASH)
  | Some f => verify_lines cfg verifySnapshots fs 0 GENESIS_HASH (file_lines f)
  end.

End Paths.

(** A resolution of paths for the examples: a leading [./] is dropped. *)
Definition plain_path (path : string) : string :=
  match path with
  | String "." (String "/" rest) => rest
  | _ => path
  end.

End SealedChain.

Module SealedChainFacts.
Import Js Sha256 Keyring Attestation KeyringFacts AttestationFacts SealedChain.

Lemma reparse_defined v : Canonical.has_undefined v = false -> reparse v = Some v.
Proof.
  induction v as [| | | | |items IH|fields IH] using CanonicalFacts.value_induction;
    try reflexivity; try discriminate.
  - cbn [Canonical.has_undefined reparse]. intros Hno. do 2 f_equal.
    induction items as [|item items IHitems]; [reflexivity|].
    cbn [existsb] in Hno. apply orb_false_iff in Hno as [Hitem Hrest].
    apply List.Forall_cons_iff in IH as [Hhead Htail].
    cbn [map]. rewrite (Hhead Hitem). cbn. f_equal. now apply IHitems.
  - cbn [Canonical.has_undefined reparse]. intros Hno. do 2 f_equal.
    induction fields as [|[k x] fields IHfields]; [reflexivity|].
    cbn [existsb snd] in Hno. apply orb_false_iff in Hno as [Hx Hrest].
    apply List.Forall_cons_iff in IH as [Hhead Htail]. cbn [snd] in Hhead.
    cbn [omap list_omap fst snd]. rewrite (Hhead Hx). f_equal. now apply IHfields.
Qed.

(** The rows carry metadata that is JSON: no [undefined] in it, as in
    everything [JSON.parse] returns. *)
Definition json_metadata (rows : list ApprovalRecord) : Prop :=
  Forall (fun row => Canonical.has_undefined (parseMetadata (metadata row)) = false) rows.

Lemma reread_chain previousHash rows :
  json_metadata rows ->
  map reread_entry (fst (chain previousHash rows)) = fst (chain previousHash rows).
Proof.
  revert previousHash. induction rows as [|row rows IH]; intros previousHash Hjson;
    [reflexivity|].
  apply List.Forall_cons_iff in Hjson as [Hrow Hrows].
  cbn [chain]. specialize (IH (entry_hash (entry_of previousHash row)) Hrows).
  destruct (chain (entry_hash (entry_of previousHash row)) rows) as [more last].
  cbn [fst map] in *. rewrite IH. f_equal.
  unfold reread_entry, entry_of. cbn [e_metadata]. now rewrite (reparse_defined _ Hrow).
Qed.

Lemma reread_generated cfg rows nowIso sinceArg payload :
  json_metadata rows ->
  generate cfg rows nowIso sinceArg = Some payload ->
  reread payload = payload.
Proof.
  intros Hjson Hgen. destruct (generate_entries _ _ _ _ _ Hgen) as [Hentries _].
  unfold reread. rewrite Hentries, (reread_chain _ _ Hjson), <- Hentries.
  now destruct payload.
Qed.

(** A generated payload verifies under the configuration that made it. *)
Lemma generate_valid cfg rows nowIso sinceArg payload :
  keyring_loaded cfg ->
  generate cfg rows nowIso sinceArg = Some payload ->
  exists report, verifyPayload cfg payload = Some report /\ valid report = true.
Proof.
  intros Hloaded. unfold generate.
  pose proof (check_chain GENESIS_HASH rows) as Hcheck.
  destruct (chain GENESIS_HASH rows) as [made last]. cbn [fst snd] in Hcheck.
  set (unsigned := {| generated_at := nowIso; since := _; count := _; entries := made;
                      final_hash := last; signature := None; signature_kid := None |}).
  assert (Hgoal : forall p, (exists report, verifyPayload cfg p = Some report
                                            /\ valid report = true
                                            /\ v_reason report = None
                                            /\ computed_final_hash report = final_hash p) ->
                            exists report, verifyPayload cfg p = Some report
                                           /\ valid report = true).
  { intros p (report & H1 & H2 & _). eauto. }
  destruct (signingKeyring cfg) as [keyring|] eqn:Hkr.
  - destruct (Hloaded keyring Hkr) as [parsed Hload].
    destruct (signWithKeyring (signed_text unsigned) keyring) as [[k s]|] eqn:Hsign;
      [|discriminate].
    destruct (signWithKeyring_verifies parsed keyring _ _ Hload Hsign)
      as (Hkid & Hhex & Hverify).
    cbn [kid sig] in *. intros [= <-]. apply Hgoal.
    apply (verifyPayload_consistent _ _ last); try reflexivity; try assumption.
    + intros keyring' Hk'. rewrite Hkr in Hk'. injection Hk' as <-.
      cbn [with_signature signature signature_kid option_truthy default from_option].
      rewrite signed_text_with_signature.
      split; [now apply hex64_truthy|]. split; [|exact Hverify].
      subst k. now destruct (loadHmacKeyring_loaded _ _ Hload) as (_ & -> & _).
    + rewrite Hkr. discriminate.
  - destruct (truthy (signingKey cfg)) eqn:Hkey; intros [= <-]; apply Hgoal.
    + apply (verifyPayload_consistent _ _ last); try reflexivity; try assumption.
      rewrite Hkr. discriminate.
    + apply (verifyPayload_consistent _ _ last); try reflexivity; try assumption.
      * rewrite Hkr. discriminate.
      * intros _ Hk. congruence.
Qed.

Lemma verifyPayload_fields cfg payload report :
  verifyPayload cfg payload = Some report ->
  payload_hash report = payloadHash payload /\ v_generated_at report = generated_at payload.
Proof.
  unfold verifyPayload.
  destruct (if negb (count payload =? Z.of_nat (length (entries payload)))%Z then _ else _)
    as [why previousHash].
  destruct (signingKeyring cfg) as [keyring|].
  - destruct (if option_truthy (signature payload) && _ then _ else _) as [ok|];
      [|discriminate]. now intros [= <-].
  - destruct (truthy (signingKey cfg)); now intros [= <-].
Qed.

Section Paths.
Variable file_of : string -> string.

(** The line names the file of [path] as its snapshot. *)
Definition names (path : string) (l : line) : Prop :=
  match l with
  | Sealed entry => file_of (snapshot_path entry) = file_of path
  | Unparsable => False
  end.

Lemma verify_lines_frame cfg verifySnapshots fs fs' i previous lines :
  (forall l, In l lines -> forall entry, l = Sealed entry ->
             read file_of (snapshot_path entry) fs' = read file_of (snapshot_path entry) fs) ->
  verify_lines file_of cfg verifySnapshots fs' i previous lines
  = verify_lines file_of cfg verifySnapshots fs i previous lines.
Proof.
  revert i previous. induction lines as [|[parsed|] lines IH]; intros i previous Hsame;
    [reflexivity| |reflexivity].
  cbn [verify_lines]. rewrite (Hsame (Sealed parsed) (or_introl eq_refl) parsed eq_refl).
  assert (Hrest : forall j p, verify_lines file_of cfg verifySnapshots fs' j p lines
                              = verify_lines file_of cfg verifySnapshots fs j p lines).
  { intros j p. apply IH. intros l Hl. apply Hsame. now right. }
  now rewrite Hrest.
Qed.

(** One step of [verify_lines] that does not fail. *)
Lemma verify_lines_step cfg verifySnapshots fs i previous parsed lines report :
  verify_lines file_of cfg verifySnapshots fs i previous (Sealed parsed :: lines) = Some report ->
  c_valid report = true ->
  previous_snapshot_hash parsed = previous
  /\ verify_lines file_of cfg verifySnapshots fs (S i) (current_snapshot_hash parsed) lines
     = Some report
  /\ (verifySnapshots = true -> is_hex64 (current_snapshot_hash parsed) = true).
Proof.
  cbn [verify_lines].
  destruct (String.eqb_spec (previous_snapshot_hash parsed) previous) as [Hprev|Hprev];
    cbn [negb]; [|intros [= <-] Hfalse; discriminate Hfalse].
  destruct verifySnapshots;
    [|intros Hrest _; split; [assumption|split; [assumption | discriminate]]].
  destruct (read file_of (snapshot_path parsed) fs) as [snapshotFile|];
    [|intros [= <-] Hfalse; discriminate Hfalse].
  destruct (whole snapshotFile) as [snapshotPayload|e|]; [| |discriminate].
  - destruct (verifyPayload cfg snapshotPayload) as [verification|]; [|discriminate].
    destruct (negb (valid verification)); [intros [= <-] Hfalse; discriminate Hfalse|].
    destruct (negb (String.eqb (payload_hash verification) _));
      [intros [= <-] Hfalse; discriminate Hfalse|].
    destruct (negb (String.eqb (sealHash _ _ _ _ _ _ _ _ _) _)) eqn:Hseal;
      [intros [= <-] Hfalse; discriminate Hfalse|].
    intros Hrest _. split; [assumption|split; [assumption|]]. intros _.
    apply negb_false_iff, String.eqb_eq in Hseal. rewrite <- Hseal.
    apply sha256Hex_hex64.
  - destruct (verifyEntry cfg e); [intros [= <-] Hfalse; discriminate Hfalse | discriminate].
Qed.

Lemma verify_lines_unparsable cfg verifySnapshots fs i previous lines report :
  verify_lines file_of cfg verifySnapshots fs i previous (Unparsable :: lines) = Some report ->
  c_valid report = true -> False.
Proof. cbn [verify_lines]. intros [= <-] Hfalse. discriminate Hfalse. Qed.

Lemma verify_lines_app cfg verifySnapshots fs i previous lines more report :
  verify_lines file_of cfg verifySnapshots fs i previous lines = Some report ->
  c_valid report = true ->
  verify_lines file_of cfg verifySnapshots fs i previous (lines ++ more)
  = verify_lines file_of cfg verifySnapshots fs (c_entries report) (last_snapshot_hash report)
      more.
Proof.
  revert i previous. induction lines as [|[parsed|] lines IH]; intros i previous Hrun Hvalid.
  - cbn in Hrun. injection Hrun as <-. reflexivity.
  - destruct (verify_lines_step _ _ _ _ _ _ _ _ Hrun Hvalid) as (Hprev & Hrest & _).
    rewrite <- (IH _ _ Hrest Hvalid). clear IH Hrest.
    change ((Sealed parsed :: lines) ++ more) with (Sealed parsed :: (lines ++ more)).
    cbn [verify_lines] in Hrun |- *. rewrite Hprev, String.eqb_refl in Hrun |- *.
    cbn [negb] in Hrun |- *. destruct verifySnapshots; [|reflexivity].
    destruct (read file_of (snapshot_path parsed) fs) as [snapshotFile|];
      [|injection Hrun as <-; discriminate Hvalid].
    destruct (whole snapshotFile) as [snapshotPayload|e|]; [| |discriminate Hrun].
    + destruct (verifyPayload cfg snapshotPayload) as [verification|]; [|discriminate Hrun].
      destruct (negb (valid verification)); [injection Hrun as <-; discriminate Hvalid|].
      destruct (negb (String.eqb (payload_hash verification) _));
        [injection Hrun as <-; discriminate Hvalid|].
      destruct (negb (String.eqb (sealHash _ _ _ _ _ _ _ _ _) _));
        [injection Hrun as <-; discriminate Hvalid|].
      reflexivity.
    + destruct (verifyEntry cfg e); [injection Hrun as <-; discriminate Hvalid|].
      discriminate Hrun.
  - now destruct (verify_lines_unparsable _ _ _ _ _ _ _ Hrun Hvalid).
Qed.

Lemma verify_lines_entries cfg verifySnapshots fs i previous lines report :
  verify_lines file_of cfg verifySnapshots fs i previous lines = Some report ->
  c_valid report = true ->
  c_entries report = (i + length lines)%nat.
Proof.
  revert i previous. induction lines as [|[parsed|] lines IH]; intros i previous Hrun Hvalid.
  - cbn in Hrun. injection Hrun as <-. cbn. lia.
  - destruct (verify_lines_step _ _ _ _ _ _ _ _ Hrun Hvalid) as (_ & Hrest & _).
    rewrite (IH _ _ Hrest Hvalid). cbn [length]. lia.
  - now destruct (verify_lines_unparsable _ _ _ _ _ _ _ Hrun Hvalid).
Qed.

(** The hash a chain that verifies with its snapshots ends on is the one
    [readLastSnapshotHash] reads from its last line. *)
Lemma verify_lines_last cfg fs i previous lines report :
  verify_lines file_of cfg true fs i previous lines = Some report ->
  c_valid report = true ->
  match last lines with
  | None => last_snapshot_hash report = previous
  | Some l => exists entry,
                l = Sealed entry
                /\ last_snapshot_hash report = current_snapshot_hash entry
                /\ is_hex64 (current_snapshot_hash entry) = true
  end.
Proof.
  revert i previous. induction lines as [|[parsed|] lines IH]; intros i previous Hrun Hvalid.
  - cbn in Hrun. injection Hrun as <-. reflexivity.
  - destruct (verify_lines_step _ _ _ _ _ _ _ _ Hrun Hvalid) as (_ & Hrest & Hhex).
    specialize (IH _ _ Hrest Hvalid).
    destruct lines as [|l lines].
    + cbn [last] in IH |- *. exists parsed. split; [reflexivity|]. split; [assumption|].
      now apply Hhex.
    + change (last (Sealed parsed :: l :: lines)) with (last (l :: lines)).
      destruct (last (l :: lines)) eqn:Hl; [exact IH|].
      apply last_None in Hl. discriminate Hl.
  - now destruct (verify_lines_unparsable _ _ _ _ _ _ _ Hrun Hvalid).
Qed.

Lemma readLast_valid cfg fs chainPath f report :
  read file_of chainPath fs = Some f ->
  verify_lines file_of cfg true fs 0 GENESIS_HASH (file_lines f) = Some report ->
  c_valid report = true ->
  readLastSnapshotHash file_of chainPath fs = Some (last_snapshot_hash report).
Proof.
  intros Hfile Hverify Hvalid. unfold readLastSnapshotHash. rewrite Hfile.
  pose proof (verify_lines_last _ _ _ _ _ _ Hverify Hvalid) as Hlast.
  destruct (last (file_lines f)) as [l|]; [|now rewrite Hlast].
  destruct Hlast as (entry & -> & -> & Hhex).
  destruct (PolicyCatalogFacts.hex64_trim _ Hhex) as [-> _]. now rewrite Hhex.
Qed.

(** The line an export appends. *)
Definition seal_of (sealedAt snapshotPath : string) (payload : ApprovalAttestationPayload)
    (previous : string) : ApprovalAttestationSealEntry :=
  {| sealed_at := sealedAt;
     snapshot_path := snapshotPath;
     s_payload_hash := payloadHash payload;
     previous_snapshot_hash := previous;
     current_snapshot_hash :=
       sealHash sealedAt snapshotPath (payloadHash payload) previous (count payload)
         (final_hash payload) (signature payload) (signature_kid payload)
         (generated_at payload);
     s_count := count payload;
     s_final_hash := final_hash payload;
     s_signature := signature payload;
     s_signature_kid := signature_kid payload |}.

Lemma seal_of_hex64 sealedAt snapshotPath payload previous :
  is_hex64 (current_snapshot_hash (seal_of sealedAt snapshotPath payload previous)) = true.
Proof. apply sha256Hex_hex64. Qed.

(** The last step of a verification: the line an export has just written,
    checked against the snapshot it has just written. *)
Lemma verify_sealed_line cfg fs i previous rows nowIso sinceArg payload sealedAt path f :
  keyring_loaded cfg ->
  generate cfg rows nowIso sinceArg = Some payload ->
  read file_of path fs = Some f ->
  whole f = Payload payload ->
  verify_lines file_of cfg true fs i previous [Sealed (seal_of sealedAt path payload previous)]
  = Some {| c_valid := true; c_reason := None; c_entries := S i;
            last_snapshot_hash :=
              current_snapshot_hash (seal_of sealedAt path payload previous) |}.
Proof.
  intros Hloaded Hgen Hfile Hwhole.
  destruct (generate_valid _ _ _ _ _ Hloaded Hgen) as (verification & Hverify & Hvalid).
  destruct (verifyPayload_fields _ _ _ Hverify) as [Hhash Hat].
  unfold seal_of.
  cbn [verify_lines previous_snapshot_hash snapshot_path s_payload_hash sealed_at s_count
       s_final_hash s_signature s_signature_kid current_snapshot_hash].
  rewrite String.eqb_refl. cbn [negb]. rewrite Hfile, Hwhole, Hverify, Hvalid. cbn [negb].
  rewrite Hhash, String.eqb_refl. cbn [negb]. rewrite Hat.
  now rewrite String.eqb_refl.
Qed.

(** The files an export that returns leaves. *)
Lemma export_files cfg defaultExportPath rows nowIso sealedAt snapshotPathArg chainPathArg
    sinceArg fs payload previous :
  let snapshotPath := path_or snapshotPathArg defaultExportPath in
  let chainPath := path_or chainPathArg (snapshotPath +:+ ".chain.jsonl") in
  generate cfg rows nowIso sinceArg = Some payload ->
  readLastSnapshotHash file_of chainPath (write_snapshot file_of snapshotPath payload fs)
  = Some previous ->
  exportSealedSnapshot file_of cfg defaultExportPath rows nowIso sealedAt snapshotPathArg
    chainPathArg sinceArg fs
  = (append_line file_of chainPath (seal_of sealedAt snapshotPath payload previous)
       (write_snapshot file_of snapshotPath payload fs),
     Exported {| x_snapshot_path := snapshotPath;
                 x_chain_path := chainPath;
                 x_count := count payload;
                 x_final_hash := final_hash payload;
                 x_signature := signature payload;
                 x_signature_kid := signature_kid payload;
                 x_current_snapshot_hash :=
                   current_snapshot_hash (seal_of sealedAt snapshotPath payload previous);
                 x_previous_snapshot_hash := previous;
                 x_payload_hash := payloadHash payload;
                 x_generated_at := generated_at payload |}).
Proof.
  intros snapshotPath chainPath Hgen Hread. unfold exportSealedSnapshot.
  fold snapshotPath. fold chainPath. rewrite Hgen. cbv zeta. now rewrite Hread.
Qed.

Lemma read_written_other path other payload fs :
  file_of path <> file_of other ->
  read file_of path (write_snapshot file_of other payload fs) = read file_of path fs.
Proof. intros Hne. unfold read, write_snapshot. apply lookup_insert_ne. congruence. Qed.

Lemma read_written path payload fs :
  read file_of path (write_snapshot file_of path payload fs)
  = Some {| whole := Payload (reread payload); file_lines := [Unparsable; Unparsable] |}.
Proof. unfold read, write_snapshot. apply lookup_insert_eq. Qed.

Lemma read_appended_other path other entry fs :
  file_of path <> file_of other ->
  read file_of path (append_line file_of other entry fs) = read file_of path fs.
Proof.
  intros Hne. unfold append_line. cbv zeta. unfold read at 1 3.
  apply lookup_insert_ne. congruence.
Qed.

Lemma read_appended path entry fs :
  exists f,
    read file_of path (append_line file_of path entry fs) = Some f
    /\ file_lines f = default [] (file_lines <$> read file_of path fs) ++ [Sealed entry].
Proof.
  unfold append_line. cbv zeta. unfold read at 1.
  eexists. split; [apply lookup_insert_eq | reflexivity].
Qed.

(** X29. A sealed export extends a chain that verifies. Take a service
    that can sign, rows whose metadata is JSON, a chain path that names
    another file than the snapshot path, and a chain file that is missing,
    or that verifies with its snapshots and has no line naming, under any
    spelling, the file exported to or the chain file. Then
    [exportSealedSnapshot] returns, its [previous_snapshot_hash] is the hash
    the chain ended on (the genesis hash for a new chain), and
    [verifySealedChain] on the chain it leaves finds it valid, one entry
    longer, ending on the [current_snapshot_hash] of the export. *)
Theorem sealed_export_extends_chain (cfg : Signing) (defaultExportPath : string)
    (rows : list ApprovalRecord) (nowIso sealedAt : string)
    (snapshotPathArg chainPathArg : option string) (sinceArg : string) (fs : Files) :
  let snapshotPath := path_or snapshotPathArg defaultExportPath in
  let chainPath := path_or chainPathArg (snapshotPath +:+ ".chain.jsonl") in
  keyring_loaded cfg ->
  active_key_own cfg ->
  json_metadata rows ->
  file_of chainPath <> file_of snapshotPath ->
  (forall f,
     read file_of chainPath fs = Some f ->
     Forall (fun l => ~ names snapshotPath l /\ ~ names chainPath l) (file_lines f)
     /\ exists report,
          verifySealedChain file_of cfg chainPath true fs = Some report
          /\ c_valid report = true) ->
  exists fs' result,
    exportSealedSnapshot file_of cfg defaultExportPath rows nowIso sealedAt snapshotPathArg
      chainPathArg sinceArg fs = (fs', Exported result)
    /\ x_snapshot_path result = snapshotPath
    /\ x_chain_path result = chainPath
    /\ Some (x_previous_snapshot_hash result)
       = match read file_of chainPath fs with
         | Some _ => last_snapshot_hash <$> verifySealedChain file_of cfg chainPath true fs
         | None => Some GENESIS_HASH
         end
    /\ verifySealedChain file_of cfg chainPath true fs'
       = Some {| c_valid := true; c_reason := None;
                 c_entries := S (length (default [] (file_lines <$> read file_of chainPath fs)));
                 last_snapshot_hash := x_current_snapshot_hash result |}.
Proof.
  intros snapshotPath chainPath Hloaded Hown Hjson Hapart Hchain.
  destruct (proj2 (generate_returns cfg rows nowIso sinceArg) Hown) as [payload Hgen].
  set (written := write_snapshot file_of snapshotPath payload fs).
  set (before := default [] (file_lines <$> read file_of chainPath fs)).
  assert (Hkept : read file_of chainPath written = read file_of chainPath fs)
    by now apply read_written_other.
  assert (Hread : exists previous,
             readLastSnapshotHash file_of chainPath written = Some previous
             /\ Some previous
                = match read file_of chainPath fs with
                  | Some _ =>
                      last_snapshot_hash <$> verifySealedChain file_of cfg chainPath true fs
                  | None => Some GENESIS_HASH
                  end
             /\ Forall (fun l => ~ names snapshotPath l /\ ~ names chainPath l) before
             /\ forall more,
                  verify_lines file_of cfg true written 0 GENESIS_HASH (before ++ more)
                  = verify_lines file_of cfg true written (length before) previous more).
  { subst before. destruct (read file_of chainPath fs) as [f|] eqn:Hfile.
    - destruct (Hchain f eq_refl) as (Hnames & report & Hverify & Hvalid).
      unfold verifySealedChain in Hverify |- *. rewrite Hfile in Hverify |- *.
      assert (Hframe : verify_lines file_of cfg true written 0 GENESIS_HASH (file_lines f)
                       = Some report).
      { rewrite <- Hverify. apply verify_lines_frame. intros l Hl entry ->.
        rewrite List.Forall_forall in Hnames. destruct (Hnames _ Hl) as [Hother _].
        cbn [names] in Hother. now apply read_written_other. }
      exists (last_snapshot_hash report). rewrite Hverify.
      split; [|split; [reflexivity|split; [exact Hnames|]]].
      + now apply (readLast_valid cfg written chainPath f report).
      + intros more. change (default [] (file_lines <$> Some f)) with (file_lines f).
        rewrite (verify_lines_app _ _ _ _ _ _ more _ Hframe Hvalid).
        now rewrite (verify_lines_entries _ _ _ _ _ _ _ Hframe Hvalid).
    - exists GENESIS_HASH. split; [|split; [reflexivity|split; [constructor|]]].
      + unfold readLastSnapshotHash. now rewrite Hkept.
      + intros more. reflexivity. }
  destruct Hread as (previous & Hlast & Hprevious & Hnames & Hprefix).
  rewrite (export_files cfg defaultExportPath rows nowIso sealedAt snapshotPathArg chainPathArg
             sinceArg fs payload previous Hgen Hlast).
  fold snapshotPath. fold chainPath. fold written.
  set (seal := seal_of sealedAt snapshotPath payload previous).
  eexists. eexists. split; [reflexivity|].
  cbn [x_snapshot_path x_chain_path x_previous_snapshot_hash x_current_snapshot_hash].
  repeat split; try assumption.
  unfold verifySealedChain.
  destruct (read_appended chainPath seal written) as (f' & Hf' & Hlines).
  rewrite Hf', Hlines, Hkept. fold before.
  assert (Hsame : verify_lines file_of cfg true (append_line file_of chainPath seal written)
                    0 GENESIS_HASH (before ++ [Sealed seal])
                  = verify_lines file_of cfg true written 0 GENESIS_HASH
                      (before ++ [Sealed seal])).
  { apply verify_lines_frame. intros l Hl entry ->. apply read_appended_other.
    apply in_app_iff in Hl. destruct Hl as [Hl | [Hl | []]].
    - rewrite List.Forall_forall in Hnames. destruct (Hnames _ Hl) as [_ Hother].
      exact Hother.
    - injection Hl as <-. cbn [seal seal_of snapshot_path]. congruence. }
  rewrite Hsame, Hprefix.
  apply (verify_sealed_line cfg written _ previous rows nowIso sinceArg payload sealedAt
           snapshotPath _ Hloaded Hgen (read_written snapshotPath payload fs)).
  cbn [whole]. now rewrite (reread_generated _ _ _ _ _ Hjson Hgen).
Qed.

(** X30. Sealing twice to the same snapshot path breaks the chain. After
    two sealed exports to the same snapshot and chain paths, the chain
    being new and another file than the snapshot, [verifySealedChain]
    reports a payload hash mismatch at line 1 unless the two payloads have
    the same hash: line 1 names a file that now holds the second snapshot.
    Without the check of the snapshots the same chain is valid, with 2
    entries. *)
Theorem resealed_snapshot_breaks_chain (cfg : Signing) (defaultExportPath : string)
    (rows1 rows2 : list ApprovalRecord) (now1 sealed1 now2 sealed2 : string)
    (snapshotPathArg chainPathArg : option string) (since1 since2 : string) (fs : Files) :
  let snapshotPath := path_or snapshotPathArg defaultExportPath in
  let chainPath := path_or chainPathArg (snapshotPath +:+ ".chain.jsonl") in
  let fs1 := fst (exportSealedSnapshot file_of cfg defaultExportPath rows1 now1 sealed1
                    snapshotPathArg chainPathArg since1 fs) in
  let fs2 := fst (exportSealedSnapshot file_of cfg defaultExportPath rows2 now2 sealed2
                    snapshotPathArg chainPathArg since2 fs1) in
  keyring_loaded cfg ->
  active_key_own cfg ->
  json_metadata rows2 ->
  file_of chainPath <> file_of snapshotPath ->
  read file_of chainPath fs = None ->
  payloadHash <$> generate cfg rows1 now1 since1 <> payloadHash <$> generate cfg rows2 now2 since2 ->
  verifySealedChain file_of cfg chainPath true fs2
  = Some (failed "Payload hash mismatch at chain line 1." 0 GENESIS_HASH)
  /\ exists report,
       verifySealedChain file_of cfg chainPath false fs2 = Some report
       /\ c_valid report = true /\ c_entries report = 2%nat.
Proof.
  intros snapshotPath chainPath fs1 fs2 Hloaded Hown Hjson Hapart Hnew Hdiffer.
  destruct (proj2 (generate_returns cfg rows1 now1 since1) Hown) as [payload1 Hgen1].
  destruct (proj2 (generate_returns cfg rows2 now2 since2) Hown) as [payload2 Hgen2].
  rewrite Hgen1, Hgen2 in Hdiffer.
  change (Some (payloadHash payload1) <> Some (payloadHash payload2)) in Hdiffer.
  assert (Hhash : String.eqb (payloadHash payload2) (payloadHash payload1) = false).
  { apply String.eqb_neq. congruence. }
  set (seal1 := seal_of sealed1 snapshotPath payload1 GENESIS_HASH).
  set (written1 := write_snapshot file_of snapshotPath payload1 fs).
  assert (Hfs1 : fs1 = append_line file_of chainPath seal1 written1).
  { subst fs1.
    rewrite (export_files cfg defaultExportPath rows1 now1 sealed1 snapshotPathArg chainPathArg
               since1 fs payload1 GENESIS_HASH Hgen1); [reflexivity|].
    fold snapshotPath. fold chainPath. unfold readLastSnapshotHash.
    now rewrite (read_written_other chainPath snapshotPath payload1 fs Hapart), Hnew. }
  destruct (read_appended chainPath seal1 written1) as (f1 & Hf1 & Hlines1).
  rewrite <- Hfs1 in Hf1. subst written1.
  rewrite (read_written_other chainPath snapshotPath payload1 fs Hapart), Hnew in Hlines1.
  change (file_lines f1 = [Sealed seal1]) in Hlines1.
  set (written2 := write_snapshot file_of snapshotPath payload2 fs1).
  assert (Hkept : read file_of chainPath written2 = read file_of chainPath fs1)
    by now apply read_written_other.
  assert (Hread : readLastSnapshotHash file_of chainPath written2
                  = Some (current_snapshot_hash seal1)).
  { unfold readLastSnapshotHash. rewrite Hkept, Hf1, Hlines1. cbn [last].
    pose proof (seal_of_hex64 sealed1 snapshotPath payload1 GENESIS_HASH) as Hhex.
    fold seal1 in Hhex. destruct (PolicyCatalogFacts.hex64_trim _ Hhex) as [-> _].
    now rewrite Hhex. }
  set (seal2 := seal_of sealed2 snapshotPath payload2 (current_snapshot_hash seal1)).
  assert (Hfs2 : fs2 = append_line file_of chainPath seal2 written2).
  { subst fs2. fold fs1.
    now rewrite (export_files cfg defaultExportPath rows2 now2 sealed2 snapshotPathArg
                   chainPathArg since2 fs1 payload2 _ Hgen2 Hread). }
  destruct (read_appended chainPath seal2 written2) as (f2 & Hf2 & Hlines2).
  rewrite <- Hfs2 in Hf2. rewrite Hkept, Hf1 in Hlines2.
  change (file_lines f2 = file_lines f1 ++ [Sealed seal2]) in Hlines2.
  rewrite Hlines1 in Hlines2. change (file_lines f2 = [Sealed seal1; Sealed seal2]) in Hlines2.
  assert (Hsnapshot : read file_of snapshotPath fs2
                      = Some {| whole := Payload payload2;
                                file_lines := [Unparsable; Unparsable] |}).
  { rewrite Hfs2, read_appended_other by congruence. subst written2.
    now rewrite read_written, (reread_generated _ _ _ _ _ Hjson Hgen2). }
  destruct (generate_valid _ _ _ _ _ Hloaded Hgen2) as (verification & Hverify & Hvalid).
  destruct (verifyPayload_fields _ _ _ Hverify) as [Hfield _].
  unfold verifySealedChain. rewrite Hf2, Hlines2. split.
  - cbn [verify_lines]. change (previous_snapshot_hash seal1) with GENESIS_HASH.
    rewrite String.eqb_refl. cbn [negb].
    change (snapshot_path seal1) with snapshotPath.
    rewrite Hsnapshot. cbn [whole]. rewrite Hverify, Hvalid. cbn [negb].
    change (s_payload_hash seal1) with (payloadHash payload1).
    now rewrite Hfield, Hhash.
  - cbn [verify_lines]. change (previous_snapshot_hash seal1) with GENESIS_HASH.
    change (previous_snapshot_hash seal2) with (current_snapshot_hash seal1).
    rewrite !String.eqb_refl. cbn [negb]. eexists. split; [reflexivity|]. now split.
Qed.

End Paths.

Definition no_files : Files := ∅.

Lemma sample_rows_json : json_metadata [first_row; second_row].
Proof. repeat constructor. Qed.

(** The files a first sealed export leaves, to [/data/approvals.json] and
    the chain [/data/chain.jsonl]. *)
Definition first_export : Files :=
  fst (exportSealedSnapshot plain_path signed_service "/data/approvals.json" [first_row]
         "2026-01-02T00:00:00.000Z" "2026-01-02T00:00:01.000Z" None
         (Some "/data/chain.jsonl") "" no_files).

Lemma first_export_chain :
  forall f,
    read plain_path "/data/chain.jsonl" first_export = Some f ->
    Forall (fun l => ~ names plain_path "/data/second.json" l
                     /\ ~ names plain_path "/data/chain.jsonl" l) (file_lines f)
    /\ exists report,
         verifySealedChain plain_path signed_service "/data/chain.jsonl" true first_export
         = Some report
         /\ c_valid report = true.
Proof.
  intros f Hf. split.
  - vm_compute in Hf. injection Hf as <-. cbn [file_lines].
    apply List.Forall_cons; [|apply List.Forall_nil].
    split; intros H; vm_compute in H; discriminate H.
  - vm_compute. eexists. split; reflexivity.
Qed.

Lemma first_export_length :
  S (length (default [] (file_lines <$> read plain_path "/data/chain.jsonl" first_export)))
  = 2%nat.
Proof. vm_compute. reflexivity. Qed.

Lemma sealed_export_extends_chain_second :
  exists fs',
    (fun report => (c_valid report, c_entries report))
      <$> verifySealedChain plain_path signed_service "/data/chain.jsonl" true fs'
    = Some (true, 2%nat).
Proof.
  destruct (sealed_export_extends_chain plain_path signed_service "/data/approvals.json"
              [first_row; second_row] "2026-01-03T00:00:00.000Z" "2026-01-03T00:00:01.000Z"
              (Some "/data/second.json") (Some "/data/chain.jsonl") "" first_export
              signed_service_loaded signed_service_own sample_rows_json
              ltac:(vm_compute; discriminate) first_export_chain)
    as (fs' & result & _ & _ & _ & _ & Hverify).
  assert (Hpath : path_or (Some "/data/chain.jsonl")
                    (path_or (Some "/data/second.json") "/data/approvals.json"
                     +:+ ".chain.jsonl")
                  = "/data/chain.jsonl") by (vm_compute; reflexivity).
  rewrite Hpath, first_export_length in Hverify.
  exists fs'. now rewrite Hverify.
Defined.

Lemma resealed_snapshot_breaks_chain_default :
  payloadHash <$> generate signed_service [first_row] "2026-01-02T00:00:00.000Z" ""
  <> payloadHash <$> generate signed_service [first_row; second_row]
                       "2026-01-03T00:00:00.000Z" ""
  /\ verifySealedChain plain_path signed_service
       (path_or None (path_or None "/data/approvals.json" +:+ ".chain.jsonl")) true
       (fst (exportSealedSnapshot plain_path signed_service "/data/approvals.json"
               [first_row; second_row] "2026-01-03T00:00:00.000Z" "2026-01-03T00:00:01.000Z"
               None None ""
               (fst (exportSealedSnapshot plain_path signed_service "/data/approvals.json"
                       [first_row] "2026-01-02T00:00:00.000Z" "2026-01-02T00:00:01.000Z"
                       None None "" no_files))))
     = Some (failed "Payload hash mismatch at chain line 1." 0 GENESIS_HASH).
Proof.
  assert (Hdiffer :
            payloadHash <$> generate signed_service [first_row] "2026-01-02T00:00:00.000Z" ""
            <> payloadHash <$> generate signed_service [first_row; second_row]
                                 "2026-01-03T00:00:00.000Z" "").
  { vm_compute. discriminate. }
  split; [exact Hdiffer|].
  exact (proj1 (resealed_snapshot_breaks_chain plain_path signed_service "/data/approvals.json"
                  [first_row] [first_row; second_row]
                  "2026-01-02T00:00:00.000Z" "2026-01-02T00:00:01.000Z"
                  "2026-01-03T00:00:00.000Z" "2026-01-03T00:00:01.000Z" None None "" ""
                  no_files signed_service_loaded signed_service_own sample_rows_json
                  ltac:(vm_compute; discriminate) (lookup_empty _) Hdiffer)).
Defined.

(** Sealed exports and the verification of their chain, by running the
    functions: to two snapshot paths; twice to the default path; to two
    spellings of one path; and with the chain path that of the snapshot,
    where the export throws on the snapshot it has just written. *)
Example sealed_chain_runs :
  let export path rows at_ fs :=
    fst (exportSealedSnapshot plain_path signed_service "/data/approvals.json" rows at_ at_
           path (Some "/data/chain.jsonl") "" fs) in
  let verdict fs :=
    (fun report => (c_valid report, c_reason report, c_entries report))
      <$> verifySealedChain plain_path signed_service "/data/chain.jsonl" true fs in
  verdict (export (Some "/data/second.json") [first_row; second_row] "2026-01-03T00:00:00.000Z"
             (export None [first_row] "2026-01-02T00:00:00.000Z" no_files))
  = Some (true, None, 2%nat)
  /\ verdict (export None [first_row; second_row] "2026-01-03T00:00:00.000Z"
                (export None [first_row] "2026-01-02T00:00:00.000Z" no_files))
     = Some (false, Some "Payload hash mismatch at chain line 1.", 0%nat)
  /\ verdict (export (Some "./out/a.json") [first_row; second_row] "2026-01-03T00:00:00.000Z"
                (export (Some "out/a.json") [first_row] "2026-01-02T00:00:00.000Z" no_files))
     = Some (false, Some "Payload hash mismatch at chain line 1.", 0%nat)
  /\ verdict no_files = Some (false, Some "Chain file does not exist.", 0%nat)
  /\ snd (exportSealedSnapshot plain_path signed_service "/data/approvals.json" [first_row]
            "2026-01-02T00:00:00.000Z" "2026-01-02T00:00:01.000Z" None
            (Some "/data/approvals.json") "" no_files)
     = ChainUnreadable
  /\ verifySealedChain plain_path signed_service "/data/only.jsonl" true
       (append_line plain_path "/data/only.jsonl"
          (seal_of "2026-01-02T00:00:01.000Z" "/data/only.jsonl"
             {| generated_at := "2026-01-02T00:00:00.000Z"; since := None; count := 0;
                entries := []; final_hash := GENESIS_HASH; signature := None;
                signature_kid := None |} GENESIS_HASH) no_files)
     = Some (failed "Snapshot verification failed at line 1: Payload entries must be an array."
               0 GENESIS_HASH).
Proof. vm_compute. repeat split. Qed.

End SealedChainFacts.
